(* ===== verification/_CoqProject ===== *)
-Q . S2P
Prelude.v
TermLike.v
ProgressRecord.v
OutputTarget.v
BarCell.v
Handle.v
Screen.v
Throttle.v
Adapters.v
Region.v
RegionInv.v
TickDriver.v
Schedule.v
Contract.v
Liveness.v
Simulation.v
