(* ===== verification/Prelude.v ===== *)
(** * A verification development for the indicatif progress-bar engine

    ** The program

    The repository renders live progress indicators to a terminal from
    concurrently running work.  Its parts, leaves first:

    - the terminal capability ([src/src/term_like.rs], trait [TermLike] and
      its implementation for the console crate's [Term]);
    - the progress record ([ProgressState]: position, length, tick counter,
      status, prefix, message, start time, steady-tick interval, estimator);
    - the output target ([ProgressDrawTarget]: a direct terminal with its
      refresh throttle and last-frame bookkeeping, a hidden sink, or a slot
      of a shared region);
    - the shared region ([MultiState]: the slots of several bars that share
      one terminal, repainted as a unit);
    - the bar cell ([BarState]: one progress record plus one output target,
      with the update-then-maybe-redraw transaction and the finish family);
    - the progress handle ([src/src/progress_bar.rs], [ProgressBar]: an
      [Arc<Mutex<BarState>>]; every public method locks the cell, runs one
      transaction and unlocks) and its weak counterpart [WeakProgressBar];
    - the tick driver ([ProgressBar::enable_steady_tick] and the loop
      [ProgressBar::steady_tick]), a background thread that holds a weak
      reference to the cell;
    - the stream and iterator adapters ([ProgressBar::wrap_read],
      [wrap_write], [wrap_iter] build a [ProgressBarIter], a proxy that
      advances the bar by what passes through it);
    - the handle of a shared region ([MultiProgress]: bars are added to a
      region at a location and removed from it).

    Only [progress_bar.rs] and [term_like.rs] are in the repository's
    [src/]; the record, the output target, the shared region with its
    handle, the operations of the bar cell and what the adapters do when
    they are read, written or iterated are modelled from the
    specification ([spec.md]); the opening comment of each file says what
    in it is.

    ** The files

    - [Prelude] (this file): 64-bit saturating arithmetic on [Z], the
      [result] type, the state-and-error monad [SE] with its notation in
      [bar_scope], Rust's [str::lines] on [string], the development's
      tactics and the hint database [bar].
    - [TermLike]: the class [TermLike] (the trait), the operations a
      terminal receives as the inductive [TermOp], a model of the console
      [Term] and its instance (the [impl TermLike for Term]), and the
      screen semantics of a sequence of operations.  The interface
      [Recorder] with its laws [RecorderOk] says what the theorems about
      the screen need of a terminal: the calls it has received can be
      read off, and while it is healthy every call is received.  The
      theorems of [Screen], [Throttle] and [Region] are proved against
      this interface; the console terminal whose stream never fails is
      shown to implement it.
    - [ProgressRecord]: [Status], [ProgressState], the style collaborator
      as the class [StyleOps], the estimator.
    - [OutputTarget]: [ProgressDrawState], the refresh throttle
      [RateLimiter], the direct target [TermTarget] with [draw_to_term],
      the shared region [MultiState], the variant [ProgressDrawTarget]
      and the [Drawable] a redraw attempt yields.
    - [BarCell]: [BarState] with [draw], [update_and_draw] and the finish
      family.
    - [Handle]: the store of reference-counted, mutex-guarded cells
      ([World]), the handle [ProgressBar] with one definition per method
      of [progress_bar.rs], composed as the code composes them (the
      closure a method hands to [update_and_draw] is a definition of its
      own, [inc_closure] and the like), [WeakProgressBar], and the unit
      tests and documentation examples that need no adapter.
    - [Screen]: the calls a terminal receives from [finish],
      [finish_and_clear], [println] and [suspend] of a bar that paints
      on it directly, and what happens on a broken console terminal.
    - [Throttle]: the paints of a bar counted by the flushes its terminal
      receives, over two calls in a row.
    - [Adapters]: the environment of code that reads the clock itself
      ([Env], a world with a clock), [std::io::Read], [Write] and
      [Iterator] as classes with the instances of byte slices, vectors
      and lists, the loops [io::copy] and [write_all], the proxy
      [ProgressBarIter], and the two tests and three documentation
      examples that copy through a proxy.
    - [Region]: the well-formedness of a slot table ([region_wf],
      decidable), the handle [MultiProgress], and what a bar of a region
      paints.
    - [RegionInv]: the invariant [regions_ok] that ties the bars of a
      world to its regions, and what a critical section may do to the
      regions ([kept], [tidy]).
    - [TickDriver]: [enable_steady_tick] and the loop [steady_tick], one
      iteration at a time: what an iteration does to the bar, to the
      thread and to the number of owners.
    - [Schedule]: the transition system of worker transactions ([Txn],
      [txn]), handle clones, drops and upgrades, the creation of regions
      and the addition of bars to them, and tick-thread steps ([step]);
      the invariant [inv] over configurations with ghost ownership, the
      invariant [regions_ok], and what follows from them for every
      reachable configuration.
    - [Contract]: the abstract bar [Bar] of the specification's data
      model, the effect [apply] of every transaction on it, the
      abstraction [abs], and the refinement of the contract by the
      code.
    - [Liveness]: executions as infinite sequences of steps, the fair
      scheduling of a tick thread, and the end of its loop.
    - [Simulation]: the abstract machine over a store of abstract bars
      (events [ENew], [ECall], [ETick], [EDrop]; [effect], [run]), the
      abstraction [absw] of a world, the steps of [Schedule] with their
      labels ([Label], [exec]) and the events of each ([events],
      [trace]), and the simulation of the program by the machine.

    ** Correspondence

    A [u64] is a [Z] in [0, u64_MAX]; [saturating_add] is written out
    with [Z.min].  A [usize] that counts lines is a [nat].  An [Instant]
    is a [Z] of milliseconds and a [Duration] a non-negative [Z]; every
    call of [Instant::now()] is a parameter [now] of the operation that
    makes it.  A [Cow<'static, str>] is a [string].  An
    [Arc<Mutex<BarState>>] is a location of the store [bars] of [World],
    whose cell records the strong count, the lock and poison flags and the
    guarded value (the weak count is left out: no operation observes it);
    a method of the handle is a computation in the monad
    [SE World panic], so a panic ([lock().unwrap()] on a poisoned mutex)
    is a value and the store it leaves behind is kept.  A terminal
    operation is a computation in [SE T io_error]; where the code discards
    an [io::Result] ([.ok()], [let _ =]) the model uses [ignore_err].
    The mutex makes each critical section atomic, so a concurrent
    execution is a sequence of critical sections of workers and of steps
    of tick threads; the two methods that take the lock more than once
    ([enable_steady_tick], [reset]) are sequences of transactions in the
    step relation of [Schedule], and an iteration of the tick loop is two
    steps, the upgrade of the weak reference and the rest.

    ** Where the model is coarser than the code

    - Arguments: a [u64] argument ([delta] of [inc], say) is any [Z] in
      the definitions; the theorems that need the range have it as a
      hypothesis ([is_u64], [in_range]).
    - Time: the model has no earliest instant, so the subtraction
      [Instant::now() - elapsed] of [with_elapsed]
      (progress_bar.rs:83), which panics in Rust when the result cannot
      be represented on the platform, always succeeds here.
    - Locks: [Mutex::lock] blocks on a held lock; [Arc.lock] returns
      the outcome [Deadlock] at once, which stands for a call that does
      not return.  In the step relation no lock is held between steps,
      so the outcome arises only within one thread ([suspend] with a
      thunk that locks the same bar).
    - Guards: [ProgressBar::state] (progress_bar.rs:560) returns a
      [MutexGuard] that keeps the lock until the caller drops it; the
      model's [state] returns the guarded value and releases, which is
      what its callers in the sources do with it (a read, then the end
      of the statement).
    - The tick thread: the end of an iteration (the drop of the guard,
      then of the upgraded reference, progress_bar.rs:143) is one step
      with the critical section before it; no other thread can observe
      the state between the two drops except through the strong count,
      and the last drop is what the invariant of [Schedule] is about.
      The unbounded loop is run one iteration at a time; [steady_tick]
      over a list of wake-up times is a finite prefix of it, and the
      duration of a sleep does not constrain the times.
    - Code that is not in the sources (state.rs, draw_target.rs,
      multi.rs, iter.rs, style.rs, the standard library, the console
      crate) follows the specification, and where the specification is
      silent the choice is the model's: the fraction is an exact
      rational, and 0 for the unknown length [u64::MAX]; [finish] keeps
      the position of a bar of unknown length (the specification's "if
      known"); the calls that erase and paint a frame ([draw_ops],
      [clear_last_lines_ops]) are one sequence that does what the
      specification says (the lines of the previous frame are gone
      over, the new lines written, the terminal flushed), and the
      theorems of [Screen] state the calls one by one so that the
      sequence chosen can be read from them.  [saturating_add],
      [u64_MAX], the record [BarState], [Arc.new], [Arc.upgrade],
      [Arc.lock] and the record [ProgressBarIter] model items of the
      standard library or of absent files; the lines given for them are
      where progress_bar.rs uses them.

    ** What the theorems show

    - [Handle]: the functional behaviour of [inc] (saturating, never
      clamped to the length), of [finish] and [abandon], of [reset],
      [set_draw_target] and [suspend], each with its frame condition
      (other bars and the tick threads are untouched); that increments
      reach the same position in any order; that an unforced redraw
      within the refresh interval paints nothing; that a poisoned bar
      refuses every critical section and is left as it was; that a thunk
      of [suspend] that locks its own bar never gets the lock; when a
      weak handle upgrades; that the fraction read from a bar of any
      length and position is in [0, 1], with its four cases; and that
      the unit tests of [progress_bar.rs] that need no stream adapter
      pass in every world.
    - [Screen]: the exact calls a healthy terminal receives, one by
      one, from [finish] (the cursor up over the previous frame, its
      lines cleared unless the target paints in place, the finished
      record's lines, a flush), from [finish_and_clear] (the previous
      frame erased, nothing written, a flush), from [println] (the
      previous frame erased, the lines of the message, the lines of the
      bar, a flush; only the lines of the bar are recorded, so the
      message stays) and from [suspend] (the frame erased before the
      thunk and the record's lines written again after it); that a
      broken terminal never fails the caller.
    - [Throttle]: redraws are throttled but not queued: two [inc] calls
      less than the refresh interval apart both update the position and
      paint at most one frame; two forced redraws paint two.
    - [Adapters]: a read through the proxy hands on what the reader gives,
      error included, and advances the bar by the bytes read; a reader
      of [N] bytes copied through the proxy arrives unchanged and leaves
      the position at the old one plus [N], saturated (round trip); the
      tests [it_can_wrap_a_reader] and [it_can_wrap_a_writer] pass.
    - [Region]: [finish] on a bar of a region repaints the whole region
      (the previous total of lines gone over, the pending log lines, the
      lines of every occupied slot in display order, a flush); [println]
      on such a bar prints its message above all the bars;
      [set_draw_target] unlinks the bar: the region is repainted without
      it and the slot is freed; removing a bar and adding another never
      changes the slot of a third.
    - [RegionInv], [Schedule]: in every reachable configuration the slot
      table of every region is well formed, every bar of a region holds
      an occupied slot of it, and no two bars hold the same slot.
    - [Liveness]: a tick thread that is scheduled fairly leaves its loop
      once the workers hold no handle to its bar, and the bar is dropped;
      the thread of a bar that is finished or whose ticking is disabled
      leaves its loop within one iteration, and holds no reference
      afterwards.
    - [TickDriver]: what [enable_steady_tick] does on a bar with and
      without a tick thread; what one iteration of the loop does; that
      the loop ends once the bar is gone.
    - [Schedule]: in every reachable configuration, whatever the
      interleaving, the strong count of a bar is the number of references
      in existence (the workers' handles and one per awake tick thread),
      a bar without a reference has been dropped, the mutex of a live bar
      is released between steps and its counters are [u64] values; a
      live bar has at most one tick thread; a sleeping tick thread does
      not keep its bar alive; a transaction through a handle never finds
      its bar gone and never deadlocks.
    - [Contract]: every transaction on an idle bar changes the record as
      the contract says (refinement); hence a finished bar stays finished
      under everything but [reset], and the position moves only under
      the methods meant to move it.
    - [Simulation]: the same for whole executions: the records of the
      live bars of a reachable configuration are what the abstract
      machine computes from the empty store on the trace of the steps
      that led to it; a step of a worker is at most one call or one drop,
      a step of a tick thread at most a tick and a drop; the machine
      keeps the counters in range, hence so does the program.
    - [BarCell], [OutputTarget], [ProgressRecord], [TermLike], [Prelude]:
      the lemmas these rest on: painting never changes the progress
      record and its failure never reaches the caller; the throttle; the
      range of [fraction]; saturating arithmetic; [str_lines] of joined
      lines; the console terminal receives exactly the calls made.

    ** Bounds and fuel

    The tick loop is modelled one iteration at a time (a step function);
    runs of several iterations are folds over the list of wake-up times,
    and an execution of [Liveness] is a function from [nat] to
    configurations, so the loop needs no fuel.  The loops of the standard
    library that the adapters are driven by ([io::copy], [write_all], a
    [for] over an iterator) take fuel and yield [None] when it runs out;
    the theorems give the fuel that is enough: for a copy of [n] bytes
    any [fuel] with [n + DEFAULT_BUF_SIZE <= fuel * DEFAULT_BUF_SIZE]
    (one read for every buffer of the input and one that finds the end),
    for an iteration more fuel than there are items.  In [Adapters]
    the clock is a function from the number of readings made so far to
    the time, so that every [Instant::now()] of a loop gets its own
    reading; the theorems hold for every clock.  Integers are unbounded
    [Z] with the [u64] range as an invariant that every operation is
    shown to preserve.

    ** Not modelled

    The template engine behind [ProgressStyle::format_state] (a parameter
    of the class [StyleOps]); the control sequences the console crate
    writes (a terminal is modelled by the calls it receives); what the
    iterator proxy does when the iteration ends, the [ProgressIterator]
    extension trait and the tokio variants of the adapters (none is in
    the sources or the specification); joining a region, the alignment
    of a region and its own target setters; [MultiProgress::remove] as a
    step of an interleaving (it leaves the removed bar its target, which
    the invariant of the regions forbids; [Region] has the operation and
    [RegionInv] the counterexample); blocking on a held lock (between
    two steps no lock is held); thunks of [suspend] that call back into
    the library as steps of an interleaving ([Handle] shows that such a
    thunk on the same bar never gets the lock); the duration of [thread::sleep] and wall-clock time
    (fairness is a hypothesis of the theorem of [Liveness]). *)

From Stdlib Require Import ZArith String Ascii List Lia.
From stdpp Require Import base option list gmap strings numbers.

#[global] Open Scope Z_scope.

Declare Scope bar_scope.
Delimit Scope bar_scope with bar.
#[global] Open Scope bar_scope.

(** ** Time, locations *)

Abbreviation Instant := Z (only parsing).
Abbreviation Duration := Z (only parsing).
Abbreviation loc := nat (only parsing).
Abbreviation tid := nat (only parsing).

(** ** 64-bit unsigned integers *)

(** [u64::MAX], written [!0] in the code. *)
Definition u64_MAX : Z := 18446744073709551615.

Definition is_u64 (x : Z) : Prop := 0 ≤ x ≤ u64_MAX.

#[global] Instance is_u64_dec (x : Z) : Decision (is_u64 x).
Proof. unfold is_u64. apply _. Defined.

(** [u64::saturating_add]. *)
Definition saturating_add (a b : Z) : Z := Z.min (a + b) u64_MAX.

(** [usize::saturating_sub] on line counts. *)
Definition saturating_sub (a b : nat) : nat := (a - b)%nat.

(** ** Results and the state-and-error monad *)

Inductive result (E A : Type) : Type :=
| Ok (a : A)
| Err (e : E).
Arguments Ok {E A} a.
Arguments Err {E A} e.

Definition is_ok {E A} (r : result E A) : bool :=
  match r with Ok _ => true | Err _ => false end.

(** A computation over a state [St] that may fail with an [E]; the state
    reached when it fails is kept. *)
Definition SE (St E A : Type) : Type := St → result E A * St.

Definition ret {St E A} (a : A) : SE St E A := λ s, (Ok a, s).

Definition bind {St E A B} (m : SE St E A) (k : A → SE St E B) : SE St E B :=
  λ s, match m s with
       | (Ok a, s') => k a s'
       | (Err e, s') => (Err e, s')
       end.

Definition throw {St E A} (e : E) : SE St E A := λ s, (Err e, s).

Definition get {St E} : SE St E St := λ s, (Ok s, s).

Definition put {St E} (s : St) : SE St E unit := λ _, (Ok tt, s).

Definition modify {St E} (f : St → St) : SE St E unit := λ s, (Ok tt, f s).

(** The code's [.ok()] and [let _ = ...]: the outcome is dropped, the effect
    on the state stays. *)
Definition ignore_err {St E E' A} (m : SE St E A) : SE St E' unit :=
  λ s, (Ok tt, (m s).2).

(** [for x in xs { f(x)? }]. *)
Fixpoint for_each {St E A} (f : A → SE St E unit) (xs : list A) : SE St E unit :=
  match xs with
  | [] => ret tt
  | x :: xs' => bind (f x) (λ _, for_each f xs')
  end.

Notation "'let*' x := m 'in' k" := (bind m (λ x, k))
  (at level 10, x name, m at level 100, k at level 200) : bar_scope.
Notation "m ;;; k" := (bind m (λ _, k))
  (at level 100, k at level 200, right associativity) : bar_scope.

(** ** [str::lines] *)

Definition LF : ascii := "010"%char.
Definition CR : ascii := "013"%char.

(** [str::split(c)]: the pieces between occurrences of [c]; never empty. *)
Fixpoint split_on (c : ascii) (s : string) : list string :=
  match s with
  | EmptyString => [EmptyString]
  | String a s' =>
      if Ascii.eqb a c then EmptyString :: split_on c s'
      else match split_on c s' with
           | [] => [String a EmptyString]
           | p :: ps => String a p :: ps
           end
  end.

(** Drops the last piece when it is empty ([str::split_terminator]). *)
Fixpoint drop_last_empty (ps : list string) : list string :=
  match ps with
  | [] => []
  | [EmptyString] => []
  | p :: ps' => p :: drop_last_empty ps'
  end.

Definition split_terminator (c : ascii) (s : string) : list string :=
  drop_last_empty (split_on c s).

(** A line loses one trailing carriage return. *)
Fixpoint strip_cr (s : string) : string :=
  match s with
  | EmptyString => EmptyString
  | String a EmptyString => if Ascii.eqb a CR then EmptyString else s
  | String a s' => String a (strip_cr s')
  end.

(** [str::lines]: split at line feeds, the final line ending optional, each
    line without its trailing carriage return. *)
Definition str_lines (s : string) : list string :=
  strip_cr <$> split_terminator LF s.

(** The inverse direction: every line followed by a line feed. *)
Fixpoint unlines (ls : list string) : string :=
  match ls with
  | [] => EmptyString
  | l :: ls' => (l ++ String LF (unlines ls'))%string
  end.

Fixpoint str_mem (c : ascii) (s : string) : bool :=
  match s with
  | EmptyString => false
  | String a s' => Ascii.eqb a c || str_mem c s'
  end.

(** A line as [str_lines] yields them: no line feed, no carriage return. *)
Definition plain_line (s : string) : bool :=
  negb (str_mem LF s) && negb (str_mem CR s).

(** ** Tactics *)

Ltac invert H := inversion H; subst; clear H.

(** Arithmetic on [u64] values: unfold the range and the saturating
    operations, then [lia]. *)
Ltac u64_lia :=
  unfold is_u64, saturating_add, saturating_sub, u64_MAX in *; lia.

(** Case analysis on the outcome of the computation a [bind] runs first. *)
Ltac destruct_bind :=
  match goal with
  | |- context [bind ?m ?k ?s] =>
      let r := fresh "r" in let s' := fresh "s" in let E := fresh "E" in
      unfold bind at 1; destruct (m s) as [r s'] eqn:E; destruct r
  end.

Create HintDb bar discriminated.
Create Rewrite HintDb bar.

(** ** Lemmas: saturating arithmetic *)

Lemma u64_MAX_eq : u64_MAX = 2 ^ 64 - 1.
Proof. reflexivity. Qed.

Lemma saturating_add_range a b :
  0 ≤ a → 0 ≤ b → is_u64 (saturating_add a b).
Proof. u64_lia. Qed.

Lemma saturating_add_comm a b : saturating_add a b = saturating_add b a.
Proof. u64_lia. Qed.

Lemma saturating_add_assoc a b c :
  0 ≤ a → 0 ≤ b → 0 ≤ c →
  saturating_add (saturating_add a b) c = saturating_add a (saturating_add b c).
Proof. u64_lia. Qed.

Lemma saturating_add_exact a b :
  a + b ≤ u64_MAX → saturating_add a b = a + b.
Proof. u64_lia. Qed.

Lemma saturating_add_saturates a b :
  u64_MAX ≤ a + b → saturating_add a b = u64_MAX.
Proof. u64_lia. Qed.

Lemma saturating_add_0_r a : is_u64 a → saturating_add a 0 = a.
Proof. u64_lia. Qed.

Lemma saturating_add_ge a b : is_u64 a → 0 ≤ b → a ≤ saturating_add a b.
Proof. u64_lia. Qed.

Lemma saturating_add_swap a b c :
  0 ≤ a → 0 ≤ b → 0 ≤ c →
  saturating_add (saturating_add a b) c = saturating_add (saturating_add a c) b.
Proof. u64_lia. Qed.

(** The sum of a list of deltas, saturating at every step, is the
    saturated sum. *)
Definition sum_Z (ds : list Z) : Z := foldr Z.add 0 ds.

Lemma sum_Z_nonneg ds : Forall (λ d, 0 ≤ d) ds → 0 ≤ sum_Z ds.
Proof. induction 1; simpl; lia. Qed.

Lemma sum_Z_app ds ds' : sum_Z (ds ++ ds') = sum_Z ds + sum_Z ds'.
Proof. induction ds; simpl; lia. Qed.

Lemma sum_Z_perm ds ds' : ds ≡ₚ ds' → sum_Z ds = sum_Z ds'.
Proof. induction 1; simpl; lia. Qed.

Lemma foldl_saturating_add p ds :
  is_u64 p → Forall (λ d, 0 ≤ d) ds →
  foldl saturating_add p ds = Z.min (p + sum_Z ds) u64_MAX.
Proof.
  intros Hp Hds. revert p Hp.
  induction Hds as [|d ds Hd Hds IH]; intros p Hp; cbn [foldl sum_Z foldr].
  - u64_lia.
  - rewrite IH by (apply saturating_add_range; u64_lia).
    pose proof (sum_Z_nonneg ds Hds). fold (sum_Z ds). u64_lia.
Qed.

(** ** Lemmas: the monad *)

Section monad.
Context {St E : Type}.

Lemma bind_ret_l {A B} (a : A) (k : A → SE St E B) s : bind (ret a) k s = k a s.
Proof. reflexivity. Qed.

Lemma bind_ret_r {A} (m : SE St E A) s : bind m ret s = m s.
Proof. unfold bind, ret. by destruct (m s) as [[]]. Qed.

Lemma bind_assoc {A B C} (m : SE St E A) (k : A → SE St E B) (h : B → SE St E C) s :
  bind (bind m k) h s = bind m (λ a, bind (k a) h) s.
Proof. unfold bind. by destruct (m s) as [[]]. Qed.

Lemma bind_ok {A B} (m : SE St E A) (k : A → SE St E B) s a s' :
  m s = (Ok a, s') → bind m k s = k a s'.
Proof. unfold bind. by intros ->. Qed.

Lemma bind_err {A B} (m : SE St E A) (k : A → SE St E B) s e s' :
  m s = (Err e, s') → bind m k s = (Err e, s').
Proof. unfold bind. by intros ->. Qed.

Lemma ignore_err_ok {E' A} (m : SE St E A) s :
  (ignore_err (E' := E') m s).1 = Ok tt.
Proof. reflexivity. Qed.

Lemma ignore_err_state {E' A} (m : SE St E A) s :
  (ignore_err (E' := E') m s).2 = (m s).2.
Proof. reflexivity. Qed.

Lemma for_each_app {A} (f : A → SE St E unit) xs ys s :
  for_each f (xs ++ ys) s = bind (for_each f xs) (λ _, for_each f ys) s.
Proof.
  revert s. induction xs as [|x xs IH]; intros s; [done|].
  simpl. rewrite bind_assoc.
  destruct (f x s) as [[[]|e] s'] eqn:Hf.
  - rewrite !(bind_ok _ _ _ _ _ Hf). apply IH.
  - by rewrite !(bind_err _ _ _ _ _ Hf).
Qed.

End monad.

#[export] Hint Rewrite @bind_ret_l @bind_ret_r : bar.
#[export] Hint Resolve saturating_add_range saturating_add_ge : bar.

(** ** Lemmas: lines *)

Lemma split_on_nonempty c s : split_on c s ≠ [].
Proof.
  destruct s as [|a s]; simpl; [done|].
  destruct (Ascii.eqb a c); [done|]. by destruct (split_on c s).
Qed.

Lemma str_mem_app c s1 s2 :
  str_mem c (s1 ++ s2)%string = str_mem c s1 || str_mem c s2.
Proof. induction s1 as [|a s1 IH]; simpl; [done|]. rewrite IH. by destruct (Ascii.eqb a c). Qed.

(** A string without the separator is one piece. *)
Lemma split_on_plain c s : str_mem c s = false → split_on c s = [s].
Proof.
  induction s as [|a s IH]; simpl; [done|].
  destruct (Ascii.eqb a c); simpl; [done|]. by intros ->%IH.
Qed.

Lemma split_on_app c l s :
  str_mem c l = false →
  split_on c (l ++ String c s)%string = l :: split_on c s.
Proof.
  induction l as [|a l IH]; simpl.
  - by rewrite Ascii.eqb_refl.
  - destruct (Ascii.eqb a c); simpl; [done|]. by intros ->%IH.
Qed.

Lemma split_on_no_sep c s p : p ∈ split_on c s → str_mem c p = false.
Proof.
  revert p. induction s as [|a s IH]; simpl; intros p.
  - by intros ->%list_elem_of_singleton.
  - destruct (Ascii.eqb a c) eqn:Hac.
    + intros [->|?]%elem_of_cons; [done|by apply IH].
    + pose proof (split_on_nonempty c s).
      destruct (split_on c s) as [|q qs]; [done|].
      intros [->|?]%elem_of_cons; simpl.
      * rewrite Hac. apply IH. by left.
      * apply IH. by right.
Qed.

Lemma drop_last_empty_cons p ps :
  ps ≠ [] → drop_last_empty (p :: ps) = p :: drop_last_empty ps.
Proof. destruct ps; [done|]. by destruct p. Qed.

Lemma drop_last_empty_subseteq ps : drop_last_empty ps ⊆ ps.
Proof.
  induction ps as [|p ps IH]; [done|].
  destruct ps as [|q ps].
  - destruct p; [apply list_subseteq_nil|done].
  - rewrite drop_last_empty_cons by done.
    intros x [->|Hx%IH]%elem_of_cons; [left|by right].
Qed.

Lemma drop_last_empty_snoc ps : drop_last_empty (ps ++ [EmptyString]) = ps.
Proof.
  induction ps as [|p ps IH]; [done|].
  rewrite <- app_comm_cons, drop_last_empty_cons, IH; [done|].
  by destruct ps.
Qed.

Lemma strip_cr_plain s : str_mem CR s = false → strip_cr s = s.
Proof.
  induction s as [|a s IH]; [done|]. simpl.
  destruct (Ascii.eqb a CR); [done|]. simpl. intros Hs.
  destruct s; [done|]. by rewrite IH.
Qed.

Lemma str_mem_strip_cr c s : str_mem c (strip_cr s) = true → str_mem c s = true.
Proof.
  induction s as [|a s IH]; [done|]. simpl.
  destruct s as [|b s].
  - destruct (Ascii.eqb a CR); simpl; [done|]. by destruct (Ascii.eqb a c).
  - simpl in *. destruct (Ascii.eqb a c); [done|]. simpl. apply IH.
Qed.

Lemma split_on_unlines ls :
  Forall (λ l, str_mem LF l = false) ls →
  split_on LF (unlines ls) = ls ++ [EmptyString].
Proof.
  induction 1 as [|l ls Hl _ IH]; [done|].
  simpl. by rewrite split_on_app, IH.
Qed.

Lemma plain_line_spec s :
  plain_line s = true ↔ str_mem LF s = false ∧ str_mem CR s = false.
Proof.
  unfold plain_line. rewrite andb_true_iff, !negb_true_iff. tauto.
Qed.

(** No line of [str_lines] contains a line feed. *)
Lemma str_lines_no_LF s l : l ∈ str_lines s → str_mem LF l = false.
Proof.
  unfold str_lines, split_terminator.
  intros (p & -> & Hp%drop_last_empty_subseteq%split_on_no_sep)%list_elem_of_fmap.
  destruct (str_mem LF (strip_cr p)) eqn:Hm; [|done].
  apply str_mem_strip_cr in Hm. congruence.
Qed.

(** Lines that are terminated by line feeds are read back as they were. *)
Lemma str_lines_unlines ls :
  Forall (λ l, plain_line l = true) ls → str_lines (unlines ls) = ls.
Proof.
  intros Hls. unfold str_lines, split_terminator.
  rewrite split_on_unlines, drop_last_empty_snoc.
  - induction Hls as [|l ls [_ Hl]%plain_line_spec _ IH]; [done|].
    cbn [fmap list_fmap]. rewrite strip_cr_plain by done. f_equal. apply IH.
  - eapply List.Forall_impl; [|exact Hls]. by intros l [? _]%plain_line_spec.
Qed.
