(* ===== verification/TermLike.v ===== *)
(** * The terminal capability

    [src/src/term_like.rs]: the trait [TermLike] as a type class over the
    type [T] of terminal states, the operations a terminal receives as the
    inductive [TermOp], a model of the console crate's [Term] (module
    [console]: the operations it has received, its size, and how many more
    operations its stream accepts before it breaks), and the trait's
    implementation for it (module [TermImpl] and the instance
    [Term_TermLike]).  A method that returns [io::Result<()>] is a
    computation in [SE T io_error].

    The theorems about what reaches the screen are stated for any
    terminal that records the calls it receives: the class [Recorder]
    gives the observation and [RecorderOk] its laws; the console terminal
    with a stream that never fails is the instance. *)

From Stdlib Require Import ZArith String List Lia.
From stdpp Require Import base option list.
From S2P Require Import Prelude.

(** An [io::Error], by its raw OS code. *)
Inductive io_error : Type := IoError (code : nat).

#[global] Instance io_error_eq_dec : EqDecision io_error.
Proof. solve_decision. Defined.

(** The trait: what a draw target needs of a terminal. *)
Class TermLike (T : Type) : Type := {
  width : T → nat;
  move_cursor_up : nat → SE T io_error unit;
  move_cursor_down : nat → SE T io_error unit;
  move_cursor_right : nat → SE T io_error unit;
  move_cursor_left : nat → SE T io_error unit;
  write_line : string → SE T io_error unit;
  write_str : string → SE T io_error unit;
  clear_line : SE T io_error unit;
  flush : SE T io_error unit
}.

(** One call of the capability. *)
Inductive TermOp : Type :=
| MoveCursorUp (n : nat)
| MoveCursorDown (n : nat)
| MoveCursorRight (n : nat)
| MoveCursorLeft (n : nat)
| WriteLine (s : string)
| WriteStr (s : string)
| ClearLine
| Flush.

#[global] Instance TermOp_eq_dec : EqDecision TermOp.
Proof. solve_decision. Defined.

(** Runs one call on any terminal. *)
Definition run_op `{TermLike T} (op : TermOp) : SE T io_error unit :=
  match op with
  | MoveCursorUp n => move_cursor_up n
  | MoveCursorDown n => move_cursor_down n
  | MoveCursorRight n => move_cursor_right n
  | MoveCursorLeft n => move_cursor_left n
  | WriteLine s => write_line s
  | WriteStr s => write_str s
  | ClearLine => clear_line
  | Flush => flush
  end.

(** ** The console crate's terminal *)

Module console.

(** [size]: rows and columns; [out]: the calls received, oldest first;
    [budget]: [None] for a stream that never fails, [Some n] for one that
    accepts [n] more calls and then fails every call. *)
Record Term : Type := mkTerm {
  size : nat * nat;
  out : list TermOp;
  budget : option nat
}.

(** The OS code of a broken pipe. *)
Definition EPIPE : nat := 32.

Definition emit (op : TermOp) : SE Term io_error unit := λ t,
  match budget t with
  | None => (Ok tt, mkTerm (size t) (out t ++ [op]) None)
  | Some (S n) => (Ok tt, mkTerm (size t) (out t ++ [op]) (Some n))
  | Some O => (Err (IoError EPIPE), t)
  end.

Definition move_cursor_up (n : nat) : SE Term io_error unit := emit (MoveCursorUp n).
Definition move_cursor_down (n : nat) : SE Term io_error unit := emit (MoveCursorDown n).
Definition move_cursor_right (n : nat) : SE Term io_error unit := emit (MoveCursorRight n).
Definition move_cursor_left (n : nat) : SE Term io_error unit := emit (MoveCursorLeft n).
Definition write_line (s : string) : SE Term io_error unit := emit (WriteLine s).
Definition write_str (s : string) : SE Term io_error unit := emit (WriteStr s).
Definition clear_line : SE Term io_error unit := emit ClearLine.
Definition flush : SE Term io_error unit := emit Flush.

(** A terminal of the given size that has received nothing. *)
Definition fresh (rows cols : nat) (budget : option nat) : Term :=
  mkTerm (rows, cols) [] budget.

(** The calls the stream still accepts cover [n] more. *)
Definition accepts (n : nat) (t : Term) : Prop :=
  match budget t with None => True | Some b => (n ≤ b)%nat end.

#[global] Instance accepts_dec n t : Decision (accepts n t).
Proof. unfold accepts. destruct (budget t); apply _. Defined.

End console.

(** ** [impl TermLike for Term] *)

Module TermImpl.

Definition width (self : console.Term) : nat := (console.size self).2.

Definition move_cursor_up (n : nat) : SE console.Term io_error unit :=
  console.move_cursor_up n.

Definition move_cursor_down (n : nat) : SE console.Term io_error unit :=
  console.move_cursor_down n.

Definition move_cursor_right (n : nat) : SE console.Term io_error unit :=
  console.move_cursor_right n.

Definition move_cursor_left (n : nat) : SE console.Term io_error unit :=
  console.move_cursor_left n.

Definition write_line (s : string) : SE console.Term io_error unit :=
  console.write_line s.

Definition write_str (s : string) : SE console.Term io_error unit :=
  console.write_str s.

Definition clear_line : SE console.Term io_error unit :=
  console.clear_line.

Definition flush : SE console.Term io_error unit :=
  console.flush.

End TermImpl.

#[export] Instance Term_TermLike : TermLike console.Term := {|
  width := TermImpl.width;
  move_cursor_up := TermImpl.move_cursor_up;
  move_cursor_down := TermImpl.move_cursor_down;
  move_cursor_right := TermImpl.move_cursor_right;
  move_cursor_left := TermImpl.move_cursor_left;
  write_line := TermImpl.write_line;
  write_str := TermImpl.write_str;
  clear_line := TermImpl.clear_line;
  flush := TermImpl.flush
|}.

(** Runs a list of calls, stopping at the first that fails (the code's
    [?] after each call). *)
Definition run_ops `{TermLike T} (ops : list TermOp) : SE T io_error unit :=
  for_each run_op ops.

(** ** Terminals that record the calls they receive *)

(** What a theorem about the screen needs of a terminal: [received], the
    calls that have reached it, oldest first; [healthy], that its stream
    takes every call; [receive op], the terminal after the call [op]. *)
Class Recorder (T : Type) `{TermLike T} : Type := {
  received : T → list TermOp;
  healthy : T → Prop;
  receive : TermOp → T → T
}.

(** The laws: on a healthy terminal a call succeeds and is received; a
    call received is appended to the calls, leaves the width as it was
    and the terminal healthy. *)
Class RecorderOk (T : Type) `{Recorder T} : Prop := {
  run_op_healthy : ∀ op t, healthy t → run_op op t = (Ok tt, receive op t);
  received_receive : ∀ op t, received (receive op t) = received t ++ [op];
  width_receive : ∀ op t, width (receive op t) = width t;
  healthy_receive : ∀ op t, healthy t → healthy (receive op t)
}.

Definition receive_all `{Recorder T} (ops : list TermOp) (t : T) : T :=
  foldl (λ t op, receive op t) t ops.

#[export] Instance Term_Recorder : Recorder console.Term := {|
  received := console.out;
  healthy t := console.budget t = None;
  receive op t := console.mkTerm (console.size t) (console.out t ++ [op]) (console.budget t)
|}.

(** ** Lemmas *)

Section recorder_facts.
Context `{RecorderOk T}.
Implicit Types (t : T) (ops : list TermOp).

Lemma receive_all_snoc ops op t : receive_all (ops ++ [op]) t = receive op (receive_all ops t).
Proof. unfold receive_all. by rewrite foldl_app. Qed.

Lemma received_receive_all ops t : received (receive_all ops t) = received t ++ ops.
Proof.
  induction ops as [|op ops IH] using rev_ind; [by rewrite app_nil_r|].
  by rewrite receive_all_snoc, received_receive, IH, app_assoc.
Qed.

Lemma width_receive_all ops t : width (receive_all ops t) = width t.
Proof.
  induction ops as [|op ops IH] using rev_ind; [done|].
  by rewrite receive_all_snoc, width_receive.
Qed.

Lemma healthy_receive_all ops t : healthy t → healthy (receive_all ops t).
Proof.
  intros Ht. induction ops as [|op ops IH] using rev_ind; [done|].
  rewrite receive_all_snoc. by apply healthy_receive.
Qed.

(** On a healthy terminal every call of a sequence is received. *)
Lemma run_ops_healthy ops t : healthy t → run_ops ops t = (Ok tt, receive_all ops t).
Proof.
  revert t. induction ops as [|op ops IH]; intros t Ht; [done|].
  unfold run_ops in *. cbn [for_each]. unfold bind. rewrite run_op_healthy by done.
  by rewrite IH by by apply healthy_receive.
Qed.

End recorder_facts.

#[global] Hint Rewrite @received_receive_all @width_receive_all using typeclasses eauto : bar.
#[global] Hint Resolve healthy_receive_all : bar.

Lemma emit_accepts op t :
  console.accepts 1 t →
  ∃ b, console.emit op t = (Ok tt, console.mkTerm (console.size t) (console.out t ++ [op]) b)
       ∧ (∀ n, console.accepts (S n) t → console.accepts n (console.mkTerm (console.size t) (console.out t ++ [op]) b)).
Proof.
  unfold console.accepts, console.emit.
  destruct (console.budget t) as [[|b]|]; simpl; [lia| |].
  - intros _. exists (Some b). split; [done|]. intros n; lia.
  - intros _. by exists None.
Qed.

Lemma emit_broken op t :
  console.budget t = Some 0%nat → console.emit op t = (Err (IoError console.EPIPE), t).
Proof. unfold console.emit. by intros ->. Qed.

Lemma emit_size op t : console.size (console.emit op t).2 = console.size t.
Proof. unfold console.emit. by destruct (console.budget t) as [[|?]|]. Qed.

Lemma run_op_Term op t : run_op op t = console.emit op t.
Proof. by destruct op. Qed.

(** The console terminal whose stream never fails records its calls. *)
#[export] Instance Term_RecorderOk : RecorderOk console.Term.
Proof.
  split; [|done..]. intros op [sz o b] Hb. cbn in Hb. subst b.
  by rewrite run_op_Term.
Qed.

Lemma receive_all_Term ops t :
  receive_all ops t = console.mkTerm (console.size t) (console.out t ++ ops) (console.budget t).
Proof.
  revert t. induction ops as [|op ops IH]; intros [sz o b]; cbn; [by rewrite app_nil_r|].
  change (foldl _ ?t ops) with (receive_all ops t). rewrite IH. cbn. by rewrite <- app_assoc.
Qed.

Lemma run_ops_Term_size ops t : console.size (run_ops ops t).2 = console.size t.
Proof.
  revert t. induction ops as [|op ops IH]; intros t; [done|].
  unfold run_ops in *. simpl. unfold bind. rewrite run_op_Term.
  pose proof (emit_size op t).
  destruct (console.emit op t) as [[[]|e] t']; simpl in *; [|done].
  by rewrite IH.
Qed.

(** The terminal after [ops] on a stream that accepts them: the calls
    are appended in order and counted against the stream's budget. *)
Lemma run_ops_Term_ok ops t :
  console.accepts (length ops) t →
  run_ops ops t
  = (Ok tt, console.mkTerm (console.size t) (console.out t ++ ops)
              ((λ b, b - length ops)%nat <$> console.budget t)).
Proof.
  revert t. induction ops as [|op ops IH]; intros [sz o b] Hacc.
  - unfold run_ops. cbn. rewrite app_nil_r. by destruct b as [b|]; cbn; rewrite ?Nat.sub_0_r.
  - unfold run_ops, console.accepts in *. cbn [for_each length console.budget] in *.
    unfold bind. rewrite run_op_Term. unfold console.emit. cbn [console.budget console.size console.out].
    destruct b as [[|b]|]; [lia| |].
    + rewrite IH by (cbn; lia). cbn. by rewrite <- app_assoc.
    + rewrite IH by done. cbn. by rewrite <- app_assoc.
Qed.

(** On a broken stream the first call fails and nothing is written. *)
Lemma run_ops_Term_broken op ops t :
  console.budget t = Some 0%nat →
  run_ops (op :: ops) t = (Err (IoError console.EPIPE), t).
Proof.
  intros Hb. unfold run_ops. simpl. unfold bind.
  by rewrite run_op_Term, (emit_broken _ _ Hb).
Qed.

(** C40: On a console terminal whose stream accepts [length ops] more
    calls, running the calls [ops] through the [TermLike] implementation
    succeeds and appends exactly [ops], in order, to the calls the terminal
    has received; its size, and with it [width], is unchanged. *)
Theorem run_ops_Term_accepts ops t :
  console.accepts (length ops) t →
  ∃ t', run_ops ops t = (Ok tt, t')
        ∧ console.out t' = console.out t ++ ops
        ∧ width t' = width t.
Proof.
  revert t. induction ops as [|op ops IH]; intros t Hacc.
  - exists t. by rewrite app_nil_r.
  - destruct (emit_accepts op t) as (b & Hemit & Hnext).
    { unfold console.accepts in *. destruct (console.budget t); simpl in *; lia. }
    destruct (IH _ (Hnext _ Hacc)) as (t' & Hrun & Hout & Hw).
    exists t'. unfold run_ops in *. simpl.
    rewrite (bind_ok _ _ _ tt _ ltac:(rewrite run_op_Term; exact Hemit)).
    rewrite Hrun, Hout. simpl. by rewrite <- app_assoc.
Qed.

Lemma run_ops_Term_accepts_witness :
  ∃ t', run_ops [MoveCursorUp 1; ClearLine; WriteStr "x"; Flush] (console.fresh 24 80 (Some 4%nat)) = (Ok tt, t')
        ∧ console.out t' = [] ++ [MoveCursorUp 1; ClearLine; WriteStr "x"; Flush]
        ∧ width t' = width (console.fresh 24 80 (Some 4%nat)).
Proof.
  apply (run_ops_Term_accepts [MoveCursorUp 1; ClearLine; WriteStr "x"; Flush]
           (console.fresh 24 80 (Some 4%nat))).
  vm_compute. lia.
Defined.
