(* ===== verification/ProgressRecord.v ===== *)
(** * The progress record and its collaborators

    The numeric and textual state of one indicator ([ProgressState]), its
    [Status], the rate [Estimator], and the style collaborator as the class
    [StyleOps]: a pure function from a state snapshot and a width to display
    lines, and a policy for what a finished bar leaves behind.  The record's
    fields are the ones [src/src/progress_bar.rs] reads and writes; the
    operations on it that are not in that file follow the specification. *)

From Stdlib Require Import ZArith String List Lia QArith Qminmax.
From stdpp Require Import base option list.
From S2P Require Import Prelude.

#[local] Open Scope Z_scope.

(** ** Status *)

(** [InProgress], and the two ways of being finished: the last frame left
    on the terminal, or erased. *)
Inductive Status : Type := InProgress | DoneVisible | DoneHidden.

#[global] Instance Status_eq_dec : EqDecision Status.
Proof. solve_decision. Defined.

(** What the style asks of a finished bar. *)
Inductive ProgressFinish : Type := AndLeave | AndClear.

#[global] Instance ProgressFinish_eq_dec : EqDecision ProgressFinish.
Proof. solve_decision. Defined.

(** ** The estimator *)

Module Estimator.

(** The most recent samples (timestamp, position), newest first. *)
Record t : Type := mk { samples : list (Instant * Z) }.

(** The history keeps this many samples. *)
Definition capacity : nat := 15.

Definition new (now : Instant) : t := mk [(now, 0)].

(** Forgets the history and starts again from [pos]. *)
Definition reset (pos : Z) (now : Instant) (e : t) : t := mk [(now, pos)].

(** Records a sample, dropping the oldest one beyond [capacity]. *)
Definition record_step (pos : Z) (now : Instant) (e : t) : t :=
  mk (take capacity ((now, pos) :: samples e)).

(** Positions per millisecond over the history: the newest sample against
    the oldest; zero when no time has passed. *)
Definition rate (e : t) : Q :=
  match samples e, last (samples e) with
  | (t1, p1) :: _, Some (t0, p0) =>
      if (0 <? t1 - t0)%Z then (p1 - p0) # Z.to_pos (t1 - t0) else 0%Q
  | _, _ => 0%Q
  end.

(** Milliseconds until [remaining] more positions are done at [rate];
    zero when the rate is not positive. *)
Definition time_for (remaining : Z) (e : t) : Q :=
  if Qlt_le_dec 0 (rate e) then (inject_Z remaining / rate e)%Q else 0%Q.

Definition wf (e : t) : Prop := (length (samples e) ≤ capacity)%nat.

End Estimator.

(** ** The progress record *)

Section ProgressRecord.
Context {Sty : Type}.

Record ProgressState : Type := mkProgressState {
  style : Sty;
  pos : Z;
  len : Z;
  tick : Z;
  started : Instant;
  message : string;
  prefix : string;
  status : Status;
  est : Estimator.t;
  tick_thread : option tid;
  steady_tick : Z
}.

Definition set_style (v : Sty) (s : ProgressState) : ProgressState :=
  mkProgressState v (pos s) (len s) (tick s) (started s) (message s) (prefix s)
    (status s) (est s) (tick_thread s) (steady_tick s).

Definition set_pos (v : Z) (s : ProgressState) : ProgressState :=
  mkProgressState (style s) v (len s) (tick s) (started s) (message s) (prefix s)
    (status s) (est s) (tick_thread s) (steady_tick s).

Definition set_len (v : Z) (s : ProgressState) : ProgressState :=
  mkProgressState (style s) (pos s) v (tick s) (started s) (message s) (prefix s)
    (status s) (est s) (tick_thread s) (steady_tick s).

Definition set_tick (v : Z) (s : ProgressState) : ProgressState :=
  mkProgressState (style s) (pos s) (len s) v (started s) (message s) (prefix s)
    (status s) (est s) (tick_thread s) (steady_tick s).

Definition set_started (v : Instant) (s : ProgressState) : ProgressState :=
  mkProgressState (style s) (pos s) (len s) (tick s) v (message s) (prefix s)
    (status s) (est s) (tick_thread s) (steady_tick s).

Definition set_message (v : string) (s : ProgressState) : ProgressState :=
  mkProgressState (style s) (pos s) (len s) (tick s) (started s) v (prefix s)
    (status s) (est s) (tick_thread s) (steady_tick s).

Definition set_prefix (v : string) (s : ProgressState) : ProgressState :=
  mkProgressState (style s) (pos s) (len s) (tick s) (started s) (message s) v
    (status s) (est s) (tick_thread s) (steady_tick s).

Definition set_status (v : Status) (s : ProgressState) : ProgressState :=
  mkProgressState (style s) (pos s) (len s) (tick s) (started s) (message s) (prefix s)
    v (est s) (tick_thread s) (steady_tick s).

Definition set_est (v : Estimator.t) (s : ProgressState) : ProgressState :=
  mkProgressState (style s) (pos s) (len s) (tick s) (started s) (message s) (prefix s)
    (status s) v (tick_thread s) (steady_tick s).

Definition set_tick_thread (v : option tid) (s : ProgressState) : ProgressState :=
  mkProgressState (style s) (pos s) (len s) (tick s) (started s) (message s) (prefix s)
    (status s) (est s) v (steady_tick s).

Definition set_steady_tick (v : Z) (s : ProgressState) : ProgressState :=
  mkProgressState (style s) (pos s) (len s) (tick s) (started s) (message s) (prefix s)
    (status s) (est s) (tick_thread s) v.

End ProgressRecord.

Arguments ProgressState Sty : clear implicits.

(** ** The style collaborator *)

(** [format_state style state width]: the display lines of a state at a
    width.  [on_finish]: what [finish_using_style] does. *)
Class StyleOps (Sty : Type) : Type := {
  default_bar : Sty;
  default_spinner : Sty;
  format_state : Sty → ProgressState Sty → nat → list string;
  on_finish : Sty → ProgressFinish
}.

(** ** Operations of the record *)

Module ProgressState.
Section ops.
Context `{StyleOps Sty}.
Implicit Types s : ProgressState Sty.

(** A fresh record of length [len] created at [now]. *)
Definition new (len : Z) (now : Instant) : ProgressState Sty :=
  mkProgressState default_bar 0 len 0 now EmptyString EmptyString
    InProgress (Estimator.new now) None 0.

Definition is_finished s : bool :=
  match status s with
  | InProgress => false
  | DoneVisible | DoneHidden => true
  end.

(** A bar whose last frame was erased draws nothing any more. *)
Definition should_render s : bool :=
  match status s with
  | InProgress | DoneVisible => true
  | DoneHidden => false
  end.

(** The share of the work done, in [0, 1]: 1 for a length of 0, 0 for the
    unknown length [u64_MAX], the clamped quotient otherwise. *)
Definition fraction s : Q :=
  if (len s =? 0)%Z then 1%Q
  else if (len s =? u64_MAX)%Z then 0%Q
  else Qmin 1 (Qmax 0 (pos s # Z.to_pos (len s))).

(** Time since the record was started. *)
Definition elapsed (now : Instant) s : Duration := now - started s.

(** Positions per second. *)
Definition per_sec s : Q := (Estimator.rate (est s) * 1000)%Q.

(** Expected milliseconds left: none for a finished bar or an unknown
    length, otherwise the remaining positions at the estimated rate. *)
Definition eta s : Q :=
  if is_finished s || (len s =? u64_MAX)%Z then 0%Q
  else Estimator.time_for (Z.max 0 (len s - pos s)) (est s).

(** Expected total duration: the time elapsed plus [eta]. *)
Definition duration (now : Instant) s : Q :=
  if is_finished s || (len s =? u64_MAX)%Z then 0%Q
  else (inject_Z (elapsed now s) + eta s)%Q.

(** The counters are in the [u64] range. *)
Definition wf s : Prop :=
  is_u64 (pos s) ∧ is_u64 (len s) ∧ is_u64 (tick s) ∧ is_u64 (steady_tick s).

#[global] Instance wf_dec s : Decision (wf s).
Proof. unfold wf. apply _. Defined.

End ops.
End ProgressState.

(** ** Lemmas *)

Section facts.
Context `{StyleOps Sty}.
Implicit Types s : ProgressState Sty.

Lemma wf_new len now : is_u64 len → ProgressState.wf (ProgressState.new len now).
Proof. unfold ProgressState.wf. simpl. u64_lia. Qed.

Lemma is_finished_status s :
  ProgressState.is_finished s = true ↔ status s ≠ InProgress.
Proof. unfold ProgressState.is_finished. destruct (status s); naive_solver. Qed.

Lemma should_render_in_progress s :
  ProgressState.is_finished s = false → ProgressState.should_render s = true.
Proof.
  unfold ProgressState.is_finished, ProgressState.should_render.
  by destruct (status s).
Qed.

Lemma fraction_len_0 s : len s = 0 → ProgressState.fraction s = 1%Q.
Proof. unfold ProgressState.fraction. by intros ->. Qed.

Lemma fraction_len_unknown s : len s = u64_MAX → ProgressState.fraction s = 0%Q.
Proof. unfold ProgressState.fraction. by intros ->. Qed.

Lemma fraction_range s : (0 <= ProgressState.fraction s <= 1)%Q.
Proof.
  unfold ProgressState.fraction.
  destruct (len s =? 0)%Z; [done|]. destruct (len s =? u64_MAX)%Z; [done|].
  split.
  - apply Q.min_glb; [done|apply Q.le_max_l].
  - apply Q.le_min_l.
Qed.

Lemma fraction_clamps s :
  0 < len s < u64_MAX → len s ≤ pos s → (ProgressState.fraction s == 1)%Q.
Proof.
  intros Hlen Hpos. unfold ProgressState.fraction.
  destruct (Z.eqb_spec (len s) 0); [lia|].
  destruct (Z.eqb_spec (len s) u64_MAX); [lia|].
  apply Q.min_l. apply Q.max_le_iff. right.
  unfold Qle. simpl. rewrite Z2Pos.id by lia. lia.
Qed.

Lemma fraction_exact s :
  0 < len s < u64_MAX → 0 ≤ pos s ≤ len s →
  (ProgressState.fraction s == pos s # Z.to_pos (len s))%Q.
Proof.
  intros Hlen Hpos. unfold ProgressState.fraction.
  destruct (Z.eqb_spec (len s) 0); [lia|].
  destruct (Z.eqb_spec (len s) u64_MAX); [lia|].
  rewrite Q.max_r by (unfold Qle; simpl; lia).
  apply Q.min_r. unfold Qle. simpl. rewrite Z2Pos.id by lia. lia.
Qed.

Lemma record_step_wf pos now e : Estimator.wf (Estimator.record_step pos now e).
Proof.
  unfold Estimator.wf, Estimator.record_step. cbn [Estimator.samples].
  rewrite length_take. apply Nat.le_min_l.
Qed.

Lemma reset_wf pos now e : Estimator.wf (Estimator.reset pos now e).
Proof. unfold Estimator.wf, Estimator.capacity. simpl. lia. Qed.

End facts.

(** ** A plain style

    A stand-in for the style collaborator, used where a theorem is applied
    to a concrete bar: the style is its finish policy, and a state renders
    as one line, the prefix followed by the message. *)

#[export] Instance plain_style : StyleOps ProgressFinish := {|
  default_bar := AndLeave;
  default_spinner := AndLeave;
  format_state := λ _ s _, [(prefix s ++ message s)%string];
  on_finish := λ policy, policy
|}.
