(* ===== verification/OutputTarget.v ===== *)
(** * The output target

    Where a frame goes.  [ProgressDrawState] is the frame a bar hands over
    (its fields are the ones [ProgressBar::println] sets); [RateLimiter] is
    the refresh throttle; [TermTarget] is a direct terminal with the
    throttle and the bookkeeping of the last frame; [MultiState] is the
    shared region of several bars; [ProgressDrawTarget] is the variant
    direct / remote / hidden, and [Drawable] what a redraw attempt yields
    when it is not declined.  Everything here is generic in the terminal
    [T] with its [TermLike] instance.  The shared regions live in a store
    [MHeap] (an [Arc<RwLock<MultiState>>] is a location of it), which the
    operations of a remote target read and update.  [draw_target.rs] and
    [multi.rs] are not among the sources: the definitions of this file
    follow the specification and the way [src/src/progress_bar.rs] calls
    them. *)

From Stdlib Require Import ZArith String List Lia.
From stdpp Require Import base option list gmap.
From S2P Require Import Prelude TermLike.

#[local] Open Scope Z_scope.

(** ** The frame *)

Inductive MultiProgressAlignment : Type := Top | Bottom.

#[global] Instance MultiProgressAlignment_eq_dec : EqDecision MultiProgressAlignment.
Proof. solve_decision. Defined.

(** [lines]: the lines to paint, the first [orphan_lines] of which are
    log lines that stay above the bar once painted; [move_cursor]: overwrite
    the previous frame in place instead of erasing it first. *)
Record ProgressDrawState : Type := mkDrawState {
  lines : list string;
  orphan_lines : nat;
  move_cursor : bool;
  alignment : MultiProgressAlignment
}.

#[global] Instance ProgressDrawState_eq_dec : EqDecision ProgressDrawState.
Proof. solve_decision. Defined.

Module ProgressDrawState.

Definition new (lines : list string) (move_cursor : bool) : ProgressDrawState :=
  mkDrawState lines 0 move_cursor Top.

(** Empties the frame, keeping how it is to be painted. *)
Definition reset (ds : ProgressDrawState) : ProgressDrawState :=
  mkDrawState [] 0 (move_cursor ds) (alignment ds).

Definition set_lines (v : list string) (ds : ProgressDrawState) : ProgressDrawState :=
  mkDrawState v (orphan_lines ds) (move_cursor ds) (alignment ds).

Definition set_orphan_lines (v : nat) (ds : ProgressDrawState) : ProgressDrawState :=
  mkDrawState (lines ds) v (move_cursor ds) (alignment ds).

Definition set_move_cursor (v : bool) (ds : ProgressDrawState) : ProgressDrawState :=
  mkDrawState (lines ds) (orphan_lines ds) v (alignment ds).

Definition set_alignment (v : MultiProgressAlignment) (ds : ProgressDrawState) : ProgressDrawState :=
  mkDrawState (lines ds) (orphan_lines ds) (move_cursor ds) v.

(** The lines of the bar itself: the frame without its log lines. *)
Definition visible (ds : ProgressDrawState) : list string :=
  drop (orphan_lines ds) (lines ds).

(** The log lines of the frame. *)
Definition orphans (ds : ProgressDrawState) : list string :=
  take (orphan_lines ds) (lines ds).

(** The calls that erase the [n] lines above the cursor and leave the
    cursor where the first of them started. *)
Definition clear_last_lines_ops (n : nat) : list TermOp :=
  MoveCursorUp n :: concat (replicate n [ClearLine; MoveCursorDown 1]) ++ [MoveCursorUp n].

(** The calls that paint the frame [ds] over a previous frame of
    [last_line_count] lines: go back over the previous frame (erasing it
    unless [move_cursor] is set and there is something to paint), write
    every line of the new frame, flush. *)
Definition draw_ops (ds : ProgressDrawState) (last_line_count : nat) : list TermOp :=
  (if negb (bool_decide (lines ds = [])) && move_cursor ds
   then [MoveCursorUp last_line_count]
   else clear_last_lines_ops last_line_count)
  ++ (WriteLine <$> lines ds) ++ [Flush].

(** What the bookkeeping records after painting [ds]: the lines of the
    bar, not the log lines above it. *)
Definition line_count (ds : ProgressDrawState) : nat :=
  (length (lines ds) - orphan_lines ds)%nat.

(** Paints the frame on a terminal; yields the new line count.  The first
    failing call ends the painting. *)
Definition draw_to_term `{TermLike T} (ds : ProgressDrawState) (last_line_count : nat)
  : SE T io_error nat :=
  run_ops (draw_ops ds last_line_count) ;;; ret (line_count ds).

End ProgressDrawState.

(** ** The refresh throttle *)

Module RateLimiter.

(** [interval]: the least time between two paints; [last_draw]: when the
    target last painted, if it ever did. *)
Record t : Type := mk { interval : Duration; last_draw : option Instant }.

#[global] Instance t_eq_dec : EqDecision t.
Proof. solve_decision. Defined.

(** A throttle for at most [refresh_rate] paints per second. *)
Definition new (refresh_rate : Z) : t := mk (1000 / refresh_rate) None.

(** Whether an unforced paint may proceed at [now]. *)
Definition allow (now : Instant) (rl : t) : bool :=
  match last_draw rl with
  | None => true
  | Some t0 => (interval rl <=? now - t0)%Z
  end.

(** Records a paint at [now]. *)
Definition record (now : Instant) (rl : t) : t := mk (interval rl) (Some now).

End RateLimiter.

(** ** A direct terminal *)

Section TermTarget.
Context {T : Type}.

Record TermTarget : Type := mkTermTarget {
  term : T;
  rate_limiter : RateLimiter.t;
  last_line_count : nat;
  draw_state : ProgressDrawState
}.

End TermTarget.
Arguments TermTarget T : clear implicits.

Module TermTarget.
Section ops.
Context `{TermLike T}.
Implicit Types tg : TermTarget T.

Definition new (term : T) (refresh_rate : Z) : TermTarget T :=
  mkTermTarget term (RateLimiter.new refresh_rate) 0 (ProgressDrawState.new [] false).

Definition set_draw_state (ds : ProgressDrawState) tg : TermTarget T :=
  mkTermTarget (term tg) (rate_limiter tg) (last_line_count tg) ds.

(** A redraw attempt: proceeds when forced or when the interval has
    elapsed since the last paint, and then records [now] as the time of
    the paint; declined otherwise. *)
Definition drawable (force_draw : bool) (now : Instant) tg : option (TermTarget T) :=
  if force_draw || RateLimiter.allow now (rate_limiter tg)
  then Some (mkTermTarget (term tg) (RateLimiter.record now (rate_limiter tg))
               (last_line_count tg) (draw_state tg))
  else None.

(** Paints the target's frame over the previous one and records the new
    line count; a failing terminal leaves the recorded count as it was. *)
Definition draw tg : result io_error unit * TermTarget T :=
  match ProgressDrawState.draw_to_term (draw_state tg) (last_line_count tg) (term tg) with
  | (Ok n, term') => (Ok tt, mkTermTarget term' (rate_limiter tg) n (draw_state tg))
  | (Err e, term') =>
      (Err e, mkTermTarget term' (rate_limiter tg) (last_line_count tg) (draw_state tg))
  end.

End ops.
End TermTarget.

(** ** The shared region *)

Section MultiState.
Context {T : Type}.

(** [members]: the slots, by index; a free slot is [None], an occupied one
    holds the last frame its bar handed over.  [free_set]: the freed slots,
    most recently freed first.  [ordering]: the occupied slots in display
    order.  [mtarget]: the terminal the region paints on ([None]: a hidden
    region); its [last_line_count] is the total painted line count. *)
Record MultiState : Type := mkMultiState {
  members : list (option ProgressDrawState);
  free_set : list nat;
  ordering : list nat;
  mtarget : option (TermTarget T)
}.

End MultiState.
Arguments MultiState T : clear implicits.

Abbreviation MHeap T := (gmap loc (MultiState T)).

(** Where a new slot goes in the display order. *)
Inductive InsertLocation : Type :=
| AtEnd
| AtIndex (i : nat)
| After (idx : nat)
| Before (idx : nat).

Module MultiState.
Section ops.
Context `{TermLike T}.
Implicit Types ms : MultiState T.

Definition new (target : option (TermTarget T)) : MultiState T :=
  mkMultiState [] [] [] target.

Definition width ms : nat :=
  match mtarget ms with
  | Some tg => TermLike.width (term tg)
  | None => 0%nat
  end.

(** The frame of slot [idx], emptied for its bar to fill. *)
Definition draw_state (idx : nat) ms : ProgressDrawState :=
  match members ms !! idx with
  | Some (Some ds) => ProgressDrawState.reset ds
  | _ => ProgressDrawState.new [] false
  end.

(** Stores the frame the bar of slot [idx] has filled. *)
Definition set_draw_state (idx : nat) (ds : ProgressDrawState) ms : MultiState T :=
  mkMultiState (<[idx := Some ds]> (members ms)) (free_set ms) (ordering ms) (mtarget ms).

(** The lines [sel] picks of every occupied slot, in display order. *)
Definition member_lines (sel : ProgressDrawState → list string) ms : list string :=
  concat ((λ idx, match members ms !! idx with
                  | Some (Some ds) => sel ds
                  | _ => []
                  end) <$> ordering ms).

Definition visible_lines ms : list string := member_lines ProgressDrawState.visible ms.

Definition orphan_lines ms : list string := member_lines ProgressDrawState.orphans ms.

(** Once painted, the log lines of a slot are no longer part of its frame. *)
Definition strip_orphans (m : option ProgressDrawState) : option ProgressDrawState :=
  (λ ds, ProgressDrawState.set_orphan_lines 0
           (ProgressDrawState.set_lines (ProgressDrawState.visible ds) ds)) <$> m.

(** The repaint of the whole region: all log lines, then the lines of
    every occupied slot in display order, painted over the previous total
    line count.  Log lines force the paint. *)
Definition draw (force_draw : bool) (now : Instant) ms : result io_error unit * MultiState T :=
  let orph := orphan_lines ms in
  match mtarget ms with
  | None => (Ok tt, ms)
  | Some tg =>
      match TermTarget.drawable (force_draw || negb (bool_decide (orph = []))) now tg with
      | None => (Ok tt, ms)
      | Some tg1 =>
          let ds := ProgressDrawState.set_orphan_lines (length orph)
                      (ProgressDrawState.set_lines (orph ++ visible_lines ms)
                         (ProgressDrawState.reset (OutputTarget.draw_state tg1))) in
          let '(r, tg2) := TermTarget.draw (TermTarget.set_draw_state ds tg1) in
          (r, mkMultiState (strip_orphans <$> members ms) (free_set ms) (ordering ms) (Some tg2))
      end
  end.

(** Takes a slot: the most recently freed one, or a new one at the end. *)
Definition alloc ms : nat * MultiState T :=
  match free_set ms with
  | idx :: rest =>
      (idx, mkMultiState (<[idx := Some (ProgressDrawState.new [] false)]> (members ms))
              rest (ordering ms) (mtarget ms))
  | [] =>
      (length (members ms),
       mkMultiState (members ms ++ [Some (ProgressDrawState.new [] false)])
         [] (ordering ms) (mtarget ms))
  end.

(** The position in the display order a location denotes. *)
Definition position (location : InsertLocation) (ord : list nat) : nat :=
  match location with
  | AtEnd => length ord
  | AtIndex i => Nat.min i (length ord)
  | After idx =>
      match list_find (λ j, j = idx) ord with
      | Some (p, _) => S p
      | None => length ord
      end
  | Before idx =>
      match list_find (λ j, j = idx) ord with
      | Some (p, _) => p
      | None => length ord
      end
  end.

(** Adds a bar at [location]: takes a slot and places it in the display
    order, in one step. *)
Definition insert (location : InsertLocation) ms : nat * MultiState T :=
  let '(idx, ms1) := alloc ms in
  let p := position location (ordering ms1) in
  (idx, mkMultiState (members ms1) (free_set ms1)
          (take p (ordering ms1) ++ idx :: drop p (ordering ms1)) (mtarget ms1)).

(** Frees slot [idx]; the other slots keep their indices. *)
Definition remove_idx (idx : nat) ms : MultiState T :=
  match members ms !! idx with
  | Some (Some _) =>
      mkMultiState (<[idx := None]> (members ms)) (idx :: free_set ms)
        (filter (λ j, j ≠ idx) (ordering ms)) (mtarget ms)
  | _ => ms
  end.

End ops.
End MultiState.

(** ** The variant *)

Section ProgressDrawTarget.
Context {T : Type}.

Inductive ProgressDrawTarget : Type :=
| Direct (tg : TermTarget T)
| Remote (state : loc) (idx : nat)
| Hidden.

(** What a redraw attempt yields: the borrowed parts of a direct target,
    or the slot of a region with the attempt's parameters. *)
Inductive Drawable : Type :=
| DrawableTerm (tg : TermTarget T)
| DrawableMulti (state : loc) (idx : nat) (force_draw : bool) (now : Instant).

End ProgressDrawTarget.
Arguments ProgressDrawTarget T : clear implicits.
Arguments Drawable T : clear implicits.

Module Drawable.
Section ops.
Context `{TermLike T}.

(** The frame to fill, emptied. *)
Definition state (d : Drawable T) (mh : MHeap T) : ProgressDrawState :=
  match d with
  | DrawableTerm tg => ProgressDrawState.reset (draw_state tg)
  | DrawableMulti st idx _ _ =>
      match mh !! st with
      | Some ms => MultiState.draw_state idx ms
      | None => ProgressDrawState.new [] false
      end
  end.

(** Hands the filled frame back to where it was borrowed from. *)
Definition set_state (ds : ProgressDrawState) (d : Drawable T) (mh : MHeap T)
  : Drawable T * MHeap T :=
  match d with
  | DrawableTerm tg => (DrawableTerm (TermTarget.set_draw_state ds tg), mh)
  | DrawableMulti st idx _ _ =>
      (d, match mh !! st with
          | Some ms => <[st := MultiState.set_draw_state idx ds ms]> mh
          | None => mh
          end)
  end.

(** Paints: a direct target paints its frame, a slot repaints its region.
    Yields the outcome, the target as the painting leaves it, and the
    regions. *)
Definition draw (d : Drawable T) (mh : MHeap T)
  : result io_error unit * ProgressDrawTarget T * MHeap T :=
  match d with
  | DrawableTerm tg =>
      let '(r, tg') := TermTarget.draw tg in (r, Direct tg', mh)
  | DrawableMulti st idx force_draw now =>
      match mh !! st with
      | Some ms =>
          let '(r, ms') := MultiState.draw force_draw now ms in
          (r, Remote st idx, <[st := ms']> mh)
      | None => (Ok tt, Remote st idx, mh)
      end
  end.

(** Paints an empty frame: erases what the target shows of this bar. *)
Definition clear (d : Drawable T) (mh : MHeap T)
  : result io_error unit * ProgressDrawTarget T * MHeap T :=
  let '(d', mh') := set_state (state d mh) d mh in
  draw d' mh'.

End ops.
End Drawable.

Module ProgressDrawTarget.
Section ops.
Context `{TermLike T}.
Implicit Types tgt : ProgressDrawTarget T.

(** The refresh rate of a terminal target unless one is given: at most
    15 paints per second. *)
Definition DEFAULT_REFRESH_RATE : Z := 15.

(** A direct target on [term] with the given refresh rate. *)
Definition term_like (term : T) (refresh_rate : Z) : ProgressDrawTarget T :=
  Direct (TermTarget.new term refresh_rate).

(** The default target on the process's standard error stream [term]. *)
Definition stderr (term : T) : ProgressDrawTarget T :=
  term_like term DEFAULT_REFRESH_RATE.

Definition hidden : ProgressDrawTarget T := Hidden.

Definition new_remote (state : loc) (idx : nat) : ProgressDrawTarget T :=
  Remote state idx.

Definition is_hidden tgt : bool :=
  match tgt with
  | Hidden => true
  | Direct _ | Remote _ _ => false
  end.

(** The width frames are rendered at; a remote target asks its region. *)
Definition width tgt (mh : MHeap T) : nat :=
  match tgt with
  | Direct tg => TermLike.width (term tg)
  | Remote st _ =>
      match mh !! st with
      | Some ms => MultiState.width ms
      | None => 0%nat
      end
  | Hidden => 0%nat
  end.

(** The region and slot of a remote target. *)
Definition remote tgt : option (loc * nat) :=
  match tgt with
  | Remote st idx => Some (st, idx)
  | Direct _ | Hidden => None
  end.

(** A redraw attempt.  A direct target is throttled unless forced; a
    remote one always hands over its slot (its region throttles); a hidden
    one declines. *)
Definition drawable (force_draw : bool) (now : Instant) tgt : option (Drawable T) :=
  match tgt with
  | Direct tg => DrawableTerm <$> TermTarget.drawable force_draw now tg
  | Remote st idx => Some (DrawableMulti st idx force_draw now)
  | Hidden => None
  end.

(** Before a target is replaced: a remote one erases its frame from the
    region with a forced repaint and releases its slot; the others have
    nothing to do. *)
Definition disconnect (now : Instant) tgt (mh : MHeap T) : MHeap T :=
  match tgt with
  | Remote st idx =>
      let '(_, _, mh1) := Drawable.clear (DrawableMulti st idx true now) mh in
      match mh1 !! st with
      | Some ms => <[st := MultiState.remove_idx idx ms]> mh1
      | None => mh1
      end
  | Direct _ | Hidden => mh
  end.

End ops.
End ProgressDrawTarget.

(** ** Lemmas *)

Section facts.
Context `{TermLike T}.
Implicit Types (tg : TermTarget T) (tgt : ProgressDrawTarget T) (rl : RateLimiter.t).

(** The throttle lets a paint through exactly when nothing was painted
    yet or the interval has elapsed since the last paint. *)
Lemma allow_spec now rl :
  RateLimiter.allow now rl = true
  ↔ ∀ t0, RateLimiter.last_draw rl = Some t0 → (RateLimiter.interval rl ≤ now - t0)%Z.
Proof.
  unfold RateLimiter.allow. destruct (RateLimiter.last_draw rl) as [t0|].
  - rewrite Z.leb_le. naive_solver.
  - naive_solver.
Qed.

Lemma allow_after_record now now' rl :
  RateLimiter.allow now' (RateLimiter.record now rl) = true
  ↔ (RateLimiter.interval rl ≤ now' - now)%Z.
Proof. unfold RateLimiter.allow. simpl. apply Z.leb_le. Qed.

(** A forced attempt is never declined. *)
Lemma drawable_forced now tg :
  TermTarget.drawable true now tg
  = Some (mkTermTarget (term tg) (RateLimiter.record now (rate_limiter tg))
            (last_line_count tg) (draw_state tg)).
Proof. done. Qed.

(** An unforced attempt within the interval of the last paint is. *)
Lemma drawable_throttled now tg t0 :
  RateLimiter.last_draw (rate_limiter tg) = Some t0 →
  (now - t0 < RateLimiter.interval (rate_limiter tg))%Z →
  TermTarget.drawable false now tg = None.
Proof.
  intros Ht0 Hlt. unfold TermTarget.drawable, RateLimiter.allow. rewrite Ht0. simpl.
  by destruct (Z.leb_spec (RateLimiter.interval (rate_limiter tg)) (now - t0)); [lia|].
Qed.

(** An attempt that proceeds stamps the throttle with its time. *)
Lemma drawable_records force_draw now tg tg' :
  TermTarget.drawable force_draw now tg = Some tg' →
  rate_limiter tg' = RateLimiter.record now (rate_limiter tg)
  ∧ term tg' = term tg ∧ last_line_count tg' = last_line_count tg.
Proof. unfold TermTarget.drawable. case_match; naive_solver. Qed.

(** Painting leaves the throttle as the attempt stamped it. *)
Lemma draw_rate_limiter tg : rate_limiter (TermTarget.draw tg).2 = rate_limiter tg.
Proof.
  unfold TermTarget.draw.
  by destruct (ProgressDrawState.draw_to_term _ _ _) as [[n|e] term'].
Qed.

Lemma target_drawable_throttled now tg t0 :
  RateLimiter.last_draw (rate_limiter tg) = Some t0 →
  (now - t0 < RateLimiter.interval (rate_limiter tg))%Z →
  ProgressDrawTarget.drawable false now (Direct tg) = None.
Proof. intros. simpl. by erewrite drawable_throttled. Qed.

(** The default throttle: 15 paints per second is an interval of 66 ms. *)
Lemma stderr_interval (term : T) :
  ∃ tg, ProgressDrawTarget.stderr term = Direct tg
        ∧ RateLimiter.interval (rate_limiter tg) = 66%Z
        ∧ RateLimiter.last_draw (rate_limiter tg) = None.
Proof. by eexists. Qed.

End facts.

(** ** Lemmas: painting on a terminal that records *)

(** On a healthy terminal the calls that paint the target's frame over
    the previous one are received, and the line count of the frame is
    recorded. *)
Lemma draw_healthy `{RecorderOk T} (tg : TermTarget T) :
  healthy (term tg) →
  TermTarget.draw tg
  = (Ok tt,
     mkTermTarget
       (receive_all (ProgressDrawState.draw_ops (draw_state tg) (last_line_count tg)) (term tg))
       (rate_limiter tg) (ProgressDrawState.line_count (draw_state tg)) (draw_state tg)).
Proof.
  intros Hb. unfold TermTarget.draw, ProgressDrawState.draw_to_term, bind.
  by rewrite run_ops_healthy.
Qed.

(** ** Lemmas: painting on a broken console terminal *)

(** The calls that paint a frame, one by one: the cursor goes up over the
    previous frame; unless the frame has lines and is painted in place,
    every previous line is cleared and the cursor goes up again; the
    lines are written; the terminal is flushed. *)
Lemma draw_ops_calls ds n :
  ProgressDrawState.draw_ops ds n
  = MoveCursorUp n
    :: (if move_cursor ds && negb (bool_decide (lines ds = [])) then []
        else concat (replicate n [ClearLine; MoveCursorDown 1]) ++ [MoveCursorUp n])
    ++ (WriteLine <$> lines ds) ++ [Flush].
Proof.
  unfold ProgressDrawState.draw_ops, ProgressDrawState.clear_last_lines_ops.
  rewrite andb_comm. by destruct (move_cursor ds && _).
Qed.

(** A frame that is painted by erasing: the calls. *)
Lemma draw_ops_erasing ds n :
  move_cursor ds = false →
  ProgressDrawState.draw_ops ds n
  = ProgressDrawState.clear_last_lines_ops n ++ (WriteLine <$> lines ds) ++ [Flush].
Proof. intros Hm. unfold ProgressDrawState.draw_ops. by rewrite Hm, andb_false_r. Qed.

Lemma draw_ops_cons ds last_line_count :
  ∃ op ops, ProgressDrawState.draw_ops ds last_line_count = op :: ops.
Proof.
  unfold ProgressDrawState.draw_ops, ProgressDrawState.clear_last_lines_ops.
  destruct (negb _ && _); by eexists _, _.
Qed.

(** Painting on a broken stream fails at the first call; the target is
    left with the frame it was given and the line count of the frame it
    last managed to paint. *)
Lemma draw_broken (tg : TermTarget console.Term) :
  console.budget (term tg) = Some 0%nat →
  TermTarget.draw tg = (Err (IoError console.EPIPE), tg).
Proof.
  intros Hb. unfold TermTarget.draw, ProgressDrawState.draw_to_term.
  destruct (draw_ops_cons (draw_state tg) (last_line_count tg)) as (op & ops & ->).
  unfold bind. rewrite (run_ops_Term_broken _ _ _ Hb). by destruct tg.
Qed.
