(* ===== verification/BarCell.v ===== *)
(** * The bar cell

    [BarState]: one progress record and one output target, as
    [ProgressBar::with_draw_target] builds it.  Its operations run while the
    cell's mutex is held; they are computations over the cell and the store
    of shared regions ([SE (BarState * MHeap) E]): [draw] renders the record
    through the style and paints it when the target does not decline,
    [update_and_draw] applies a mutation and attempts an unforced redraw,
    and the finish family marks the record finished and forces the final
    frame.  Only [draw] lets the terminal's error out; the others drop
    it.  The record is built in [src/src/progress_bar.rs]
    ([ProgressBar::with_draw_target]); its operations are in [state.rs],
    which is not among the sources, and follow the specification. *)

From Stdlib Require Import ZArith String List Lia.
From stdpp Require Import base option list gmap.
From S2P Require Import Prelude TermLike ProgressRecord OutputTarget.

#[local] Open Scope Z_scope.

Section BarState.
Context {T Sty : Type}.

Record BarState : Type := mkBarState {
  draw_target : ProgressDrawTarget T;
  state : ProgressState Sty
}.

End BarState.
Arguments BarState T Sty : clear implicits.

Module BarState.
Section ops.
Context `{TermLike T} `{StyleOps Sty}.
Implicit Types (bs : BarState T Sty) (mh : MHeap T) (s : ProgressState Sty).

Definition set_draw_target (v : ProgressDrawTarget T) bs : BarState T Sty :=
  mkBarState v (state bs).

Definition set_state (v : ProgressState Sty) bs : BarState T Sty :=
  mkBarState (draw_target bs) v.

(** Plumbing: a mutation of the record, and a read of the cell, as
    computations that never fail. *)
Definition modify {E} (f : ProgressState Sty → ProgressState Sty)
  : SE (BarState T Sty * MHeap T) E unit := λ '(bs, mh),
  (Ok tt, (set_state (f (state bs)) bs, mh)).

Definition read {E A} (g : BarState T Sty → MHeap T → A)
  : SE (BarState T Sty * MHeap T) E A := λ '(bs, mh), (Ok (g bs mh), (bs, mh)).

(** The frame of the record: the style's lines at the target's width, or
    nothing for a bar that no longer renders. *)
Definition render s (width : nat) : list string :=
  if ProgressState.should_render s then format_state (style s) s width else [].

(** The frame a direct target is handed for the record [s]: emptied, then
    filled with the record's lines. *)
Definition frame s (tg : TermTarget T) : ProgressDrawState :=
  ProgressDrawState.set_lines (render s (TermLike.width (term tg)))
    (ProgressDrawState.reset (draw_state tg)).

(** A redraw attempt.  When the target does not decline, the record's
    frame is handed over and painted; the outcome is the terminal's. *)
Definition draw (force_draw : bool) (now : Instant)
  : SE (BarState T Sty * MHeap T) io_error unit := λ '(bs, mh),
  let width := ProgressDrawTarget.width (draw_target bs) mh in
  match ProgressDrawTarget.drawable force_draw now (draw_target bs) with
  | None => (Ok tt, (bs, mh))
  | Some drawable =>
      let ds := Drawable.state drawable mh in
      let ds := ProgressDrawState.set_lines (lines ds ++ render (state bs) width) ds in
      let '(drawable, mh) := Drawable.set_state ds drawable mh in
      let '(r, tgt, mh) := Drawable.draw drawable mh in
      (r, (set_draw_target tgt bs, mh))
  end.

(** Applies a mutation to the record; a change of position is a sample
    for the estimator. *)
Definition update (now : Instant) (f : ProgressState Sty → ProgressState Sty) s
  : ProgressState Sty :=
  let s' := f s in
  if (pos s' =? pos s)%Z then s'
  else set_est (Estimator.record_step (pos s') now (est s')) s'.

(** The update-then-maybe-redraw transaction: the mutation, then an
    unforced redraw attempt whose outcome is dropped. *)
Definition update_and_draw {E} (now : Instant) (f : ProgressState Sty → ProgressState Sty)
  : SE (BarState T Sty * MHeap T) E unit := λ '(bs, mh),
  ignore_err (draw false now) (set_state (update now f (state bs)) bs, mh).

(** The same with a forced redraw: what the finish family runs. *)
Definition update_and_force_draw {E} (now : Instant) (f : ProgressState Sty → ProgressState Sty)
  : SE (BarState T Sty * MHeap T) E unit := λ '(bs, mh),
  ignore_err (draw true now) (set_state (update now f (state bs)) bs, mh).

(** Position to length when the length is known, finished, frame left. *)
Definition finish {E} (now : Instant) : SE (BarState T Sty * MHeap T) E unit :=
  update_and_force_draw now (λ s,
    set_status DoneVisible
      (if (len s =? u64_MAX)%Z then s else set_pos (len s) s)).

(** Finished where it stands, frame left. *)
Definition finish_at_current_pos {E} (now : Instant) : SE (BarState T Sty * MHeap T) E unit :=
  update_and_force_draw now (set_status DoneVisible).

(** The message, then as [finish]. *)
Definition finish_with_message {E} (msg : string) (now : Instant)
  : SE (BarState T Sty * MHeap T) E unit :=
  update_and_force_draw now (λ s,
    let s := set_message msg s in
    set_status DoneVisible
      (if (len s =? u64_MAX)%Z then s else set_pos (len s) s)).

(** Finished, and the bar's footprint erased. *)
Definition finish_and_clear {E} (now : Instant) : SE (BarState T Sty * MHeap T) E unit :=
  update_and_force_draw now (set_status DoneHidden).

(** Gave up: finished, the position kept, frame left. *)
Definition abandon {E} (now : Instant) : SE (BarState T Sty * MHeap T) E unit :=
  update_and_force_draw now (set_status DoneVisible).

Definition abandon_with_message {E} (msg : string) (now : Instant)
  : SE (BarState T Sty * MHeap T) E unit :=
  update_and_force_draw now (λ s, set_status DoneVisible (set_message msg s)).

(** Leave or clear, as the style says. *)
Definition finish_using_style {E} (now : Instant) : SE (BarState T Sty * MHeap T) E unit :=
  λ '(bs, mh),
  match on_finish (style (state bs)) with
  | AndLeave => finish now (bs, mh)
  | AndClear => finish_and_clear now (bs, mh)
  end.

End ops.
End BarState.

(** The frame [println] hands over: the lines [logs] of the message as
    log lines, which stay on the screen, then the [lines] of the bar;
    painted by erasing the previous frame. *)
Definition logged (logs lines : list string) : ProgressDrawState :=
  mkDrawState (logs ++ lines) (length logs) false Top.

(** The target after the frame [ds] has been painted on its terminal at
    time [now]: the terminal has received the calls, the throttle the
    time, and the frame and its line count are recorded. *)
Definition painted_with `{Recorder T} (ds : ProgressDrawState) (now : Instant)
  (tg : TermTarget T) : TermTarget T :=
  mkTermTarget
    (receive_all (ProgressDrawState.draw_ops ds (last_line_count tg)) (term tg))
    (RateLimiter.record now (rate_limiter tg)) (ProgressDrawState.line_count ds) ds.

(** ** Lemmas *)

Section facts.
Context `{TermLike T} `{StyleOps Sty}.
Implicit Types (bs : BarState T Sty) (mh : MHeap T) (s : ProgressState Sty).

(** Painting never touches the progress record. *)
Lemma draw_state_eq force_draw now bs mh :
  state (BarState.draw force_draw now (bs, mh)).2.1 = state bs.
Proof.
  unfold BarState.draw.
  destruct (ProgressDrawTarget.drawable _ _ _) as [d|]; [|done].
  destruct (Drawable.set_state _ _ _) as [d' mh'].
  by destruct (Drawable.draw d' mh') as [[r tgt] mh''].
Qed.

(** A hidden target makes a redraw attempt a no-op. *)
Lemma draw_hidden force_draw now bs mh :
  ProgressDrawTarget.is_hidden (draw_target bs) = true →
  BarState.draw force_draw now (bs, mh) = (Ok tt, (bs, mh)).
Proof. unfold BarState.draw. by destruct (draw_target bs). Qed.

(** The kind of the target is stable under painting. *)
Lemma draw_is_hidden force_draw now bs mh :
  ProgressDrawTarget.is_hidden (draw_target (BarState.draw force_draw now (bs, mh)).2.1)
  = ProgressDrawTarget.is_hidden (draw_target bs).
Proof.
  unfold BarState.draw.
  destruct (draw_target bs) as [tg|st idx|] eqn:Htgt; simpl; [| |by rewrite Htgt].
  - destruct (TermTarget.drawable _ _ _) as [tg1|]; simpl; [|by rewrite Htgt].
    by destruct (TermTarget.draw _) as [r tg2].
  - destruct (mh !! st) as [ms|] eqn:Hms; simpl.
    + rewrite lookup_insert_eq. by destruct (MultiState.draw _ _ _).
    + by rewrite Hms.
Qed.

Lemma remote_draw force_draw now bs mh :
  ProgressDrawTarget.remote (draw_target (BarState.draw force_draw now (bs, mh)).2.1)
  = ProgressDrawTarget.remote (draw_target bs).
Proof.
  unfold BarState.draw.
  destruct (draw_target bs) as [tg|st idx|] eqn:Htgt; simpl; [| |by rewrite Htgt].
  - destruct (TermTarget.drawable _ _ _) as [tg1|]; simpl; [|by rewrite Htgt].
    by destruct (TermTarget.draw _) as [r tg2].
  - destruct (mh !! st) as [ms|] eqn:Hms; simpl.
    + rewrite lookup_insert_eq. by destruct (MultiState.draw _ _ _).
    + by rewrite Hms.
Qed.

Lemma update_and_draw_ok {E} (force : bool) now f bs mh :
  ((if force then BarState.update_and_force_draw (E := E) now f
    else BarState.update_and_draw now f) (bs, mh)).1 = Ok tt.
Proof. by destruct force. Qed.

(** The record after the transaction is the mutated record, whatever the
    target did. *)
Lemma update_and_draw_state {E} now f bs mh :
  state (BarState.update_and_draw (E := E) now f (bs, mh)).2.1
  = BarState.update now f (state bs).
Proof.
  unfold BarState.update_and_draw. rewrite ignore_err_state.
  by rewrite draw_state_eq.
Qed.

Lemma update_and_force_draw_state {E} now f bs mh :
  state (BarState.update_and_force_draw (E := E) now f (bs, mh)).2.1
  = BarState.update now f (state bs).
Proof.
  unfold BarState.update_and_force_draw. rewrite ignore_err_state.
  by rewrite draw_state_eq.
Qed.

(** [update] changes the estimator and nothing else of what [f] yields. *)
Lemma update_fields now f s :
  let s' := BarState.update now f s in
  pos s' = pos (f s) ∧ len s' = len (f s) ∧ tick s' = tick (f s)
  ∧ status s' = status (f s) ∧ message s' = message (f s)
  ∧ prefix s' = prefix (f s) ∧ started s' = started (f s)
  ∧ steady_tick s' = steady_tick (f s) ∧ tick_thread s' = tick_thread (f s)
  ∧ style s' = style (f s).
Proof. unfold BarState.update. by destruct (pos (f s) =? pos s)%Z. Qed.

Lemma update_wf now f s :
  ProgressState.wf (f s) → ProgressState.wf (BarState.update now f s).
Proof.
  unfold ProgressState.wf. pose proof (update_fields now f s) as Hf. simpl in Hf.
  destruct Hf as (-> & -> & -> & _ & _ & _ & _ & -> & _). done.
Qed.

Lemma logged_parts (logs lines : list string) :
  ProgressDrawState.visible (logged logs lines) = lines
  ∧ ProgressDrawState.orphans (logged logs lines) = logs
  ∧ ProgressDrawState.line_count (logged logs lines) = length lines.
Proof.
  unfold logged, ProgressDrawState.visible, ProgressDrawState.orphans,
    ProgressDrawState.line_count. cbn.
  rewrite drop_app_length, take_app_length, length_app. repeat split. lia.
Qed.

End facts.

(** ** Lemmas: the throttle *)

Section throttle.
Context `{TermLike T} `{StyleOps Sty}.
Implicit Types (bs : BarState T Sty) (mh : MHeap T) (tg : TermTarget T).

(** An unforced redraw within the interval of the last paint does
    nothing: the terminal is not called and the target is as it was. *)
Lemma draw_throttled now bs mh tg t0 :
  draw_target bs = Direct tg →
  RateLimiter.last_draw (rate_limiter tg) = Some t0 →
  (now - t0 < RateLimiter.interval (rate_limiter tg))%Z →
  BarState.draw false now (bs, mh) = (Ok tt, (bs, mh)).
Proof.
  intros Htgt Ht0 Hlt. unfold BarState.draw.
  by rewrite Htgt, (target_drawable_throttled _ _ _ Ht0 Hlt).
Qed.

(** A redraw on a direct target that is forced, or made once the interval
    has elapsed, reaches the terminal, and the throttle records its time;
    the target stays a direct one, and the regions are not touched. *)
Lemma draw_direct force_draw now bs mh tg :
  draw_target bs = Direct tg →
  force_draw || RateLimiter.allow now (rate_limiter tg) = true →
  ∃ tg', (BarState.draw force_draw now (bs, mh)).2 = (BarState.set_draw_target (Direct tg') bs, mh)
    ∧ rate_limiter tg' = RateLimiter.record now (rate_limiter tg).
Proof.
  intros Htgt Hgo. unfold BarState.draw. rewrite Htgt. simpl.
  unfold TermTarget.drawable. rewrite Hgo. simpl.
  match goal with |- context [TermTarget.draw ?x] =>
    pose proof (draw_rate_limiter x) as Hrl; destruct (TermTarget.draw x) as [r tg'] end.
  exists tg'. split; [done|]. exact Hrl.
Qed.

End throttle.

(** ** Lemmas: a broken console terminal *)

Section broken.
Context `{StyleOps Sty}.
Implicit Types (bs : BarState console.Term Sty) (mh : MHeap console.Term)
  (tg : TermTarget console.Term).

(** A redraw that reaches a broken terminal fails at the first call: the
    terminal and the recorded line count are as before, the throttle has
    been stamped all the same, and the record is untouched. *)
Lemma draw_direct_broken force_draw now bs mh tg :
  draw_target bs = Direct tg →
  force_draw || RateLimiter.allow now (rate_limiter tg) = true →
  console.budget (term tg) = Some 0%nat →
  ∃ tg', BarState.draw force_draw now (bs, mh)
         = (Err (IoError console.EPIPE), (BarState.set_draw_target (Direct tg') bs, mh))
    ∧ term tg' = term tg
    ∧ last_line_count tg' = last_line_count tg
    ∧ rate_limiter tg' = RateLimiter.record now (rate_limiter tg).
Proof.
  intros Htgt Hgo Hb. unfold BarState.draw. rewrite Htgt. simpl.
  unfold TermTarget.drawable. rewrite Hgo. simpl.
  rewrite draw_broken by done. by eexists.
Qed.

End broken.

(** ** Lemmas: what reaches a terminal that records *)

Section recorder_facts.
Context `{RecorderOk T} `{StyleOps Sty}.
Implicit Types (bs : BarState T Sty) (mh : MHeap T) (tg : TermTarget T).

(** A redraw that is not declined, on a healthy terminal: the calls that
    paint the record's frame over the previous one are received, and the
    target records the frame, its line count and the time. *)
Lemma draw_direct_healthy force_draw now bs mh tg :
  draw_target bs = Direct tg →
  force_draw || RateLimiter.allow now (rate_limiter tg) = true →
  healthy (term tg) →
  BarState.draw force_draw now (bs, mh)
  = (Ok tt,
     (BarState.set_draw_target
        (Direct (painted_with (BarState.frame (state bs) tg) now tg)) bs, mh)).
Proof.
  intros Htgt Hgo Hb. unfold BarState.draw. rewrite Htgt. simpl.
  unfold TermTarget.drawable. rewrite Hgo. simpl.
  by rewrite draw_healthy.
Qed.

(** What the painted target holds. *)
Lemma painted_with_received ds now tg :
  received (term (painted_with ds now tg))
  = received (term tg) ++ ProgressDrawState.draw_ops ds (last_line_count tg).
Proof. apply received_receive_all. Qed.

Lemma painted_with_healthy ds now tg :
  healthy (term tg) → healthy (term (painted_with ds now tg)).
Proof. apply healthy_receive_all. Qed.

Lemma painted_with_width ds now tg :
  width (term (painted_with ds now tg)) = width (term tg).
Proof. apply width_receive_all. Qed.

End recorder_facts.
