(* ===== verification/Handle.v ===== *)
(** * The progress handle

    [src/src/progress_bar.rs].  A [ProgressBar] is an
    [Arc<Mutex<BarState>>]: here a location [arc] of the store [bars] of a
    [World], whose cell holds the strong count and, while the count is
    positive, the mutex with its lock flag, its poison flag and the guarded
    [BarState].  The weak count is left out: it decides only when the
    allocation is freed, which no operation observes.  The [World] also
    holds the shared regions and the tick threads that have been spawned.

    A method is a computation in [M = SE World panic].  [guarded self m] is
    the scope of a [MutexGuard]: [lock().unwrap()], the body, and the
    guard's drop, which poisons the mutex when the body panicked.
    [with_lock self body] runs a computation of the bar cell inside that
    scope.  Every call of [Instant::now()] is a parameter.  Module
    [ProgressBar] has one definition per method, in the order of the file;
    module [WeakProgressBar] has the weak handle. *)

From Stdlib Require Import ZArith String List Lia QArith.
From stdpp Require Import base option list gmap.
From S2P Require Import Prelude TermLike ProgressRecord OutputTarget BarCell.

#[local] Open Scope Z_scope.

(** ** Panics *)

(** [PoisonError]: [lock().unwrap()] on a poisoned mutex.  [Deadlock]: a
    lock taken again by the thread that holds it (the call never returns;
    the model ends it here).  [Dangling]: a handle whose cell is gone,
    which a well-formed world rules out.  [Panicked]: a panic of the
    caller's own code, as in the thunk of [suspend]. *)
Inductive panic : Type :=
| PoisonError
| Deadlock
| Dangling
| Panicked (payload : string).

#[global] Instance panic_eq_dec : EqDecision panic.
Proof. solve_decision. Defined.

(** ** The store *)

Section World.
Context {T Sty : Type}.

Record Mutex : Type := mkMutex {
  locked : bool;
  poisoned : bool;
  data : BarState T Sty
}.

(** [value] is [None] once the last owning handle is gone. *)
Record ArcInner : Type := mkArc {
  strong : nat;
  value : option Mutex
}.

(** A tick thread: asleep with its weak reference and interval; awake
    with the owning reference its upgrade gave it; or finished. *)
Inductive TickThread : Type :=
| Sleeping (state_arc : loc) (ms : Z)
| Upgraded (state_arc : loc) (ms : Z)
| Exited.

Record World : Type := mkWorld {
  bars : gmap loc ArcInner;
  multis : gmap loc (MultiState T);
  threads : gmap tid TickThread
}.

Definition set_bars (v : gmap loc ArcInner) (w : World) : World :=
  mkWorld v (multis w) (threads w).

Definition set_multis (v : gmap loc (MultiState T)) (w : World) : World :=
  mkWorld (bars w) v (threads w).

Definition set_threads (v : gmap tid TickThread) (w : World) : World :=
  mkWorld (bars w) (multis w) v.

Definition empty_world : World := mkWorld ∅ ∅ ∅.

(** The handle, and the weak handle ([None]: the one [Weak::new] makes,
    which never upgrades). *)
Record ProgressBar : Type := mkProgressBar { arc : loc }.

Record WeakProgressBar : Type := mkWeakProgressBar { weak : option loc }.

(** What [wrap_read], [wrap_write] and [wrap_iter] build. *)
Record ProgressBarIter (R : Type) : Type := mkProgressBarIter {
  progress : ProgressBar;
  it : R
}.

End World.
Arguments Mutex T Sty : clear implicits.
Arguments ArcInner T Sty : clear implicits.
Arguments World T Sty : clear implicits.
Arguments mkProgressBarIter {R} progress it.
Arguments progress {R} _.
Arguments it {R} _.

#[global] Instance ProgressBar_eq_dec : EqDecision ProgressBar.
Proof. solve_decision. Defined.

#[global] Instance TickThread_eq_dec : EqDecision TickThread.
Proof. solve_decision. Defined.

Abbreviation M T Sty := (SE (World T Sty) panic).

(** ** Reference counting and the mutex *)

Module Arc.
Section ops.
Context {T Sty : Type}.
Implicit Types (w : World T Sty) (l : loc).

(** The guarded value of a live cell. *)
Definition mutex_of l w : option (Mutex T Sty) :=
  c ← bars w !! l; value c.

Definition alive l w : bool := bool_decide (is_Some (mutex_of l w)).

(** [Arc::new(Mutex::new(v))]. *)
Definition new (v : BarState T Sty) : M T Sty loc := λ w,
  let l := fresh (dom (bars w)) in
  (Ok l, set_bars (<[l := mkArc 1 (Some (mkMutex false false v))]> (bars w)) w).

(** [Arc::clone]. *)
Definition clone l : M T Sty unit := λ w,
  match bars w !! l with
  | Some (mkArc (S n) (Some m)) =>
      (Ok tt, set_bars (<[l := mkArc (S (S n)) (Some m)]> (bars w)) w)
  | _ => (Err Dangling, w)
  end.

(** The drop of an owning reference; the last one drops the value. *)
Definition drop l : M T Sty unit := λ w,
  match bars w !! l with
  | Some (mkArc (S (S n)) (Some m)) =>
      (Ok tt, set_bars (<[l := mkArc (S n) (Some m)]> (bars w)) w)
  | Some (mkArc 1 (Some m)) =>
      (Ok tt, set_bars (<[l := mkArc 0 None]> (bars w)) w)
  | _ => (Err Dangling, w)
  end.

(** [Weak::upgrade]: an owning reference while one exists. *)
Definition upgrade l : M T Sty bool := λ w,
  match bars w !! l with
  | Some (mkArc (S n) (Some m)) =>
      (Ok true, set_bars (<[l := mkArc (S (S n)) (Some m)]> (bars w)) w)
  | _ => (Ok false, w)
  end.

(** Replaces the mutex of a live cell. *)
Definition set_mutex l (m : Mutex T Sty) w : World T Sty :=
  match bars w !! l with
  | Some (mkArc n (Some _)) => set_bars (<[l := mkArc n (Some m)]> (bars w)) w
  | _ => w
  end.

(** [lock().unwrap()]. *)
Definition lock l : M T Sty unit := λ w,
  match mutex_of l w with
  | Some m =>
      if locked m then (Err Deadlock, w)
      else if poisoned m then (Err PoisonError, w)
      else (Ok tt, set_mutex l (mkMutex true false (data m)) w)
  | None => (Err Dangling, w)
  end.

(** The drop of the guard: normally, or during a panic. *)
Definition unlock (panicking : bool) l w : World T Sty :=
  match mutex_of l w with
  | Some m => set_mutex l (mkMutex false (poisoned m || panicking) (data m)) w
  | None => w
  end.

(** The scope of a [MutexGuard] on the cell [l]. *)
Definition guarded {A} l (m : M T Sty A) : M T Sty A := λ w,
  match lock l w with
  | (Ok _, w1) =>
      match m w1 with
      | (Ok a, w2) => (Ok a, unlock false l w2)
      | (Err e, w2) => (Err e, unlock true l w2)
      end
  | (Err e, w1) => (Err e, w1)
  end.

(** A computation of the bar cell, run on the guarded value and the
    shared regions. *)
Definition in_guard {A} l (body : SE (BarState T Sty * MHeap T) panic A) : M T Sty A := λ w,
  match mutex_of l w with
  | Some m =>
      let '(r, (bs, mh)) := body (data m, multis w) in
      (r, set_multis mh (set_mutex l (mkMutex (locked m) (poisoned m) bs) w))
  | None => (Err Dangling, w)
  end.

Definition with_lock {A} l (body : SE (BarState T Sty * MHeap T) panic A) : M T Sty A :=
  guarded l (in_guard l body).

(** The bar cell behind a handle, when it is there to be locked. *)
Definition peek l w : option (BarState T Sty) := data <$> mutex_of l w.

End ops.
End Arc.

(** ** The methods of [ProgressBar] *)

Module ProgressBar.
Section ops.
Context `{TermLike T} `{StyleOps Sty}.
Implicit Types (self : ProgressBar) (now : Instant).

(** The tick every explicit mutation gives the record, unless steady
    ticking is on and has ticked already. *)
Definition tick_unless_steady (state : ProgressState Sty) : ProgressState Sty :=
  if (steady_tick state =? 0)%Z || (tick state =? 0)%Z
  then set_tick (saturating_add (tick state) 1) state
  else state.

(** The [Debug] form shows the name of the type and nothing of the state,
    so it takes no lock. *)
Definition fmt self : string := "ProgressBar".

Definition with_draw_target (len : Z) (draw_target : ProgressDrawTarget T) now
  : M T Sty ProgressBar :=
  let* l := Arc.new (mkBarState draw_target (ProgressState.new len now)) in
  ret (mkProgressBar l).

(** [stderr] is the process's standard error terminal. *)
Definition new (len : Z) (stderr : T) now : M T Sty ProgressBar :=
  with_draw_target len (ProgressDrawTarget.stderr stderr) now.

Definition hidden now : M T Sty ProgressBar :=
  with_draw_target u64_MAX ProgressDrawTarget.hidden now.

Definition with_style self (style : Sty) : M T Sty ProgressBar :=
  Arc.with_lock (arc self) (BarState.modify (set_style style)) ;;; ret self.

Definition with_prefix self (prefix : string) : M T Sty ProgressBar :=
  Arc.with_lock (arc self) (BarState.modify (set_prefix prefix)) ;;; ret self.

Definition with_message self (message : string) : M T Sty ProgressBar :=
  Arc.with_lock (arc self) (BarState.modify (set_message message)) ;;; ret self.

Definition with_position self (pos : Z) : M T Sty ProgressBar :=
  Arc.with_lock (arc self) (BarState.modify (set_pos pos)) ;;; ret self.

Definition with_elapsed self (elapsed : Duration) now : M T Sty ProgressBar :=
  Arc.with_lock (arc self) (BarState.modify (set_started (now - elapsed))) ;;; ret self.

Definition set_style self (style : Sty) : M T Sty unit :=
  Arc.with_lock (arc self) (BarState.modify (ProgressRecord.set_style style)).

Definition new_spinner (stderr : T) now : M T Sty ProgressBar :=
  let* rv := new u64_MAX stderr now in
  set_style rv default_spinner ;;;
  ret rv.

Definition update_and_draw self now (f : ProgressState Sty → ProgressState Sty)
  : M T Sty unit :=
  Arc.with_lock (arc self) (BarState.update_and_draw now f).

Definition tick self now : M T Sty unit :=
  update_and_draw self now tick_unless_steady.

(** [thread::spawn]: a new thread, about to sleep. *)
Definition spawn (th : TickThread) : M T Sty tid := λ w,
  let t := fresh (dom (threads w)) in
  (Ok t, set_threads (<[t := th]> (threads w)) w).

(** The critical section of [enable_steady_tick]: sets the interval and,
    when no tick thread is recorded, spawns one with a weak reference to
    the cell.  Yields whether it spawned. *)
Definition enable_steady_tick_locked self (ms : Z) : M T Sty bool :=
  Arc.guarded (arc self) (
    Arc.in_guard (arc self) (BarState.modify (set_steady_tick ms)) ;;;
    let* running := Arc.in_guard (arc self)
                      (BarState.read (λ bs _, bool_decide (is_Some (tick_thread (state bs))))) in
    if running : bool then ret false
    else
      let* t := spawn (Sleeping (arc self) ms) in
      Arc.in_guard (arc self) (BarState.modify (set_tick_thread (Some t))) ;;;
      ret true).

Definition enable_steady_tick self (ms : Z) now : M T Sty unit :=
  let* spawned := enable_steady_tick_locked self ms in
  if spawned : bool then tick self now else ret tt.

Definition set_thread (t : tid) (th : TickThread) : M T Sty unit :=
  modify (λ w, set_threads (<[t := th]> (threads w)) w).

(** The loop of [steady_tick], first half of an iteration: the sleep is
    over and the weak reference is upgraded; the thread ends when the cell
    is gone. *)
Definition steady_tick_wake (t : tid) : M T Sty unit := λ w,
  match threads w !! t with
  | Some (Sleeping state_arc ms) =>
      (let* live := Arc.upgrade state_arc in
       set_thread t (if live : bool then Upgraded state_arc ms else Exited)) w
  | _ => (Ok tt, w)
  end.

(** What the thread does with the lock held: [None] to leave the loop
    (the cell is finished or ticking was disabled; the cell forgets its
    thread), the interval to sleep next otherwise, after a tick and an
    unforced redraw. *)
Definition steady_tick_locked now : SE (BarState T Sty * MHeap T) panic (option Z) :=
  λ '(bs, mh),
  if ProgressState.is_finished (state bs) || (steady_tick (state bs) =? 0)%Z
  then (Ok None,
        (BarState.set_state (set_tick_thread None (set_steady_tick 0 (state bs))) bs, mh))
  else
    let st := if (ProgressRecord.tick (state bs) =? 0)%Z then state bs
              else set_tick (saturating_add (ProgressRecord.tick (state bs)) 1) (state bs) in
    let ms := steady_tick st in
    (let* _ := ignore_err (BarState.draw false now) in ret (Some ms))
      (BarState.set_state st bs, mh).

(** Second half of an iteration: the critical section, then the owning
    reference is dropped.  A panic of [lock().unwrap()] ends the thread. *)
Definition steady_tick_body (t : tid) now : M T Sty unit := λ w,
  match threads w !! t with
  | Some (Upgraded state_arc ms) =>
      let '(r, w1) := Arc.with_lock state_arc (steady_tick_locked now) w in
      let next := match r with
                  | Ok (Some ms') => Sleeping state_arc ms'
                  | Ok None | Err _ => Exited
                  end in
      (ignore_err (Arc.drop state_arc) ;;; set_thread t next) w1
  | _ => (Ok tt, w)
  end.

(** One iteration of the loop. *)
Definition steady_tick_iteration (t : tid) now : M T Sty unit :=
  steady_tick_wake t ;;; steady_tick_body t now.

(** The loop, run over the times at which the thread wakes up. *)
Definition steady_tick (t : tid) (wakes : list Instant) : M T Sty unit :=
  for_each (steady_tick_iteration t) wakes.

Definition disable_steady_tick self now : M T Sty unit :=
  enable_steady_tick self 0 now.

(** The closure of [inc]: the position moves by [delta], saturating. *)
Definition inc_closure (delta : Z) (state : ProgressState Sty) : ProgressState Sty :=
  tick_unless_steady (set_pos (saturating_add (pos state) delta) state).

Definition inc self (delta : Z) now : M T Sty unit :=
  update_and_draw self now (inc_closure delta).

Definition is_hidden self : M T Sty bool :=
  Arc.with_lock (arc self)
    (BarState.read (λ bs _, ProgressDrawTarget.is_hidden (draw_target bs))).

Definition is_finished self : M T Sty bool :=
  Arc.with_lock (arc self) (BarState.read (λ bs _, ProgressState.is_finished (state bs))).

(** The critical section of [println]. *)
Definition println_locked (msg : string) now : SE (BarState T Sty * MHeap T) panic unit :=
  λ '(bs, mh),
  let draw_lines := ProgressState.should_render (state bs)
                    && negb (ProgressDrawTarget.is_hidden (draw_target bs)) in
  let width := ProgressDrawTarget.width (draw_target bs) mh in
  match ProgressDrawTarget.drawable true now (draw_target bs) with
  | None => (Ok tt, (bs, mh))
  | Some drawable =>
      let draw_state := Drawable.state drawable mh in
      let draw_state := ProgressDrawState.set_move_cursor false draw_state in
      let draw_state := ProgressDrawState.set_alignment Top draw_state in
      let draw_state := ProgressDrawState.set_lines (lines draw_state ++ str_lines msg) draw_state in
      let draw_state := ProgressDrawState.set_orphan_lines (length (lines draw_state)) draw_state in
      let draw_state :=
        if draw_lines
        then ProgressDrawState.set_lines
               (lines draw_state ++ format_state (style (state bs)) (state bs) width) draw_state
        else draw_state in
      let '(drawable, mh) := Drawable.set_state draw_state drawable mh in
      let '(_, tgt, mh) := Drawable.draw drawable mh in
      (Ok tt, (BarState.set_draw_target tgt bs, mh))
  end.

Definition println self (msg : string) now : M T Sty unit :=
  Arc.with_lock (arc self) (println_locked msg now).

(** The closures of the setters: the field is assigned; position, prefix
    and message changes tick, length changes do not. *)
Definition set_position_closure (pos : Z) (state : ProgressState Sty) : ProgressState Sty :=
  tick_unless_steady (set_pos pos state).

Definition set_position self (pos : Z) now : M T Sty unit :=
  update_and_draw self now (set_position_closure pos).

Definition set_length_closure (len : Z) (state : ProgressState Sty) : ProgressState Sty :=
  set_len len state.

Definition set_length self (len : Z) now : M T Sty unit :=
  update_and_draw self now (set_length_closure len).

Definition inc_length_closure (delta : Z) (state : ProgressState Sty) : ProgressState Sty :=
  set_len (saturating_add (len state) delta) state.

Definition inc_length self (delta : Z) now : M T Sty unit :=
  update_and_draw self now (inc_length_closure delta).

Definition set_prefix_closure (prefix : string) (state : ProgressState Sty)
  : ProgressState Sty :=
  tick_unless_steady (ProgressRecord.set_prefix prefix state).

Definition set_prefix self (prefix : string) now : M T Sty unit :=
  update_and_draw self now (set_prefix_closure prefix).

Definition set_message_closure (msg : string) (state : ProgressState Sty)
  : ProgressState Sty :=
  tick_unless_steady (ProgressRecord.set_message msg state).

Definition set_message self (msg : string) now : M T Sty unit :=
  update_and_draw self now (set_message_closure msg).

Definition downgrade self : M T Sty WeakProgressBar :=
  ret (mkWeakProgressBar (Some (arc self))).

(** The closures of the resets. *)
Definition reset_eta_closure now (state : ProgressState Sty) : ProgressState Sty :=
  set_est (Estimator.reset (pos state) now (est state)) state.

Definition reset_eta self now : M T Sty unit :=
  update_and_draw self now (reset_eta_closure now).

Definition reset_elapsed_closure now (state : ProgressState Sty) : ProgressState Sty :=
  set_started now state.

Definition reset_elapsed self now : M T Sty unit :=
  update_and_draw self now (reset_elapsed_closure now).

Definition reset_closure (state : ProgressState Sty) : ProgressState Sty :=
  set_status InProgress (set_pos 0 state).

(** Three transactions, each with its own reading of the clock. *)
Definition reset self (now1 now2 now3 : Instant) : M T Sty unit :=
  reset_eta self now1 ;;;
  reset_elapsed self now2 ;;;
  update_and_draw self now3 reset_closure.

Definition finish self now : M T Sty unit :=
  Arc.with_lock (arc self) (BarState.finish now).

Definition finish_at_current_pos self now : M T Sty unit :=
  Arc.with_lock (arc self) (BarState.finish_at_current_pos now).

Definition finish_with_message self (msg : string) now : M T Sty unit :=
  Arc.with_lock (arc self) (BarState.finish_with_message msg now).

Definition finish_and_clear self now : M T Sty unit :=
  Arc.with_lock (arc self) (BarState.finish_and_clear now).

Definition abandon self now : M T Sty unit :=
  Arc.with_lock (arc self) (BarState.abandon now).

Definition abandon_with_message self (msg : string) now : M T Sty unit :=
  Arc.with_lock (arc self) (BarState.abandon_with_message msg now).

Definition finish_using_style self now : M T Sty unit :=
  Arc.with_lock (arc self) (BarState.finish_using_style now).

(** The critical section of [set_draw_target]: the old target is
    disconnected, then replaced. *)
Definition set_draw_target_locked (target : ProgressDrawTarget T) now
  : SE (BarState T Sty * MHeap T) panic unit := λ '(bs, mh),
  let mh := ProgressDrawTarget.disconnect now (draw_target bs) mh in
  (Ok tt, (BarState.set_draw_target target bs, mh)).

Definition set_draw_target self (target : ProgressDrawTarget T) now : M T Sty unit :=
  Arc.with_lock (arc self) (set_draw_target_locked target now).

(** Erases the frame when the target hands one over. *)
Definition suspend_clear now : SE (BarState T Sty * MHeap T) panic unit := λ '(bs, mh),
  match ProgressDrawTarget.drawable true now (draw_target bs) with
  | Some drawable =>
      let '(_, tgt, mh) := Drawable.clear drawable mh in
      (Ok tt, (BarState.set_draw_target tgt bs, mh))
  | None => (Ok tt, (bs, mh))
  end.

(** [f] runs with the lock held; its panic poisons the mutex. *)
Definition suspend {R} self (f : M T Sty R) now : M T Sty R :=
  Arc.guarded (arc self) (
    Arc.in_guard (arc self) (suspend_clear now) ;;;
    let* ret_ := f in
    Arc.in_guard (arc self) (ignore_err (BarState.draw true now)) ;;;
    ret ret_).

(** The derived [Clone]: one more owner of the same cell. *)
Definition clone self : M T Sty ProgressBar :=
  Arc.clone (arc self) ;;; ret self.

(** The drop of a handle. *)
Definition drop self : M T Sty unit := Arc.drop (arc self).

Definition wrap_iter {It} self (it : It) : M T Sty (ProgressBarIter It) :=
  let* progress := clone self in ret (mkProgressBarIter progress it).

Definition wrap_read {R} self (read : R) : M T Sty (ProgressBarIter R) :=
  let* progress := clone self in ret (mkProgressBarIter progress read).

Definition wrap_write {W} self (write : W) : M T Sty (ProgressBarIter W) :=
  let* progress := clone self in ret (mkProgressBarIter progress write).

(** The [tokio] variants wrap in the same way. *)
Definition wrap_async_write {W} self (write : W) : M T Sty (ProgressBarIter W) :=
  let* progress := clone self in ret (mkProgressBarIter progress write).

Definition wrap_async_read {W} self (write : W) : M T Sty (ProgressBarIter W) :=
  let* progress := clone self in ret (mkProgressBarIter progress write).

Definition position self : M T Sty Z :=
  Arc.with_lock (arc self) (BarState.read (λ bs _, pos (state bs))).

Definition length self : M T Sty Z :=
  Arc.with_lock (arc self) (BarState.read (λ bs _, len (state bs))).

Definition eta self : M T Sty Q :=
  Arc.with_lock (arc self) (BarState.read (λ bs _, ProgressState.eta (state bs))).

Definition per_sec self : M T Sty Q :=
  Arc.with_lock (arc self) (BarState.read (λ bs _, ProgressState.per_sec (state bs))).

Definition duration self now : M T Sty Q :=
  Arc.with_lock (arc self) (BarState.read (λ bs _, ProgressState.duration now (state bs))).

Definition elapsed self now : M T Sty Duration :=
  Arc.with_lock (arc self) (BarState.read (λ bs _, ProgressState.elapsed now (state bs))).

(** The guarded cell, as the guard the method returns lets it be read. *)
Definition state self : M T Sty (BarState T Sty) :=
  Arc.with_lock (arc self) (BarState.read (λ bs _, bs)).

Definition index self : M T Sty (option nat) :=
  let* bs := state self in
  ret (snd <$> ProgressDrawTarget.remote (draw_target bs)).

End ops.
End ProgressBar.

Module WeakProgressBar.
Section ops.
Context {T Sty : Type}.

(** A weak handle that never upgrades. *)
Definition new : WeakProgressBar := mkWeakProgressBar None.

Definition upgrade (self : WeakProgressBar) : M T Sty (option ProgressBar) :=
  match weak self with
  | None => ret None
  | Some l =>
      let* live := Arc.upgrade l in
      ret (if live : bool then Some (mkProgressBar l) else None)
  end.

End ops.
End WeakProgressBar.

(** ** Vocabulary of the theorems *)

(** The cell [l] has [n] owners and its mutex, neither locked nor
    poisoned, guards [bs]. *)
Definition idle_at {T Sty} (l : loc) (n : nat) (bs : BarState T Sty) (w : World T Sty) : Prop :=
  bars w !! l = Some (mkArc n (Some (mkMutex false false bs))).

(** The world [w] with the cell [l] rewritten and the regions replaced. *)
Definition commit {T Sty} (l : loc) (c : ArcInner T Sty) (mh : MHeap T) (w : World T Sty)
  : World T Sty :=
  mkWorld (<[l := c]> (bars w)) mh (threads w).

(** What a transaction on the cell [l] leaves alone: the tick threads and
    every other cell. *)
Definition frame_except {T Sty} (l : loc) (w w' : World T Sty) : Prop :=
  threads w' = threads w ∧ ∀ l', l' ≠ l → bars w' !! l' = bars w !! l'.

(** A console terminal of 24 by 80 that never fails, a bar of length 10 on
    it created at time 0, and the world that holds just this bar. *)
Definition demo_term : console.Term := console.fresh 24 80 None.

Definition demo_bar : BarState console.Term ProgressFinish :=
  mkBarState (ProgressDrawTarget.stderr demo_term) (ProgressState.new 10 0).

Definition demo_world : World console.Term ProgressFinish :=
  (ProgressBar.new 10 demo_term 0 empty_world).2.

Definition demo_pb : ProgressBar := mkProgressBar 0.

(** A hidden bar, as [ProgressBar::hidden] makes it. *)
Definition hidden_bar : BarState console.Term ProgressFinish :=
  mkBarState ProgressDrawTarget.hidden (ProgressState.new u64_MAX 0).

Definition hidden_world : World console.Term ProgressFinish :=
  (ProgressBar.hidden 0 empty_world).2.

(** The demo world after a thunk has panicked inside [suspend]. *)
Definition poisoned_world : World console.Term ProgressFinish :=
  (ProgressBar.suspend demo_pb (throw (Panicked "thunk") : M _ _ unit) 9 demo_world).2.

(** The demo world once the bar has painted its first frame, at time 100. *)
Definition painted_world : World console.Term ProgressFinish :=
  (ProgressBar.tick demo_pb 100 demo_world).2.

(** The cells of these worlds, and the terminal target of the painted one. *)
Definition painted_bar : BarState console.Term ProgressFinish :=
  default demo_bar (Arc.peek (arc demo_pb) painted_world).

Definition painted_target : TermTarget console.Term :=
  match draw_target painted_bar with
  | Direct tg => tg
  | _ => TermTarget.new demo_term ProgressDrawTarget.DEFAULT_REFRESH_RATE
  end.

Definition poisoned_bar : BarState console.Term ProgressFinish :=
  default demo_bar (Arc.peek (arc demo_pb) poisoned_world).

(** A bar on a terminal whose stream is broken from the start. *)
Definition broken_term : console.Term := console.fresh 24 80 (Some 0%nat).

Definition broken_bar : BarState console.Term ProgressFinish :=
  mkBarState (ProgressDrawTarget.stderr broken_term) (ProgressState.new 10 0).

Definition broken_world : World console.Term ProgressFinish :=
  (ProgressBar.new 10 broken_term 0 empty_world).2.

Section vocabulary.
Context `{TermLike T} `{StyleOps Sty}.
Implicit Types (w : World T Sty) (self : ProgressBar) (bs : BarState T Sty)
  (s : ProgressState Sty) (now : Instant) (calls : list (Z * Instant)).

(** The cell and the regions after the update-and-draw transaction. *)
Definition after_update now (f : ProgressState Sty → ProgressState Sty) bs (mh : MHeap T)
  : BarState T Sty * MHeap T :=
  (BarState.draw false now (BarState.set_state (BarState.update now f (state bs)) bs, mh)).2.

(** The same for the forced transaction of the finish family. *)
Definition after_force now (f : ProgressState Sty → ProgressState Sty) bs (mh : MHeap T)
  : BarState T Sty * MHeap T :=
  (BarState.draw true now (BarState.set_state (BarState.update now f (state bs)) bs, mh)).2.

(** A run of increments, each with its delta and the time it is made at. *)
Definition incs self calls : M T Sty unit :=
  for_each (λ c, ProgressBar.inc self c.1 c.2) calls.

(** The world the thunk of [suspend] runs in: the cell locked and its
    frame erased. *)
Definition suspended self now : World T Sty → World T Sty := λ w,
  ((Arc.lock (arc self) ;;; Arc.in_guard (arc self) (ProgressBar.suspend_clear now)) w).2.

(** The cell and the regions when [suspend] returns: the frame was
    erased in the regions [mh], and is painted again in the regions [mh2]
    the thunk left. *)
Definition after_thunk now bs (mh mh2 : MHeap T) : BarState T Sty * MHeap T :=
  (BarState.draw true now ((ProgressBar.suspend_clear now (bs, mh)).2.1, mh2)).2.

(** The scenario of the test [test_weak_pb]: a weak handle upgrades while
    the bar has an owner and no longer once the owner is dropped.  Yields
    whether the first upgrade succeeded and whether the second failed. *)
Definition test_weak_pb (stderr : T) now : M T Sty (bool * bool) :=
  let* pb := ProgressBar.new 0 stderr now in
  let* weak := ProgressBar.downgrade pb in
  let* up1 := WeakProgressBar.upgrade weak in
  (match up1 with Some pb1 => ProgressBar.drop pb1 | None => ret tt end) ;;;
  ProgressBar.drop pb ;;;
  let* up2 := WeakProgressBar.upgrade weak in
  ret (bool_decide (is_Some up1), bool_decide (up2 = None)).

(** The scenarios of the tests [test_pbar_zero], [test_pbar_maxu64],
    [test_pbar_overflow] and [test_get_position]; the first two yield the
    fraction the test compares, the last one the position. *)
Definition test_pbar_zero (stderr : T) now : M T Sty Q :=
  let* pb := ProgressBar.new 0 stderr now in
  let* bs := ProgressBar.state pb in
  ret (ProgressState.fraction (state bs)).

Definition test_pbar_maxu64 (stderr : T) now : M T Sty Q :=
  let* pb := ProgressBar.new u64_MAX stderr now in
  let* bs := ProgressBar.state pb in
  ret (ProgressState.fraction (state bs)).

Definition test_pbar_overflow (stderr : T) (t0 t1 t2 t3 : Instant) : M T Sty ProgressBar :=
  let* pb := ProgressBar.new 1 stderr t0 in
  ProgressBar.set_draw_target pb ProgressDrawTarget.hidden t1 ;;;
  ProgressBar.inc pb 2 t2 ;;;
  ProgressBar.finish pb t3 ;;;
  ret pb.

Definition test_get_position (stderr : T) (t0 t1 t2 : Instant) : M T Sty Z :=
  let* pb := ProgressBar.new 1 stderr t0 in
  ProgressBar.set_draw_target pb ProgressDrawTarget.hidden t1 ;;;
  ProgressBar.inc pb 2 t2 ;;;
  ProgressBar.position pb.

(** The examples of the documentation of [set_draw_target] and of
    [suspend].  [println_] is the [println!] of the thunk, a write of the
    caller to the standard output. *)
Definition example_set_draw_target (stderr : T) (t0 t1 : Instant) : M T Sty ProgressBar :=
  let* pb := ProgressBar.new 100 stderr t0 in
  ProgressBar.set_draw_target pb (ProgressDrawTarget.stderr stderr) t1 ;;;
  ret pb.

Definition example_suspend (stderr : T) (println_ : string → M T Sty unit) (t0 t1 : Instant)
  : M T Sty unit :=
  let* pb := ProgressBar.new 3 stderr t0 in
  ProgressBar.suspend pb (println_ "Log message"%string) t1.

End vocabulary.

(** ** Lemmas: the store, the mutex *)

Ltac world_simpl :=
  repeat first
    [ progress cbn [bars multis threads set_bars set_multis set_threads commit
                    strong value locked poisoned data arc weak fst snd] in *
    | rewrite lookup_insert_eq in *
    | rewrite insert_insert_eq in * ].

Section store_facts.
Context {T Sty : Type}.
Implicit Types (w : World T Sty) (l : loc) (bs : BarState T Sty) (m : Mutex T Sty).

Lemma mutex_of_Some l w n m :
  bars w !! l = Some (mkArc n (Some m)) → Arc.mutex_of l w = Some m.
Proof. unfold Arc.mutex_of. by intros ->. Qed.

Lemma set_mutex_eq l w n m m' :
  bars w !! l = Some (mkArc n (Some m)) →
  Arc.set_mutex l m' w = commit l (mkArc n (Some m')) (multis w) w.
Proof. unfold Arc.set_mutex. by intros ->. Qed.

Lemma commit_commit l c c' mh mh' w :
  commit l c' mh' (commit l c mh w) = commit l c' mh' w.
Proof. unfold commit. world_simpl. done. Qed.

Lemma commit_lookup l c mh w : bars (commit l c mh w) !! l = Some c.
Proof. unfold commit. by world_simpl. Qed.

Lemma commit_lookup_ne l l' c mh w :
  l ≠ l' → bars (commit l c mh w) !! l' = bars w !! l'.
Proof. unfold commit. world_simpl. apply lookup_insert_ne. Qed.

Lemma commit_id l c w : bars w !! l = Some c → commit l c (multis w) w = w.
Proof. unfold commit. intros Hl. rewrite insert_id by done. by destruct w. Qed.

Lemma lock_idle l n bs w :
  idle_at l n bs w →
  Arc.lock l w = (Ok tt, commit l (mkArc n (Some (mkMutex true false bs))) (multis w) w).
Proof.
  intros Hl. unfold Arc.lock. rewrite (mutex_of_Some _ _ _ _ Hl). simpl.
  by rewrite (set_mutex_eq _ _ _ _ _ Hl).
Qed.

Lemma in_guard_eq {A} l n m w (body : SE (BarState T Sty * MHeap T) panic A) r bs' mh' :
  bars w !! l = Some (mkArc n (Some m)) →
  body (data m, multis w) = (r, (bs', mh')) →
  Arc.in_guard l body w
  = (r, commit l (mkArc n (Some (mkMutex (locked m) (poisoned m) bs'))) mh' w).
Proof.
  intros Hl Hb. unfold Arc.in_guard. rewrite (mutex_of_Some _ _ _ _ Hl), Hb.
  by rewrite (set_mutex_eq _ _ _ _ _ Hl).
Qed.

Lemma unlock_eq panicking l n m w :
  bars w !! l = Some (mkArc n (Some m)) →
  Arc.unlock panicking l w
  = commit l (mkArc n (Some (mkMutex false (poisoned m || panicking) (data m)))) (multis w) w.
Proof.
  intros Hl. unfold Arc.unlock. rewrite (mutex_of_Some _ _ _ _ Hl).
  by rewrite (set_mutex_eq _ _ _ _ _ Hl).
Qed.

(** The whole critical section on an idle cell, in one equation: the
    outcome is the body's, the cell holds what the body left, the mutex is
    released, and poisoned exactly when the body failed. *)
Lemma with_lock_idle {A} l n bs w (body : SE (BarState T Sty * MHeap T) panic A) r bs' mh' :
  idle_at l n bs w →
  body (bs, multis w) = (r, (bs', mh')) →
  Arc.with_lock l body w
  = (r, commit l (mkArc n (Some (mkMutex false (negb (is_ok r)) bs'))) mh' w).
Proof.
  intros Hl Hb. unfold Arc.with_lock, Arc.guarded.
  rewrite (lock_idle _ _ _ _ Hl).
  erewrite in_guard_eq; [|apply commit_lookup|exact Hb]. simpl.
  destruct r; erewrite unlock_eq by apply commit_lookup;
    by rewrite !commit_commit.
Qed.

(** The three ways a critical section does not start; the world is left
    as it was. *)
Lemma with_lock_dangling {A} l w (body : SE (BarState T Sty * MHeap T) panic A) :
  Arc.mutex_of l w = None → Arc.with_lock l body w = (Err Dangling, w).
Proof. intros Hl. unfold Arc.with_lock, Arc.guarded, Arc.lock. by rewrite Hl. Qed.

Lemma with_lock_poisoned {A} l w m (body : SE (BarState T Sty * MHeap T) panic A) :
  Arc.mutex_of l w = Some m → locked m = false → poisoned m = true →
  Arc.with_lock l body w = (Err PoisonError, w).
Proof.
  intros Hl Hk Hp. unfold Arc.with_lock, Arc.guarded, Arc.lock. by rewrite Hl, Hk, Hp.
Qed.

Lemma with_lock_locked {A} l w m (body : SE (BarState T Sty * MHeap T) panic A) :
  Arc.mutex_of l w = Some m → locked m = true →
  Arc.with_lock l body w = (Err Deadlock, w).
Proof. intros Hl Hk. unfold Arc.with_lock, Arc.guarded, Arc.lock. by rewrite Hl, Hk. Qed.

End store_facts.

(** ** Lemmas: transactions of the handle *)

Section handle_facts.
Context `{TermLike T} `{StyleOps Sty}.
Implicit Types (w : World T Sty) (self : ProgressBar) (bs : BarState T Sty)
  (s : ProgressState Sty) (now : Instant).

Lemma after_update_state now f bs mh :
  state (after_update now f bs mh).1 = BarState.update now f (state bs).
Proof. unfold after_update. by rewrite draw_state_eq. Qed.

Lemma after_force_state now f bs mh :
  state (after_force now f bs mh).1 = BarState.update now f (state bs).
Proof. unfold after_force. by rewrite draw_state_eq. Qed.

Lemma idle_at_commit l n bs mh w :
  idle_at l n bs (commit l (mkArc n (Some (mkMutex false false bs))) mh w).
Proof. apply commit_lookup. Qed.

Lemma update_and_draw_idle self now f n bs w :
  idle_at (arc self) n bs w →
  ProgressBar.update_and_draw self now f w
  = (Ok tt, commit (arc self)
              (mkArc n (Some (mkMutex false false (after_update now f bs (multis w)).1)))
              (after_update now f bs (multis w)).2 w).
Proof.
  intros Hl. unfold ProgressBar.update_and_draw.
  apply (with_lock_idle _ _ _ _ _ (Ok tt) _ _ Hl).
  unfold BarState.update_and_draw, ignore_err, after_update.
  by destruct (BarState.draw _ _ _) as [r [bs' mh']].
Qed.

Lemma force_draw_idle self now f n bs w :
  idle_at (arc self) n bs w →
  Arc.with_lock (arc self) (BarState.update_and_force_draw now f) w
  = (Ok tt, commit (arc self)
              (mkArc n (Some (mkMutex false false (after_force now f bs (multis w)).1)))
              (after_force now f bs (multis w)).2 w).
Proof.
  intros Hl. apply (with_lock_idle _ _ _ _ _ (Ok tt) _ _ Hl).
  unfold BarState.update_and_force_draw, ignore_err, after_force.
  by destruct (BarState.draw _ _ _) as [r [bs' mh']].
Qed.

Lemma read_idle {A} self (g : BarState T Sty → MHeap T → A) n bs w :
  idle_at (arc self) n bs w →
  Arc.with_lock (arc self) (BarState.read g) w = (Ok (g bs (multis w)), w).
Proof.
  intros Hl.
  etrans; [exact (with_lock_idle _ _ _ _ (BarState.read g) _ _ _ Hl eq_refl)|].
  simpl. by rewrite commit_id.
Qed.

Lemma modify_idle self (f : ProgressState Sty → ProgressState Sty) n bs w :
  idle_at (arc self) n bs w →
  Arc.with_lock (arc self) (BarState.modify f) w
  = (Ok tt, commit (arc self)
              (mkArc n (Some (mkMutex false false (BarState.set_state (f (state bs)) bs))))
              (multis w) w).
Proof. intros Hl. by apply (with_lock_idle _ _ _ _ _ (Ok tt) _ _ Hl). Qed.

Lemma position_idle self n bs w :
  idle_at (arc self) n bs w → ProgressBar.position self w = (Ok (pos (state bs)), w).
Proof. apply read_idle. Qed.

Lemma length_idle self n bs w :
  idle_at (arc self) n bs w → ProgressBar.length self w = (Ok (len (state bs)), w).
Proof. apply read_idle. Qed.

Lemma is_finished_idle self n bs w :
  idle_at (arc self) n bs w →
  ProgressBar.is_finished self w = (Ok (ProgressState.is_finished (state bs)), w).
Proof. apply read_idle. Qed.

Lemma is_hidden_idle self n bs w :
  idle_at (arc self) n bs w →
  ProgressBar.is_hidden self w = (Ok (ProgressDrawTarget.is_hidden (draw_target bs)), w).
Proof. apply read_idle. Qed.

Lemma state_idle self n bs w :
  idle_at (arc self) n bs w → ProgressBar.state self w = (Ok bs, w).
Proof. apply read_idle. Qed.

(** The tick guard: what it does to the counter, and that it touches
    nothing else. *)
Lemma tick_unless_steady_tick s :
  tick (ProgressBar.tick_unless_steady s)
  = if bool_decide (steady_tick s = 0 ∨ tick s = 0)
    then saturating_add (tick s) 1 else tick s.
Proof.
  unfold ProgressBar.tick_unless_steady.
  destruct (Z.eqb_spec (steady_tick s) 0), (Z.eqb_spec (tick s) 0); simpl;
    case_bool_decide; (done || tauto).
Qed.

Lemma tick_unless_steady_fields s :
  let s' := ProgressBar.tick_unless_steady s in
  pos s' = pos s ∧ len s' = len s ∧ status s' = status s
  ∧ message s' = message s ∧ prefix s' = prefix s ∧ started s' = started s
  ∧ steady_tick s' = steady_tick s ∧ tick_thread s' = tick_thread s
  ∧ style s' = style s ∧ est s' = est s.
Proof.
  unfold ProgressBar.tick_unless_steady.
  by destruct ((steady_tick s =? 0) || (tick s =? 0)).
Qed.

Lemma tick_unless_steady_wf s :
  ProgressState.wf s → ProgressState.wf (ProgressBar.tick_unless_steady s).
Proof.
  unfold ProgressState.wf. intros (Hp & Hl & Ht & Hs).
  pose proof (tick_unless_steady_fields s) as Hf. simpl in Hf.
  destruct Hf as (-> & -> & _ & _ & _ & _ & -> & _).
  rewrite tick_unless_steady_tick. case_bool_decide; [|done].
  repeat split; try done; u64_lia.
Qed.

End handle_facts.

(** ** Theorems: mutations of the handle *)

Section handle_theorems.
Context `{TermLike T} `{StyleOps Sty}.
Implicit Types (w : World T Sty) (self : ProgressBar) (bs : BarState T Sty)
  (s : ProgressState Sty) (now : Instant).

Lemma frame_except_commit l c mh w : frame_except l w (commit l c mh w).
Proof. split; [done|]. intros l' Hl'. by apply commit_lookup_ne. Qed.

Lemma frame_except_refl l w : frame_except l w w.
Proof. by split. Qed.

Lemma frame_except_trans l w1 w2 w3 :
  frame_except l w1 w2 → frame_except l w2 w3 → frame_except l w1 w3.
Proof.
  intros [Ht1 Hb1] [Ht2 Hb2]. split; [congruence|].
  intros l' Hl'. by rewrite Hb2, Hb1.
Qed.

(** The shape every update-and-draw transaction has on an idle cell. *)
Lemma update_and_draw_spec self now f n bs w :
  idle_at (arc self) n bs w →
  ∃ bs' w', ProgressBar.update_and_draw self now f w = (Ok tt, w')
    ∧ idle_at (arc self) n bs' w'
    ∧ state bs' = BarState.update now f (state bs)
    ∧ ProgressDrawTarget.is_hidden (draw_target bs')
      = ProgressDrawTarget.is_hidden (draw_target bs)
    ∧ frame_except (arc self) w w'.
Proof.
  intros Hl. eexists _, _. split; [by apply update_and_draw_idle|].
  split; [apply idle_at_commit|]. split; [apply after_update_state|].
  split; [unfold after_update; by rewrite draw_is_hidden|apply frame_except_commit].
Qed.

Lemma force_draw_spec self now f n bs w :
  idle_at (arc self) n bs w →
  ∃ bs' w', Arc.with_lock (arc self) (BarState.update_and_force_draw now f) w = (Ok tt, w')
    ∧ idle_at (arc self) n bs' w'
    ∧ state bs' = BarState.update now f (state bs)
    ∧ frame_except (arc self) w w'.
Proof.
  intros Hl. eexists _, _. split; [by apply force_draw_idle|].
  split; [apply idle_at_commit|]. split; [apply after_force_state|].
  apply frame_except_commit.
Qed.

(** Where [inc] leaves the position and the length. *)
Lemma inc_position self delta now n bs w :
  idle_at (arc self) n bs w →
  ∃ bs' w', ProgressBar.inc self delta now w = (Ok tt, w')
    ∧ idle_at (arc self) n bs' w'
    ∧ pos (state bs') = saturating_add (pos (state bs)) delta
    ∧ len (state bs') = len (state bs)
    ∧ frame_except (arc self) w w'.
Proof.
  intros Hl. unfold ProgressBar.inc.
  destruct (update_and_draw_spec self now (ProgressBar.inc_closure delta) n bs w Hl)
    as (bs' & w' & Heq & Hl' & Hst & _ & Hfr).
  exists bs', w'. rewrite Hst.
  destruct (update_fields now (ProgressBar.inc_closure delta) (state bs)) as (-> & -> & _).
  unfold ProgressBar.inc_closure.
  by destruct (tick_unless_steady_fields
                 (set_pos (saturating_add (pos (state bs)) delta) (state bs))) as (-> & -> & _).
Qed.

(** C1: [inc] on a cell that is neither locked nor poisoned succeeds;
    afterwards the position is the saturated sum of the old position and
    the delta (never clamped to the length), the length and the status are
    as before, the tick counter has advanced by one unless steady ticking
    is on and has ticked already, and the tick threads and all other cells
    are untouched. *)
Theorem inc_spec self delta now n bs w :
  idle_at (arc self) n bs w →
  ∃ bs' w', ProgressBar.inc self delta now w = (Ok tt, w')
    ∧ idle_at (arc self) n bs' w'
    ∧ pos (state bs') = saturating_add (pos (state bs)) delta
    ∧ len (state bs') = len (state bs)
    ∧ status (state bs') = status (state bs)
    ∧ tick (state bs')
      = (if bool_decide (steady_tick (state bs) = 0 ∨ tick (state bs) = 0)
         then saturating_add (tick (state bs)) 1 else tick (state bs))
    ∧ frame_except (arc self) w w'.
Proof.
  intros Hl. unfold ProgressBar.inc, ProgressBar.inc_closure.
  match goal with |- context [ProgressBar.update_and_draw self now ?f w] =>
    destruct (update_and_draw_spec self now f n bs w Hl)
      as (bs' & w' & -> & Hl' & Hs & _ & Hfr)
  end.
  exists bs', w'. split; [done|]. split; [done|]. rewrite Hs.
  match goal with |- context [BarState.update now ?f ?s] =>
    destruct (update_fields now f s) as (-> & -> & -> & -> & _);
    destruct (tick_unless_steady_fields (set_pos (saturating_add (pos s) delta) s))
      as (-> & -> & -> & _)
  end.
  by rewrite tick_unless_steady_tick.
Qed.

End handle_theorems.

Lemma inc_spec_witness :
  ∃ bs' w', ProgressBar.inc demo_pb 2 100 demo_world = (Ok tt, w')
    ∧ idle_at (arc demo_pb) 1 bs' w'
    ∧ pos (state bs') = saturating_add (pos (state demo_bar)) 2
    ∧ len (state bs') = len (state demo_bar)
    ∧ status (state bs') = status (state demo_bar)
    ∧ tick (state bs')
      = (if bool_decide (steady_tick (state demo_bar) = 0 ∨ tick (state demo_bar) = 0)
         then saturating_add (tick (state demo_bar)) 1 else tick (state demo_bar))
    ∧ frame_except (arc demo_pb) demo_world w'.
Proof. apply (inc_spec demo_pb 2 100 1 demo_bar demo_world). by vm_compute. Defined.

Section order_and_finish.
Context `{TermLike T} `{StyleOps Sty}.
Implicit Types (w : World T Sty) (self : ProgressBar) (bs : BarState T Sty)
  (s : ProgressState Sty) (now : Instant) (calls : list (Z * Instant)).

Lemma incs_position self calls n bs w :
  idle_at (arc self) n bs w →
  ∃ bs' w', incs self calls w = (Ok tt, w')
    ∧ idle_at (arc self) n bs' w'
    ∧ pos (state bs') = foldl saturating_add (pos (state bs)) calls.*1
    ∧ frame_except (arc self) w w'.
Proof.
  revert bs w. induction calls as [|[delta now] calls IH]; intros bs w Hl.
  - exists bs, w. eauto using frame_except_refl.
  - destruct (inc_position self delta now n bs w Hl)
      as (bs1 & w1 & Hinc & Hl1 & Hpos & _ & Hfr1).
    destruct (IH bs1 w1 Hl1) as (bs2 & w2 & Hrun & Hl2 & Hpos2 & Hfr2).
    exists bs2, w2. unfold incs in *. simpl.
    rewrite (bind_ok _ _ _ _ _ Hinc), Hrun, Hpos2, Hpos.
    eauto using frame_except_trans.
Qed.

(** C3: Increments reach the same position in whatever order they
    are applied: for two runs whose deltas are a permutation of one
    another, both succeed, and both leave the position at the saturated
    sum of the starting position and all deltas. *)
Theorem incs_any_order self calls calls' n bs w :
  idle_at (arc self) n bs w →
  is_u64 (pos (state bs)) →
  Forall (λ c, 0 ≤ c.1) calls →
  calls.*1 ≡ₚ calls'.*1 →
  ∃ bs1 w1 bs2 w2,
    incs self calls w = (Ok tt, w1) ∧ idle_at (arc self) n bs1 w1
    ∧ incs self calls' w = (Ok tt, w2) ∧ idle_at (arc self) n bs2 w2
    ∧ pos (state bs1) = Z.min (pos (state bs) + sum_Z calls.*1) u64_MAX
    ∧ pos (state bs2) = pos (state bs1).
Proof.
  intros Hl Hpos Hnn Hperm.
  destruct (incs_position self calls n bs w Hl) as (bs1 & w1 & Hr1 & Hl1 & Hp1 & _).
  destruct (incs_position self calls' n bs w Hl) as (bs2 & w2 & Hr2 & Hl2 & Hp2 & _).
  exists bs1, w1, bs2, w2. repeat (split; [done|]).
  assert (Hnn1 : Forall (λ d, 0 ≤ d) calls.*1) by by apply Forall_fmap.
  assert (Hnn2 : Forall (λ d, 0 ≤ d) calls'.*1) by by rewrite <- Hperm.
  rewrite Hp1, Hp2, !foldl_saturating_add by done.
  by rewrite (sum_Z_perm _ _ Hperm).
Qed.

(** C2: [finish] on an idle cell succeeds and leaves the record
    finished with its frame visible; the position has moved to the length
    when the length is known and is as before when it is the unknown
    length; length and message are as before. *)
Theorem finish_spec self now n bs w :
  idle_at (arc self) n bs w →
  ∃ bs' w', ProgressBar.finish self now w = (Ok tt, w')
    ∧ idle_at (arc self) n bs' w'
    ∧ status (state bs') = DoneVisible
    ∧ pos (state bs')
      = (if bool_decide (len (state bs) = u64_MAX) then pos (state bs) else len (state bs))
    ∧ len (state bs') = len (state bs)
    ∧ message (state bs') = message (state bs)
    ∧ frame_except (arc self) w w'.
Proof.
  intros Hl. unfold ProgressBar.finish, BarState.finish.
  match goal with |- context [BarState.update_and_force_draw now ?f] =>
    destruct (force_draw_spec self now f n bs w Hl) as (bs' & w' & -> & Hl' & Hs & Hfr);
    destruct (update_fields now f (state bs)) as (Hp & Hlen & _ & Hst & Hm & _)
  end.
  exists bs', w'. rewrite Hs, Hp, Hlen, Hst, Hm.
  repeat (split; [done|]). split; [|by destruct (len (state bs) =? u64_MAX)].
  case_bool_decide as Hu.
  - by rewrite Hu.
  - by destruct (Z.eqb_spec (len (state bs)) u64_MAX).
Qed.

(** [abandon] on an idle cell succeeds and leaves the record finished
    with its frame visible and the position, the length and the message
    exactly as they were. *)
Theorem abandon_spec self now n bs w :
  idle_at (arc self) n bs w →
  ∃ bs' w', ProgressBar.abandon self now w = (Ok tt, w')
    ∧ idle_at (arc self) n bs' w'
    ∧ status (state bs') = DoneVisible
    ∧ pos (state bs') = pos (state bs)
    ∧ len (state bs') = len (state bs)
    ∧ message (state bs') = message (state bs)
    ∧ frame_except (arc self) w w'.
Proof.
  intros Hl. unfold ProgressBar.abandon, BarState.abandon.
  destruct (force_draw_spec self now (set_status DoneVisible) n bs w Hl)
    as (bs' & w' & -> & Hl' & Hs & Hfr).
  destruct (update_fields now (set_status DoneVisible) (state bs))
    as (Hp & Hlen & _ & Hst & Hm & _).
  exists bs', w'. by rewrite Hs, Hp, Hlen, Hst, Hm.
Qed.

(** [finish_and_clear] on an idle cell succeeds and leaves the
    record finished in the state that renders nothing, so that the forced
    frame is empty; position and length are as before. *)
Lemma finish_and_clear_spec self now n bs w :
  idle_at (arc self) n bs w →
  ∃ bs' w', ProgressBar.finish_and_clear self now w = (Ok tt, w')
    ∧ idle_at (arc self) n bs' w'
    ∧ status (state bs') = DoneHidden
    ∧ (∀ width, BarState.render (state bs') width = [])
    ∧ pos (state bs') = pos (state bs)
    ∧ len (state bs') = len (state bs)
    ∧ frame_except (arc self) w w'.
Proof.
  intros Hl. unfold ProgressBar.finish_and_clear, BarState.finish_and_clear.
  destruct (force_draw_spec self now (set_status DoneHidden) n bs w Hl)
    as (bs' & w' & -> & Hl' & Hs & Hfr).
  destruct (update_fields now (set_status DoneHidden) (state bs))
    as (Hp & Hlen & _ & Hst & _).
  exists bs', w'. rewrite Hs, Hp, Hlen, Hst. repeat (split; [done|]).
  split; [|done]. intros width. unfold BarState.render, ProgressState.should_render.
  by rewrite Hst.
Qed.

(** [println] on a hidden target does nothing at all: the call
    succeeds and the world is the one it was called in. *)
Lemma println_hidden self msg now n bs w :
  idle_at (arc self) n bs w →
  ProgressDrawTarget.is_hidden (draw_target bs) = true →
  ProgressBar.println self msg now w = (Ok tt, w).
Proof.
  intros Hl Hh. unfold ProgressBar.println.
  etrans; [apply (with_lock_idle _ _ _ _ _ (Ok tt) bs (multis w) Hl)|].
  - unfold ProgressBar.println_locked. by destruct (draw_target bs).
  - simpl. by rewrite commit_id.
Qed.

End order_and_finish.

Lemma incs_any_order_witness :
  ∃ bs1 w1 bs2 w2,
    incs demo_pb [(3, 10); (18446744073709551615, 11); (4, 12)] demo_world = (Ok tt, w1)
    ∧ idle_at (arc demo_pb) 1 bs1 w1
    ∧ incs demo_pb [(4, 20); (3, 21); (18446744073709551615, 500)] demo_world = (Ok tt, w2)
    ∧ idle_at (arc demo_pb) 1 bs2 w2
    ∧ pos (state bs1)
      = Z.min (pos (state demo_bar)
               + sum_Z [(3, 10); (18446744073709551615, 11); (4, 12)].*1) u64_MAX
    ∧ pos (state bs2) = pos (state bs1).
Proof.
  apply (incs_any_order demo_pb [(3, 10); (18446744073709551615, 11); (4, 12)]
           [(4, 20); (3, 21); (18446744073709551615, 500)] 1 demo_bar demo_world).
  - by vm_compute.
  - by vm_compute.
  - repeat constructor; by vm_compute.
  - simpl. etrans; [apply perm_skip, perm_swap|apply perm_swap].
Defined.

Lemma finish_spec_witness :
  ∃ bs' w', ProgressBar.finish demo_pb 50 demo_world = (Ok tt, w')
    ∧ idle_at (arc demo_pb) 1 bs' w'
    ∧ status (state bs') = DoneVisible
    ∧ pos (state bs')
      = (if bool_decide (len (state demo_bar) = u64_MAX)
         then pos (state demo_bar) else len (state demo_bar))
    ∧ len (state bs') = len (state demo_bar)
    ∧ message (state bs') = message (state demo_bar)
    ∧ frame_except (arc demo_pb) demo_world w'.
Proof. apply (finish_spec demo_pb 50 1 demo_bar demo_world). by vm_compute. Defined.

Lemma abandon_spec_witness :
  ∃ bs' w', ProgressBar.abandon demo_pb 50 demo_world = (Ok tt, w')
    ∧ idle_at (arc demo_pb) 1 bs' w'
    ∧ status (state bs') = DoneVisible
    ∧ pos (state bs') = pos (state demo_bar)
    ∧ len (state bs') = len (state demo_bar)
    ∧ message (state bs') = message (state demo_bar)
    ∧ frame_except (arc demo_pb) demo_world w'.
Proof. apply (abandon_spec demo_pb 50 1 demo_bar demo_world). by vm_compute. Defined.

Lemma finish_and_clear_spec_witness :
  ∃ bs' w', ProgressBar.finish_and_clear demo_pb 50 demo_world = (Ok tt, w')
    ∧ idle_at (arc demo_pb) 1 bs' w'
    ∧ status (state bs') = DoneHidden
    ∧ (∀ width, BarState.render (state bs') width = [])
    ∧ pos (state bs') = pos (state demo_bar)
    ∧ len (state bs') = len (state demo_bar)
    ∧ frame_except (arc demo_pb) demo_world w'.
Proof. apply (finish_and_clear_spec demo_pb 50 1 demo_bar demo_world). by vm_compute. Defined.

Lemma println_hidden_witness :
  ProgressBar.println demo_pb "log line" 7 hidden_world = (Ok tt, hidden_world).
Proof.
  apply (println_hidden demo_pb "log line" 7 1 hidden_bar hidden_world); by vm_compute.
Defined.

(** ** Theorems: ownership *)

Section ownership.
Context {T Sty : Type}.
Implicit Types (w : World T Sty) (l : loc) (bs : BarState T Sty).

Lemma upgrade_idle l n bs w :
  idle_at l (S n) bs w →
  Arc.upgrade l w
  = (Ok true, commit l (mkArc (S (S n)) (Some (mkMutex false false bs))) (multis w) w).
Proof. intros Hl. unfold Arc.upgrade. by rewrite Hl. Qed.

Lemma upgrade_dead l w :
  Arc.mutex_of l w = None → Arc.upgrade l w = (Ok false, w).
Proof.
  unfold Arc.mutex_of, Arc.upgrade.
  by destruct (bars w !! l) as [[[|n] [m|]]|].
Qed.

Lemma clone_idle l n bs w :
  idle_at l (S n) bs w →
  Arc.clone l w
  = (Ok tt, commit l (mkArc (S (S n)) (Some (mkMutex false false bs))) (multis w) w).
Proof. intros Hl. unfold Arc.clone. by rewrite Hl. Qed.

Lemma drop_idle l n bs w :
  idle_at l (S (S n)) bs w →
  Arc.drop l w
  = (Ok tt, commit l (mkArc (S n) (Some (mkMutex false false bs))) (multis w) w).
Proof. intros Hl. unfold Arc.drop. by rewrite Hl. Qed.

Lemma drop_last l bs w :
  idle_at l 1 bs w → Arc.drop l w = (Ok tt, commit l (mkArc 0 None) (multis w) w).
Proof. intros Hl. unfold Arc.drop. by rewrite Hl. Qed.

Lemma mutex_of_commit l c mh w : Arc.mutex_of l (commit l c mh w) = value c.
Proof. unfold Arc.mutex_of. by rewrite commit_lookup. Qed.

(** C6: A weak handle to a cell upgrades exactly while the cell has an
    owner.  With at least one owner the upgrade yields a handle to the same
    cell and counts as one more owner; after the drop of the only owner
    the value is gone, the upgrade yields nothing, and a method called
    through a stale handle reports the dangling cell instead of acting. *)
Theorem weak_upgrade_spec l n bs w :
  idle_at l (S n) bs w →
  (∃ w1, WeakProgressBar.upgrade (mkWeakProgressBar (Some l)) w
         = (Ok (Some (mkProgressBar l)), w1)
         ∧ idle_at l (S (S n)) bs w1)
  ∧ (n = 0%nat →
     ∃ w2, ProgressBar.drop (mkProgressBar l) w = (Ok tt, w2)
           ∧ Arc.alive l w2 = false
           ∧ WeakProgressBar.upgrade (mkWeakProgressBar (Some l)) w2 = (Ok None, w2)
           ∧ Arc.lock l w2 = (Err Dangling, w2)).
Proof.
  intros Hl. split.
  - eexists. unfold WeakProgressBar.upgrade. simpl.
    rewrite (bind_ok _ _ _ _ _ (upgrade_idle _ _ _ _ Hl)). split; [done|].
    apply commit_lookup.
  - intros ->. eexists. unfold ProgressBar.drop. simpl.
    split; [by apply (drop_last l bs)|].
    assert (Hdead : Arc.mutex_of l (commit l (mkArc 0 None) (multis w) w) = None)
      by apply mutex_of_commit.
    split; [|split].
    + unfold Arc.alive. rewrite Hdead. by apply bool_decide_eq_false_2, is_Some_None.
    + unfold WeakProgressBar.upgrade. simpl.
      by rewrite (bind_ok _ _ _ _ _ (upgrade_dead _ _ Hdead)).
    + unfold Arc.lock. by rewrite Hdead.
Qed.

End ownership.

Lemma weak_upgrade_spec_witness :
  (∃ w1, WeakProgressBar.upgrade (mkWeakProgressBar (Some 0%nat)) demo_world
         = (Ok (Some (mkProgressBar 0)), w1)
         ∧ idle_at 0 2 demo_bar w1)
  ∧ (0%nat = 0%nat →
     ∃ w2, ProgressBar.drop (mkProgressBar 0) demo_world = (Ok tt, w2)
           ∧ Arc.alive 0 w2 = false
           ∧ WeakProgressBar.upgrade (mkWeakProgressBar (Some 0%nat)) w2 = (Ok None, w2)
           ∧ Arc.lock 0 w2 = (Err Dangling, w2)).
Proof. apply (weak_upgrade_spec 0 0 demo_bar demo_world). by vm_compute. Defined.

Section construction.
Context `{TermLike T} `{StyleOps Sty}.
Implicit Types (w : World T Sty) (now : Instant).

Lemma with_draw_target_eq len tgt now w :
  ProgressBar.with_draw_target len tgt now w
  = (Ok (mkProgressBar (fresh (dom (bars w)))),
     commit (fresh (dom (bars w)))
       (mkArc 1 (Some (mkMutex false false (mkBarState tgt (ProgressState.new len now)))))
       (multis w) w).
Proof. reflexivity. Qed.

Lemma fresh_cell_None w : bars w !! fresh (dom (bars w)) = None.
Proof. apply not_elem_of_dom, is_fresh. Qed.

(** The test [test_weak_pb] passes in every world: the weak handle
    of a new bar upgrades while the bar is owned, and fails to upgrade
    once the owner has been dropped. *)
Lemma test_weak_pb_passes (stderr : T) now w :
  (test_weak_pb stderr now w).1 = Ok (true, true).
Proof.
  unfold test_weak_pb, ProgressBar.new.
  rewrite (bind_ok _ _ _ _ _ (with_draw_target_eq _ _ _ _)).
  set (l := fresh (dom (bars w))). set (w1 := commit l _ _ w).
  assert (Hl1 : idle_at l 1 (mkBarState (ProgressDrawTarget.stderr stderr)
                               (ProgressState.new 0 now)) w1) by apply commit_lookup.
  unfold ProgressBar.downgrade. rewrite bind_ret_l.
  unfold WeakProgressBar.upgrade at 1. cbn [weak].
  rewrite bind_assoc, (bind_ok _ _ _ _ _ (upgrade_idle _ _ _ _ Hl1)), bind_ret_l.
  unfold ProgressBar.drop at 1. cbn [arc].
  erewrite (bind_ok _ _ (commit l _ _ w1)); [|eapply drop_idle; apply commit_lookup].
  unfold ProgressBar.drop. cbn [arc].
  erewrite (bind_ok _ _ (commit l _ _ (commit l _ _ w1))); [|eapply drop_last; apply commit_lookup].
  unfold WeakProgressBar.upgrade. cbn [weak].
  rewrite bind_assoc.
  erewrite (bind_ok _ _ (commit l _ _ (commit l _ _ (commit l _ _ w1))));
    [|apply upgrade_dead, mutex_of_commit].
  reflexivity.
Qed.

End construction.

(** ** Theorems: [suspend] and poisoning *)

Section suspend.
Context `{TermLike T} `{StyleOps Sty}.
Implicit Types (w : World T Sty) (self : ProgressBar) (bs : BarState T Sty) (now : Instant).

Lemma suspend_clear_ok now bs mh : (ProgressBar.suspend_clear now (bs, mh)).1 = Ok tt.
Proof.
  unfold ProgressBar.suspend_clear.
  destruct (ProgressDrawTarget.drawable _ _ _) as [d|]; [|done].
  by destruct (Drawable.clear d mh) as [[r tgt] mh'].
Qed.

Lemma suspend_clear_state now bs mh :
  state (ProgressBar.suspend_clear now (bs, mh)).2.1 = state bs.
Proof.
  unfold ProgressBar.suspend_clear.
  destruct (ProgressDrawTarget.drawable _ _ _) as [d|]; [|done].
  by destruct (Drawable.clear d mh) as [[r tgt] mh'].
Qed.

Lemma suspended_eq self now n bs w :
  idle_at (arc self) n bs w →
  (Arc.lock (arc self) ;;; Arc.in_guard (arc self) (ProgressBar.suspend_clear now)) w
  = (Ok tt,
     commit (arc self)
       (mkArc n (Some (mkMutex true false (ProgressBar.suspend_clear now (bs, multis w)).2.1)))
       (ProgressBar.suspend_clear now (bs, multis w)).2.2 w).
Proof.
  intros Hl. rewrite (bind_ok _ _ _ _ _ (lock_idle _ _ _ _ Hl)).
  pose proof (suspend_clear_ok now bs (multis w)) as Hok.
  destruct (ProgressBar.suspend_clear now (bs, multis w)) as [r [bs1 mh1]] eqn:Hc.
  simpl in Hok. subst r.
  erewrite in_guard_eq; [|apply commit_lookup|exact Hc].
  by rewrite commit_commit.
Qed.

(** [suspend] with a thunk that returns and leaves the cell alone: the
    frame is painted again in the world the thunk left, and the lock is
    released. *)
Lemma suspend_returns {R} self (f : M T Sty R) now n bs w v w2 :
  idle_at (arc self) n bs w →
  f (suspended self now w) = (Ok v, w2) →
  bars w2 !! arc self = bars (suspended self now w) !! arc self →
  ProgressBar.suspend self f now w
  = (Ok v, commit (arc self)
             (mkArc n (Some (mkMutex false false (after_thunk now bs (multis w) (multis w2)).1)))
             (after_thunk now bs (multis w) (multis w2)).2 w2).
Proof.
  intros Hl Hf Hsame. unfold suspended, after_thunk in *.
  pose proof (suspended_eq self now n bs w Hl) as Hs.
  rewrite Hs in Hf, Hsame. cbn [snd] in Hf, Hsame. rewrite commit_lookup in Hsame.
  unfold ProgressBar.suspend, Arc.guarded. rewrite (lock_idle _ _ _ _ Hl).
  rewrite (bind_ok _ _ _ _ _ (lock_idle _ _ _ _ Hl)) in Hs.
  rewrite (bind_ok _ _ _ _ _ Hs). unfold bind at 1. rewrite Hf.
  set (bs1 := (ProgressBar.suspend_clear now (bs, multis w)).2.1) in *.
  destruct (BarState.draw true now (bs1, multis w2)) as [rd [bs3 mh3]] eqn:Hd.
  erewrite bind_ok;
    [|eapply in_guard_eq; [exact Hsame|]; unfold ignore_err; cbn [data]; by rewrite Hd].
  cbn [ret]. erewrite unlock_eq by apply commit_lookup. by rewrite commit_commit.
Qed.

(** [suspend] with a thunk that panics: the frame stays erased and the
    mutex is left poisoned. *)
Lemma suspend_panics {R} self (f : M T Sty R) now n bs w e w2 :
  idle_at (arc self) n bs w →
  f (suspended self now w) = (Err e, w2) →
  bars w2 !! arc self = bars (suspended self now w) !! arc self →
  ProgressBar.suspend self f now w
  = (Err e, commit (arc self)
              (mkArc n (Some (mkMutex false true
                 (ProgressBar.suspend_clear now (bs, multis w)).2.1))) (multis w2) w2).
Proof.
  intros Hl Hf Hsame. unfold suspended in *.
  pose proof (suspended_eq self now n bs w Hl) as Hs.
  rewrite Hs in Hf, Hsame. cbn [snd] in Hf, Hsame. rewrite commit_lookup in Hsame.
  unfold ProgressBar.suspend, Arc.guarded. rewrite (lock_idle _ _ _ _ Hl).
  rewrite (bind_ok _ _ _ _ _ (lock_idle _ _ _ _ Hl)) in Hs.
  rewrite (bind_ok _ _ _ _ _ Hs). unfold bind at 1. rewrite Hf.
  by erewrite unlock_eq by exact Hsame.
Qed.

(** C4: [suspend] runs the thunk with the lock held and the frame
    erased, and hands back what the thunk yields.  For a thunk that leaves
    this cell alone: when it returns, its value is returned, the lock is
    released and the progress record is as before; when it panics, the
    panic is passed on and the mutex is left poisoned, with the record as
    before. *)
Theorem suspend_spec {R} self (f : M T Sty R) now n bs w r w2 :
  idle_at (arc self) n bs w →
  f (suspended self now w) = (r, w2) →
  bars w2 !! arc self = bars (suspended self now w) !! arc self →
  ∃ bs' w', ProgressBar.suspend self f now w = (r, w')
    ∧ bars w' !! arc self = Some (mkArc n (Some (mkMutex false (negb (is_ok r)) bs')))
    ∧ state bs' = state bs
    ∧ threads w' = threads w2
    ∧ ∀ l', l' ≠ arc self → bars w' !! l' = bars w2 !! l'.
Proof.
  intros Hl Hf Hsame. destruct r as [v|e].
  - rewrite (suspend_returns self f now n bs w v w2 Hl Hf Hsame).
    eexists _, _. split; [done|]. split; [apply commit_lookup|].
    split; [|split; [done|by intros; apply commit_lookup_ne]].
    unfold after_thunk. etrans; [apply draw_state_eq|apply suspend_clear_state].
  - rewrite (suspend_panics self f now n bs w e w2 Hl Hf Hsame).
    eexists _, _. split; [done|]. split; [apply commit_lookup|].
    split; [apply suspend_clear_state|].
    split; [done|by intros; apply commit_lookup_ne].
Qed.

(** C5: A poisoned cell refuses every transaction: whatever the body,
    taking the lock panics with [PoisonError] and the world is left as it
    was; in particular [inc], [finish] and [println] fail so. *)
Theorem poisoned_refuses self n bs w delta msg now :
  bars w !! arc self = Some (mkArc n (Some (mkMutex false true bs))) →
  (∀ A (body : SE (BarState T Sty * MHeap T) panic A),
     Arc.with_lock (arc self) body w = (Err PoisonError, w))
  ∧ ProgressBar.inc self delta now w = (Err PoisonError, w)
  ∧ ProgressBar.finish self now w = (Err PoisonError, w)
  ∧ ProgressBar.println self msg now w = (Err PoisonError, w)
  ∧ ProgressBar.position self w = (Err PoisonError, w).
Proof.
  intros Hl.
  assert (Hall : ∀ A (body : SE (BarState T Sty * MHeap T) panic A),
            Arc.with_lock (arc self) body w = (Err PoisonError, w)).
  { intros A body. by eapply with_lock_poisoned; [eapply mutex_of_Some|..]. }
  split; [exact Hall|]. repeat split; apply Hall.
Qed.

(** C26: A thunk of [suspend] must leave its own bar alone.  The
    lock is held while the thunk runs, so a critical section on the same
    bar inside the thunk finds the mutex locked by its own thread and
    never gets it: whatever its body, it does not run, and the call of
    [suspend] does not complete.  In particular a thunk that calls
    [inc], [println] or [finish] on the bar it suspends is stuck. *)
Theorem suspend_reentrant self n bs w now delta msg t :
  idle_at (arc self) n bs w →
  (∀ A (body : SE (BarState T Sty * MHeap T) panic A),
     (ProgressBar.suspend self (Arc.with_lock (arc self) body) now w).1 = Err Deadlock)
  ∧ (ProgressBar.suspend self (ProgressBar.inc self delta t) now w).1 = Err Deadlock
  ∧ (ProgressBar.suspend self (ProgressBar.println self msg t) now w).1 = Err Deadlock
  ∧ (ProgressBar.suspend self (ProgressBar.finish self t) now w).1 = Err Deadlock.
Proof.
  intros Hl.
  assert (Hall : ∀ A (body : SE (BarState T Sty * MHeap T) panic A),
     (ProgressBar.suspend self (Arc.with_lock (arc self) body) now w).1 = Err Deadlock).
  { intros A body. pose proof (suspended_eq self now n bs w Hl) as Hs.
    unfold ProgressBar.suspend, Arc.guarded. rewrite (lock_idle _ _ _ _ Hl).
    rewrite (bind_ok _ _ _ _ _ (lock_idle _ _ _ _ Hl)) in Hs.
    rewrite (bind_ok _ _ _ _ _ Hs). unfold bind at 1.
    erewrite with_lock_locked; [done|by eapply mutex_of_Some, commit_lookup|done]. }
  split; [exact Hall|]. repeat split; apply Hall.
Qed.

End suspend.

Lemma suspend_reentrant_witness :
  (∀ A (body : SE (BarState console.Term ProgressFinish * MHeap console.Term) panic A),
     (ProgressBar.suspend demo_pb (Arc.with_lock (arc demo_pb) body) 9 demo_world).1
     = Err Deadlock)
  ∧ (ProgressBar.suspend demo_pb (ProgressBar.inc demo_pb 1 10) 9 demo_world).1 = Err Deadlock
  ∧ (ProgressBar.suspend demo_pb (ProgressBar.println demo_pb "log" 10) 9 demo_world).1
    = Err Deadlock
  ∧ (ProgressBar.suspend demo_pb (ProgressBar.finish demo_pb 10) 9 demo_world).1 = Err Deadlock.
Proof. by apply (suspend_reentrant demo_pb 1 demo_bar demo_world 9 1 "log" 10). Defined.

Lemma suspend_spec_witness :
  ∃ bs' w', ProgressBar.suspend demo_pb (throw (Panicked "thunk")) 9 demo_world
            = (Err (Panicked "thunk") : result panic unit, w')
    ∧ bars w' !! arc demo_pb
      = Some (mkArc 1 (Some (mkMutex false
                (negb (is_ok (Err (Panicked "thunk") : result panic unit))) bs')))
    ∧ state bs' = state demo_bar
    ∧ threads w' = threads (suspended demo_pb 9 demo_world)
    ∧ ∀ l', l' ≠ arc demo_pb → bars w' !! l' = bars (suspended demo_pb 9 demo_world) !! l'.
Proof.
  apply (suspend_spec demo_pb (throw (Panicked "thunk")) 9 1 demo_bar demo_world
           (Err (Panicked "thunk")) (suspended demo_pb 9 demo_world)); by vm_compute.
Defined.

Lemma poisoned_refuses_witness :
  (∀ A (body : SE (BarState console.Term ProgressFinish * MHeap console.Term) panic A),
     Arc.with_lock (arc demo_pb) body poisoned_world = (Err PoisonError, poisoned_world))
  ∧ ProgressBar.inc demo_pb 1 10 poisoned_world = (Err PoisonError, poisoned_world)
  ∧ ProgressBar.finish demo_pb 10 poisoned_world = (Err PoisonError, poisoned_world)
  ∧ ProgressBar.println demo_pb "x" 10 poisoned_world = (Err PoisonError, poisoned_world)
  ∧ ProgressBar.position demo_pb poisoned_world = (Err PoisonError, poisoned_world).
Proof.
  apply (poisoned_refuses demo_pb 1 poisoned_bar poisoned_world 1 "x" 10).
  by vm_compute.
Defined.

(** ** Theorems: the throttle, [reset], [set_draw_target] *)

Section painting.
Context `{TermLike T} `{StyleOps Sty}.
Implicit Types (w : World T Sty) (self : ProgressBar) (bs : BarState T Sty)
  (tg : TermTarget T) (now : Instant).

Lemma set_draw_target_idle self tgt now n bs w :
  idle_at (arc self) n bs w →
  ProgressBar.set_draw_target self tgt now w
  = (Ok tt, commit (arc self)
              (mkArc n (Some (mkMutex false false (BarState.set_draw_target tgt bs))))
              (ProgressDrawTarget.disconnect now (draw_target bs) (multis w)) w).
Proof. intros Hl. by apply (with_lock_idle _ _ _ _ _ (Ok tt) _ _ Hl). Qed.

(** C7: An [inc] on a terminal target that painted less than the refresh
    interval ago updates the record and paints nothing: the target, with
    the terminal behind it, and the shared regions are as before. *)
Theorem inc_throttled self delta now n bs tg t0 w :
  idle_at (arc self) n bs w →
  draw_target bs = Direct tg →
  RateLimiter.last_draw (rate_limiter tg) = Some t0 →
  now - t0 < RateLimiter.interval (rate_limiter tg) →
  ∃ bs' w', ProgressBar.inc self delta now w = (Ok tt, w')
    ∧ idle_at (arc self) n bs' w'
    ∧ draw_target bs' = draw_target bs
    ∧ multis w' = multis w
    ∧ pos (state bs') = saturating_add (pos (state bs)) delta.
Proof.
  intros Hl Htgt Ht0 Hlt. unfold ProgressBar.inc, ProgressBar.inc_closure.
  eexists _, _. split; [by apply update_and_draw_idle|].
  split; [apply idle_at_commit|]. unfold after_update.
  erewrite draw_throttled; [|exact Htgt|exact Ht0|exact Hlt]. cbn [fst snd commit multis].
  split; [done|]. split; [done|]. cbn [state BarState.set_state].
  match goal with |- context [BarState.update now ?f ?s] =>
    destruct (update_fields now f s) as (-> & _) end.
  by destruct (tick_unless_steady_fields (set_pos (saturating_add (pos (state bs)) delta) (state bs)))
    as (-> & _).
Qed.

(** [finish] on a terminal target is never throttled: whenever it is
    called the frame is painted, and the throttle records the time of the
    call as that of the last paint. *)
Lemma finish_paints self now n bs tg w :
  idle_at (arc self) n bs w →
  draw_target bs = Direct tg →
  ∃ bs' tg' w', ProgressBar.finish self now w = (Ok tt, w')
    ∧ idle_at (arc self) n bs' w'
    ∧ draw_target bs' = Direct tg'
    ∧ rate_limiter tg' = RateLimiter.record now (rate_limiter tg)
    ∧ ProgressState.is_finished (state bs') = true.
Proof.
  intros Hl Htgt. unfold ProgressBar.finish, BarState.finish.
  match goal with |- context [BarState.update_and_force_draw now ?f] =>
    pose proof (force_draw_idle self now f n bs w Hl) as Heq;
    pose proof (after_force_state now f bs (multis w)) as Hst;
    destruct (draw_direct true now
                (BarState.set_state (BarState.update now f (state bs)) bs) (multis w) tg
                Htgt eq_refl) as (tg' & Hd & Hrl);
    destruct (update_fields now f (state bs)) as (_ & _ & _ & Hstatus & _)
  end.
  eexists _, tg', _. split; [exact Heq|]. split; [apply idle_at_commit|].
  unfold after_force in *. rewrite Hd in *. cbn [fst] in *.
  split; [done|]. split; [done|].
  unfold ProgressState.is_finished. by rewrite Hst, Hstatus.
Qed.

(** C36: [reset] puts the position back to 0 and the status back to
    [InProgress] whatever the status was, so a finished bar is in progress
    again; it restarts the clock at the time of its second transaction and
    the estimator at the time of the first, and keeps the length. *)
Theorem reset_spec self t1 t2 t3 n bs w :
  idle_at (arc self) n bs w →
  ∃ bs' w', ProgressBar.reset self t1 t2 t3 w = (Ok tt, w')
    ∧ idle_at (arc self) n bs' w'
    ∧ pos (state bs') = 0
    ∧ status (state bs') = InProgress
    ∧ started (state bs') = t2
    ∧ len (state bs') = len (state bs)
    ∧ frame_except (arc self) w w'.
Proof.
  intros Hl. unfold ProgressBar.reset, ProgressBar.reset_eta, ProgressBar.reset_elapsed,
    ProgressBar.reset_eta_closure, ProgressBar.reset_elapsed_closure, ProgressBar.reset_closure.
  destruct (update_and_draw_spec self t1
              (λ state, set_est (Estimator.reset (pos state) t1 (est state)) state) n bs w Hl)
    as (bs1 & w1 & Hr1 & Hl1 & Hs1 & _ & Hf1).
  destruct (update_and_draw_spec self t2 (set_started t2) n bs1 w1 Hl1)
    as (bs2 & w2 & Hr2 & Hl2 & Hs2 & _ & Hf2).
  destruct (update_and_draw_spec self t3
              (λ state, set_status InProgress (set_pos 0 state)) n bs2 w2 Hl2)
    as (bs3 & w3 & Hr3 & Hl3 & Hs3 & _ & Hf3).
  exists bs3, w3.
  rewrite (bind_ok _ _ _ _ _ Hr1), (bind_ok _ _ _ _ _ Hr2), Hr3.
  split; [done|]. split; [done|]. rewrite Hs3.
  match goal with |- context [BarState.update t3 ?f ?s] =>
    destruct (update_fields t3 f s) as (-> & -> & _ & -> & _ & _ & -> & _) end.
  cbn [pos status started len set_status set_pos]. rewrite Hs2.
  destruct (update_fields t2 (set_started t2) (state bs1)) as (_ & -> & _ & _ & _ & _ & -> & _).
  cbn [started len set_started]. rewrite Hs1.
  match goal with |- context [BarState.update t1 ?f ?s] =>
    destruct (update_fields t1 f s) as (_ & -> & _) end.
  repeat split; try done.
  all: try apply (frame_except_trans _ _ _ _ (frame_except_trans _ _ _ _ Hf1 Hf2) Hf3).
Qed.

(** C37: [set_draw_target] swaps the target and keeps the record;
    a bar that was not in a shared region leaves the regions alone; and
    [is_hidden] afterwards answers for the new target. *)
Theorem set_draw_target_spec self tgt now n bs w :
  idle_at (arc self) n bs w →
  ∃ w', ProgressBar.set_draw_target self tgt now w = (Ok tt, w')
    ∧ idle_at (arc self) n (mkBarState tgt (state bs)) w'
    ∧ (ProgressDrawTarget.remote (draw_target bs) = None → multis w' = multis w)
    ∧ ProgressBar.is_hidden self w' = (Ok (ProgressDrawTarget.is_hidden tgt), w')
    ∧ frame_except (arc self) w w'.
Proof.
  intros Hl. eexists. split; [by apply set_draw_target_idle|].
  split; [apply idle_at_commit|].
  split; [by destruct (draw_target bs)|].
  split; [|apply frame_except_commit].
  unfold ProgressBar.is_hidden. erewrite read_idle by apply idle_at_commit. done.
Qed.

End painting.

Lemma inc_throttled_witness :
  ∃ bs' w', ProgressBar.inc demo_pb 1 120 painted_world = (Ok tt, w')
    ∧ idle_at (arc demo_pb) 1 bs' w'
    ∧ draw_target bs' = draw_target painted_bar
    ∧ multis w' = multis painted_world
    ∧ pos (state bs') = saturating_add (pos (state painted_bar)) 1.
Proof.
  apply (inc_throttled demo_pb 1 120 1 painted_bar painted_target 100 painted_world);
    by vm_compute.
Defined.

Lemma finish_paints_witness :
  ∃ bs' tg' w', ProgressBar.finish demo_pb 120 painted_world = (Ok tt, w')
    ∧ idle_at (arc demo_pb) 1 bs' w'
    ∧ draw_target bs' = Direct tg'
    ∧ rate_limiter tg' = RateLimiter.record 120 (rate_limiter painted_target)
    ∧ ProgressState.is_finished (state bs') = true.
Proof.
  apply (finish_paints demo_pb 120 1 painted_bar painted_target painted_world);
    by vm_compute.
Defined.

Lemma reset_spec_witness :
  ∃ bs' w', ProgressBar.reset demo_pb 5 6 7 demo_world = (Ok tt, w')
    ∧ idle_at (arc demo_pb) 1 bs' w'
    ∧ pos (state bs') = 0
    ∧ status (state bs') = InProgress
    ∧ started (state bs') = 6
    ∧ len (state bs') = len (state demo_bar)
    ∧ frame_except (arc demo_pb) demo_world w'.
Proof. apply (reset_spec demo_pb 5 6 7 1 demo_bar demo_world). by vm_compute. Defined.

Lemma set_draw_target_spec_witness :
  ∃ w', ProgressBar.set_draw_target demo_pb Hidden 3 demo_world = (Ok tt, w')
    ∧ idle_at (arc demo_pb) 1 (mkBarState Hidden (state demo_bar)) w'
    ∧ (ProgressDrawTarget.remote (draw_target demo_bar) = None → multis w' = multis demo_world)
    ∧ ProgressBar.is_hidden demo_pb w' = (Ok (ProgressDrawTarget.is_hidden (T := console.Term) Hidden), w')
    ∧ frame_except (arc demo_pb) demo_world w'.
Proof. apply (set_draw_target_spec demo_pb Hidden 3 1 demo_bar demo_world). by vm_compute. Defined.

(** ** Theorems: the tests of the source file *)

Section tests.
Context `{TermLike T} `{StyleOps Sty}.
Implicit Types (w : World T Sty) (now : Instant).

(** A new bar and the world it is born into. *)
Lemma new_eq len (stderr : T) now w :
  ∃ w1, ProgressBar.new len stderr now w = (Ok (mkProgressBar (fresh (dom (bars w)))), w1)
    ∧ idle_at (fresh (dom (bars w))) 1
        (mkBarState (ProgressDrawTarget.stderr stderr) (ProgressState.new len now)) w1
    ∧ frame_except (fresh (dom (bars w))) w w1.
Proof.
  eexists. split; [apply with_draw_target_eq|].
  split; [apply commit_lookup|apply frame_except_commit].
Qed.

(** C30: The fraction of a bar is between 0 and 1, whatever
    its length and position.  For a bar created with a length and given a
    position, both [u64] values, reading the fraction through the guard
    succeeds and yields: 1 for the length 0; 0 for the unknown length
    [u64::MAX]; 1 for a position at or beyond a known length (the fraction
    clamps, the position does not); and position over length otherwise. *)
Theorem fraction_bounds (stderr : T) len pos now w :
  is_u64 len → is_u64 pos →
  ∃ q w',
    (let* pb := ProgressBar.new len stderr now in
     let* pb := ProgressBar.with_position pb pos in
     let* bs := ProgressBar.state pb in
     ret (ProgressState.fraction (state bs))) w = (Ok q, w')
    ∧ (0 <= q <= 1)%Q
    ∧ (len = 0 → q = 1%Q)
    ∧ (len = u64_MAX → q = 0%Q)
    ∧ (0 < len < u64_MAX → len ≤ pos → (q == 1)%Q)
    ∧ (0 < len < u64_MAX → pos ≤ len → (q == pos # Z.to_pos len)%Q).
Proof.
  intros Hlen Hpos. destruct (new_eq len stderr now w) as (w0 & Hn & Hl & _).
  unfold ProgressBar.with_position, ProgressBar.state.
  rewrite (bind_ok _ _ _ _ _ Hn), bind_assoc.
  rewrite (bind_ok _ _ _ _ _ (modify_idle (mkProgressBar _) _ _ _ _ Hl)), bind_ret_l.
  rewrite (bind_ok _ _ _ _ _ (read_idle (mkProgressBar _) _ _ _ _ (idle_at_commit _ _ _ _ _))).
  eexists _, _. split; [done|]. cbn [state BarState.set_state].
  split; [apply fraction_range|]. split; [intros ->; by apply fraction_len_0|].
  split; [intros ->; by apply fraction_len_unknown|].
  split; [intros ? ?; by apply fraction_clamps|].
  intros ? ?. apply fraction_exact; cbn; unfold is_u64 in *; lia.
Qed.

(** The tests [test_pbar_zero] and [test_pbar_maxu64] pass in every
    world: a new bar of length 0 is complete (fraction 1), one of the
    unknown length [!0] has fraction 0. *)
Lemma tests_fraction_pass (stderr : T) now w :
  (test_pbar_zero stderr now w).1 = Ok 1%Q
  ∧ (test_pbar_maxu64 stderr now w).1 = Ok 0%Q.
Proof.
  unfold test_pbar_zero, test_pbar_maxu64, ProgressBar.state.
  destruct (new_eq 0 stderr now w) as (w0 & Hn0 & Hl0 & _).
  destruct (new_eq u64_MAX stderr now w) as (w1 & Hn1 & Hl1 & _).
  by rewrite (bind_ok _ _ _ _ _ Hn0), (bind_ok _ _ _ _ _ Hn1),
    (bind_ok _ _ _ _ _ (read_idle (mkProgressBar _) _ _ _ _ Hl0)),
    (bind_ok _ _ _ _ _ (read_idle (mkProgressBar _) _ _ _ _ Hl1)).
Qed.

(** The common prefix of [test_pbar_overflow] and [test_get_position]:
    a bar of length 1, hidden, advanced by 2. *)
Lemma overflow_prefix (stderr : T) t0 t1 t2 w :
  let pb := mkProgressBar (fresh (dom (bars w))) in
  ∃ w0 w1 bs w2,
    ProgressBar.new 1 stderr t0 w = (Ok pb, w0)
    ∧ ProgressBar.set_draw_target pb ProgressDrawTarget.hidden t1 w0 = (Ok tt, w1)
    ∧ ProgressBar.inc pb 2 t2 w1 = (Ok tt, w2)
    ∧ idle_at (arc pb) 1 bs w2
    ∧ pos (state bs) = 2 ∧ len (state bs) = 1 ∧ status (state bs) = InProgress.
Proof.
  intros pb. destruct (new_eq 1 stderr t0 w) as (w0 & Hn & Hl0 & _).
  pose proof (set_draw_target_idle pb ProgressDrawTarget.hidden t1 _ _ _ Hl0) as Hs.
  match type of Hs with _ = (_, ?w1) =>
    assert (Hl1 : idle_at (arc pb) 1
                    (mkBarState ProgressDrawTarget.hidden (ProgressState.new 1 t0)) w1)
      by apply commit_lookup
  end.
  unfold ProgressBar.inc, ProgressBar.inc_closure.
  match goal with |- context [ProgressBar.update_and_draw _ t2 ?f] =>
    destruct (update_and_draw_spec pb t2 f _ _ _ Hl1) as (bs2 & w2 & Hi & Hl2 & Hst & _);
    pose proof (update_fields t2 f (ProgressState.new 1 t0)) as Hf
  end.
  eexists w0, _, bs2, w2. split; [done|]. split; [exact Hs|]. split; [exact Hi|].
  split; [done|]. rewrite Hst.
  cbn [state] in *. by destruct Hf as (-> & -> & _ & -> & _).
Qed.

(** The test [test_get_position] passes in every world: a
    hidden bar of length 1 advanced by 2 reports the position 2, beyond
    its length. *)
Lemma test_get_position_passes (stderr : T) t0 t1 t2 w :
  (test_get_position stderr t0 t1 t2 w).1 = Ok 2.
Proof.
  destruct (overflow_prefix stderr t0 t1 t2 w)
    as (w0 & w1 & bs & w2 & Hn & Hs & Hi & Hl & Hpos & _).
  unfold test_get_position.
  by rewrite (bind_ok _ _ _ _ _ Hn), (bind_ok _ _ _ _ _ Hs), (bind_ok _ _ _ _ _ Hi),
    (position_idle _ _ _ _ Hl), Hpos.
Qed.

(** C38: The tests [test_pbar_overflow] and [test_get_position] pass in
    every world, and show what [inc] and [finish] do to a position
    beyond the length: the hidden bar of length 1 advanced by 2 reports
    the position 2, as [test_get_position] asserts ([inc] does not clamp),
    and [test_pbar_overflow], which finishes that bar, runs without a
    panic and leaves it finished at position 1. *)
Theorem test_pbar_overflow_passes (stderr : T) t0 t1 t2 t3 w :
  (test_get_position stderr t0 t1 t2 w).1 = Ok 2
  ∧ ∃ pb bs w', test_pbar_overflow stderr t0 t1 t2 t3 w = (Ok pb, w')
    ∧ idle_at (arc pb) 1 bs w'
    ∧ pos (state bs) = 1
    ∧ ProgressState.is_finished (state bs) = true.
Proof.
  split; [apply test_get_position_passes|].
  destruct (overflow_prefix stderr t0 t1 t2 w)
    as (w0 & w1 & bs & w2 & Hn & Hs & Hi & Hl & Hpos & Hlen & _).
  destruct (force_draw_spec (mkProgressBar (fresh (dom (bars w)))) t3
              (λ s, set_status DoneVisible (if (len s =? u64_MAX)%Z then s else set_pos (len s) s))
              _ _ _ Hl) as (bs3 & w3 & Hf & Hl3 & Hst & _).
  exists (mkProgressBar (fresh (dom (bars w)))), bs3, w3.
  split; [|split; [done|]].
  - unfold test_pbar_overflow, ProgressBar.finish, BarState.finish.
    by rewrite (bind_ok _ _ _ _ _ Hn), (bind_ok _ _ _ _ _ Hs), (bind_ok _ _ _ _ _ Hi),
      (bind_ok _ _ _ _ _ Hf).
  - rewrite Hst. unfold ProgressState.is_finished.
    match goal with |- context [BarState.update t3 ?f ?s] =>
      destruct (update_fields t3 f s) as (-> & _ & _ & -> & _) end.
    by rewrite Hlen.
Qed.

End tests.

Lemma fraction_bounds_witness :
  ∃ q w',
    (let* pb := ProgressBar.new 10 demo_term 0 in
     let* pb := ProgressBar.with_position pb 4 in
     let* bs := ProgressBar.state pb in
     ret (ProgressState.fraction (state bs))) (empty_world (Sty := ProgressFinish))
    = (Ok q, w')
    ∧ (0 <= q <= 1)%Q
    ∧ (10 = 0 → q = 1%Q)
    ∧ (10 = u64_MAX → q = 0%Q)
    ∧ (0 < 10 < u64_MAX → 10 ≤ 4 → (q == 1)%Q)
    ∧ (0 < 10 < u64_MAX → 4 ≤ 10 → (q == 4 # Z.to_pos 10)%Q).
Proof. apply (fraction_bounds demo_term 10 4 0 empty_world); by vm_compute. Defined.

(** ** Theorems: a finished bar is complete *)

Section completion.
Context `{TermLike T} `{StyleOps Sty}.
Implicit Types (w : World T Sty) (self : ProgressBar) (bs : BarState T Sty) (now : Instant).

(** After [finish], a bar whose length is known is complete: its
    fraction is 1, wherever the position was before, below the length or
    beyond it. *)
Lemma finish_completes self now n bs w :
  idle_at (arc self) n bs w →
  ProgressState.wf (state bs) →
  len (state bs) ≠ u64_MAX →
  ∃ bs' w', ProgressBar.finish self now w = (Ok tt, w')
    ∧ idle_at (arc self) n bs' w'
    ∧ (ProgressState.fraction (state bs') == 1)%Q.
Proof.
  intros Hl (_ & Hlen & _) Hknown. unfold ProgressBar.finish, BarState.finish.
  match goal with |- context [BarState.update_and_force_draw now ?f] =>
    destruct (force_draw_spec self now f n bs w Hl) as (bs' & w' & Hrun & Hl' & Hs & _);
    destruct (update_fields now f (state bs)) as (Hp & Hn & _)
  end.
  exists bs', w'. split; [done|]. split; [done|].
  rewrite <- Hs in Hp, Hn. destruct (Z.eqb_spec (len (state bs)) u64_MAX) as [|_]; [done|].
  cbn in Hp, Hn. destruct (decide (len (state bs) = 0)) as [Hz|Hne].
  - rewrite fraction_len_0 by congruence. reflexivity.
  - apply fraction_clamps; rewrite ?Hn, ?Hp; unfold is_u64 in Hlen; lia.
Qed.

End completion.

Lemma finish_completes_witness :
  ∃ bs' w', ProgressBar.finish demo_pb 7 demo_world = (Ok tt, w')
    ∧ idle_at (arc demo_pb) 1 bs' w'
    ∧ (ProgressState.fraction (state bs') == 1)%Q.
Proof.
  apply (finish_completes demo_pb 7 1 demo_bar demo_world); [by vm_compute| |by vm_compute].
  unfold ProgressState.wf. repeat split; by vm_compute.
Defined.
