(* ===== verification/Screen.v ===== *)
(** * What reaches the screen

    The calls a terminal receives from the methods of
    [src/src/progress_bar.rs] that force a redraw: [finish],
    [finish_and_clear], [println] and [suspend].  The theorems are stated
    for a bar that paints directly on a terminal of any type that records
    its calls ([Recorder] and [RecorderOk] of [TermLike.v]) and is
    healthy; the console terminal whose stream never fails is the
    instance the witnesses run on.  A last section has the console
    terminal whose stream is broken: the error of the painting is dropped
    and the caller's operation completes. *)

From Stdlib Require Import ZArith String List Lia.
From stdpp Require Import base option list gmap.
From S2P Require Import Prelude TermLike ProgressRecord OutputTarget BarCell Handle.

#[local] Open Scope Z_scope.

(** ** Frames *)

Section frames.
Context `{TermLike T} `{StyleOps Sty}.

(** The frame [println] hands to a terminal: the lines of the message,
    then the lines of the bar while it renders. *)
Definition log_frame (msg : string) (s : ProgressState Sty) (tg : TermTarget T)
  : ProgressDrawState :=
  logged (str_lines msg) (BarState.render s (TermLike.width (term tg))).

(** The frame [suspend] hands over before the thunk runs: no lines. *)
Definition blank_frame (tg : TermTarget T) : ProgressDrawState :=
  ProgressDrawState.reset (draw_state tg).

End frames.

(** ** Lemmas: critical sections on a healthy terminal *)

Section recorder_facts.
Context `{RecorderOk T} `{StyleOps Sty}.
Implicit Types (w : World T Sty) (self : ProgressBar) (bs : BarState T Sty)
  (mh : MHeap T) (tg : TermTarget T) (now : Instant).

(** The forced transaction: the target afterwards, in terms of the
    updated record. *)
Lemma after_force_healthy now f bs mh tg :
  draw_target bs = Direct tg →
  healthy (term tg) →
  draw_target (after_force now f bs mh).1
  = Direct (painted_with (BarState.frame (BarState.update now f (state bs)) tg) now tg).
Proof.
  intros Htgt Hb. unfold after_force.
  by rewrite (draw_direct_healthy true now
                (BarState.set_state (BarState.update now f (state bs)) bs) mh tg
                Htgt eq_refl Hb).
Qed.

(** The critical section of [println]. *)
Lemma println_locked_healthy msg now bs mh tg :
  draw_target bs = Direct tg →
  healthy (term tg) →
  ProgressBar.println_locked msg now (bs, mh)
  = (Ok tt, (BarState.set_draw_target
               (Direct (painted_with (log_frame msg (state bs) tg) now tg)) bs, mh)).
Proof.
  intros Htgt Hb. unfold ProgressBar.println_locked, log_frame, logged, BarState.render.
  rewrite Htgt. simpl.
  by destruct (ProgressState.should_render (state bs)); simpl;
    rewrite draw_healthy by done; rewrite ?app_nil_r.
Qed.

(** The critical section of [suspend] before the thunk. *)
Lemma suspend_clear_healthy now bs mh tg :
  draw_target bs = Direct tg →
  healthy (term tg) →
  ProgressBar.suspend_clear now (bs, mh)
  = (Ok tt, (BarState.set_draw_target (Direct (painted_with (blank_frame tg) now tg)) bs, mh)).
Proof.
  intros Htgt Hb. unfold ProgressBar.suspend_clear, Drawable.clear. rewrite Htgt. simpl.
  by rewrite draw_healthy by done.
Qed.

(** The frame of a record does not depend on what the target has
    painted. *)
Lemma frame_painted_with s ds now tg :
  move_cursor ds = move_cursor (draw_state tg) →
  alignment ds = alignment (draw_state tg) →
  BarState.frame s (painted_with ds now tg) = BarState.frame s tg.
Proof.
  intros Hm Ha. unfold BarState.frame. rewrite painted_with_width.
  unfold ProgressDrawState.reset. cbn. by rewrite Hm, Ha.
Qed.

(** What the frame of [println] sends. *)
Lemma draw_ops_log_frame msg s tg n :
  ProgressDrawState.draw_ops (log_frame msg s tg) n
  = ProgressDrawState.clear_last_lines_ops n
    ++ (WriteLine <$> str_lines msg ++ BarState.render s (TermLike.width (term tg)))
    ++ [Flush].
Proof. by rewrite draw_ops_erasing. Qed.

End recorder_facts.

(** ** Theorems: what reaches the screen *)

Section screen.
Context `{RecorderOk T} `{StyleOps Sty}.
Implicit Types (w : World T Sty) (self : ProgressBar) (bs : BarState T Sty)
  (tg : TermTarget T) (now : Instant).

(** C33: What [finish] puts on the screen, call by call.  On a healthy
    terminal, [finish] leaves the record finished and adds to the calls
    the terminal has received exactly these: the cursor moves up over the
    lines of the previous frame; unless the target paints in place and
    the style gives lines, each of those lines is cleared, the cursor
    moving down one line after each, and the cursor moves up over them
    again; the lines the style gives for the finished record at the
    terminal's width are written in order; the terminal is flushed.  The
    target then records that many lines, and the terminal is healthy
    still. *)
Theorem finish_frame self now n bs tg w :
  idle_at (arc self) n bs w →
  draw_target bs = Direct tg →
  healthy (term tg) →
  ∃ bs' tg' w', ProgressBar.finish self now w = (Ok tt, w')
    ∧ idle_at (arc self) n bs' w'
    ∧ ProgressState.is_finished (state bs') = true
    ∧ draw_target bs' = Direct tg'
    ∧ (let fmt := format_state (style (state bs')) (state bs') (TermLike.width (term tg)) in
       let up := MoveCursorUp (last_line_count tg) in
       received (term tg')
       = received (term tg)
         ++ up
            :: (if move_cursor (draw_state tg) && negb (bool_decide (fmt = [])) then []
                else concat (replicate (last_line_count tg) [ClearLine; MoveCursorDown 1])
                     ++ [up])
            ++ (WriteLine <$> fmt) ++ [Flush]
       ∧ last_line_count tg' = length fmt)
    ∧ healthy (term tg').
Proof.
  intros Hl Htgt Hb. unfold ProgressBar.finish, BarState.finish.
  match goal with |- context [BarState.update_and_force_draw now ?f] =>
    pose proof (force_draw_idle self now f n bs w Hl) as Heq;
    pose proof (after_force_state now f bs (multis w)) as Hst;
    pose proof (after_force_healthy now f bs (multis w) tg Htgt Hb) as Hd;
    destruct (update_fields now f (state bs)) as (_ & _ & _ & Hstatus & _)
  end.
  eexists _, _, _. split; [exact Heq|]. split; [apply idle_at_commit|].
  rewrite Hst. split; [unfold ProgressState.is_finished; by rewrite Hstatus|].
  split; [exact Hd|]. split; [|by apply healthy_receive_all].
  rewrite painted_with_received, draw_ops_calls.
  unfold painted_with, ProgressDrawState.line_count, BarState.frame, BarState.render,
    ProgressState.should_render. rewrite Hstatus. cbn. split; [done|lia].
Qed.

(** C34: [finish_and_clear] leaves nothing on the
    screen.  On a healthy terminal the calls added are exactly those
    that erase the lines of the previous frame (the cursor moves up over
    them, each is cleared with the cursor moving down a line after it,
    the cursor moves up again), and a flush; no line is written, and the
    target records a frame of no lines. *)
Theorem finish_and_clear_erases self now n bs tg w :
  idle_at (arc self) n bs w →
  draw_target bs = Direct tg →
  healthy (term tg) →
  ∃ bs' tg' w', ProgressBar.finish_and_clear self now w = (Ok tt, w')
    ∧ idle_at (arc self) n bs' w'
    ∧ draw_target bs' = Direct tg'
    ∧ received (term tg')
      = received (term tg)
        ++ MoveCursorUp (last_line_count tg)
           :: concat (replicate (last_line_count tg) [ClearLine; MoveCursorDown 1])
           ++ [MoveCursorUp (last_line_count tg); Flush]
    ∧ last_line_count tg' = 0%nat.
Proof.
  intros Hl Htgt Hb. unfold ProgressBar.finish_and_clear, BarState.finish_and_clear.
  match goal with |- context [BarState.update_and_force_draw now ?f] =>
    pose proof (force_draw_idle self now f n bs w Hl) as Heq;
    pose proof (after_force_healthy now f bs (multis w) tg Htgt Hb) as Hd;
    destruct (update_fields now f (state bs)) as (_ & _ & _ & Hstatus & _)
  end.
  eexists _, _, _. split; [exact Heq|]. split; [apply idle_at_commit|].
  split; [exact Hd|]. rewrite painted_with_received, draw_ops_calls.
  unfold painted_with, ProgressDrawState.line_count,
    BarState.frame, BarState.render, ProgressState.should_render. rewrite Hstatus. cbn.
  by rewrite andb_false_r, <- app_assoc.
Qed.

(** C31: What [println] puts on the screen.  On a healthy
    terminal, whether a redraw is due or not, [println] erases the
    previous frame, writes the lines of the message and below them the
    lines of the bar (none once the bar is finished and cleared), and
    flushes.  The target records the lines of the bar only, so the
    message stays on the screen when the next frame is painted; the
    progress record is not changed. *)
Theorem println_frame self msg now n bs tg w :
  idle_at (arc self) n bs w →
  draw_target bs = Direct tg →
  healthy (term tg) →
  ∃ bs' tg' w', ProgressBar.println self msg now w = (Ok tt, w')
    ∧ idle_at (arc self) n bs' w'
    ∧ state bs' = state bs
    ∧ draw_target bs' = Direct tg'
    ∧ received (term tg')
      = received (term tg)
        ++ ProgressDrawState.clear_last_lines_ops (last_line_count tg)
        ++ (WriteLine <$> str_lines msg
                          ++ BarState.render (state bs) (TermLike.width (term tg)))
        ++ [Flush]
    ∧ last_line_count tg'
      = length (BarState.render (state bs) (TermLike.width (term tg)))
    ∧ healthy (term tg').
Proof.
  intros Hl Htgt Hb. unfold ProgressBar.println.
  rewrite (with_lock_idle _ _ _ _ _ _ _ _ Hl (println_locked_healthy msg now bs _ tg Htgt Hb)).
  eexists _, _, _. split; [done|]. split; [apply idle_at_commit|].
  split; [done|]. split; [done|]. rewrite painted_with_received, draw_ops_log_frame.
  split; [done|]. split; [|by apply painted_with_healthy].
  cbn [last_line_count painted_with]. apply logged_parts.
Qed.

(** C32: What [suspend] puts on the screen.  On a healthy
    terminal, with a thunk that returns and leaves the bar's cell
    alone: before the thunk runs the previous frame is erased (the
    cursor moves up over its lines, each is cleared, the cursor moves up
    again) and the terminal flushed, so that what the thunk prints starts
    on an empty line; when it has returned the lines of the record,
    which is unchanged, are written below, over no previous line, and the
    terminal is flushed again. *)
Theorem suspend_frame {R} self (f : M T Sty R) now n bs tg w v w2 :
  idle_at (arc self) n bs w →
  draw_target bs = Direct tg →
  healthy (term tg) →
  f (suspended self now w) = (Ok v, w2) →
  bars w2 !! arc self = bars (suspended self now w) !! arc self →
  ∃ bs' tg' w', ProgressBar.suspend self f now w = (Ok v, w')
    ∧ idle_at (arc self) n bs' w'
    ∧ state bs' = state bs
    ∧ draw_target bs' = Direct tg'
    ∧ (let fmt := BarState.render (state bs) (TermLike.width (term tg)) in
       received (term tg')
       = received (term tg)
         ++ (MoveCursorUp (last_line_count tg)
             :: concat (replicate (last_line_count tg) [ClearLine; MoveCursorDown 1])
             ++ [MoveCursorUp (last_line_count tg); Flush])
         ++ MoveCursorUp 0
            :: (if move_cursor (draw_state tg) && negb (bool_decide (fmt = [])) then []
                else [MoveCursorUp 0])
            ++ (WriteLine <$> fmt) ++ [Flush]
       ∧ last_line_count tg' = length fmt)
    ∧ healthy (term tg').
Proof.
  intros Hl Htgt Hb Hf Hsame.
  rewrite (suspend_returns self f now n bs w v w2 Hl Hf Hsame). unfold after_thunk.
  rewrite (suspend_clear_healthy now bs (multis w) tg Htgt Hb). cbn [fst snd].
  erewrite draw_direct_healthy; [|done|done|by apply painted_with_healthy].
  cbn [fst snd BarState.set_draw_target state draw_target].
  rewrite frame_painted_with by done.
  eexists _, _, _. split; [done|]. split; [apply idle_at_commit|].
  split; [done|]. split; [done|].
  split; [|by do 2 apply painted_with_healthy].
  rewrite !painted_with_received, !draw_ops_calls, <- app_assoc.
  unfold painted_with, ProgressDrawState.line_count, BarState.frame, blank_frame. cbn.
  rewrite andb_false_r, <- !app_assoc. split; [done|lia].
Qed.

End screen.

(** ** Theorems: a terminal that fails *)

Section broken_terminal.
Context `{StyleOps Sty}.
Implicit Types (w : World console.Term Sty) (self : ProgressBar)
  (bs : BarState console.Term Sty) (tg : TermTarget console.Term) (now : Instant).

(** C35: A failing terminal never fails the
    caller.  [finish] on a bar whose console terminal is broken returns
    normally and the bar is finished; the forced redraw was attempted and
    its error dropped: nothing reached the terminal, and the line count
    of the last painted frame is the one recorded before. *)
Theorem finish_on_broken_terminal self now n bs tg w :
  idle_at (arc self) n bs w →
  draw_target bs = Direct tg →
  console.budget (term tg) = Some 0%nat →
  ∃ bs' tg' w', ProgressBar.finish self now w = (Ok tt, w')
    ∧ idle_at (arc self) n bs' w'
    ∧ ProgressState.is_finished (state bs') = true
    ∧ draw_target bs' = Direct tg'
    ∧ term tg' = term tg
    ∧ last_line_count tg' = last_line_count tg.
Proof.
  intros Hl Htgt Hb. unfold ProgressBar.finish, BarState.finish.
  match goal with |- context [BarState.update_and_force_draw now ?f] =>
    pose proof (force_draw_idle self now f n bs w Hl) as Heq;
    pose proof (after_force_state now f bs (multis w)) as Hst;
    destruct (draw_direct_broken true now
                (BarState.set_state (BarState.update now f (state bs)) bs) (multis w) tg
                Htgt eq_refl Hb) as (tg' & Hd & Hterm & Hcount & _);
    destruct (update_fields now f (state bs)) as (_ & _ & _ & Hstatus & _)
  end.
  eexists _, tg', _. split; [exact Heq|]. split; [apply idle_at_commit|].
  unfold after_force in *. rewrite Hd in *. cbn [fst snd] in *.
  split; [|done]. unfold ProgressState.is_finished. by rewrite Hst, Hstatus.
Qed.

End broken_terminal.

(** ** Witnesses: the console terminal *)

Lemma finish_frame_witness :
  ∃ bs' tg' w', ProgressBar.finish demo_pb 120 painted_world = (Ok tt, w')
    ∧ idle_at (arc demo_pb) 1 bs' w'
    ∧ ProgressState.is_finished (state bs') = true
    ∧ draw_target bs' = Direct tg'
    ∧ (let fmt := format_state (style (state bs')) (state bs')
                    (TermLike.width (term painted_target)) in
       let up := MoveCursorUp (last_line_count painted_target) in
       received (term tg')
       = received (term painted_target)
         ++ up
            :: (if move_cursor (draw_state painted_target) && negb (bool_decide (fmt = []))
                then []
                else concat (replicate (last_line_count painted_target)
                               [ClearLine; MoveCursorDown 1])
                     ++ [up])
            ++ (WriteLine <$> fmt) ++ [Flush]
       ∧ last_line_count tg' = length fmt)
    ∧ healthy (term tg').
Proof.
  apply (finish_frame demo_pb 120 1 painted_bar painted_target painted_world);
    by vm_compute.
Defined.

Lemma finish_and_clear_erases_witness :
  ∃ bs' tg' w', ProgressBar.finish_and_clear demo_pb 120 painted_world = (Ok tt, w')
    ∧ idle_at (arc demo_pb) 1 bs' w'
    ∧ draw_target bs' = Direct tg'
    ∧ received (term tg')
      = received (term painted_target)
        ++ MoveCursorUp (last_line_count painted_target)
           :: concat (replicate (last_line_count painted_target) [ClearLine; MoveCursorDown 1])
           ++ [MoveCursorUp (last_line_count painted_target); Flush]
    ∧ last_line_count tg' = 0%nat.
Proof.
  apply (finish_and_clear_erases demo_pb 120 1 painted_bar painted_target painted_world);
    by vm_compute.
Defined.

Lemma println_frame_witness :
  ∃ bs' tg' w', ProgressBar.println demo_pb "one
two" 101 painted_world = (Ok tt, w')
    ∧ idle_at (arc demo_pb) 1 bs' w'
    ∧ state bs' = state painted_bar
    ∧ draw_target bs' = Direct tg'
    ∧ received (term tg')
      = received (term painted_target)
        ++ ProgressDrawState.clear_last_lines_ops (last_line_count painted_target)
        ++ (WriteLine <$> str_lines "one
two" ++ BarState.render (state painted_bar) (TermLike.width (term painted_target)))
        ++ [Flush]
    ∧ last_line_count tg'
      = length (BarState.render (state painted_bar) (TermLike.width (term painted_target)))
    ∧ healthy (term tg').
Proof.
  apply (println_frame demo_pb _ 101 1 painted_bar painted_target painted_world);
    by vm_compute.
Defined.

Lemma suspend_frame_witness :
  ∃ bs' tg' w', ProgressBar.suspend demo_pb (ret 7) 120 painted_world = (Ok 7, w')
    ∧ idle_at (arc demo_pb) 1 bs' w'
    ∧ state bs' = state painted_bar
    ∧ draw_target bs' = Direct tg'
    ∧ (let fmt := BarState.render (state painted_bar) (TermLike.width (term painted_target)) in
       received (term tg')
       = received (term painted_target)
         ++ (MoveCursorUp (last_line_count painted_target)
             :: concat (replicate (last_line_count painted_target)
                          [ClearLine; MoveCursorDown 1])
             ++ [MoveCursorUp (last_line_count painted_target); Flush])
         ++ MoveCursorUp 0
            :: (if move_cursor (draw_state painted_target) && negb (bool_decide (fmt = []))
                then []
                else [MoveCursorUp 0])
            ++ (WriteLine <$> fmt) ++ [Flush]
       ∧ last_line_count tg' = length fmt)
    ∧ healthy (term tg').
Proof.
  apply (suspend_frame demo_pb (ret 7) 120 1 painted_bar painted_target painted_world 7
           (suspended demo_pb 120 painted_world)); by vm_compute.
Defined.

Lemma finish_on_broken_terminal_witness :
  ∃ bs' tg' w', ProgressBar.finish demo_pb 5 broken_world = (Ok tt, w')
    ∧ idle_at (arc demo_pb) 1 bs' w'
    ∧ ProgressState.is_finished (state bs') = true
    ∧ draw_target bs' = Direct tg'
    ∧ term tg' = term (TermTarget.new broken_term ProgressDrawTarget.DEFAULT_REFRESH_RATE)
    ∧ last_line_count tg'
      = last_line_count (TermTarget.new broken_term ProgressDrawTarget.DEFAULT_REFRESH_RATE).
Proof.
  apply (finish_on_broken_terminal demo_pb 5 1 broken_bar
           (TermTarget.new broken_term ProgressDrawTarget.DEFAULT_REFRESH_RATE) broken_world);
    by vm_compute.
Defined.
