(* ===== verification/Throttle.v ===== *)
(** * The refresh throttle over runs of calls

    How often a bar paints.  A terminal that records ([Recorder] of
    [TermLike.v]) keeps the calls it receives; every frame ends with one
    flush, so the flushes count the paints ([paints], [painted]).  An unforced update
    ([update_and_draw], behind [inc], [set_position], [tick], ... of
    [src/src/progress_bar.rs]) paints only when the refresh interval has
    passed since the last paint and is otherwise dropped, not queued; a
    forced one (the finish family) always paints.  The theorem of this
    file follows two calls in a row. *)

From Stdlib Require Import ZArith String List Lia.
From stdpp Require Import base option list gmap.
From S2P Require Import Prelude TermLike ProgressRecord OutputTarget BarCell Handle.

#[local] Open Scope Z_scope.
#[local] Open Scope bar_scope.

(** ** Counting paints *)

(** The frames among the calls a terminal has received. *)
Definition paints (ops : list TermOp) : nat := length (filter (λ op, op = Flush) ops).

Section painted.
Context `{Recorder T} {Sty : Type}.

(** The frames a bar has painted on its terminal. *)
Definition painted (bs : BarState T Sty) : nat :=
  match draw_target bs with
  | Direct tg => paints (received (term tg))
  | Remote _ _ | Hidden => 0
  end.

End painted.

(** ** Lemmas *)

Lemma paints_app ops1 ops2 : paints (ops1 ++ ops2) = (paints ops1 + paints ops2)%nat.
Proof. unfold paints. by rewrite filter_app, length_app. Qed.

Lemma paints_cons op ops :
  paints (op :: ops) = ((if decide (op = Flush) then 1 else 0) + paints ops)%nat.
Proof. unfold paints. rewrite filter_cons. by case_decide. Qed.

Lemma paints_clear n : paints (ProgressDrawState.clear_last_lines_ops n) = 0%nat.
Proof.
  unfold ProgressDrawState.clear_last_lines_ops.
  rewrite paints_cons, paints_app, paints_cons, !decide_False by done.
  assert (paints (concat (replicate n [ClearLine; MoveCursorDown 1])) = 0%nat) as ->; [|done].
  induction n as [|n IH]; [done|]. cbn [replicate concat].
  by rewrite paints_app, !paints_cons, !decide_False, IH by done.
Qed.

Lemma paints_lines (lines : list string) : paints (WriteLine <$> lines) = 0%nat.
Proof.
  induction lines as [|s lines IH]; [done|].
  by rewrite fmap_cons, paints_cons, decide_False, IH by done.
Qed.

(** A frame is one paint. *)
Lemma paints_draw_ops ds n : paints (ProgressDrawState.draw_ops ds n) = 1%nat.
Proof.
  unfold ProgressDrawState.draw_ops. rewrite !paints_app, paints_lines.
  destruct (negb _ && _); [done|]. by rewrite paints_clear.
Qed.

Section throttle.
Context `{RecorderOk T} `{StyleOps Sty}.
Implicit Types (w : World T Sty) (self : ProgressBar) (bs : BarState T Sty)
  (tg : TermTarget T) (now : Instant) (f : ProgressState Sty → ProgressState Sty).

(** A redraw attempt on a healthy terminal: it paints one frame and
    stamps the throttle when it is forced or the interval has passed, and
    leaves the target alone otherwise. *)
Lemma draw_healthy_cases force_draw now bs (mh : MHeap T) tg :
  draw_target bs = Direct tg →
  healthy (term tg) →
  ∃ tg', BarState.draw force_draw now (bs, mh) = (Ok tt, (mkBarState (Direct tg') (state bs), mh))
    ∧ healthy (term tg')
    ∧ RateLimiter.interval (rate_limiter tg') = RateLimiter.interval (rate_limiter tg)
    ∧ if force_draw || RateLimiter.allow now (rate_limiter tg)
      then paints (received (term tg')) = S (paints (received (term tg)))
           ∧ RateLimiter.last_draw (rate_limiter tg') = Some now
      else tg' = tg.
Proof.
  intros Htgt Hb. destruct (force_draw || RateLimiter.allow now (rate_limiter tg)) eqn:Hgo.
  - rewrite (draw_direct_healthy force_draw now bs mh tg Htgt Hgo Hb).
    eexists. split; [reflexivity|]. split; [by apply painted_with_healthy|].
    rewrite painted_with_received, paints_app, paints_draw_ops.
    split; [done|]. split; [lia|done].
  - exists tg. unfold BarState.draw. rewrite Htgt. cbn. unfold TermTarget.drawable.
    rewrite Hgo. cbn. destruct bs; cbn in *. by subst.
Qed.

(** The same of a whole transaction, forced or not. *)
Lemma transaction_healthy (force_draw : bool) self now f n bs tg w :
  idle_at (arc self) n bs w →
  draw_target bs = Direct tg →
  healthy (term tg) →
  ∃ tg',
    Arc.with_lock (arc self)
      (if force_draw then BarState.update_and_force_draw now f
       else BarState.update_and_draw now f) w
    = (Ok tt, commit (arc self)
                (mkArc n (Some (mkMutex false false
                   (mkBarState (Direct tg') (BarState.update now f (state bs))))))
                (multis w) w)
    ∧ healthy (term tg')
    ∧ RateLimiter.interval (rate_limiter tg') = RateLimiter.interval (rate_limiter tg)
    ∧ if force_draw || RateLimiter.allow now (rate_limiter tg)
      then paints (received (term tg')) = S (paints (received (term tg)))
           ∧ RateLimiter.last_draw (rate_limiter tg') = Some now
      else tg' = tg.
Proof.
  intros Hl Htgt Hb.
  destruct (draw_healthy_cases force_draw now
              (BarState.set_state (BarState.update now f (state bs)) bs) (multis w) tg Htgt Hb)
    as (tg' & Hd & Hrest).
  exists tg'. split; [|exact Hrest].
  destruct force_draw.
  - rewrite (force_draw_idle self now f n bs w Hl). unfold after_force. by rewrite Hd.
  - pose proof (update_and_draw_idle self now f n bs w Hl) as Heq.
    unfold ProgressBar.update_and_draw in Heq. rewrite Heq. unfold after_update. by rewrite Hd.
Qed.

Lemma inc_closure_pos delta now (s : ProgressState Sty) :
  pos (BarState.update now (ProgressBar.inc_closure delta) s) = saturating_add (pos s) delta.
Proof.
  destruct (update_fields now (ProgressBar.inc_closure delta) s) as (-> & _).
  unfold ProgressBar.inc_closure. by rewrite (proj1 (tick_unless_steady_fields _)).
Qed.

(** Two calls in a row, the first on an idle bar with a healthy
    terminal. *)
Lemma two_transactions (force1 force2 : bool) self now1 now2 f1 f2 n bs tg w :
  idle_at (arc self) n bs w →
  draw_target bs = Direct tg →
  healthy (term tg) →
  ∃ tg1 tg2 w1,
    Arc.with_lock (arc self)
      (if force1 then BarState.update_and_force_draw now1 f1
       else BarState.update_and_draw now1 f1) w = (Ok tt, w1)
    ∧ Arc.with_lock (arc self)
        (if force2 then BarState.update_and_force_draw now2 f2
         else BarState.update_and_draw now2 f2) w1
      = (Ok tt, commit (arc self)
                  (mkArc n (Some (mkMutex false false
                     (mkBarState (Direct tg2)
                        (BarState.update now2 f2 (BarState.update now1 f1 (state bs)))))))
                  (multis w) w)
    ∧ RateLimiter.interval (rate_limiter tg1) = RateLimiter.interval (rate_limiter tg)
    ∧ (if force1 || RateLimiter.allow now1 (rate_limiter tg)
       then paints (received (term tg1)) = S (paints (received (term tg)))
            ∧ RateLimiter.last_draw (rate_limiter tg1) = Some now1
       else tg1 = tg)
    ∧ (if force2 || RateLimiter.allow now2 (rate_limiter tg1)
       then paints (received (term tg2)) = S (paints (received (term tg1)))
       else tg2 = tg1).
Proof.
  intros Hl Htgt Hb.
  destruct (transaction_healthy force1 self now1 f1 n bs tg w Hl Htgt Hb)
    as (tg1 & Heq1 & Hb1 & Hi1 & Hc1).
  destruct (transaction_healthy force2 self now2 f2 n
              (mkBarState (Direct tg1) (BarState.update now1 f1 (state bs))) tg1 _
              (idle_at_commit _ _ _ (multis w) w) eq_refl Hb1) as (tg2 & Heq2 & _ & _ & Hc2).
  rewrite commit_commit in Heq2. exists tg1, tg2. eexists.
  split; [exact Heq1|]. split; [exact Heq2|]. split; [done|]. split; [done|].
  destruct (force2 || _); [apply Hc2|done].
Qed.

(** C8: Throttled but not queued.  On a bar that is
    neither locked nor poisoned, painting on a healthy terminal: two [inc] calls made less than the refresh interval apart both
    update the position, and between them paint at most one frame; a
    [finish] followed by a [finish_and_clear], which force their redraws,
    paint one frame each, however close they are. *)
Theorem throttle_sequence self n bs tg w delta1 delta2 now1 now2 :
  idle_at (arc self) n bs w →
  draw_target bs = Direct tg →
  healthy (term tg) →
  (now2 - now1 < RateLimiter.interval (rate_limiter tg))%Z →
  (∃ bs' w',
     (ProgressBar.inc self delta1 now1 ;;; ProgressBar.inc self delta2 now2) w = (Ok tt, w')
     ∧ idle_at (arc self) n bs' w'
     ∧ pos (state bs') = saturating_add (saturating_add (pos (state bs)) delta1) delta2
     ∧ (painted bs ≤ painted bs' ≤ S (painted bs))%nat)
  ∧ (∃ bs' w',
       (ProgressBar.finish self now1 ;;; ProgressBar.finish_and_clear self now2) w = (Ok tt, w')
       ∧ idle_at (arc self) n bs' w'
       ∧ painted bs' = S (S (painted bs))).
Proof.
  intros Hl Htgt Hb Hlt.
  assert (Hpb : painted bs = paints (received (term tg))) by (unfold painted; by rewrite Htgt).
  split.
  - destruct (two_transactions false false self now1 now2 (ProgressBar.inc_closure delta1)
                (ProgressBar.inc_closure delta2) n bs tg w Hl Htgt Hb)
      as (tg1 & tg2 & w1 & Heq1 & Heq2 & Hi1 & Hc1 & Hc2).
    unfold ProgressBar.inc, ProgressBar.update_and_draw.
    rewrite (bind_ok _ _ _ _ _ Heq1), Heq2. eexists _, _. split; [done|].
    split; [apply idle_at_commit|]. cbn [state]. split; [by rewrite !inc_closure_pos|].
    rewrite Hpb. unfold painted. cbn [draw_target orb] in *.
    destruct (RateLimiter.allow now1 (rate_limiter tg)) eqn:Ha1.
    + destruct Hc1 as [Hp1 Hlast].
      assert (RateLimiter.allow now2 (rate_limiter tg1) = false) as Ha2.
      { apply not_true_is_false. intros Ha.
        pose proof (proj1 (allow_spec now2 (rate_limiter tg1)) Ha now1 Hlast). lia. }
      rewrite Ha2 in Hc2. subst tg2. lia.
    + subst tg1. destruct (RateLimiter.allow now2 (rate_limiter tg)); [lia|subst; lia].
  - destruct (two_transactions true true self now1 now2
                (λ s, set_status DoneVisible (if (len s =? u64_MAX)%Z then s else set_pos (len s) s))
                (set_status DoneHidden) n bs tg w Hl Htgt Hb)
      as (tg1 & tg2 & w1 & Heq1 & Heq2 & _ & [Hp1 _] & Hp2).
    unfold ProgressBar.finish, ProgressBar.finish_and_clear, BarState.finish,
      BarState.finish_and_clear.
    rewrite (bind_ok _ _ _ _ _ Heq1), Heq2. eexists _, _. split; [done|].
    split; [apply idle_at_commit|]. rewrite Hpb. unfold painted.
    cbn [draw_target orb] in *. lia.
Qed.

End throttle.

Lemma throttle_sequence_witness :
  (∃ bs' w',
     (ProgressBar.inc demo_pb 1 110 ;;; ProgressBar.inc demo_pb 2 120) painted_world = (Ok tt, w')
     ∧ idle_at (arc demo_pb) 1 bs' w'
     ∧ pos (state bs') = saturating_add (saturating_add (pos (state painted_bar)) 1) 2
     ∧ (painted painted_bar ≤ painted bs' ≤ S (painted painted_bar))%nat)
  ∧ (∃ bs' w',
       (ProgressBar.finish demo_pb 110 ;;; ProgressBar.finish_and_clear demo_pb 120) painted_world
       = (Ok tt, w')
       ∧ idle_at (arc demo_pb) 1 bs' w'
       ∧ painted bs' = S (S (painted painted_bar))).
Proof.
  apply (throttle_sequence demo_pb 1 painted_bar painted_target painted_world 1 2 110 120);
    by vm_compute.
Defined.
