(* ===== verification/Adapters.v ===== *)
(** * Stream and iterator adapters

    What [wrap_read], [wrap_write] and [wrap_iter] of
    [src/src/progress_bar.rs] build: a proxy with the capability of the
    resource it wraps, which advances the bar by the bytes or items that
    pass through it, and hands on the errors of the resource unchanged.
    The proxy's [Read], [Write] and [Iterator] implementations are in
    [iter.rs], which is not among the sources; they follow the
    specification ([spec.md], 6), which does not say what the iterator
    proxy does to the bar when the iteration ends: the model does nothing
    there.  The capabilities are classes ([io.Read], [io.Write],
    [Iterator]); byte slices, byte vectors and lists are their plain
    instances, [io.copy] and [io.write_all] are the loops of the standard
    library, with fuel.  The two tests of [progress_bar.rs] that copy
    through a proxy and the examples of the documentation of the three
    wrappers are scenarios of this model.

    A computation here runs in an environment: the world of [Handle] and a
    clock, a sequence of readings of which every [Instant::now()] takes the
    next one. *)

From Stdlib Require Import ZArith String List Lia.
From stdpp Require Import base option list gmap.
From S2P Require Import Prelude TermLike ProgressRecord OutputTarget BarCell Handle.

#[local] Open Scope Z_scope.
#[local] Open Scope bar_scope.

(** ** The environment *)

(** How a stream operation fails: with an error value, which the caller
    may inspect, or by unwinding. *)
Inductive fault : Type :=
| Io (e : io_error)
| Unwind (p : panic).

#[global] Instance fault_eq_dec : EqDecision fault.
Proof. solve_decision. Defined.

Section Env.
Context {T Sty : Type}.

(** The world, the readings of the clock, and how many were taken. *)
Record Env : Type := mkEnv {
  world : World T Sty;
  clock : nat → Instant;
  ticks : nat
}.

Definition set_world (v : World T Sty) (e : Env) : Env := mkEnv v (clock e) (ticks e).

(** A method of the handle that reads the clock; its panic unwinds. *)
Definition call {A} (m : Instant → M T Sty A) : SE Env fault A :=
  λ e, let '(r, w) := m (clock e (ticks e)) (world e) in
       (match r with Ok a => Ok a | Err p => Err (Unwind p) end,
        mkEnv w (clock e) (S (ticks e))).

(** A method that does not. *)
Definition lift {A} (m : M T Sty A) : SE Env fault A :=
  λ e, let '(r, w) := m (world e) in
       (match r with Ok a => Ok a | Err p => Err (Unwind p) end, set_world w e).

(** [Result::unwrap]: an error value becomes a panic. *)
Definition unwrap {St A} (m : SE St fault A) : SE St fault A :=
  λ s, match m s with
       | (Err (Io _), s') => (Err (Unwind (Panicked "called unwrap on an Err value")), s')
       | other => other
       end.

End Env.
Arguments Env T Sty : clear implicits.

(** Runs a computation on a part of the state. *)
Definition zoom {S1 S2 E A} (get : S2 → S1) (set : S1 → S2 → S2) (m : SE S1 E A)
  : SE S2 E A :=
  λ s, let '(r, s1) := m (get s) in (r, set s1 s).

(** ** The capabilities of the standard library *)

Module io.

(** [ErrorKind::Interrupted] and [ErrorKind::WriteZero]. *)
Definition Interrupted : io_error := IoError 4.
Definition WriteZero : io_error := IoError 1000.

Definition is_interrupted (e : io_error) : bool := bool_decide (e = Interrupted).

(** The buffer of [io::copy]. *)
Definition DEFAULT_BUF_SIZE : nat := 8 * 1024.

Section io.
Context {T Sty : Type}.

(** [io::Read]: [read cap] yields the bytes put in a buffer of [cap]
    bytes; none means the end of the stream. *)
Class Read (R : Type) : Type :=
  read : nat → SE (R * Env T Sty) fault (list Byte.byte).

(** [io::Write]: [write buf] yields how many bytes of [buf] were taken. *)
Class Write (W : Type) : Type := {
  write : list Byte.byte → SE (W * Env T Sty) fault nat;
  flush : SE (W * Env T Sty) fault unit
}.

(** A byte slice reads from its front. *)
#[global] Instance slice_Read : Read (list Byte.byte) :=
  λ cap '(s, e), (Ok (take cap s), (drop cap s, e)).

(** A byte vector takes everything at its end. *)
#[global] Instance Vec_Write : Write (list Byte.byte) := {|
  write := λ buf '(v, e), (Ok (length buf), (v ++ buf, e));
  flush := ret tt
|}.

(** [Write::write_all]: writes until the buffer is empty.  A write of no
    byte is an error, an interrupted write is tried again.  [None] when
    the fuel runs out. *)
Fixpoint write_all `{Write W} (fuel : nat) (buf : list Byte.byte)
  : SE (W * Env T Sty) fault (option unit) :=
  match fuel, buf with
  | _, [] => ret (Some tt)
  | O, _ => ret None
  | S fuel', _ =>
      λ s, match write buf s with
           | (Ok O, s') => (Err (Io WriteZero), s')
           | (Ok n, s') =>
               if decide (n ≤ length buf)%nat then write_all fuel' (drop n buf) s'
               else (Err (Unwind (Panicked "range start index out of range")), s')
           | (Err (Io e), s') =>
               if is_interrupted e then write_all fuel' buf s' else (Err (Io e), s')
           | (Err f, s') => (Err f, s')
           end
  end.

(** The loop of [io::copy], [written] bytes copied so far: reads a
    buffer, ends at an empty one, writes it all.  [None] when the fuel runs
    out. *)
Fixpoint copy_loop `{Read R} `{Write W} (fuel : nat) (written : Z)
  : SE (R * W * Env T Sty) fault (option Z) :=
  match fuel with
  | O => ret None
  | S fuel' =>
      λ s, match zoom (λ '(r, _, e), (r, e)) (λ '(r, e) '(_, w, _), (r, w, e))
                   (read DEFAULT_BUF_SIZE) s with
           | (Ok [], s') => (Ok (Some written), s')
           | (Ok buf, s') =>
               match zoom (λ '(_, w, e), (w, e)) (λ '(w, e) '(r, _, _), (r, w, e))
                       (write_all fuel' buf) s' with
               | (Ok (Some _), s'') => copy_loop fuel' (written + Z.of_nat (length buf)) s''
               | (Ok None, s'') => (Ok None, s'')
               | (Err f, s'') => (Err f, s'')
               end
           | (Err (Io e), s') =>
               if is_interrupted e then copy_loop fuel' written s' else (Err (Io e), s')
           | (Err f, s') => (Err f, s')
           end
  end.

(** [io::copy]. *)
Definition copy `{Read R} `{Write W} (fuel : nat) : SE (R * W * Env T Sty) fault (option Z) :=
  copy_loop fuel 0.

End io.
End io.

(** [Iterator]. *)
Class Iterator {T Sty : Type} (It Item : Type) : Type :=
  next : SE (It * Env T Sty) fault (option Item).

(** A list gives its elements from the front. *)
#[export] Instance list_Iterator {T Sty A} : Iterator (T := T) (Sty := Sty) (list A) A :=
  λ '(l, e), (Ok (head l), (tail l, e)).

(** ** The proxy *)

Module ProgressBarIter.
Section ops.
Context `{TermLike T} `{StyleOps Sty}.

(** A computation on the wrapped resource. *)
Definition on_it {R A} (m : SE (R * Env T Sty) fault A)
  : SE (ProgressBarIter R * Env T Sty) fault A :=
  zoom (λ '(self, e), (it self, e))
       (λ '(it', e') '(self, _), (mkProgressBarIter (progress self) it', e')) m.

(** A call on the bar. *)
Definition on_progress {R A} (m : ProgressBar → SE (Env T Sty) fault A)
  : SE (ProgressBarIter R * Env T Sty) fault A :=
  λ '(self, e), let '(r, e') := m (progress self) e in (r, (self, e')).

(** What is read advances the bar; an error of the resource is handed on
    before the bar is touched. *)
Definition read `{io.Read (T := T) (Sty := Sty) R} (cap : nat)
  : SE (ProgressBarIter R * Env T Sty) fault (list Byte.byte) :=
  let* inc := on_it (io.read cap) in
  on_progress (λ pb, call (ProgressBar.inc pb (Z.of_nat (length inc)))) ;;;
  ret inc.

(** What the resource took advances the bar. *)
Definition write `{io.Write (T := T) (Sty := Sty) W} (buf : list Byte.byte)
  : SE (ProgressBarIter W * Env T Sty) fault nat :=
  let* inc := on_it (io.write buf) in
  on_progress (λ pb, call (ProgressBar.inc pb (Z.of_nat inc))) ;;;
  ret inc.

Definition flush `{io.Write (T := T) (Sty := Sty) W}
  : SE (ProgressBarIter W * Env T Sty) fault unit :=
  on_it io.flush.

(** An item advances the bar by one. *)
Definition next `{Iterator (T := T) (Sty := Sty) It Item}
  : SE (ProgressBarIter It * Env T Sty) fault (option Item) :=
  let* item := on_it Adapters.next in
  match item with
  | Some _ => on_progress (λ pb, call (ProgressBar.inc pb 1))
  | None => ret tt
  end ;;;
  ret item.

End ops.
End ProgressBarIter.

#[export] Instance ProgressBarIter_Read `{TermLike T} `{StyleOps Sty}
    `{io.Read (T := T) (Sty := Sty) R} : io.Read (ProgressBarIter R) :=
  ProgressBarIter.read.

#[export] Instance ProgressBarIter_Write `{TermLike T} `{StyleOps Sty}
    `{io.Write (T := T) (Sty := Sty) W} : io.Write (ProgressBarIter W) := {|
  io.write := ProgressBarIter.write;
  io.flush := ProgressBarIter.flush
|}.

#[export] Instance ProgressBarIter_Iterator `{TermLike T} `{StyleOps Sty}
    `{Iterator (T := T) (Sty := Sty) It Item} : Iterator (ProgressBarIter It) Item :=
  ProgressBarIter.next.

(** [for item in iterator { body }]: [None] when the fuel runs out. *)
Fixpoint for_in {T Sty} `{Iterator (T := T) (Sty := Sty) It Item} (fuel : nat)
    (body : Item → SE (Env T Sty) fault unit) : SE (It * Env T Sty) fault (option unit) :=
  match fuel with
  | O => ret None
  | S fuel' =>
      let* item := next in
      match item with
      | None => ret (Some tt)
      | Some x => zoom snd (λ e '(i, _), (i, e)) (body x) ;;; for_in fuel' body
      end
  end.

(** ** The tests of [progress_bar.rs] that copy through a proxy *)

Definition reader_bytes : list Byte.byte :=
  list_byte_of_string "I am an implementation of io::Read".

Definition writer_bytes : list Byte.byte :=
  list_byte_of_string "implementation of io::Read".

Section tests.
Context `{TermLike T} `{StyleOps Sty}.

(** Yields what the writer holds after the copy, which the test compares
    with [bytes]; [None] when the fuel does not suffice for the copy. *)
Definition it_can_wrap_a_reader (stderr : T) (fuel : nat)
  : SE (Env T Sty) fault (option (list Byte.byte)) :=
  let bytes := reader_bytes in
  let* pb := call (ProgressBar.new (Z.of_nat (length bytes)) stderr) in
  let* reader := lift (ProgressBar.wrap_read pb bytes) in
  let writer : list Byte.byte := [] in
  λ e, let '(r, (reader, writer, e)) := unwrap (io.copy fuel) (reader, writer, e) in
       (match r with
        | Ok (Some _) => Ok (Some writer)
        | Ok None => Ok None
        | Err f => Err f
        end, e).

(** The same with the proxy on the writing side: yields [writer.it]. *)
Definition it_can_wrap_a_writer (stderr : T) (fuel : nat)
  : SE (Env T Sty) fault (option (list Byte.byte)) :=
  let bytes := writer_bytes in
  let reader := bytes in
  let* pb := call (ProgressBar.new (Z.of_nat (length bytes)) stderr) in
  let writer : list Byte.byte := [] in
  let* writer := lift (ProgressBar.wrap_write pb writer) in
  λ e, let '(r, (reader, writer, e)) := unwrap (io.copy fuel) (reader, writer, e) in
       (match r with
        | Ok (Some _) => Ok (Some (it writer))
        | Ok None => Ok None
        | Err f => Err f
        end, e).

End tests.

(** ** The examples in the documentation of the wrappers

    A file is its contents: a source file is a slice, a target file a
    vector, and opening them succeeds. *)

Section examples.
Context `{TermLike T} `{StyleOps Sty}.

(** Iterates over a vector of three items through a proxy; the body of
    the loop is empty. *)
Definition example_wrap_iter (stderr : T) (fuel : nat) : SE (Env T Sty) fault (option unit) :=
  let v : list Z := [1; 2; 3] in
  let* pb := call (ProgressBar.new 3 stderr) in
  let* iter := lift (ProgressBar.wrap_iter pb v) in
  λ e, let '(r, (_, e)) := for_in fuel (λ item, ret tt) (iter, e) in (r, e).

(** Copies the file [source] through a proxy; yields the target file.
    The outcome of the copy is dropped. *)
Definition example_wrap_read (stderr : T) (source : list Byte.byte) (fuel : nat)
  : SE (Env T Sty) fault (option (list Byte.byte)) :=
  let target : list Byte.byte := [] in
  let* pb := call (ProgressBar.new (Z.of_nat (length source)) stderr) in
  let* reader := lift (ProgressBar.wrap_read pb source) in
  λ e, let '(r, (_, target, e)) := io.copy fuel (reader, target, e) in
       (Ok (match r with Ok None => None | _ => Some target end), e).

(** Copies the file [source] into a proxy around the target file. *)
Definition example_wrap_write (stderr : T) (source : list Byte.byte) (fuel : nat)
  : SE (Env T Sty) fault (option (list Byte.byte)) :=
  let target : list Byte.byte := [] in
  let* pb := call (ProgressBar.new (Z.of_nat (length source)) stderr) in
  let* writer := lift (ProgressBar.wrap_write pb target) in
  λ e, let '(r, (_, writer, e)) := io.copy fuel (source, writer, e) in
       (Ok (match r with Ok None => None | _ => Some (it writer) end), e).

End examples.

(** ** Vocabulary of the theorems *)

Section vocabulary.
Context {T Sty : Type}.

(** From [e] to [e'] the bar [pb], which has [n] owners and is neither
    locked nor poisoned in both, has moved by [delta], saturating; its
    length, the clock's readings, the tick threads and every other bar are
    as they were. *)
Definition advanced (pb : ProgressBar) (n : nat) (delta : Z) (e e' : Env T Sty) : Prop :=
  clock e' = clock e
  ∧ frame_except (arc pb) (world e) (world e')
  ∧ ∃ bs bs', idle_at (arc pb) n bs (world e) ∧ idle_at (arc pb) n bs' (world e')
      ∧ pos (state bs') = saturating_add (pos (state bs)) delta
      ∧ len (state bs') = len (state bs).

(** A reader that gives the chunks it holds, one a read, and then fails
    with [f]. *)
Definition failing_reader (f : io_error)
  : io.Read (T := T) (Sty := Sty) (list (list Byte.byte)) :=
  λ cap '(s, e),
    match s with
    | [] => (Err (Io f), (s, e))
    | chunk :: s' => (Ok (take cap chunk), (s', e))
    end.

End vocabulary.

(** An environment around the demo world, whose clock reads 100, 101, ... *)
Definition demo_env : Env console.Term ProgressFinish :=
  mkEnv demo_world (λ k, 100 + Z.of_nat k) 0.

(** ** Lemmas: the environment *)

Section env_facts.
Context `{TermLike T} `{StyleOps Sty}.
Implicit Types (e : Env T Sty) (pb : ProgressBar) (bs : BarState T Sty).

Lemma idle_at_inj l n n' bs bs' (w : World T Sty) :
  idle_at l n bs w → idle_at l n' bs' w → n = n' ∧ bs = bs'.
Proof. unfold idle_at. intros -> [= -> ->]. done. Qed.

Lemma advanced_trans pb n d1 d2 e1 e2 e3 :
  0 ≤ d2 → advanced pb n d1 e1 e2 → advanced pb n d2 e2 e3 →
  advanced pb n (d1 + d2) e1 e3.
Proof.
  intros Hd (Hc1 & Hf1 & bs1 & bs2 & Hl1 & Hl2 & Hp1 & Hn1)
    (Hc2 & Hf2 & bs2' & bs3 & Hl2' & Hl3 & Hp2 & Hn2).
  destruct (idle_at_inj _ _ _ _ _ _ Hl2 Hl2') as [_ <-].
  split; [congruence|]. split; [by eapply frame_except_trans|].
  exists bs1, bs3. repeat split; [done..| |congruence].
  rewrite Hp2, Hp1. clear -Hd. u64_lia.
Qed.

Lemma advanced_refl pb n bs e :
  idle_at (arc pb) n bs (world e) → pos (state bs) ≤ u64_MAX → advanced pb n 0 e e.
Proof.
  intros Hl Hp. split; [done|]. split; [apply frame_except_refl|].
  exists bs, bs. repeat split; [done..|]. clear -Hp. u64_lia.
Qed.

Lemma advanced_after pb n d e e' :
  advanced pb n d e e' →
  ∃ bs', idle_at (arc pb) n bs' (world e') ∧ pos (state bs') ≤ u64_MAX.
Proof.
  intros (_ & _ & bs & bs' & _ & Hl & Hp & _). exists bs'. split; [done|].
  rewrite Hp. u64_lia.
Qed.

(** What an [inc] through the environment does. *)
Lemma call_inc pb delta n bs e :
  idle_at (arc pb) n bs (world e) →
  ∃ e', call (ProgressBar.inc pb delta) e = (Ok tt, e')
    ∧ ticks e' = S (ticks e) ∧ advanced pb n delta e e'.
Proof.
  intros Hl.
  destruct (inc_position pb delta (clock e (ticks e)) n bs (world e) Hl)
    as (bs' & w' & Heq & Hl' & Hp & Hn & Hfr).
  eexists. unfold call. rewrite Heq. split; [done|]. split; [done|].
  split; [done|]. split; [done|]. by exists bs, bs'.
Qed.

End env_facts.

(** ** Lemmas: the proxy *)

Section proxy_facts.
Context `{TermLike T} `{StyleOps Sty}.
Implicit Types (e : Env T Sty) (pb : ProgressBar) (bs : BarState T Sty).

Lemma on_it_eq {R A} (m : SE (R * Env T Sty) fault A) (self : ProgressBarIter R) e r it' e' :
  m (it self, e) = (r, (it', e')) →
  ProgressBarIter.on_it m (self, e) = (r, (mkProgressBarIter (progress self) it', e')).
Proof. unfold ProgressBarIter.on_it, zoom. by intros ->. Qed.

Lemma on_progress_inc {R} (self : ProgressBarIter R) delta n bs e :
  idle_at (arc (progress self)) n bs (world e) →
  ∃ e', ProgressBarIter.on_progress (λ pb, call (ProgressBar.inc pb delta)) (self, e)
        = (Ok tt, (self, e'))
    ∧ ticks e' = S (ticks e) ∧ advanced (progress self) n delta e e'.
Proof.
  intros Hl. destruct (call_inc _ delta _ _ _ Hl) as (e' & Heq & Ht & Hadv).
  exists e'. unfold ProgressBarIter.on_progress. by rewrite Heq.
Qed.

Section read.
Context `{io.Read (T := T) (Sty := Sty) R}.
Implicit Types self : ProgressBarIter R.

Lemma read_err self cap e f it' e1 :
  io.read cap (it self, e) = (Err f, (it', e1)) →
  ProgressBarIter.read cap (self, e) = (Err f, (mkProgressBarIter (progress self) it', e1)).
Proof.
  intros Hr. unfold ProgressBarIter.read, bind. by rewrite (on_it_eq _ _ _ _ _ _ Hr).
Qed.

Lemma read_ok self cap e buf it' e1 n bs :
  io.read cap (it self, e) = (Ok buf, (it', e1)) →
  idle_at (arc (progress self)) n bs (world e1) →
  ∃ e', ProgressBarIter.read cap (self, e)
        = (Ok buf, (mkProgressBarIter (progress self) it', e'))
    ∧ ticks e' = S (ticks e1)
    ∧ advanced (progress self) n (Z.of_nat (length buf)) e1 e'.
Proof.
  intros Hr Hl.
  destruct (on_progress_inc (mkProgressBarIter (progress self) it')
              (Z.of_nat (length buf)) n bs e1 Hl) as (e' & Heq & Ht & Hadv).
  exists e'. unfold ProgressBarIter.read, bind.
  by rewrite (on_it_eq _ _ _ _ _ _ Hr), Heq.
Qed.

End read.

Section write.
Context `{io.Write (T := T) (Sty := Sty) W}.
Implicit Types self : ProgressBarIter W.

Lemma write_err self buf e f it' e1 :
  io.write buf (it self, e) = (Err f, (it', e1)) →
  ProgressBarIter.write buf (self, e) = (Err f, (mkProgressBarIter (progress self) it', e1)).
Proof.
  intros Hr. unfold ProgressBarIter.write, bind. by rewrite (on_it_eq _ _ _ _ _ _ Hr).
Qed.

Lemma write_ok self buf e k it' e1 n bs :
  io.write buf (it self, e) = (Ok k, (it', e1)) →
  idle_at (arc (progress self)) n bs (world e1) →
  ∃ e', ProgressBarIter.write buf (self, e)
        = (Ok k, (mkProgressBarIter (progress self) it', e'))
    ∧ ticks e' = S (ticks e1)
    ∧ advanced (progress self) n (Z.of_nat k) e1 e'.
Proof.
  intros Hr Hl.
  destruct (on_progress_inc (mkProgressBarIter (progress self) it')
              (Z.of_nat k) n bs e1 Hl) as (e' & Heq & Ht & Hadv).
  exists e'. unfold ProgressBarIter.write, bind.
  by rewrite (on_it_eq _ _ _ _ _ _ Hr), Heq.
Qed.

End write.

Section next.
Context `{Iterator (T := T) (Sty := Sty) It Item}.
Implicit Types self : ProgressBarIter It.

Lemma next_none self e it' e1 :
  next (it self, e) = (Ok None, (it', e1)) →
  ProgressBarIter.next (self, e) = (Ok None, (mkProgressBarIter (progress self) it', e1)).
Proof.
  intros Hr. unfold ProgressBarIter.next, bind. by rewrite (on_it_eq _ _ _ _ _ _ Hr).
Qed.

Lemma next_some self e item it' e1 n bs :
  next (it self, e) = (Ok (Some item), (it', e1)) →
  idle_at (arc (progress self)) n bs (world e1) →
  ∃ e', ProgressBarIter.next (self, e)
        = (Ok (Some item), (mkProgressBarIter (progress self) it', e'))
    ∧ advanced (progress self) n 1 e1 e'.
Proof.
  intros Hr Hl.
  destruct (on_progress_inc (mkProgressBarIter (progress self) it') 1 n bs e1 Hl)
    as (e' & Heq & Ht & Hadv).
  exists e'. unfold ProgressBarIter.next, bind.
  by rewrite (on_it_eq _ _ _ _ _ _ Hr), Heq.
Qed.

End next.
End proxy_facts.

(** ** Lemmas: the loops of the standard library *)

Section loop_facts.
Context {T Sty : Type}.
Implicit Types (e : Env T Sty) (buf : list Byte.byte).

Lemma buf_size_pos : (0 < io.DEFAULT_BUF_SIZE)%nat.
Proof. unfold io.DEFAULT_BUF_SIZE. lia. Qed.

Lemma take_buf_nil (s : list Byte.byte) : take io.DEFAULT_BUF_SIZE s = [] → s = [].
Proof.
  intros Ht. apply (f_equal length) in Ht. rewrite length_take in Ht.
  pose proof buf_size_pos. destruct s; [done|]. simpl in Ht. lia.
Qed.

Section write_all.
Context `{io.Write (T := T) (Sty := Sty) W}.

Lemma write_all_nil fuel (s : W * Env T Sty) : io.write_all fuel [] s = (Ok (Some tt), s).
Proof. by destruct fuel. Qed.

(** A writer that takes the whole buffer is written to once. *)
Lemma write_all_once fuel buf (s s' : W * Env T Sty) :
  buf ≠ [] →
  io.write buf s = (Ok (length buf), s') →
  io.write_all (S fuel) buf s = (Ok (Some tt), s').
Proof.
  intros Hne Hw. destruct buf as [|b buf]; [done|]. cbn [io.write_all].
  rewrite Hw. cbn [length]. rewrite decide_True by lia.
  change (S (length buf)) with (length (b :: buf)).
  by rewrite drop_all, write_all_nil.
Qed.

End write_all.

Section copy_loop.
Context `{io.Read (T := T) (Sty := Sty) R} `{io.Write (T := T) (Sty := Sty) W}.
Implicit Types (r : R) (w : W).

Lemma copy_loop_eof fuel written r w e r' e' :
  io.read io.DEFAULT_BUF_SIZE (r, e) = (Ok [], (r', e')) →
  io.copy_loop (S fuel) written (r, w, e) = (Ok (Some written), (r', w, e')).
Proof. intros Hr. cbn [io.copy_loop]. unfold zoom. by rewrite Hr. Qed.

Lemma copy_loop_chunk fuel written r w e buf r' e1 w' e2 :
  io.read io.DEFAULT_BUF_SIZE (r, e) = (Ok buf, (r', e1)) →
  buf ≠ [] →
  io.write_all fuel buf (w, e1) = (Ok (Some tt), (w', e2)) →
  io.copy_loop (S fuel) written (r, w, e)
  = io.copy_loop fuel (written + Z.of_nat (length buf)) (r', w', e2).
Proof.
  intros Hr Hne Hw. cbn [io.copy_loop]. unfold zoom. rewrite Hr.
  destruct buf; [done|]. by rewrite Hw.
Qed.

(** An error of the reader that is not an interruption ends the copy. *)
Lemma copy_loop_read_err fuel written r w e f r' e' :
  io.read io.DEFAULT_BUF_SIZE (r, e) = (Err (Io f), (r', e')) →
  io.is_interrupted f = false →
  io.copy_loop (S fuel) written (r, w, e) = (Err (Io f), (r', w, e')).
Proof. intros Hr Hi. cbn [io.copy_loop]. unfold zoom. by rewrite Hr, Hi. Qed.

End copy_loop.
End loop_facts.

(** ** Lemmas: copying through a proxy *)

Section copy_facts.
Context `{TermLike T} `{StyleOps Sty}.
Implicit Types (e : Env T Sty) (pb : ProgressBar) (bs : BarState T Sty)
  (s v buf : list Byte.byte).

(** The fuel that suffices for [s] has one unit for each buffer and one
    for the read that finds the end. *)
Lemma fuel_step s fuel :
  s ≠ [] →
  (length s + io.DEFAULT_BUF_SIZE ≤ S fuel * io.DEFAULT_BUF_SIZE)%nat →
  ∃ fuel', fuel = S fuel'
    ∧ (length (drop io.DEFAULT_BUF_SIZE s) + io.DEFAULT_BUF_SIZE
       ≤ fuel * io.DEFAULT_BUF_SIZE)%nat.
Proof.
  intros Hne Hf. pose proof buf_size_pos. rewrite length_drop.
  assert (0 < length s)%nat by (destruct s; [done|simpl; lia]).
  destruct fuel as [|fuel']; [lia|]. exists fuel'. split; [done|]. lia.
Qed.

Lemma chunks_length s :
  Z.of_nat (length (take io.DEFAULT_BUF_SIZE s))
  + Z.of_nat (length (drop io.DEFAULT_BUF_SIZE s)) = Z.of_nat (length s).
Proof. by rewrite <-Nat2Z.inj_add, <-length_app, take_drop. Qed.

Lemma wrap_read_idle {R} pb (read : R) n bs (w : World T Sty) :
  idle_at (arc pb) (S n) bs w →
  ∃ w', ProgressBar.wrap_read pb read w = (Ok (mkProgressBarIter pb read), w')
    ∧ idle_at (arc pb) (S (S n)) bs w' ∧ frame_except (arc pb) w w'.
Proof.
  intros Hl. eexists. unfold ProgressBar.wrap_read, ProgressBar.clone, bind.
  rewrite (clone_idle _ _ _ _ Hl). split; [done|].
  split; [apply idle_at_commit|apply frame_except_commit].
Qed.

Lemma wrap_write_idle {W} pb (write : W) n bs (w : World T Sty) :
  idle_at (arc pb) (S n) bs w →
  ∃ w', ProgressBar.wrap_write pb write w = (Ok (mkProgressBarIter pb write), w')
    ∧ idle_at (arc pb) (S (S n)) bs w' ∧ frame_except (arc pb) w w'.
Proof.
  intros Hl. eexists. unfold ProgressBar.wrap_write, ProgressBar.clone, bind.
  rewrite (clone_idle _ _ _ _ Hl). split; [done|].
  split; [apply idle_at_commit|apply frame_except_commit].
Qed.

Lemma wrap_iter_idle {It} pb (iter : It) n bs (w : World T Sty) :
  idle_at (arc pb) (S n) bs w →
  ∃ w', ProgressBar.wrap_iter pb iter w = (Ok (mkProgressBarIter pb iter), w')
    ∧ idle_at (arc pb) (S (S n)) bs w' ∧ frame_except (arc pb) w w'.
Proof.
  intros Hl. eexists. unfold ProgressBar.wrap_iter, ProgressBar.clone, bind.
  rewrite (clone_idle _ _ _ _ Hl). split; [done|].
  split; [apply idle_at_commit|apply frame_except_commit].
Qed.

(** One read through a proxy around a slice, one write through a proxy
    around a vector. *)
Lemma read_slice pb s cap e n bs :
  idle_at (arc pb) n bs (world e) →
  ∃ e', io.read cap (mkProgressBarIter pb s, e)
        = (Ok (take cap s), (mkProgressBarIter pb (drop cap s), e'))
    ∧ advanced pb n (Z.of_nat (length (take cap s))) e e'.
Proof.
  intros Hl.
  assert (Hs : io.read cap (s, e) = (Ok (take cap s), (drop cap s, e))) by done.
  destruct (read_ok (mkProgressBarIter pb s) cap e _ _ _ n bs Hs Hl)
    as (e' & Hr & _ & Hadv).
  by exists e'.
Qed.

Lemma write_vec pb v buf e n bs :
  idle_at (arc pb) n bs (world e) →
  ∃ e', io.write buf (mkProgressBarIter pb v, e)
        = (Ok (length buf), (mkProgressBarIter pb (v ++ buf), e'))
    ∧ advanced pb n (Z.of_nat (length buf)) e e'.
Proof.
  intros Hl.
  assert (Hw : io.write buf (v, e) = (Ok (length buf), (v ++ buf, e))) by done.
  destruct (write_ok (mkProgressBarIter pb v) buf e _ _ _ n bs Hw Hl)
    as (e' & Hr & _ & Hadv).
  by exists e'.
Qed.

(** The copy from a proxy around a slice into a vector: every buffer read
    advances the bar, the last read finds the end. *)
Lemma copy_loop_drains pb n fuel : ∀ s v written e bs,
  idle_at (arc pb) n bs (world e) →
  (length s + io.DEFAULT_BUF_SIZE ≤ fuel * io.DEFAULT_BUF_SIZE)%nat →
  ∃ e', io.copy_loop fuel written (mkProgressBarIter pb s, v, e)
        = (Ok (Some (written + Z.of_nat (length s))), (mkProgressBarIter pb [], v ++ s, e'))
    ∧ advanced pb n (Z.of_nat (length s)) e e'.
Proof.
  induction fuel as [|fuel IH]; intros s v written e bs Hl Hf.
  { pose proof buf_size_pos. lia. }
  destruct (read_slice pb s io.DEFAULT_BUF_SIZE e n bs Hl) as (e1 & Hr & Hadv1).
  destruct (decide (s = [])) as [->|Hne].
  - exists e1. rewrite take_nil, drop_nil in Hr.
    by rewrite (copy_loop_eof _ _ _ _ _ _ _ Hr), app_nil_r, Z.add_0_r.
  - destruct (fuel_step s fuel Hne Hf) as (fuel' & -> & Hf').
    destruct (advanced_after _ _ _ _ _ Hadv1) as (bs1 & Hl1 & _).
    destruct (IH (drop io.DEFAULT_BUF_SIZE s) (v ++ take io.DEFAULT_BUF_SIZE s)
                (written + Z.of_nat (length (take io.DEFAULT_BUF_SIZE s))) e1 bs1 Hl1 Hf')
      as (e2 & Hc & Hadv2).
    exists e2. split.
    + erewrite copy_loop_chunk;
        [|exact Hr|by intros ?%take_buf_nil
         |by apply write_all_once; [intros ?%take_buf_nil|]].
      by rewrite Hc, <-Z.add_assoc, chunks_length, <-app_assoc, take_drop.
    + rewrite <-(chunks_length s). eapply advanced_trans; [lia|done..].
Qed.

(** The copy from a slice into a proxy around a vector: every buffer
    written advances the bar. *)
Lemma copy_loop_fills pb n fuel : ∀ s v written e bs,
  idle_at (arc pb) n bs (world e) →
  pos (state bs) ≤ u64_MAX →
  (length s + io.DEFAULT_BUF_SIZE ≤ fuel * io.DEFAULT_BUF_SIZE)%nat →
  ∃ e', io.copy_loop fuel written (s, mkProgressBarIter pb v, e)
        = (Ok (Some (written + Z.of_nat (length s))), ([], mkProgressBarIter pb (v ++ s), e'))
    ∧ advanced pb n (Z.of_nat (length s)) e e'.
Proof.
  induction fuel as [|fuel IH]; intros s v written e bs Hl Hp Hf.
  { pose proof buf_size_pos. lia. }
  assert (Hr : io.read io.DEFAULT_BUF_SIZE (s, e)
               = (Ok (take io.DEFAULT_BUF_SIZE s), (drop io.DEFAULT_BUF_SIZE s, e))) by done.
  destruct (decide (s = [])) as [->|Hne].
  - exists e. rewrite take_nil, drop_nil in Hr.
    rewrite (copy_loop_eof _ _ _ _ _ _ _ Hr), app_nil_r, Z.add_0_r.
    split; [done|]. by eapply advanced_refl.
  - destruct (fuel_step s fuel Hne Hf) as (fuel' & -> & Hf').
    destruct (write_vec pb v (take io.DEFAULT_BUF_SIZE s) e n bs Hl) as (e1 & Hw & Hadv1).
    destruct (advanced_after _ _ _ _ _ Hadv1) as (bs1 & Hl1 & Hp1).
    destruct (IH (drop io.DEFAULT_BUF_SIZE s) (v ++ take io.DEFAULT_BUF_SIZE s)
                (written + Z.of_nat (length (take io.DEFAULT_BUF_SIZE s))) e1 bs1 Hl1 Hp1 Hf')
      as (e2 & Hc & Hadv2).
    exists e2. split.
    + erewrite copy_loop_chunk;
        [|exact Hr|by intros ?%take_buf_nil
         |by apply write_all_once; [intros ?%take_buf_nil|]].
      by rewrite Hc, <-Z.add_assoc, chunks_length, <-app_assoc, take_drop.
    + rewrite <-(chunks_length s). eapply advanced_trans; [lia|done..].
Qed.

(** The loop over a proxy around a list: every item advances the bar by
    one. *)
Lemma for_in_drains {A} pb n fuel : ∀ (l : list A) e bs,
  idle_at (arc pb) n bs (world e) →
  pos (state bs) ≤ u64_MAX →
  (length l < fuel)%nat →
  ∃ e', for_in fuel (λ _, ret tt) (mkProgressBarIter pb l, e)
        = (Ok (Some tt), (mkProgressBarIter pb [], e'))
    ∧ advanced pb n (Z.of_nat (length l)) e e'.
Proof.
  induction fuel as [|fuel IH]; intros l e bs Hl Hp Hf; [lia|].
  destruct l as [|x l]; cbn [for_in]; unfold bind, next at 1, ProgressBarIter_Iterator.
  - exists e. rewrite (next_none (It := list A) (Item := A) (mkProgressBarIter pb []) e [] e eq_refl).
    split; [done|]. by eapply advanced_refl.
  - destruct (next_some (It := list A) (mkProgressBarIter pb (x :: l)) e x l e n bs eq_refl Hl)
      as (e1 & -> & Hadv1).
    destruct (advanced_after _ _ _ _ _ Hadv1) as (bs1 & Hl1 & Hp1).
    destruct (IH l e1 bs1 Hl1 Hp1) as (e2 & Hc & Hadv2); [simpl in Hf; lia|].
    exists e2. unfold zoom. cbn. split; [exact Hc|].
    rewrite Nat2Z.inj_succ, <-Z.add_1_l.
    eapply advanced_trans; [lia|done..].
Qed.

End copy_facts.

(** ** Theorems *)

Section theorems.
Context `{TermLike T} `{StyleOps Sty}.
Implicit Types (e : Env T Sty) (pb : ProgressBar) (bs : BarState T Sty).

(** C29: What a read through the proxy does, on both
    outcomes of the wrapped reader.  An error of the reader is handed on
    unchanged and the bar is not touched: the state is the one the reader
    left.  Bytes read are handed on unchanged and the bar, if it is
    neither locked nor poisoned, advances by their number, saturating,
    after one reading of the clock; its length, the tick threads and all
    other bars are as the reader left them. *)
Theorem proxy_read_spec {R} {HR : io.Read (T := T) (Sty := Sty) R} (self : ProgressBarIter R)
    cap e r it' e1 n bs :
  io.read cap (it self, e) = (r, (it', e1)) →
  idle_at (arc (progress self)) n bs (world e1) →
  match r with
  | Err f =>
      ProgressBarIter.read cap (self, e)
      = (Err f, (mkProgressBarIter (progress self) it', e1))
  | Ok buf =>
      ∃ e', ProgressBarIter.read cap (self, e)
            = (Ok buf, (mkProgressBarIter (progress self) it', e'))
        ∧ ticks e' = S (ticks e1)
        ∧ advanced (progress self) n (Z.of_nat (length buf)) e1 e'
  end.
Proof.
  intros Hr Hl. destruct r as [buf|f]; [by eapply read_ok|by apply read_err].
Qed.

(** C13: Draining a wrapped reader yields the
    bytes it holds.  For a bar with an owner that is neither locked nor
    poisoned, and fuel for every buffer of the bytes and the read that
    finds the end: [wrap_read] gives a proxy that owns the bar once more,
    [io::copy] from it into an empty vector returns the number of bytes,
    the vector then holds exactly the bytes, the reader is empty, and the
    position has advanced by the number of bytes, saturating, with the
    length unchanged. *)
Theorem wrap_read_copy_roundtrip pb (bytes : list Byte.byte) fuel n bs e :
  idle_at (arc pb) (S n) bs (world e) →
  (length bytes + io.DEFAULT_BUF_SIZE ≤ fuel * io.DEFAULT_BUF_SIZE)%nat →
  ∃ reader e1 e2 bs',
    lift (ProgressBar.wrap_read pb bytes) e = (Ok reader, e1)
    ∧ io.copy fuel (reader, [], e1)
      = (Ok (Some (Z.of_nat (length bytes))), (mkProgressBarIter pb [], bytes, e2))
    ∧ idle_at (arc pb) (S (S n)) bs' (world e2)
    ∧ pos (state bs') = saturating_add (pos (state bs)) (Z.of_nat (length bytes))
    ∧ len (state bs') = len (state bs).
Proof.
  intros Hl Hf. destruct (wrap_read_idle pb bytes n bs (world e) Hl) as (w1 & Hw & Hl1 & _).
  destruct (copy_loop_drains pb (S (S n)) fuel bytes [] 0 (set_world w1 e) bs Hl1 Hf)
    as (e2 & Hc & _ & _ & bs0 & bs' & Hl0 & Hl2 & Hp & Hn).
  destruct (idle_at_inj _ _ _ _ _ _ Hl1 Hl0) as [_ <-].
  exists (mkProgressBarIter pb bytes), (set_world w1 e), e2, bs'.
  split; [unfold lift; by rewrite Hw|]. by split.
Qed.

End theorems.

Lemma wrap_read_copy_roundtrip_witness :
  ∃ reader e1 e2 bs',
    lift (ProgressBar.wrap_read demo_pb reader_bytes) demo_env = (Ok reader, e1)
    ∧ io.copy 2 (reader, [], e1)
      = (Ok (Some (Z.of_nat (length reader_bytes))),
         (mkProgressBarIter demo_pb [], reader_bytes, e2))
    ∧ idle_at (arc demo_pb) 2 bs' (world e2)
    ∧ pos (state bs') = saturating_add (pos (state demo_bar)) (Z.of_nat (length reader_bytes))
    ∧ len (state bs') = len (state demo_bar).
Proof.
  apply (wrap_read_copy_roundtrip demo_pb reader_bytes 2 0 demo_bar demo_env);
    [by vm_compute|].
  change (length reader_bytes) with 34%nat. unfold io.DEFAULT_BUF_SIZE. lia.
Defined.

Lemma proxy_read_spec_witness :
  (∃ e', ProgressBarIter.read 8 (mkProgressBarIter demo_pb reader_bytes, demo_env)
         = (Ok (take 8 reader_bytes), (mkProgressBarIter demo_pb (drop 8 reader_bytes), e'))
     ∧ ticks e' = 1%nat ∧ advanced demo_pb 1 8 demo_env e')
  ∧ ProgressBarIter.read (H1 := failing_reader (IoError console.EPIPE)) 8
      (mkProgressBarIter demo_pb [], demo_env)
    = (Err (Io (IoError console.EPIPE)), (mkProgressBarIter demo_pb [], demo_env)).
Proof.
  split.
  - apply (proxy_read_spec (mkProgressBarIter demo_pb reader_bytes) 8 demo_env
             (Ok (take 8 reader_bytes)) (drop 8 reader_bytes) demo_env 1 demo_bar);
      by vm_compute.
  - apply (proxy_read_spec (HR := failing_reader (IoError console.EPIPE))
             (mkProgressBarIter demo_pb []) 8 demo_env
             (Err (Io (IoError console.EPIPE))) [] demo_env 1 demo_bar);
      by vm_compute.
Defined.

(** ** Theorems: the tests and the examples *)

Section scenarios.
Context `{TermLike T} `{StyleOps Sty}.
Implicit Types (e : Env T Sty) (stderr : T).

Lemma two_buffers (bytes : list Byte.byte) fuel :
  (length bytes ≤ io.DEFAULT_BUF_SIZE)%nat → (2 ≤ fuel)%nat →
  (length bytes + io.DEFAULT_BUF_SIZE ≤ fuel * io.DEFAULT_BUF_SIZE)%nat.
Proof. nia. Qed.

(** What every scenario starts with: a new bar, and a proxy that owns it
    too. *)
Lemma call_new len stderr e :
  ∃ e1, call (ProgressBar.new len stderr) e
        = (Ok (mkProgressBar (fresh (dom (bars (world e))))), e1)
    ∧ idle_at (fresh (dom (bars (world e)))) 1
        (mkBarState (ProgressDrawTarget.stderr stderr)
           (ProgressState.new len (clock e (ticks e)))) (world e1).
Proof.
  destruct (new_eq len stderr (clock e (ticks e)) (world e)) as (w1 & Hn & Hl & _).
  eexists. unfold call. rewrite Hn. by split.
Qed.

Lemma lift_wrap {R} (wrap : ProgressBar → R → M T Sty (ProgressBarIter R)) pb (r : R) n bs e :
  (∀ w, idle_at (arc pb) (S n) bs w →
        ∃ w', wrap pb r w = (Ok (mkProgressBarIter pb r), w')
          ∧ idle_at (arc pb) (S (S n)) bs w' ∧ frame_except (arc pb) w w') →
  idle_at (arc pb) (S n) bs (world e) →
  ∃ e1, lift (wrap pb r) e = (Ok (mkProgressBarIter pb r), e1)
    ∧ idle_at (arc pb) (S (S n)) bs (world e1).
Proof.
  intros Hwrap Hl. destruct (Hwrap _ Hl) as (w' & Hw & Hl' & _).
  eexists. unfold lift. rewrite Hw. by split.
Qed.

(** A scenario's bar after its loop: two owners, and the position the
    loop has advanced it to from 0. *)
Lemma advanced_from_new pb length now stderr delta e e' :
  0 ≤ delta →
  idle_at (arc pb) 2
    (mkBarState (ProgressDrawTarget.stderr stderr) (ProgressState.new length now)) (world e) →
  advanced pb 2 delta e e' →
  ∃ bs', idle_at (arc pb) 2 bs' (world e')
    ∧ pos (state bs') = Z.min delta u64_MAX ∧ len (state bs') = length.
Proof.
  intros Hd Hl (_ & _ & bs0 & bs' & Hl0 & Hl' & Hp & Hn).
  destruct (idle_at_inj _ _ _ _ _ _ Hl Hl0) as [_ <-].
  exists bs'. split; [done|]. by rewrite Hp, Hn.
Qed.

Lemma it_can_wrap_a_reader_eq stderr fuel e :
  (2 ≤ fuel)%nat →
  ∃ e' bs', it_can_wrap_a_reader stderr fuel e = (Ok (Some reader_bytes), e')
    ∧ idle_at (fresh (dom (bars (world e)))) 2 bs' (world e')
    ∧ pos (state bs') = 34 ∧ len (state bs') = 34.
Proof.
  intros Hfuel. unfold it_can_wrap_a_reader.
  destruct (call_new (Z.of_nat (length reader_bytes)) stderr e) as (e1 & Hn & Hl1).
  destruct (lift_wrap _ (mkProgressBar (fresh (dom (bars (world e))))) reader_bytes 0 _ e1 (wrap_read_idle _ _ _ _) Hl1) as (e2 & Hw & Hl2).
  destruct (copy_loop_drains (mkProgressBar (fresh (dom (bars (world e))))) 2 fuel reader_bytes [] 0 e2 _ Hl2) as (e3 & Hc & Hadv).
  { apply two_buffers; [|done]. unfold io.DEFAULT_BUF_SIZE. vm_compute. lia. }
  destruct (advanced_from_new (mkProgressBar (fresh (dom (bars (world e))))) _ _ _ _ _ _ (Nat2Z.is_nonneg _) Hl2 Hadv) as (bs' & Hl3 & Hp & Hlen).
  exists e3, bs'. rewrite (bind_ok _ _ _ _ _ Hn), (bind_ok _ _ _ _ _ Hw).
  unfold unwrap, io.copy. by rewrite Hc.
Qed.

Lemma it_can_wrap_a_writer_eq stderr fuel e :
  (2 ≤ fuel)%nat →
  ∃ e' bs', it_can_wrap_a_writer stderr fuel e = (Ok (Some writer_bytes), e')
    ∧ idle_at (fresh (dom (bars (world e)))) 2 bs' (world e')
    ∧ pos (state bs') = 26 ∧ len (state bs') = 26.
Proof.
  intros Hfuel. unfold it_can_wrap_a_writer.
  destruct (call_new (Z.of_nat (length writer_bytes)) stderr e) as (e1 & Hn & Hl1).
  destruct (lift_wrap _ (mkProgressBar (fresh (dom (bars (world e))))) ([] : list Byte.byte) 0 _ e1 (wrap_write_idle _ _ _ _) Hl1)
    as (e2 & Hw & Hl2).
  destruct (copy_loop_fills (mkProgressBar (fresh (dom (bars (world e))))) 2 fuel writer_bytes [] 0 e2 _ Hl2) as (e3 & Hc & Hadv).
  { by vm_compute. }
  { apply two_buffers; [|done]. unfold io.DEFAULT_BUF_SIZE. vm_compute. lia. }
  destruct (advanced_from_new (mkProgressBar (fresh (dom (bars (world e))))) _ _ _ _ _ _ (Nat2Z.is_nonneg _) Hl2 Hadv) as (bs' & Hl3 & Hp & Hlen).
  exists e3, bs'. rewrite (bind_ok _ _ _ _ _ Hn), (bind_ok _ _ _ _ _ Hw).
  unfold unwrap, io.copy. by rewrite Hc.
Qed.

(** The example of [wrap_iter]: the loop ends and the bar is complete. *)
Lemma example_wrap_iter_eq stderr fuel e :
  (4 ≤ fuel)%nat →
  ∃ e' bs', example_wrap_iter stderr fuel e = (Ok (Some tt), e')
    ∧ idle_at (fresh (dom (bars (world e)))) 2 bs' (world e')
    ∧ pos (state bs') = 3 ∧ len (state bs') = 3.
Proof.
  intros Hfuel. unfold example_wrap_iter.
  destruct (call_new 3 stderr e) as (e1 & Hn & Hl1).
  destruct (lift_wrap _ (mkProgressBar (fresh (dom (bars (world e))))) [1; 2; 3] 0 _ e1 (wrap_iter_idle _ _ _ _) Hl1) as (e2 & Hw & Hl2).
  destruct (for_in_drains (mkProgressBar (fresh (dom (bars (world e))))) 2 fuel [1; 2; 3] e2 _ Hl2) as (e3 & Hc & Hadv);
    [by vm_compute|simpl; lia|].
  destruct (advanced_from_new (mkProgressBar (fresh (dom (bars (world e))))) _ _ _ _ _ _ (Nat2Z.is_nonneg _) Hl2 Hadv) as (bs' & Hl3 & Hp & Hlen).
  exists e3, bs'. rewrite (bind_ok _ _ _ _ _ Hn), (bind_ok _ _ _ _ _ Hw).
  by rewrite Hc.
Qed.

(** The examples of [wrap_read] and [wrap_write]: the target file holds
    the contents of the source, and the bar is at the length of the
    source. *)
Lemma example_wrap_read_eq stderr (source : list Byte.byte) fuel e :
  (length source + io.DEFAULT_BUF_SIZE ≤ fuel * io.DEFAULT_BUF_SIZE)%nat →
  ∃ e' bs', example_wrap_read stderr source fuel e = (Ok (Some source), e')
    ∧ idle_at (fresh (dom (bars (world e)))) 2 bs' (world e')
    ∧ pos (state bs') = Z.min (Z.of_nat (length source)) u64_MAX
    ∧ len (state bs') = Z.of_nat (length source).
Proof.
  intros Hfuel. unfold example_wrap_read.
  destruct (call_new (Z.of_nat (length source)) stderr e) as (e1 & Hn & Hl1).
  destruct (lift_wrap _ (mkProgressBar (fresh (dom (bars (world e))))) source 0 _ e1 (wrap_read_idle _ _ _ _) Hl1) as (e2 & Hw & Hl2).
  destruct (copy_loop_drains (mkProgressBar (fresh (dom (bars (world e))))) 2 fuel source [] 0 e2 _ Hl2 Hfuel) as (e3 & Hc & Hadv).
  destruct (advanced_from_new (mkProgressBar (fresh (dom (bars (world e))))) _ _ _ _ _ _ (Nat2Z.is_nonneg _) Hl2 Hadv) as (bs' & Hl3 & Hp & Hlen).
  exists e3, bs'. rewrite (bind_ok _ _ _ _ _ Hn), (bind_ok _ _ _ _ _ Hw).
  unfold io.copy. by rewrite Hc.
Qed.

Lemma example_wrap_write_eq stderr (source : list Byte.byte) fuel e :
  (length source + io.DEFAULT_BUF_SIZE ≤ fuel * io.DEFAULT_BUF_SIZE)%nat →
  ∃ e' bs', example_wrap_write stderr source fuel e = (Ok (Some source), e')
    ∧ idle_at (fresh (dom (bars (world e)))) 2 bs' (world e')
    ∧ pos (state bs') = Z.min (Z.of_nat (length source)) u64_MAX
    ∧ len (state bs') = Z.of_nat (length source).
Proof.
  intros Hfuel. unfold example_wrap_write.
  destruct (call_new (Z.of_nat (length source)) stderr e) as (e1 & Hn & Hl1).
  destruct (lift_wrap _ (mkProgressBar (fresh (dom (bars (world e))))) ([] : list Byte.byte) 0 _ e1 (wrap_write_idle _ _ _ _) Hl1)
    as (e2 & Hw & Hl2).
  destruct (copy_loop_fills (mkProgressBar (fresh (dom (bars (world e))))) 2 fuel source [] 0 e2 _ Hl2) as (e3 & Hc & Hadv);
    [by vm_compute|done|].
  destruct (advanced_from_new (mkProgressBar (fresh (dom (bars (world e))))) _ _ _ _ _ _ (Nat2Z.is_nonneg _) Hl2 Hadv) as (bs' & Hl3 & Hp & Hlen).
  exists e3, bs'. rewrite (bind_ok _ _ _ _ _ Hn), (bind_ok _ _ _ _ _ Hw).
  unfold io.copy. by rewrite Hc.
Qed.

(** C39: The tests [it_can_wrap_a_reader] and
    [it_can_wrap_a_writer] pass in every world and with every clock, given
    fuel for one buffer and the read that finds the end: the copy returns
    without an error and the writer holds the bytes of the reader.
    Moreover the bar each test made is complete afterwards: position and
    length are the number of bytes (34 and 26).  The bar has two owners,
    the handle and the proxy, which are still in scope. *)
Theorem it_can_wrap_pass stderr fuel e :
  (2 ≤ fuel)%nat →
  (∃ e' bs', it_can_wrap_a_reader stderr fuel e = (Ok (Some reader_bytes), e')
     ∧ idle_at (fresh (dom (bars (world e)))) 2 bs' (world e')
     ∧ pos (state bs') = 34 ∧ len (state bs') = 34)
  ∧ (∃ e' bs', it_can_wrap_a_writer stderr fuel e = (Ok (Some writer_bytes), e')
     ∧ idle_at (fresh (dom (bars (world e)))) 2 bs' (world e')
     ∧ pos (state bs') = 26 ∧ len (state bs') = 26).
Proof.
  intros Hfuel. split; [by apply it_can_wrap_a_reader_eq|by apply it_can_wrap_a_writer_eq].
Qed.

End scenarios.

Lemma it_can_wrap_pass_witness :
  (∃ e' bs', it_can_wrap_a_reader demo_term 2 demo_env = (Ok (Some reader_bytes), e')
     ∧ idle_at (fresh (dom (bars (world demo_env)))) 2 bs' (world e')
     ∧ pos (state bs') = 34 ∧ len (state bs') = 34)
  ∧ (∃ e' bs', it_can_wrap_a_writer demo_term 2 demo_env = (Ok (Some writer_bytes), e')
     ∧ idle_at (fresh (dom (bars (world demo_env)))) 2 bs' (world e')
     ∧ pos (state bs') = 26 ∧ len (state bs') = 26).
Proof. apply (it_can_wrap_pass demo_term 2 demo_env). lia. Defined.
