(* ===== verification/Region.v ===== *)
(** * The shared region

    Several bars on one terminal: the slot table of the region
    ([MultiState] of [OutputTarget]), what keeps it consistent, and the
    [MultiProgress] handle that adds bars to a region and removes them.
    [multi.rs] is not among the sources: the handle follows the
    specification ([spec.md], 4.4), and its critical section is one step
    of the model.  A bar reaches its region through its remote target
    ([set_draw_target], [index] and the redraw of [src/src/progress_bar.rs]).

    The theorems: the slot table stays well formed under every operation;
    adding and removing a bar leaves the slot of every other bar where it
    was; a repaint goes back over the lines painted before and writes the
    lines of all bars in display order; a redraw by one bar of a region
    repaints the region with that bar's new lines in its place. *)

From Stdlib Require Import ZArith String List Lia.
From stdpp Require Import base option list gmap.
From S2P Require Import Prelude TermLike ProgressRecord OutputTarget BarCell Handle.

#[local] Open Scope Z_scope.
#[local] Open Scope bar_scope.

(** ** Well-formed slot tables *)

Section wf.
Context {T : Type}.
Implicit Types ms : MultiState T.

(** Slot [idx] holds a bar; slot [idx] was freed. *)
Definition occupied ms (idx : nat) : Prop := is_Some (mjoin (members ms !! idx)).

Definition vacant ms (idx : nat) : Prop := members ms !! idx = Some None.

(** The display order lists the occupied slots, the free list the freed
    ones, both without repetition, and every slot is in one of them. *)
Definition region_wf ms : Prop :=
  NoDup (ordering ms) ∧ NoDup (free_set ms)
  ∧ Forall (occupied ms) (ordering ms)
  ∧ Forall (vacant ms) (free_set ms)
  ∧ Forall (λ idx, idx ∈ ordering ms ∨ idx ∈ free_set ms) (seq 0 (length (members ms))).

#[global] Instance occupied_dec ms idx : Decision (occupied ms idx).
Proof. unfold occupied. apply _. Defined.

#[global] Instance vacant_dec ms idx : Decision (vacant ms idx).
Proof. unfold vacant. apply _. Defined.

#[global] Instance region_wf_dec ms : Decision (region_wf ms).
Proof. unfold region_wf. apply _. Defined.

End wf.

(** ** The handle of a region *)

Record MultiProgress : Type := mkMultiProgress { region : loc }.

Module MultiProgress.
Section ops.
Context `{TermLike T} `{StyleOps Sty}.
Implicit Types (self : MultiProgress) (pb : ProgressBar).

(** A region that paints on [target]; a region on anything but a terminal
    paints nothing. *)
Definition with_draw_target (target : ProgressDrawTarget T) : M T Sty MultiProgress := λ w,
  let st := fresh (dom (multis w)) in
  let tg := match target with Direct tg => Some tg | Remote _ _ | Hidden => None end in
  (Ok (mkMultiProgress st), set_multis (<[st := MultiState.new tg]> (multis w)) w).

Definition new (stderr : T) : M T Sty MultiProgress :=
  with_draw_target (ProgressDrawTarget.stderr stderr).

(** Takes a slot at [location] and points the bar at it; the bar's old
    target is disconnected by [set_draw_target]. *)
Definition internalize self (location : InsertLocation) pb now : M T Sty ProgressBar := λ w,
  match multis w !! region self with
  | None => (Err Dangling, w)
  | Some ms =>
      let '(idx, ms') := MultiState.insert location ms in
      (ProgressBar.set_draw_target pb (ProgressDrawTarget.new_remote (region self) idx) now ;;;
       ret pb) (set_multis (<[region self := ms']> (multis w)) w)
  end.

(** At the end of the display order. *)
Definition add self pb now : M T Sty ProgressBar := internalize self AtEnd pb now.

(** At a position of the display order. *)
Definition insert self (index : nat) pb now : M T Sty ProgressBar :=
  internalize self (AtIndex index) pb now.

(** Before or after the bar of another slot. *)
Definition insert_before self (before : ProgressBar) pb now : M T Sty ProgressBar :=
  let* idx := ProgressBar.index before in
  match idx with
  | Some idx => internalize self (Before idx) pb now
  | None => throw (Panicked "the bar is not in a region")
  end.

Definition insert_after self (after : ProgressBar) pb now : M T Sty ProgressBar :=
  let* idx := ProgressBar.index after in
  match idx with
  | Some idx => internalize self (After idx) pb now
  | None => throw (Panicked "the bar is not in a region")
  end.

(** Frees the slot of a bar of this region; the bar keeps its target. *)
Definition remove self pb : M T Sty unit :=
  let* bs := ProgressBar.state pb in
  match ProgressDrawTarget.remote (draw_target bs) with
  | Some (st, idx) =>
      if decide (st = region self)
      then λ w, (Ok tt, set_multis (alter (MultiState.remove_idx idx) st (multis w)) w)
      else ret tt
  | None => ret tt
  end.

End ops.
End MultiProgress.

(** ** Vocabulary *)

Section vocabulary.
Context `{TermLike T}.
Implicit Types ms : MultiState T.

(** The frame of slot [idx], if it holds a bar. *)
Definition slot ms (idx : nat) : option ProgressDrawState := mjoin (members ms !! idx).

(** The lines of the bars in display order, slot by slot. *)
Definition region_lines ms : list (list string) :=
  (λ idx, from_option ProgressDrawState.visible [] (slot ms idx)) <$> ordering ms.

(** The frame a repaint hands to the terminal [tg]: the log lines of all
    slots, then the lines of the bars. *)
Definition region_frame ms (tg : TermTarget T) : ProgressDrawState :=
  ProgressDrawState.set_orphan_lines (length (MultiState.orphan_lines ms))
    (ProgressDrawState.set_lines (MultiState.orphan_lines ms ++ MultiState.visible_lines ms)
       (ProgressDrawState.reset (draw_state tg))).

(** The frame the bar of slot [idx] hands over: the [lines] of the bar. *)
Definition bar_frame ms (idx : nat) (lines : list string) : ProgressDrawState :=
  ProgressDrawState.set_lines lines (MultiState.draw_state idx ms).

(** The display order with the lines of slot [idx] replaced by [lines]. *)
Definition lines_with ms (idx : nat) (lines : list string) : list (list string) :=
  (λ j, if decide (j = idx) then lines
        else from_option ProgressDrawState.visible [] (slot ms j)) <$> ordering ms.

(** The log lines of the slots in display order, with those of slot
    [idx] replaced by [logs]. *)
Definition logs_with ms (idx : nat) (logs : list string) : list string :=
  concat ((λ j, if decide (j = idx) then logs
                else from_option ProgressDrawState.orphans [] (slot ms j)) <$> ordering ms).

(** The log lines the slots other than [idx] hold, in display order. *)
Definition pending_logs ms (idx : nat) : list string := logs_with ms idx [].

End vocabulary.

(** A region of three slots on the demo terminal, the second freed: two
    bars of one and two lines, the later one shown first. *)
Definition demo_region : MultiState console.Term :=
  mkMultiState
    [Some (ProgressDrawState.new ["first"%string] false); None;
     Some (ProgressDrawState.new ["third"%string; "third, continued"%string] false)]
    [1%nat] [2%nat; 0%nat]
    (Some (TermTarget.new demo_term ProgressDrawTarget.DEFAULT_REFRESH_RATE)).

(** The demo world with a region on the demo terminal that holds the
    demo bar, added at time 1: the region, its slot table and the bar. *)
Definition region_world : World console.Term ProgressFinish :=
  ((let* mp := MultiProgress.new demo_term in MultiProgress.add mp demo_pb 1) demo_world).2.

Definition region_ms : MultiState console.Term :=
  default (MultiState.new None) (multis region_world !! 0%nat).

Definition region_bar : BarState console.Term ProgressFinish :=
  default demo_bar (Arc.peek (arc demo_pb) region_world).

(** The region world with a second bar of length 5 on the demo terminal,
    created at time 2 and in no region. *)
Definition spare_world : World console.Term ProgressFinish :=
  (ProgressBar.new 5 demo_term 2 region_world).2.

Definition spare_pb : ProgressBar := mkProgressBar 1.

Definition spare_bar : BarState console.Term ProgressFinish :=
  default demo_bar (Arc.peek (arc spare_pb) spare_world).

(** The world with three bars: the demo bar in slot 0 of the region, the
    second in no region, and a third of length 7 on the demo terminal,
    created at time 3 and added to the region at time 4, in slot 1. *)
Definition third_pb : ProgressBar := mkProgressBar 2.

Definition trio_world : World console.Term ProgressFinish :=
  ((ProgressBar.new 7 demo_term 3 ;;; MultiProgress.add (mkMultiProgress 0) third_pb 4)
     spare_world).2.

Definition trio_ms : MultiState console.Term :=
  default (MultiState.new None) (multis trio_world !! 0%nat).

Definition third_bar : BarState console.Term ProgressFinish :=
  default demo_bar (Arc.peek (arc third_pb) trio_world).

(** ** Lemmas: well-formed slot tables *)

Section wf_facts.
Context `{TermLike T}.
Implicit Types (ms : MultiState T) (idx : nat).

Lemma occupied_lookup ms idx : occupied ms idx ↔ ∃ ds, members ms !! idx = Some (Some ds).
Proof.
  unfold occupied. destruct (members ms !! idx) as [[ds|]|]; simpl;
    split; try (intros [? [=]] || intros [? ?]; done); eauto.
Qed.

Lemma occupied_vacant ms idx : occupied ms idx → ¬ vacant ms idx.
Proof. intros (ds & Hds)%occupied_lookup. unfold vacant. congruence. Qed.

(** The two lists say which slots are occupied and which are free. *)
Lemma wf_ordering ms idx : region_wf ms → idx ∈ ordering ms ↔ occupied ms idx.
Proof.
  intros (_ & _ & Ho & Hf & Hall). split.
  - intros Hin. by eapply Forall_forall in Ho.
  - intros Hocc. destruct (proj1 (occupied_lookup _ _) Hocc) as (ds & Hds).
    assert (Hlt : (idx < length (members ms))%nat) by (apply lookup_lt_is_Some; eauto).
    destruct (proj1 (Forall_forall _ _) Hall idx) as [|Hin];
      [apply elem_of_seq; lia|done|].
    eapply Forall_forall in Hf; [|exact Hin].
    by destruct (occupied_vacant ms idx).
Qed.

Lemma wf_free ms idx : region_wf ms → idx ∈ free_set ms ↔ vacant ms idx.
Proof.
  intros (_ & _ & Ho & Hf & Hall). split.
  - intros Hin. by eapply Forall_forall in Hf.
  - intros Hv.
    assert (Hlt : (idx < length (members ms))%nat) by (apply lookup_lt_is_Some; by rewrite Hv).
    destruct (proj1 (Forall_forall _ _) Hall idx) as [Hin|];
      [apply elem_of_seq; lia| |done].
    eapply Forall_forall in Ho; [|exact Hin].
    by destruct (occupied_vacant ms idx).
Qed.

Lemma wf_intro ms :
  NoDup (ordering ms) → NoDup (free_set ms) →
  (∀ idx, idx ∈ ordering ms ↔ occupied ms idx) →
  (∀ idx, idx ∈ free_set ms ↔ vacant ms idx) →
  region_wf ms.
Proof.
  intros Hno Hnf Ho Hf. split; [done|]. split; [done|].
  split; [apply Forall_forall; intros idx; apply Ho|].
  split; [apply Forall_forall; intros idx; apply Hf|].
  apply Forall_forall. intros idx [_ Hlt]%elem_of_seq.
  destruct (members ms !! idx) as [[ds|]|] eqn:Hm.
  - left. apply Ho, occupied_lookup. eauto.
  - right. by apply Hf.
  - apply lookup_ge_None in Hm. lia.
Qed.

Lemma insert_at_perm {A} (p : nat) (x : A) l : take p l ++ x :: drop p l ≡ₚ x :: l.
Proof. by rewrite <-Permutation_middle, take_drop. Qed.

Lemma region_wf_new (tg : option (TermTarget T)) : region_wf (MultiState.new tg).
Proof.
  apply wf_intro; simpl; [constructor..| |]; intros idx; (split; [by inversion 1|]).
  - by intros [? ?]%occupied_lookup.
  - done.
Qed.

(** Taking a slot: the slot was not occupied, now holds an empty frame,
    and no other slot has changed. *)
Lemma alloc_spec ms :
  region_wf ms →
  let idx := (MultiState.alloc ms).1 in
  let ms1 := (MultiState.alloc ms).2 in
  ¬ occupied ms idx
  ∧ ordering ms1 = ordering ms ∧ mtarget ms1 = mtarget ms
  ∧ members ms1 !! idx = Some (Some (ProgressDrawState.new [] false))
  ∧ (∀ j, j ≠ idx → members ms1 !! j = members ms !! j)
  ∧ NoDup (free_set ms1)
  ∧ (∀ j, j ∈ free_set ms1 ↔ vacant ms j ∧ j ≠ idx).
Proof.
  intros Hwf. pose proof Hwf as (_ & Hnf & _). unfold MultiState.alloc.
  destruct (free_set ms) as [|idx rest] eqn:Hfree; cbn [fst snd members ordering free_set mtarget].
  - assert (Hnone : members ms !! length (members ms) = None) by (by apply lookup_ge_None).
    split; [intros (ds & Hds)%occupied_lookup; congruence|].
    split; [done|]. split; [done|].
    split; [by rewrite lookup_app_r, Nat.sub_diag by lia|].
    split.
    { intros j Hj. destruct (decide (j < length (members ms))%nat).
      - by rewrite lookup_app_l.
      - rewrite lookup_app_r by lia. rewrite (lookup_ge_None_2 (members ms)) by lia.
        apply lookup_ge_None_2. simpl. lia. }
    split; [constructor|]. intros j. split; [by inversion 1|].
    intros [Hv _]. apply (wf_free _ _ Hwf) in Hv. rewrite Hfree in Hv. by inversion Hv.
  - assert (Hv : vacant ms idx) by (apply (wf_free _ _ Hwf); rewrite Hfree; by left).
    assert (Hlt : (idx < length (members ms))%nat) by (apply lookup_lt_is_Some; by rewrite Hv).
    apply NoDup_cons in Hnf as [Hnotin Hnf].
    split; [intros Ho; by destruct (occupied_vacant ms idx)|].
    split; [done|]. split; [done|].
    split; [by apply list_lookup_insert_eq|].
    split; [intros j Hj; by apply list_lookup_insert_ne|].
    split; [done|]. intros j. rewrite <-(wf_free _ _ Hwf), Hfree, elem_of_cons.
    split; [intros Hin; split; [by right|by intros ->]|by intros [[->|?] ?]].
Qed.

(** Adding a slot at a location. *)
Lemma insert_spec location ms :
  region_wf ms →
  let idx := (MultiState.insert location ms).1 in
  let ms' := (MultiState.insert location ms).2 in
  ¬ occupied ms idx
  ∧ ordering ms'
    = take (MultiState.position location (ordering ms)) (ordering ms)
      ++ idx :: drop (MultiState.position location (ordering ms)) (ordering ms)
  ∧ mtarget ms' = mtarget ms
  ∧ slot ms' idx = Some (ProgressDrawState.new [] false)
  ∧ (∀ j, j ≠ idx → slot ms' j = slot ms j)
  ∧ region_wf ms'.
Proof.
  intros Hwf. unfold MultiState.insert.
  destruct (alloc_spec ms Hwf) as (Hfresh & Hord & Htg & Hidx & Hrest & Hnf & Hfree).
  destruct (MultiState.alloc ms) as [idx ms1].
  cbn [fst snd members ordering free_set mtarget] in *. rewrite Hord.
  set (ord' := take _ _ ++ _).
  assert (Hperm : ord' ≡ₚ idx :: ordering ms) by apply insert_at_perm.
  assert (Hocc : ∀ j, occupied ms1 j ↔ j = idx ∨ occupied ms j).
  { intros j. unfold occupied. destruct (decide (j = idx)) as [->|Hj].
    - rewrite Hidx. split; [by left|by eexists].
    - rewrite (Hrest j Hj). split; [by right|by intros [?|?]]. }
  split; [done|]. split; [done|]. split; [done|].
  split; [unfold slot; cbn [members]; by rewrite Hidx|].
  split; [intros j Hj; unfold slot; cbn [members]; by rewrite Hrest|].
  apply wf_intro; cbn [members ordering free_set mtarget].
  - rewrite Hperm. apply NoDup_cons. split; [|by destruct Hwf].
    by rewrite (wf_ordering _ _ Hwf).
  - done.
  - intros j. transitivity (j = idx ∨ occupied ms j); [|symmetry; apply Hocc].
    by rewrite Hperm, elem_of_cons, (wf_ordering _ _ Hwf).
  - intros j. etrans; [apply Hfree|]. unfold vacant. cbn [members]. split.
    + intros [Hv Hj]. by rewrite Hrest.
    + intros Hv. destruct (decide (j = idx)) as [->|Hj]; [congruence|].
      by rewrite Hrest in Hv.
Qed.

(** Freeing a slot: it leaves the display order, the order of the others
    and their slots are as before. *)
Lemma remove_idx_spec idx ms :
  region_wf ms → occupied ms idx →
  let ms' := MultiState.remove_idx idx ms in
  ordering ms' = filter (λ j, j ≠ idx) (ordering ms)
  ∧ mtarget ms' = mtarget ms
  ∧ slot ms' idx = None
  ∧ (∀ j, j ≠ idx → slot ms' j = slot ms j)
  ∧ region_wf ms'.
Proof.
  intros Hwf Hocc. pose proof Hocc as (ds & Hds)%occupied_lookup.
  assert (Hlt : (idx < length (members ms))%nat) by (apply lookup_lt_is_Some; eauto).
  unfold MultiState.remove_idx. rewrite Hds. cbn [members ordering free_set mtarget].
  split; [done|]. split; [done|].
  split; [unfold slot; cbn [members]; by rewrite list_lookup_insert_eq|].
  split; [intros j Hj; unfold slot; cbn [members]; by rewrite list_lookup_insert_ne|].
  pose proof Hwf as (Hno & Hnf & _).
  apply wf_intro; cbn [members ordering free_set mtarget].
  - by apply NoDup_filter.
  - apply NoDup_cons. split; [|done]. rewrite (wf_free _ _ Hwf).
    by apply occupied_vacant.
  - intros j. rewrite list_elem_of_filter, (wf_ordering _ _ Hwf). unfold occupied.
    cbn [members]. destruct (decide (j = idx)) as [->|Hj].
    + rewrite list_lookup_insert_eq by done. split; [by intros [? _]|by intros [? ?]].
    + rewrite list_lookup_insert_ne by done. intuition congruence.
  - intros j. rewrite elem_of_cons, (wf_free _ _ Hwf). unfold vacant. cbn [members].
    destruct (decide (j = idx)) as [->|Hj].
    + rewrite list_lookup_insert_eq by done. intuition congruence.
    + rewrite list_lookup_insert_ne by done. intuition congruence.
Qed.

(** A bar hands its frame to its slot. *)
Lemma wf_set_draw_state idx ds ms :
  region_wf ms → occupied ms idx → region_wf (MultiState.set_draw_state idx ds ms).
Proof.
  intros Hwf Hocc. pose proof Hocc as (ds0 & Hds)%occupied_lookup.
  assert (Hlt : (idx < length (members ms))%nat) by (apply lookup_lt_is_Some; eauto).
  pose proof Hwf as (Hno & Hnf & _).
  apply wf_intro; cbn [MultiState.set_draw_state members ordering free_set mtarget];
    [done..| |]; intros j.
  - rewrite (wf_ordering _ _ Hwf). unfold occupied, MultiState.set_draw_state. cbn [members].
    destruct (decide (j = idx)) as [->|Hj].
    + rewrite list_lookup_insert_eq by done. split; [by eexists|done].
    + by rewrite list_lookup_insert_ne.
  - rewrite (wf_free _ _ Hwf). unfold vacant, MultiState.set_draw_state. cbn [members].
    destruct (decide (j = idx)) as [->|Hj].
    + rewrite list_lookup_insert_eq by done. split; [congruence|done].
    + by rewrite list_lookup_insert_ne.
Qed.

(** A repaint keeps which slots are occupied. *)
Lemma wf_strip ms (tg' : option (TermTarget T)) :
  region_wf ms →
  region_wf (mkMultiState (MultiState.strip_orphans <$> members ms) (free_set ms)
               (ordering ms) tg').
Proof.
  intros Hwf. pose proof Hwf as (Hno & Hnf & _).
  apply wf_intro; cbn [members ordering free_set mtarget]; [done..| |]; intros j.
  - rewrite (wf_ordering _ _ Hwf). unfold occupied. cbn [members].
    rewrite list_lookup_fmap. by destruct (members ms !! j) as [[?|]|].
  - rewrite (wf_free _ _ Hwf). unfold vacant. cbn [members].
    rewrite list_lookup_fmap. destruct (members ms !! j) as [[?|]|]; simpl; intuition congruence.
Qed.

Lemma wf_draw force_draw now ms :
  region_wf ms → region_wf (MultiState.draw force_draw now ms).2.
Proof.
  intros Hwf. unfold MultiState.draw.
  destruct (mtarget ms) as [tg|]; [|done].
  destruct (TermTarget.drawable _ _ _) as [tg1|]; [|done].
  destruct (TermTarget.draw _) as [r tg2]. cbn [snd]. by apply wf_strip.
Qed.

End wf_facts.

(** ** Lemmas: the repaint *)

Section repaint_facts.
Context `{TermLike T}.
Implicit Types (ms : MultiState T) (idx : nat).

Lemma visible_lines_region ms : MultiState.visible_lines ms = concat (region_lines ms).
Proof.
  unfold MultiState.visible_lines, MultiState.member_lines, region_lines, slot.
  f_equal. apply list_fmap_ext. intros _ idx _. by destruct (members ms !! idx) as [[ds|]|].
Qed.

Lemma slot_strip ms (tg' : option (TermTarget T)) idx :
  slot (mkMultiState (MultiState.strip_orphans <$> members ms) (free_set ms) (ordering ms) tg')
    idx
  = (λ ds, ProgressDrawState.set_orphan_lines 0
             (ProgressDrawState.set_lines (ProgressDrawState.visible ds) ds))
    <$> slot ms idx.
Proof.
  unfold slot. cbn [members]. rewrite list_lookup_fmap.
  by destruct (members ms !! idx) as [[?|]|].
Qed.

(** Painted log lines are gone from the slots; the lines of the bars stay. *)
Lemma region_lines_strip ms (tg' : option (TermTarget T)) :
  region_lines (mkMultiState (MultiState.strip_orphans <$> members ms) (free_set ms)
                  (ordering ms) tg')
  = region_lines ms.
Proof.
  unfold region_lines. cbn [ordering]. apply list_fmap_ext. intros _ idx _.
  rewrite slot_strip. destruct (slot ms idx) as [ds|]; [|done]. simpl.
  unfold ProgressDrawState.visible. by cbn.
Qed.

Lemma orphan_lines_strip ms (tg' : option (TermTarget T)) :
  MultiState.orphan_lines
    (mkMultiState (MultiState.strip_orphans <$> members ms) (free_set ms) (ordering ms) tg')
  = [].
Proof.
  unfold MultiState.orphan_lines, MultiState.member_lines. cbn [ordering members].
  induction (ordering ms) as [|idx ord IH]; [done|].
  rewrite fmap_cons, concat_cons, IH, app_nil_r.
  rewrite list_lookup_fmap. by destruct (members ms !! idx) as [[?|]|].
Qed.

(** The slot of a bar after the bar has handed over its frame. *)
Lemma slot_set_draw_state idx ds ms j :
  occupied ms idx →
  slot (MultiState.set_draw_state idx ds ms) j
  = if decide (j = idx) then Some ds else slot ms j.
Proof.
  intros (ds0 & Hds)%occupied_lookup.
  assert (Hlt : (idx < length (members ms))%nat) by (apply lookup_lt_is_Some; eauto).
  unfold slot, MultiState.set_draw_state. cbn [members]. case_decide as Hj.
  - subst. by rewrite list_lookup_insert_eq.
  - by rewrite list_lookup_insert_ne.
Qed.

(** The region once a bar has handed over a frame: its lines and its log
    lines are those of the frame, in the place of the slot. *)
Lemma region_lines_set idx ds ms :
  occupied ms idx →
  region_lines (MultiState.set_draw_state idx ds ms)
  = lines_with ms idx (ProgressDrawState.visible ds).
Proof.
  intros Hocc. unfold region_lines, lines_with. apply list_fmap_ext. intros _ j _.
  rewrite (slot_set_draw_state _ _ _ _ Hocc). by case_decide.
Qed.

Lemma orphan_lines_set idx ds ms :
  occupied ms idx →
  MultiState.orphan_lines (MultiState.set_draw_state idx ds ms)
  = logs_with ms idx (ProgressDrawState.orphans ds).
Proof.
  intros Hocc. unfold MultiState.orphan_lines, MultiState.member_lines, logs_with.
  f_equal. apply list_fmap_ext. intros _ j _.
  pose proof (slot_set_draw_state idx ds ms j Hocc) as Hs.
  unfold slot in *. destruct (members _ !! j) as [[ds'|]|];
    simpl in Hs; case_decide; simplify_eq; by rewrite <- ?Hs.
Qed.

(** The frame of a redraw has the lines of the bar and no log lines; the
    frame of [println] has both. *)
Lemma bar_frame_parts idx lines ms :
  ProgressDrawState.visible (bar_frame ms idx lines) = lines
  ∧ ProgressDrawState.orphans (bar_frame ms idx lines) = [].
Proof.
  unfold bar_frame, MultiState.draw_state, ProgressDrawState.visible, ProgressDrawState.orphans.
  by destruct (members ms !! idx) as [[?|]|].
Qed.

Lemma region_lines_set_draw_state idx lines ms :
  occupied ms idx →
  region_lines (MultiState.set_draw_state idx (bar_frame ms idx lines) ms)
  = lines_with ms idx lines.
Proof. intros Hocc. by rewrite region_lines_set, (proj1 (bar_frame_parts _ _ _)). Qed.

Lemma orphan_lines_set_draw_state idx lines ms :
  occupied ms idx →
  MultiState.orphan_lines (MultiState.set_draw_state idx (bar_frame ms idx lines) ms)
  = pending_logs ms idx.
Proof. intros Hocc. by rewrite orphan_lines_set, (proj2 (bar_frame_parts _ _ _)). Qed.

(** The critical section of [println] for a bar in a region: the bar
    hands the message and its lines to its slot, the region repaints. *)
Lemma println_remote `{StyleOps Sty} msg now (bs : BarState T Sty) (mh : MHeap T) st idx ms :
  draw_target bs = Remote st idx →
  mh !! st = Some ms →
  ProgressBar.println_locked msg now (bs, mh)
  = let ms1 := MultiState.set_draw_state idx
                 (logged (str_lines msg) (BarState.render (state bs) (MultiState.width ms)))
                 ms in
    (Ok tt, (bs, <[st := (MultiState.draw true now ms1).2]> mh)).
Proof.
  intros Htgt Hms. unfold ProgressBar.println_locked, logged, BarState.render.
  rewrite Htgt. simpl. rewrite Hms.
  assert (Hl : lines (MultiState.draw_state idx ms) = []).
  { unfold MultiState.draw_state. by destruct (members ms !! idx) as [[?|]|]. }
  destruct (ProgressState.should_render (state bs)); simpl; rewrite Hl, lookup_insert_eq;
    simpl; rewrite ?app_nil_r; destruct (MultiState.draw _ _ _) as [r ms2]; simpl;
    rewrite insert_insert_eq; destruct bs; simpl in *; by subst.
Qed.

(** A redraw of a bar in a region: the bar hands its lines to its slot,
    the region repaints. *)
Lemma draw_remote `{StyleOps Sty} force_draw now (bs : BarState T Sty) (mh : MHeap T) st idx ms :
  draw_target bs = Remote st idx →
  mh !! st = Some ms →
  BarState.draw force_draw now (bs, mh)
  = let ms1 := MultiState.set_draw_state idx
                 (bar_frame ms idx (BarState.render (state bs) (MultiState.width ms))) ms in
    ((MultiState.draw force_draw now ms1).1,
     (bs, <[st := (MultiState.draw force_draw now ms1).2]> mh)).
Proof.
  intros Htgt Hms. unfold BarState.draw. rewrite Htgt. simpl. rewrite Hms. simpl.
  rewrite lookup_insert_eq.
  assert (Hl : lines (MultiState.draw_state idx ms) = []).
  { unfold MultiState.draw_state. by destruct (members ms !! idx) as [[?|]|]. }
  rewrite Hl. simpl. fold (bar_frame ms idx (BarState.render (state bs) (MultiState.width ms))).
  destruct (MultiState.draw _ _ _) as [r ms2]. simpl. rewrite insert_insert_eq.
  destruct bs. simpl in *. by subst.
Qed.

End repaint_facts.

(** ** Lemmas: the repaint on a terminal that records *)

Section recorder_facts.
Context `{RecorderOk T}.
Implicit Types (ms : MultiState T) (tg : TermTarget T) (idx : nat).

(** The terminal target of a region after a repaint at [now]. *)
Lemma draw_region_healthy force_draw now ms tg :
  mtarget ms = Some tg →
  healthy (term tg) →
  force_draw || negb (bool_decide (MultiState.orphan_lines ms = []))
    || RateLimiter.allow now (rate_limiter tg) = true →
  MultiState.draw force_draw now ms
  = (Ok tt,
     mkMultiState (MultiState.strip_orphans <$> members ms) (free_set ms) (ordering ms)
       (Some (painted_with (region_frame ms tg) now tg))).
Proof.
  intros Htg Hb Hgo. unfold MultiState.draw. rewrite Htg.
  unfold TermTarget.drawable. rewrite Hgo. by rewrite draw_healthy.
Qed.

Lemma region_frame_lines ms tg :
  lines (region_frame ms tg) = MultiState.orphan_lines ms ++ concat (region_lines ms)
  ∧ ProgressDrawState.line_count (region_frame ms tg) = length (concat (region_lines ms))
  ∧ move_cursor (region_frame ms tg) = move_cursor (draw_state tg).
Proof.
  unfold region_frame, ProgressDrawState.line_count. cbn.
  rewrite visible_lines_region, length_app. split; [done|]. split; [lia|done].
Qed.

End recorder_facts.

(** ** Theorems: the slot table *)

(** Where a location is in a display order, without reference to how it
    is computed: at the end nothing follows; at an index that many slots
    come before, or all when there are fewer; after (before) a slot of
    the order, the slot is the last before (the first after) and occurs
    nowhere earlier; a slot that is not in the order means the end. *)
Lemma position_placed location (ord : list nat) :
  let p := MultiState.position location ord in
  match location with
  | AtEnd => drop p ord = []
  | AtIndex i => length (take p ord) = Nat.min i (length ord)
  | After idx =>
      ((idx ∉ ord) ∧ drop p ord = []) ∨ (∃ b, take p ord = b ++ [idx] ∧ (idx ∉ b))
  | Before idx =>
      ((idx ∉ ord) ∧ drop p ord = []) ∨ ((idx ∉ take p ord) ∧ ∃ a, drop p ord = idx :: a)
  end.
Proof.
  assert (Hfirst : ∀ idx q, list_find (λ j, j = idx) ord = Some (q, idx) →
            ord !! q = Some idx ∧ (idx ∉ take q ord)).
  { intros idx q (Hq & _ & Hmin)%list_find_Some. split; [done|].
    intros (j & Hj)%list_elem_of_lookup_1. apply lookup_take_Some in Hj as [Hj Hlt].
    by apply (Hmin j idx). }
  assert (Hnone : ∀ idx, list_find (λ j, j = idx) ord = None → idx ∉ ord).
  { intros idx Hn%list_find_None Hin. by apply (proj1 (Forall_forall _ _) Hn idx). }
  destruct location as [|i|idx|idx]; cbn [MultiState.position].
  - apply drop_all.
  - rewrite length_take. lia.
  - destruct (list_find _ ord) as [[q y]|] eqn:Hf; [|left; by rewrite drop_all; auto].
    pose proof (proj1 (list_find_Some _ _ _ _) Hf) as (_ & -> & _).
    destruct (Hfirst _ _ Hf) as [Hq Hnin]. right. exists (take q ord).
    by rewrite (take_S_r _ _ _ Hq).
  - destruct (list_find _ ord) as [[q y]|] eqn:Hf; [|left; by rewrite drop_all; auto].
    pose proof (proj1 (list_find_Some _ _ _ _) Hf) as (_ & -> & _).
    destruct (Hfirst _ _ Hf) as [Hq Hnin]. right. split; [done|].
    exists (drop (S q) ord). by apply drop_S.
Qed.

Section table_theorems.
Context `{TermLike T}.
Implicit Types (ms : MultiState T) (idx : nat).

(** Adding and removing slots never moves another slot.  When an
    occupied slot is freed, every other slot holds what it held, the
    display order of the others is unchanged, and the next slot taken is
    the freed one, at the location asked for, again without touching the
    others. *)
Lemma table_slots_stable idx location ms :
  region_wf ms → occupied ms idx →
  let ms1 := MultiState.remove_idx idx ms in
  let ms2 := (MultiState.insert location ms1).2 in
  (∀ j, j ≠ idx → slot ms1 j = slot ms j ∧ slot ms2 j = slot ms j)
  ∧ ordering ms1 = filter (λ j, j ≠ idx) (ordering ms)
  ∧ (MultiState.insert location ms1).1 = idx
  ∧ ordering ms2
    = take (MultiState.position location (ordering ms1)) (ordering ms1)
      ++ idx :: drop (MultiState.position location (ordering ms1)) (ordering ms1)
  ∧ slot ms2 idx = Some (ProgressDrawState.new [] false).
Proof.
  intros Hwf Hocc ms1 ms2.
  destruct (remove_idx_spec idx ms Hwf Hocc) as (Hord1 & _ & _ & Hrest1 & Hwf1).
  destruct (insert_spec location ms1 Hwf1) as (_ & Hord2 & _ & Hnew & Hrest2 & _).
  assert (Hidx : (MultiState.insert location ms1).1 = idx).
  { pose proof Hocc as (ds & Hds)%occupied_lookup.
    unfold ms1, MultiState.insert, MultiState.alloc, MultiState.remove_idx.
    by rewrite Hds. }
  fold ms1 ms2 in Hord2, Hnew, Hrest2. rewrite Hidx in *.
  split; [|done]. intros j Hj. split; [by apply Hrest1|].
  by rewrite Hrest2, Hrest1.
Qed.

End table_theorems.

Lemma demo_region_wf : region_wf demo_region.
Proof. apply (bool_decide_unpack _). by vm_compute. Qed.

Lemma demo_region_occupied : occupied demo_region 2.
Proof. apply (bool_decide_unpack _). by vm_compute. Qed.

(** ** Theorems: a bar in a region *)

Section bar_in_region.
Context `{RecorderOk T} `{StyleOps Sty}.
Implicit Types (w : World T Sty) (self : ProgressBar) (bs : BarState T Sty)
  (ms : MultiState T) (tg : TermTarget T) (now : Instant).

(** The repaint after the bar of slot [idx] has handed over the frame
    [ds], on a healthy terminal that is painted by erasing: the region
    keeps its slots and their order, shows the lines of the frame in the
    place of the slot, and the terminal has received the calls that erase
    what the region had painted, write all log lines and then the lines
    of the bars, and flush. *)
Lemma repaint_slot now ms idx ds tg :
  region_wf ms → occupied ms idx →
  mtarget ms = Some tg →
  healthy (term tg) →
  move_cursor (draw_state tg) = false →
  ∃ ms' tg',
    MultiState.draw true now (MultiState.set_draw_state idx ds ms) = (Ok tt, ms')
    ∧ region_wf ms' ∧ mtarget ms' = Some tg'
    ∧ ordering ms' = ordering ms ∧ (∀ j, occupied ms' j ↔ occupied ms j)
    ∧ region_lines ms' = lines_with ms idx (ProgressDrawState.visible ds)
    ∧ received (term tg')
      = received (term tg)
        ++ ProgressDrawState.clear_last_lines_ops (last_line_count tg)
        ++ (WriteLine <$> (logs_with ms idx (ProgressDrawState.orphans ds)
                           ++ concat (region_lines ms'))) ++ [Flush]
    ∧ last_line_count tg' = length (concat (region_lines ms')).
Proof.
  intros Hwf Hocc Htg Hb Hmc. set (ms1 := MultiState.set_draw_state idx ds ms).
  rewrite (draw_region_healthy true now ms1 tg Htg Hb eq_refl).
  destruct (region_frame_lines ms1 tg) as (Hlines & Hcount & Hmove).
  pose proof (region_lines_set idx ds ms Hocc : region_lines ms1 = _) as Hrl.
  pose proof (orphan_lines_set idx ds ms Hocc : MultiState.orphan_lines ms1 = _) as Hol.
  eexists _, _. split; [done|]. split; [by apply wf_strip, wf_set_draw_state|].
  split; [done|]. split; [done|]. rewrite region_lines_strip. split; [|split; [done|]].
  - intros j. unfold occupied. fold (slot ms j).
    change (mjoin (members ?m !! j)) with (slot m j). rewrite slot_strip, fmap_is_Some.
    subst ms1. rewrite (slot_set_draw_state idx ds ms j Hocc). by case_decide; subst.
  - rewrite painted_with_received. cbn [last_line_count painted_with].
    rewrite draw_ops_erasing by (by rewrite Hmove). by rewrite Hlines, Hcount, Hol, Hrl.
Qed.

(** A forced redraw by the bar of slot [idx], on a healthy terminal: the
    region after it. *)
Lemma force_draw_region now bs (mh : MHeap T) st idx ms tg :
  draw_target bs = Remote st idx →
  mh !! st = Some ms →
  region_wf ms → occupied ms idx →
  mtarget ms = Some tg →
  healthy (term tg) →
  move_cursor (draw_state tg) = false →
  ∃ ms' tg',
    BarState.draw true now (bs, mh) = (Ok tt, (bs, <[st := ms']> mh))
    ∧ region_wf ms' ∧ mtarget ms' = Some tg'
    ∧ region_lines ms'
      = lines_with ms idx (BarState.render (state bs) (TermLike.width (term tg)))
    ∧ received (term tg')
      = received (term tg)
        ++ ProgressDrawState.clear_last_lines_ops (last_line_count tg)
        ++ (WriteLine <$> (pending_logs ms idx ++ concat (region_lines ms'))) ++ [Flush]
    ∧ last_line_count tg' = length (concat (region_lines ms')).
Proof.
  intros Htgt Hms Hwf Hocc Htg Hb Hmc.
  rewrite (draw_remote true now bs mh st idx ms Htgt Hms). cbn zeta.
  assert (Hw : MultiState.width ms = TermLike.width (term tg))
    by (unfold MultiState.width; by rewrite Htg).
  rewrite Hw.
  destruct (repaint_slot now ms idx
              (bar_frame ms idx (BarState.render (state bs) (TermLike.width (term tg)))) tg
              Hwf Hocc Htg Hb Hmc) as (ms' & tg' & -> & Hwf' & Htg' & _ & _ & Hrl & Hout & Hn).
  destruct (bar_frame_parts idx (BarState.render (state bs) (TermLike.width (term tg))) ms)
    as [Hvis Horph].
  rewrite Hvis in Hrl. rewrite Horph in Hout. by exists ms', tg'.
Qed.

(** Releasing the slot [idx]: the region is repainted without the lines
    of the bar, and the slot is freed. *)
Lemma disconnect_remote_eq now st idx (mh : MHeap T) ms :
  mh !! st = Some ms →
  ProgressDrawTarget.disconnect now (Remote st idx) mh
  = <[st := MultiState.remove_idx idx
              (MultiState.draw true now
                 (MultiState.set_draw_state idx (MultiState.draw_state idx ms) ms)).2]> mh.
Proof.
  intros Hms. unfold ProgressDrawTarget.disconnect, Drawable.clear. simpl. rewrite Hms.
  rewrite lookup_insert_eq. destruct (MultiState.draw _ _ _) as [r ms2]. simpl.
  by rewrite lookup_insert_eq, !insert_insert_eq.
Qed.

(** C14: [finish] on a bar of a region repaints the
    whole region with the finished bar in its place.  For a bar that is
    neither locked nor poisoned, whose target is the occupied slot [idx]
    of a well-formed region painting by erasing on a healthy terminal:
    the bar is finished and keeps its slot; the region stays
    well formed; its lines are those of every bar in display order, with
    the lines the style gives for the finished record in the place of
    slot [idx]; the terminal has received the calls that erase as many
    lines as the region had painted before, write the pending log lines
    of the other bars and then the lines of the region, and flush; and
    the region records the number of lines of its bars as painted. *)
Theorem finish_repaints_region self now n bs st idx ms tg w :
  idle_at (arc self) n bs w →
  draw_target bs = Remote st idx →
  multis w !! st = Some ms →
  region_wf ms → occupied ms idx →
  mtarget ms = Some tg →
  healthy (term tg) →
  move_cursor (draw_state tg) = false →
  ∃ bs' ms' tg' w',
    ProgressBar.finish self now w = (Ok tt, w')
    ∧ idle_at (arc self) n bs' w'
    ∧ draw_target bs' = Remote st idx
    ∧ ProgressState.is_finished (state bs') = true
    ∧ multis w' !! st = Some ms' ∧ region_wf ms' ∧ mtarget ms' = Some tg'
    ∧ region_lines ms'
      = lines_with ms idx
          (format_state (style (state bs')) (state bs') (TermLike.width (term tg)))
    ∧ received (term tg')
      = received (term tg)
        ++ ProgressDrawState.clear_last_lines_ops (last_line_count tg)
        ++ (WriteLine <$> (pending_logs ms idx ++ concat (region_lines ms'))) ++ [Flush]
    ∧ last_line_count tg' = length (concat (region_lines ms')).
Proof.
  intros Hl Htgt Hms Hwf Hocc Htg Hb Hmc. unfold ProgressBar.finish, BarState.finish.
  match goal with |- context [BarState.update_and_force_draw now ?f] =>
    pose proof (force_draw_idle self now f n bs w Hl) as Heq;
    destruct (update_fields now f (state bs)) as (_ & _ & _ & Hstatus & _);
    destruct (force_draw_region now (BarState.set_state (BarState.update now f (state bs)) bs)
                (multis w) st idx ms tg Htgt Hms Hwf Hocc Htg Hb Hmc)
      as (ms' & tg' & Hd & Hwf' & Htg' & Hrl & Hout & Hcount)
  end.
  unfold after_force in Heq. rewrite Hd in Heq. cbn [fst snd] in Heq.
  eexists _, ms', tg', _. split; [exact Heq|]. split; [apply idle_at_commit|].
  cbn [draw_target state BarState.set_state] in *. split; [done|].
  split; [unfold ProgressState.is_finished; by rewrite Hstatus|].
  split; [unfold commit; cbn [multis]; by rewrite lookup_insert_eq|].
  split; [done|]. split; [done|].
  split; [|done]. rewrite Hrl. f_equal. unfold BarState.render, ProgressState.should_render.
  by rewrite Hstatus.
Qed.

(** C16: A log line of a bar in a region is printed above
    all the bars.  [println] on a bar that is neither locked nor
    poisoned, whose target is the occupied slot [idx] of a well-formed
    region painting by erasing on a healthy terminal, repaints the whole
    region: the terminal receives the calls that erase as many lines as
    the region had painted, write the log lines (those of the message, in
    the place of the bar among the log lines other bars have pending),
    then the lines of every bar in display order, and flush.  The bar and
    its record are unchanged, and the region records the lines of its
    bars only, so the message stays on the screen above them. *)
Theorem println_region self msg now n bs st idx ms tg w :
  idle_at (arc self) n bs w →
  draw_target bs = Remote st idx →
  multis w !! st = Some ms →
  region_wf ms → occupied ms idx →
  mtarget ms = Some tg →
  healthy (term tg) →
  move_cursor (draw_state tg) = false →
  ∃ ms' tg' w',
    ProgressBar.println self msg now w = (Ok tt, w')
    ∧ idle_at (arc self) n bs w'
    ∧ multis w' !! st = Some ms' ∧ region_wf ms' ∧ mtarget ms' = Some tg'
    ∧ region_lines ms'
      = lines_with ms idx (BarState.render (state bs) (TermLike.width (term tg)))
    ∧ received (term tg')
      = received (term tg)
        ++ ProgressDrawState.clear_last_lines_ops (last_line_count tg)
        ++ (WriteLine <$> (logs_with ms idx (str_lines msg) ++ concat (region_lines ms')))
        ++ [Flush]
    ∧ last_line_count tg' = length (concat (region_lines ms')).
Proof.
  intros Hl Htgt Hms Hwf Hocc Htg Hb Hmc. unfold ProgressBar.println.
  rewrite (with_lock_idle _ _ _ _ _ _ _ _ Hl (println_remote msg now bs _ st idx ms Htgt Hms)).
  assert (Hw : MultiState.width ms = TermLike.width (term tg))
    by (unfold MultiState.width; by rewrite Htg).
  rewrite Hw.
  destruct (repaint_slot now ms idx
              (logged (str_lines msg) (BarState.render (state bs) (TermLike.width (term tg))))
              tg Hwf Hocc Htg Hb Hmc)
    as (ms' & tg' & -> & Hwf' & Htg' & _ & _ & Hrl & Hout & Hn).
  destruct (logged_parts (str_lines msg)
              (BarState.render (state bs) (TermLike.width (term tg)))) as (Hvis & Horph & _).
  rewrite Hvis in Hrl. rewrite Horph in Hout.
  exists ms', tg'. eexists. split; [done|]. destruct bs as [tgt s].
  split; [apply idle_at_commit|].
  split; [unfold commit; cbn [multis]; by rewrite lookup_insert_eq|]. done.
Qed.

(** C17: [set_draw_target] on a bar of a region unlinks the bar.
    For a bar that is neither locked nor poisoned, whose target is the
    occupied slot [idx] of a well-formed region painting by erasing on a
    healthy terminal: the bar gets the new target and keeps its record;
    the region is repainted without the lines of the bar (the terminal
    receives the calls that erase what the region had painted, write the
    pending log lines and the lines of the other bars, and flush); the
    slot is freed and leaves the display order, and every other slot is
    occupied as before, in the same order. *)
Theorem set_draw_target_unlinks self tgt now n bs st idx ms tg w :
  idle_at (arc self) n bs w →
  draw_target bs = Remote st idx →
  multis w !! st = Some ms →
  region_wf ms → occupied ms idx →
  mtarget ms = Some tg →
  healthy (term tg) →
  move_cursor (draw_state tg) = false →
  ∃ ms' tg' w',
    ProgressBar.set_draw_target self tgt now w = (Ok tt, w')
    ∧ idle_at (arc self) n (mkBarState tgt (state bs)) w'
    ∧ multis w' !! st = Some ms' ∧ region_wf ms'
    ∧ ¬ occupied ms' idx ∧ (∀ j, j ≠ idx → occupied ms' j ↔ occupied ms j)
    ∧ ordering ms' = filter (λ j, j ≠ idx) (ordering ms)
    ∧ mtarget ms' = Some tg'
    ∧ received (term tg')
      = received (term tg)
        ++ ProgressDrawState.clear_last_lines_ops (last_line_count tg)
        ++ (WriteLine <$> (pending_logs ms idx ++ concat (lines_with ms idx []))) ++ [Flush]
    ∧ last_line_count tg' = length (concat (lines_with ms idx [])).
Proof.
  intros Hl Htgt Hms Hwf Hocc Htg Hb Hmc.
  rewrite (set_draw_target_idle self tgt now n bs w Hl), Htgt.
  rewrite (disconnect_remote_eq now st idx _ ms Hms).
  destruct (repaint_slot now ms idx (MultiState.draw_state idx ms) tg Hwf Hocc Htg Hb Hmc)
    as (ms1 & tg' & -> & Hwf1 & Htg1 & Hord1 & Hocc1 & Hrl & Hout & Hn). cbn [snd].
  destruct (bar_frame_parts idx [] ms) as [Hvis Horph].
  assert (Hbf : bar_frame ms idx [] = MultiState.draw_state idx ms).
  { unfold bar_frame, MultiState.draw_state. by destruct (members ms !! idx) as [[?|]|]. }
  rewrite Hbf in Hvis, Horph. rewrite Hvis in Hrl. rewrite Horph, Hrl in Hout. rewrite Hrl in Hn.
  destruct (remove_idx_spec idx ms1 Hwf1 (proj2 (Hocc1 idx) Hocc))
    as (Hord & Htg2 & Hfree & Hrest & Hwf2).
  eexists _, tg', _. split; [done|]. split; [apply idle_at_commit|].
  split; [unfold commit; cbn [multis]; by rewrite lookup_insert_eq|].
  split; [done|]. split; [unfold occupied; fold (slot (MultiState.remove_idx idx ms1) idx);
                          rewrite Hfree; by intros [? [=]]|].
  split; [intros j Hj; rewrite <- Hocc1; unfold occupied;
          change (mjoin (members ?m !! j)) with (slot m j); by rewrite Hrest|].
  split; [by rewrite Hord, Hord1|]. split; [by rewrite Htg2|]. done.
Qed.

End bar_in_region.

Lemma region_ms_wf : region_wf region_ms.
Proof. apply (bool_decide_unpack _). by vm_compute. Qed.

Lemma region_ms_occupied : occupied region_ms 0.
Proof. apply (bool_decide_unpack _). by vm_compute. Qed.

Lemma finish_repaints_region_witness :
  ∃ bs' ms' tg' w',
    ProgressBar.finish demo_pb 50 region_world = (Ok tt, w')
    ∧ idle_at (arc demo_pb) 1 bs' w'
    ∧ draw_target bs' = Remote 0 0
    ∧ ProgressState.is_finished (state bs') = true
    ∧ multis w' !! 0%nat = Some ms' ∧ region_wf ms' ∧ mtarget ms' = Some tg'
    ∧ region_lines ms'
      = lines_with region_ms 0
          (format_state (style (state bs')) (state bs') (TermLike.width demo_term))
    ∧ received (term tg')
      = received demo_term
        ++ ProgressDrawState.clear_last_lines_ops 0
        ++ (WriteLine <$> (pending_logs region_ms 0 ++ concat (region_lines ms'))) ++ [Flush]
    ∧ last_line_count tg' = length (concat (region_lines ms')).
Proof.
  exact (finish_repaints_region demo_pb 50 1 region_bar 0 0 region_ms
           (TermTarget.new demo_term 15) region_world
           eq_refl eq_refl eq_refl region_ms_wf region_ms_occupied eq_refl eq_refl eq_refl).
Defined.

Lemma println_region_witness :
  ∃ ms' tg' w',
    ProgressBar.println demo_pb "log" 50 region_world = (Ok tt, w')
    ∧ idle_at (arc demo_pb) 1 region_bar w'
    ∧ multis w' !! 0%nat = Some ms' ∧ region_wf ms' ∧ mtarget ms' = Some tg'
    ∧ region_lines ms'
      = lines_with region_ms 0 (BarState.render (state region_bar) (TermLike.width demo_term))
    ∧ received (term tg')
      = received demo_term
        ++ ProgressDrawState.clear_last_lines_ops 0
        ++ (WriteLine <$> (logs_with region_ms 0 (str_lines "log") ++ concat (region_lines ms')))
        ++ [Flush]
    ∧ last_line_count tg' = length (concat (region_lines ms')).
Proof.
  exact (println_region demo_pb "log" 50 1 region_bar 0 0 region_ms
           (TermTarget.new demo_term 15) region_world
           eq_refl eq_refl eq_refl region_ms_wf region_ms_occupied eq_refl eq_refl eq_refl).
Defined.

Lemma set_draw_target_unlinks_witness :
  ∃ ms' tg' w',
    ProgressBar.set_draw_target demo_pb ProgressDrawTarget.hidden 50 region_world = (Ok tt, w')
    ∧ idle_at (arc demo_pb) 1 (mkBarState ProgressDrawTarget.hidden (state region_bar)) w'
    ∧ multis w' !! 0%nat = Some ms' ∧ region_wf ms'
    ∧ ¬ occupied ms' 0 ∧ (∀ j, j ≠ 0%nat → occupied ms' j ↔ occupied region_ms j)
    ∧ ordering ms' = filter (λ j, j ≠ 0%nat) (ordering region_ms)
    ∧ mtarget ms' = Some tg'
    ∧ received (term tg')
      = received demo_term
        ++ ProgressDrawState.clear_last_lines_ops 0
        ++ (WriteLine <$> (pending_logs region_ms 0 ++ concat (lines_with region_ms 0 [])))
        ++ [Flush]
    ∧ last_line_count tg' = length (concat (lines_with region_ms 0 [])).
Proof.
  exact (set_draw_target_unlinks demo_pb ProgressDrawTarget.hidden 50 1 region_bar 0 0
           region_ms (TermTarget.new demo_term 15) region_world
           eq_refl eq_refl eq_refl region_ms_wf region_ms_occupied eq_refl eq_refl eq_refl).
Defined.

(** ** Theorems: the handle of a region *)

Section handle_facts.
Context `{TermLike T} `{StyleOps Sty}.
Implicit Types (w : World T Sty) (self : MultiProgress) (pb : ProgressBar)
  (bs : BarState T Sty) (ms : MultiState T).

(** Adding a bar that is not in a region: it takes a slot of the region at
    the location asked for and its target becomes that slot; the other
    slots and all other bars are untouched. *)
Lemma internalize_idle self location pb now n bs ms w :
  idle_at (arc pb) n bs w →
  ProgressDrawTarget.remote (draw_target bs) = None →
  multis w !! region self = Some ms →
  MultiProgress.internalize self location pb now w
  = (Ok pb,
     commit (arc pb)
       (mkArc n (Some (mkMutex false false
          (BarState.set_draw_target
             (Remote (region self) (MultiState.insert location ms).1) bs))))
       (<[region self := (MultiState.insert location ms).2]> (multis w)) w).
Proof.
  intros Hl Hrem Hms. unfold MultiProgress.internalize. rewrite Hms.
  destruct (MultiState.insert location ms) as [idx ms'] eqn:Hins. unfold bind.
  rewrite (set_draw_target_idle pb _ now n bs); [|exact Hl].
  cbn [fst snd]. f_equal. unfold commit. cbn [bars multis threads set_multis].
  f_equal. by destruct (draw_target bs).
Qed.

(** Removing a bar of the region frees its slot and touches no bar. *)
Lemma remove_idle self pb n bs idx ms w :
  idle_at (arc pb) n bs w →
  draw_target bs = Remote (region self) idx →
  multis w !! region self = Some ms →
  MultiProgress.remove self pb w
  = (Ok tt, set_multis (<[region self := MultiState.remove_idx idx ms]> (multis w)) w).
Proof.
  intros Hl Htgt Hms. unfold MultiProgress.remove, bind, ProgressBar.state.
  rewrite (read_idle pb (λ bs _, bs) n bs w Hl). rewrite Htgt. simpl.
  rewrite decide_True by done. do 2 f_equal.
  apply map_eq. intros st. destruct (decide (st = region self)) as [->|Hne].
  - by rewrite lookup_alter_eq, lookup_insert_eq, Hms.
  - by rewrite lookup_alter_ne, lookup_insert_ne.
Qed.

Lemma index_idle self_pb n bs w :
  idle_at (arc self_pb) n bs w →
  ProgressBar.index self_pb w = (Ok (snd <$> ProgressDrawTarget.remote (draw_target bs)), w).
Proof.
  intros Hl. unfold ProgressBar.index, ProgressBar.state, bind.
  by rewrite (read_idle self_pb (λ bs _, bs) n bs w Hl).
Qed.

(** C15: Removing a bar from a region and adding another
    never moves a third.  For a region with a well-formed slot table, a
    bar [pb] in its occupied slot [idx], any other bar [other] and a bar
    [added] that is in no region, all neither locked nor poisoned:
    [remove] of [pb] followed by an insertion of [added] at any location
    succeed; [index] of [other] yields after each of them what it yielded
    before; every slot but [idx] holds the frame it held; the display
    order after the removal is the one before without [idx]; and [added]
    takes the freed slot [idx], which is put into the display order of
    the others, their order unchanged, at the location asked for: last
    for [AtEnd]; after the first [i] slots for [AtIndex i] (last when
    there are fewer); right after (before) the slot [j] for [After j]
    ([Before j]), and last when [j] is not shown. *)
Theorem slots_are_stable self pb other added location now n bs idx ms m bs_o k bs_a w :
  idle_at (arc pb) n bs w →
  draw_target bs = Remote (region self) idx →
  multis w !! region self = Some ms →
  region_wf ms → occupied ms idx →
  idle_at (arc other) m bs_o w → arc other ≠ arc added →
  idle_at (arc added) k bs_a w →
  ProgressDrawTarget.remote (draw_target bs_a) = None →
  ∃ w1 w2 ms1 ms2,
    MultiProgress.remove self pb w = (Ok tt, w1)
    ∧ MultiProgress.internalize self location added now w1 = (Ok added, w2)
    ∧ ProgressBar.index other w = (Ok (snd <$> ProgressDrawTarget.remote (draw_target bs_o)), w)
    ∧ ProgressBar.index other w1 = (Ok (snd <$> ProgressDrawTarget.remote (draw_target bs_o)), w1)
    ∧ ProgressBar.index other w2 = (Ok (snd <$> ProgressDrawTarget.remote (draw_target bs_o)), w2)
    ∧ ProgressBar.index added w2 = (Ok (Some idx), w2)
    ∧ multis w1 !! region self = Some ms1 ∧ multis w2 !! region self = Some ms2
    ∧ (∀ j, j ≠ idx → slot ms1 j = slot ms j ∧ slot ms2 j = slot ms j)
    ∧ ordering ms1 = filter (λ j, j ≠ idx) (ordering ms)
    ∧ ∃ before after,
        ordering ms1 = before ++ after
        ∧ ordering ms2 = before ++ idx :: after
        ∧ match location with
          | AtEnd => after = []
          | AtIndex i => length before = Nat.min i (length (ordering ms1))
          | After j =>
              ((j ∉ ordering ms1) ∧ after = []) ∨ (∃ b, before = b ++ [j] ∧ (j ∉ b))
          | Before j =>
              ((j ∉ ordering ms1) ∧ after = []) ∨ ((j ∉ before) ∧ ∃ a, after = j :: a)
          end.
Proof.
  intros Hl Htgt Hms Hwf Hocc Ho Hne Ha Hrem.
  destruct (table_slots_stable idx location ms Hwf Hocc) as (Hslots & Hord1 & Hidx & Hord2 & _).
  set (ms1 := MultiState.remove_idx idx ms) in *.
  set (w1 := set_multis (<[region self := ms1]> (multis w)) w).
  assert (Hms1 : multis w1 !! region self = Some ms1) by apply lookup_insert_eq.
  eexists w1, _, ms1, (MultiState.insert location ms1).2.
  split; [by apply (remove_idle self pb n bs idx ms w)|].
  split; [by apply (internalize_idle self location added now k bs_a ms1 w1)|].
  split; [by apply (index_idle other m bs_o)|]. split; [by apply (index_idle other m bs_o)|].
  split; [apply (index_idle other m bs_o); unfold idle_at; by rewrite commit_lookup_ne|].
  split; [erewrite index_idle by apply idle_at_commit; cbn; by rewrite Hidx|].
  split; [done|]. split; [unfold commit; cbn [multis]; by rewrite lookup_insert_eq|].
  split; [done|]. split; [done|]. eexists _, _. split; [symmetry; apply take_drop|].
  split; [exact Hord2|]. apply position_placed.
Qed.

End handle_facts.

Lemma trio_ms_wf : region_wf trio_ms.
Proof. apply (bool_decide_unpack _). by vm_compute. Qed.

Lemma trio_ms_occupied : occupied trio_ms 0.
Proof. apply (bool_decide_unpack _). by vm_compute. Qed.

(** In the world with three bars: the demo bar leaves slot 0 of the
    region, the bar that was in no region is inserted before the third
    bar, and the third bar stays in slot 1. *)
Lemma slots_are_stable_witness :
  ∃ w1 w2 ms1 ms2,
    MultiProgress.remove (mkMultiProgress 0) demo_pb trio_world = (Ok tt, w1)
    ∧ MultiProgress.internalize (mkMultiProgress 0) (Before 1) spare_pb 5 w1 = (Ok spare_pb, w2)
    ∧ ProgressBar.index third_pb trio_world
      = (Ok (snd <$> ProgressDrawTarget.remote (draw_target third_bar)), trio_world)
    ∧ ProgressBar.index third_pb w1
      = (Ok (snd <$> ProgressDrawTarget.remote (draw_target third_bar)), w1)
    ∧ ProgressBar.index third_pb w2
      = (Ok (snd <$> ProgressDrawTarget.remote (draw_target third_bar)), w2)
    ∧ ProgressBar.index spare_pb w2 = (Ok (Some 0%nat), w2)
    ∧ multis w1 !! 0%nat = Some ms1 ∧ multis w2 !! 0%nat = Some ms2
    ∧ (∀ j, j ≠ 0%nat → slot ms1 j = slot trio_ms j ∧ slot ms2 j = slot trio_ms j)
    ∧ ordering ms1 = filter (λ j, j ≠ 0%nat) (ordering trio_ms)
    ∧ ∃ before after,
        ordering ms1 = before ++ after
        ∧ ordering ms2 = before ++ 0%nat :: after
        ∧ (((1%nat ∉ ordering ms1) ∧ after = [])
           ∨ ((1%nat ∉ before) ∧ ∃ a, after = 1%nat :: a)).
Proof.
  apply (slots_are_stable (mkMultiProgress 0) demo_pb third_pb spare_pb (Before 1) 5
           1 region_bar 0 trio_ms 1 third_bar 1 spare_bar trio_world);
    [by vm_compute|by vm_compute|by vm_compute|exact trio_ms_wf|exact trio_ms_occupied
    |by vm_compute|by vm_compute|by vm_compute|by vm_compute].
Defined.

(** The removed bar keeps its target: after the removal of the demo bar
    and the addition of the second bar at the end, both report slot 0. *)
Lemma removed_bar_shares_slot :
  let w2 := ((MultiProgress.remove (mkMultiProgress 0) demo_pb ;;;
              MultiProgress.add (mkMultiProgress 0) spare_pb 3) spare_world).2 in
  (ProgressBar.index demo_pb w2).1 = Ok (Some 0%nat)
  ∧ (ProgressBar.index spare_pb w2).1 = Ok (Some 0%nat).
Proof. by vm_compute. Qed.
