(* ===== verification/RegionInv.v ===== *)
(** * Bars and the regions they paint in

    The invariant that ties the bars of a world to its regions
    ([regions_ok]): every slot table is well formed, a bar whose target is
    a slot of a region holds an occupied slot of a region that exists, and
    no two bars hold the same slot.  The file shows what a critical
    section of [src/src/progress_bar.rs] may do to the regions ([kept]: a
    bar repaints the region of its own slot and nothing else) and that the
    invariant survives every critical section, the replacement of a
    target, and the creation of a region and the addition of a bar to it.
    [Schedule.v] carries it through every interleaving. *)

From Stdlib Require Import ZArith String List Lia.
From stdpp Require Import base option list gmap.
From S2P Require Import Prelude TermLike ProgressRecord OutputTarget BarCell Handle Region.

#[local] Open Scope Z_scope.
#[local] Open Scope bar_scope.

(** ** Repaints *)

Section tables.
Context `{TermLike T}.
Implicit Types (ms : MultiState T) (mh : MHeap T) (tgt : ProgressDrawTarget T).

(** [ms'] has the slots of [ms] occupied, and is well formed if [ms] is. *)
Definition same_slots ms ms' : Prop :=
  (region_wf ms → region_wf ms') ∧ ∀ j, occupied ms' j ↔ occupied ms j.

(** The regions after the bar of slot [idx] of the region [st] has
    written to its slot or repainted: only that region has changed, and
    when the slot was occupied the same slots are. *)
Definition repainted (st : loc) (idx : nat) mh mh' : Prop :=
  match mh !! st with
  | Some ms => ∃ ms', mh' = <[st := ms']> mh ∧ (occupied ms idx → same_slots ms ms')
  | None => mh' = mh
  end.

(** What a critical section that does not replace the target does to the
    target and the regions: a bar of a region keeps its slot and repaints
    its region; any other bar enters no region and leaves them alone. *)
Definition kept tgt mh tgt' mh' : Prop :=
  match tgt with
  | Remote st idx => tgt' = tgt ∧ repainted st idx mh mh'
  | Direct _ | Hidden => ProgressDrawTarget.remote tgt' = None ∧ mh' = mh
  end.

End tables.

Section bodies.
Context `{TermLike T} `{StyleOps Sty}.

(** A computation on the bar cell that keeps the target as [kept] says. *)
Definition tidy {A} (body : SE (BarState T Sty * MHeap T) panic A) : Prop :=
  ∀ bs mh, ∃ r bs' mh',
    body (bs, mh) = (r, (bs', mh')) ∧ kept (draw_target bs) mh (draw_target bs') mh'.

(** ** The invariant *)

Record regions_ok (w : World T Sty) : Prop := mkRegionsOk {
  (** every slot table is well formed; *)
  ok_wf : ∀ st ms, multis w !! st = Some ms → region_wf ms;
  (** a bar of a region holds an occupied slot of it; *)
  ok_attached : ∀ l bs st idx,
    Arc.peek l w = Some bs → draw_target bs = Remote st idx →
    ∃ ms, multis w !! st = Some ms ∧ occupied ms idx;
  (** and no other bar holds that slot. *)
  ok_separate : ∀ l1 l2 bs1 bs2 st idx,
    Arc.peek l1 w = Some bs1 → Arc.peek l2 w = Some bs2 →
    draw_target bs1 = Remote st idx → draw_target bs2 = Remote st idx → l1 = l2
}.

(** The world after references were counted or threads moved: the regions
    are the same and every bar was there before, as it is. *)
Definition thinned (w w' : World T Sty) : Prop :=
  multis w' = multis w ∧ ∀ l bs, Arc.peek l w' = Some bs → Arc.peek l w = Some bs.

End bodies.

(** ** Lemmas: repaints *)

Section table_facts.
Context `{TermLike T}.
Implicit Types (ms : MultiState T) (mh : MHeap T) (tgt : ProgressDrawTarget T).

#[global] Instance same_slots_preorder : PreOrder (same_slots (T := T)).
Proof.
  split; [by intros ms|].
  intros ms1 ms2 ms3 [Hwf1 Ho1] [Hwf2 Ho2]. split; [auto|].
  intros j. by rewrite Ho2.
Qed.

Lemma same_slots_set_draw_state idx ds ms :
  occupied ms idx → same_slots ms (MultiState.set_draw_state idx ds ms).
Proof.
  intros Hocc. split; [intros; by apply wf_set_draw_state|].
  intros j. unfold occupied. fold (slot (MultiState.set_draw_state idx ds ms) j) (slot ms j).
  rewrite slot_set_draw_state by done. case_decide; [subst|done].
  split; [done|by eexists].
Qed.

Lemma same_slots_draw force_draw now ms : same_slots ms (MultiState.draw force_draw now ms).2.
Proof.
  split; [apply wf_draw|]. intros j. unfold MultiState.draw.
  destruct (mtarget ms) as [tg|]; [|done].
  destruct (TermTarget.drawable _ _ _) as [tg1|]; [|done].
  destruct (TermTarget.draw _) as [r tg2]. cbn [snd].
  change (is_Some (slot (mkMultiState (MultiState.strip_orphans <$> members ms) (free_set ms)
                           (ordering ms) (Some tg2)) j) ↔ is_Some (slot ms j)).
  rewrite slot_strip. apply fmap_is_Some.
Qed.

Lemma repainted_refl st idx mh : repainted st idx mh mh.
Proof.
  unfold repainted. destruct (mh !! st) as [ms|] eqn:Hms; [|done].
  exists ms. by rewrite insert_id.
Qed.

Lemma repainted_trans st idx mh1 mh2 mh3 :
  repainted st idx mh1 mh2 → repainted st idx mh2 mh3 → repainted st idx mh1 mh3.
Proof.
  unfold repainted. destruct (mh1 !! st) as [ms1|] eqn:H1.
  - intros (ms2 & -> & H12). rewrite lookup_insert_eq. intros (ms3 & -> & H23).
    exists ms3. rewrite insert_insert_eq. split; [done|]. intros Hocc.
    specialize (H12 Hocc). etrans; [exact H12|]. apply H23. by apply H12.
  - intros ->. by rewrite H1.
Qed.

Lemma kept_refl tgt mh : kept tgt mh tgt mh.
Proof. destruct tgt; cbn; auto using repainted_refl. Qed.

Lemma kept_trans tgt1 tgt2 tgt3 mh1 mh2 mh3 :
  kept tgt1 mh1 tgt2 mh2 → kept tgt2 mh2 tgt3 mh3 → kept tgt1 mh1 tgt3 mh3.
Proof.
  destruct tgt1 as [tg|st idx|]; cbn.
  - intros [Hr ->]. destruct tgt2; cbn in *; [tauto|done|tauto].
  - intros [-> H12]. cbn. intros [-> H23]. eauto using repainted_trans.
  - intros [Hr ->]. destruct tgt2; cbn in *; [tauto|done|tauto].
Qed.

(** A frame handed to the target and painted: what every redraw, a line
    printed above the bar and the erasing of the bar come to. *)
Lemma paint_kept force_draw now tgt mh d ds :
  ProgressDrawTarget.drawable force_draw now tgt = Some d →
  ∃ d' mh1 r tgt' mh2,
    Drawable.set_state ds d mh = (d', mh1) ∧ Drawable.draw d' mh1 = (r, tgt', mh2)
    ∧ kept tgt mh tgt' mh2.
Proof.
  destruct tgt as [tg|st idx|]; cbn; [|intros [= <-]|done].
  - destruct (TermTarget.drawable _ _ _) as [tg1|]; [|done]. intros [= <-]. cbn.
    destruct (TermTarget.draw (TermTarget.set_draw_state ds tg1)) as [r tg2] eqn:Hd.
    eexists _, _, _, _, _. split; [reflexivity|]. cbn. by rewrite Hd.
  - cbn. unfold repainted. destruct (mh !! st) as [ms|] eqn:Hms.
    + destruct (MultiState.draw force_draw now (MultiState.set_draw_state idx ds ms))
        as [r ms2] eqn:Hd.
      exists (DrawableMulti st idx force_draw now),
        (<[st := MultiState.set_draw_state idx ds ms]> mh), r, (Remote st idx),
        (<[st := ms2]> (<[st := MultiState.set_draw_state idx ds ms]> mh)).
      split; [done|]. split; [cbn; by rewrite lookup_insert_eq, Hd|]. split; [done|].
      exists ms2. rewrite insert_insert_eq. split; [done|]. intros Hocc.
      etrans; [by apply (same_slots_set_draw_state idx ds)|].
      pose proof (same_slots_draw force_draw now (MultiState.set_draw_state idx ds ms)) as Hs.
      by rewrite Hd in Hs.
    + exists (DrawableMulti st idx force_draw now), mh, (Ok tt), (Remote st idx), mh.
      cbn. by rewrite Hms.
Qed.

End table_facts.

(** ** Lemmas: critical sections *)

Section body_facts.
Context `{TermLike T} `{StyleOps Sty}.
Implicit Types (bs : BarState T Sty) (mh : MHeap T) (now : Instant)
  (f : ProgressState Sty → ProgressState Sty).

Lemma tidy_draw force_draw now :
  tidy (ignore_err (E' := panic) (BarState.draw force_draw now)).
Proof.
  intros bs mh. unfold ignore_err, BarState.draw.
  destruct (ProgressDrawTarget.drawable _ _ _) as [d|] eqn:Hd;
    [|eexists _, _, _; split; [done|apply kept_refl]].
  match goal with |- context [Drawable.set_state ?ds d mh] =>
    destruct (paint_kept _ _ _ mh d ds Hd) as (d' & mh1 & r & tgt' & mh2 & -> & -> & Hk)
  end.
  by eexists _, _, _.
Qed.

Lemma tidy_update_and_draw now f : tidy (BarState.update_and_draw now f).
Proof.
  intros bs mh.
  apply (tidy_draw false now (BarState.set_state (BarState.update now f (state bs)) bs) mh).
Qed.

Lemma tidy_update_and_force_draw now f : tidy (BarState.update_and_force_draw now f).
Proof.
  intros bs mh.
  apply (tidy_draw true now (BarState.set_state (BarState.update now f (state bs)) bs) mh).
Qed.

Lemma tidy_modify f : tidy (T := T) (BarState.modify f).
Proof. intros bs mh. eexists _, _, _. split; [done|apply kept_refl]. Qed.

Lemma tidy_read {A} (g : BarState T Sty → MHeap T → A) : tidy (BarState.read g).
Proof. intros bs mh. eexists _, _, _. split; [done|apply kept_refl]. Qed.

Lemma tidy_finish_using_style now : tidy (BarState.finish_using_style now).
Proof.
  intros bs mh. unfold BarState.finish_using_style.
  destruct (on_finish (style (state bs))); apply tidy_update_and_force_draw.
Qed.

Lemma tidy_println msg now : tidy (ProgressBar.println_locked msg now).
Proof.
  intros bs mh. unfold ProgressBar.println_locked.
  destruct (ProgressDrawTarget.drawable _ _ _) as [d|] eqn:Hd;
    [|eexists _, _, _; split; [done|apply kept_refl]].
  match goal with |- context [Drawable.set_state ?ds d mh] =>
    destruct (paint_kept _ _ _ mh d ds Hd) as (d' & mh1 & r & tgt' & mh2 & -> & -> & Hk)
  end.
  by eexists _, _, _.
Qed.

Lemma tidy_suspend_clear now : tidy (Sty := Sty) (ProgressBar.suspend_clear now).
Proof.
  intros bs mh. unfold ProgressBar.suspend_clear, Drawable.clear.
  destruct (ProgressDrawTarget.drawable _ _ _) as [d|] eqn:Hd;
    [|eexists _, _, _; split; [done|apply kept_refl]].
  destruct (paint_kept _ _ _ mh d (Drawable.state d mh) Hd)
    as (d' & mh1 & r & tgt' & mh2 & -> & -> & Hk).
  by eexists _, _, _.
Qed.

Lemma tidy_steady_tick_locked now : tidy (ProgressBar.steady_tick_locked now).
Proof.
  intros bs mh. unfold ProgressBar.steady_tick_locked.
  destruct (ProgressState.is_finished (state bs) || (steady_tick (state bs) =? 0)%Z);
    [eexists _, _, _; split; [done|apply kept_refl]|].
  match goal with |- context [BarState.set_state ?s bs] =>
    destruct (tidy_draw false now (BarState.set_state s bs) mh) as (r & bs' & mh' & Hd & Hk)
  end.
  unfold bind. rewrite Hd. destruct r as [a|e]; [by eexists _, bs', mh'|].
  by exists (Err e), bs', mh'.
Qed.

(** Two critical sections in a row. *)
Lemma tidy_bind {A B} (m : SE (BarState T Sty * MHeap T) panic A)
    (k : A → SE (BarState T Sty * MHeap T) panic B) :
  tidy m → (∀ a, tidy (k a)) → tidy (let* a := m in k a).
Proof.
  intros Hm Hk bs mh. destruct (Hm bs mh) as (r & bs1 & mh1 & Hr & Hk1).
  unfold bind. rewrite Hr. destruct r as [a|e]; [|by eexists _, _, _].
  destruct (Hk a bs1 mh1) as (r2 & bs2 & mh2 & -> & Hk2).
  eexists _, _, _. split; [done|]. eapply kept_trans; eauto.
Qed.

End body_facts.

(** ** Lemmas: the invariant *)

Section inv_facts.
Context `{TermLike T} `{StyleOps Sty}.
Implicit Types (w : World T Sty) (l : loc) (bs : BarState T Sty) (mh : MHeap T)
  (ms : MultiState T) (c : ArcInner T Sty) (tgt : ProgressDrawTarget T).

Lemma peek_commit l c mh w : Arc.peek l (commit l c mh w) = data <$> value c.
Proof. unfold Arc.peek, Arc.mutex_of. by rewrite commit_lookup. Qed.

Lemma peek_commit_ne l l' c mh w : l ≠ l' → Arc.peek l' (commit l c mh w) = Arc.peek l' w.
Proof. intros Hne. unfold Arc.peek, Arc.mutex_of. by rewrite commit_lookup_ne. Qed.

Lemma peek_idle l n bs w : idle_at l n bs w → Arc.peek l w = Some bs.
Proof. unfold idle_at, Arc.peek, Arc.mutex_of. by intros ->. Qed.

(** The invariant is kept when regions are only added or repainted and
    the bars of regions are bars that were there, in the same slots. *)
Lemma regions_ok_sim w w' :
  regions_ok w →
  (∀ st ms', multis w' !! st = Some ms' →
     match multis w !! st with
     | Some ms => (region_wf ms → region_wf ms') ∧ ∀ j, occupied ms j → occupied ms' j
     | None => region_wf ms'
     end) →
  (∀ st, is_Some (multis w !! st) → is_Some (multis w' !! st)) →
  (∀ l bs' st idx, Arc.peek l w' = Some bs' → draw_target bs' = Remote st idx →
     ∃ bs, Arc.peek l w = Some bs ∧ draw_target bs = Remote st idx) →
  regions_ok w'.
Proof.
  intros [Hwf Hatt Hsep] Hreg Hdom Hbars. split.
  - intros st ms' Hms'. specialize (Hreg st ms' Hms').
    destruct (multis w !! st) as [ms|] eqn:Hms; [|done]. apply Hreg. eauto.
  - intros l bs' st idx Hp Ht. destruct (Hbars _ _ _ _ Hp Ht) as (bs & Hp0 & Ht0).
    destruct (Hatt _ _ _ _ Hp0 Ht0) as (ms & Hms & Hocc).
    destruct (Hdom st) as [ms' Hms']; [by rewrite Hms|].
    exists ms'. split; [done|]. specialize (Hreg st ms' Hms'). rewrite Hms in Hreg.
    by apply Hreg.
  - intros l1 l2 bs1 bs2 st idx Hp1 Hp2 Ht1 Ht2.
    destruct (Hbars _ _ _ _ Hp1 Ht1) as (b1 & ? & ?).
    destruct (Hbars _ _ _ _ Hp2 Ht2) as (b2 & ? & ?). eauto.
Qed.

(** A critical section that keeps the target, on a cell of the world. *)
Lemma regions_ok_kept l c bs bs' mh' w :
  regions_ok w → Arc.peek l w = Some bs →
  data <$> value c = Some bs' →
  kept (draw_target bs) (multis w) (draw_target bs') mh' →
  regions_ok (commit l c mh' w).
Proof.
  intros Hok Hp Hc Hk.
  assert (Hbars : ∀ l' b' st idx, Arc.peek l' (commit l c mh' w) = Some b' →
            draw_target b' = Remote st idx →
            ∃ b, Arc.peek l' w = Some b ∧ draw_target b = Remote st idx).
  { intros l' b' st idx Hp' Ht'. destruct (decide (l' = l)) as [->|Hne].
    - rewrite peek_commit, Hc in Hp'. injection Hp' as <-. exists bs. split; [done|].
      destruct (draw_target bs) as [tg|st0 idx0|]; cbn in Hk; destruct Hk as [Hk _];
        [by rewrite Ht' in Hk|congruence|by rewrite Ht' in Hk].
    - rewrite peek_commit_ne in Hp' by done. eauto. }
  assert (Hheap : mh' = multis w ∨ ∃ st idx ms ms', draw_target bs = Remote st idx
            ∧ multis w !! st = Some ms ∧ mh' = <[st := ms']> (multis w) ∧ same_slots ms ms').
  { destruct (draw_target bs) as [tg|st idx|] eqn:Ht; cbn in Hk; [by left; apply Hk| |by left; apply Hk].
    destruct Hk as [_ Hr]. destruct (ok_attached _ Hok _ _ _ _ Hp Ht) as (ms & Hms & Hocc).
    unfold repainted in Hr. rewrite Hms in Hr. destruct Hr as (ms' & -> & Hs).
    right. exists st, idx, ms, ms'. eauto. }
  apply (regions_ok_sim w); [done| | |done]; cbn [commit multis].
  - intros st ms2 Hms2. destruct Hheap as [->|(st0 & idx0 & ms & ms' & _ & Hms & -> & Hs)].
    + by rewrite Hms2.
    + destruct (decide (st = st0)) as [->|Hne].
      * rewrite lookup_insert_eq in Hms2. injection Hms2 as <-. rewrite Hms.
        split; [apply Hs|]. intros j. apply Hs.
      * rewrite lookup_insert_ne in Hms2 by done. by rewrite Hms2.
  - intros st Hst. destruct Hheap as [->|(st0 & idx0 & ms & ms' & _ & Hms & -> & Hs)]; [done|].
    destruct (decide (st = st0)) as [->|Hne]; [by rewrite lookup_insert_eq|].
    by rewrite lookup_insert_ne.
Qed.

(** Bars are dropped, or their cells change in what the invariant does
    not look at. *)
Lemma regions_ok_thinned w w' : regions_ok w → thinned w w' → regions_ok w'.
Proof.
  intros Hok [Hm Hp]. apply (regions_ok_sim w); [done|rewrite Hm..|eauto].
  - intros st ms' ->. done.
  - done.
Qed.

#[global] Instance thinned_preorder : PreOrder (thinned (T := T) (Sty := Sty)).
Proof.
  split; [by intros w|]. intros w1 w2 w3 [Hm1 Hp1] [Hm2 Hp2]. split; [congruence|eauto].
Qed.

(** A cell is rewritten with the bar it had, or without one. *)
Lemma thinned_cell l c w :
  (∀ bs, data <$> value c = Some bs → Arc.peek l w = Some bs) →
  thinned w (set_bars (<[l := c]> (bars w)) w).
Proof.
  intros Hc. split; [done|]. intros l' bs. unfold Arc.peek, Arc.mutex_of in *.
  cbn [set_bars bars]. destruct (decide (l' = l)) as [->|Hne].
  - rewrite lookup_insert_eq. apply Hc.
  - by rewrite lookup_insert_ne.
Qed.

Lemma thinned_clone l w : thinned w (Arc.clone l w).2.
Proof.
  unfold Arc.clone. destruct (bars w !! l) as [[[|n] [m|]]|] eqn:Hl; try done.
  apply thinned_cell. intros bs. unfold Arc.peek, Arc.mutex_of. by rewrite Hl.
Qed.

Lemma thinned_upgrade l w : thinned w (Arc.upgrade l w).2.
Proof.
  unfold Arc.upgrade. destruct (bars w !! l) as [[[|n] [m|]]|] eqn:Hl; try done.
  apply thinned_cell. intros bs. unfold Arc.peek, Arc.mutex_of. by rewrite Hl.
Qed.

Lemma thinned_drop l w : thinned w (Arc.drop l w).2.
Proof.
  unfold Arc.drop. destruct (bars w !! l) as [[[|[|n]] [m|]]|] eqn:Hl; try done;
    apply thinned_cell; intros bs; unfold Arc.peek, Arc.mutex_of; by rewrite Hl.
Qed.

Lemma thinned_threads th w : thinned w (set_threads th w).
Proof. done. Qed.

(** Releasing an occupied slot: its region is repainted and the slot
    freed; the other slots stay as they are. *)
Lemma disconnect_remote now st idx mh ms :
  mh !! st = Some ms → occupied ms idx →
  ∃ ms', ProgressDrawTarget.disconnect now (Remote st idx) mh = <[st := ms']> mh
    ∧ (region_wf ms → region_wf ms')
    ∧ ∀ j, occupied ms' j ↔ occupied ms j ∧ j ≠ idx.
Proof.
  intros Hms Hocc. unfold ProgressDrawTarget.disconnect, Drawable.clear.
  destruct (paint_kept true now (Remote st idx) mh (DrawableMulti st idx true now)
              (Drawable.state (DrawableMulti st idx true now) mh) eq_refl)
    as (d' & mh1 & r & tgt' & mh2 & -> & -> & _ & Hr).
  unfold repainted in Hr. rewrite Hms in Hr. destruct Hr as (ms1 & -> & Hs).
  destruct (Hs Hocc) as [Hwf1 Hocc1]. rewrite lookup_insert_eq, insert_insert_eq.
  exists (MultiState.remove_idx idx ms1). split; [done|].
  assert (Ho1 : occupied ms1 idx) by by apply Hocc1.
  split.
  - intros Hwf. by apply remove_idx_spec; [apply Hwf1|].
  - intros j. unfold occupied, MultiState.remove_idx.
    destruct (proj1 (occupied_lookup _ _) Ho1) as (ds & Hds). rewrite Hds. cbn [members].
    destruct (decide (j = idx)) as [->|Hne].
    + rewrite list_lookup_insert_eq by (apply lookup_lt_is_Some; eauto).
      split; [by intros [? [=]]|tauto].
    + rewrite list_lookup_insert_ne by done.
      fold (occupied ms1 j). rewrite Hocc1. tauto.
Qed.

(** The regions after a bar of the world has released its target: every
    region is still there, well formed, with the slots it had occupied
    but the one the bar held. *)
Lemma disconnect_regions l bs now w :
  regions_ok w → Arc.peek l w = Some bs →
  let mh' := ProgressDrawTarget.disconnect now (draw_target bs) (multis w) in
  (∀ st, is_Some (mh' !! st) → is_Some (multis w !! st))
  ∧ ∀ st ms, multis w !! st = Some ms →
      ∃ ms', mh' !! st = Some ms' ∧ region_wf ms'
        ∧ ∀ j, occupied ms' j ↔ occupied ms j ∧ draw_target bs ≠ Remote st j.
Proof.
  intros Hok Hp mh'. subst mh'.
  destruct (draw_target bs) as [tg|st0 idx0|] eqn:Ht; cbn [ProgressDrawTarget.disconnect];
    [split; [done|]; intros st ms Hms; exists ms;
     pose proof (ok_wf _ Hok _ _ Hms); intuition congruence| |
     split; [done|]; intros st ms Hms; exists ms;
     pose proof (ok_wf _ Hok _ _ Hms); intuition congruence].
  destruct (ok_attached _ Hok _ _ _ _ Hp Ht) as (ms0 & Hms0 & Hocc).
  destruct (disconnect_remote now st0 idx0 _ ms0 Hms0 Hocc) as (ms' & Heq & Hwf' & Hocc').
  cbn [ProgressDrawTarget.disconnect] in Heq. rewrite Heq. split.
  - intros st. destruct (decide (st = st0)) as [->|Hne]; [by rewrite Hms0|].
    by rewrite lookup_insert_ne.
  - intros st ms Hms. pose proof (ok_wf _ Hok _ _ Hms) as Hwf.
    destruct (decide (st = st0)) as [->|Hne].
    + rewrite lookup_insert_eq. exists ms'. replace ms with ms0 in * by congruence.
      split; [done|]. split; [auto|]. intros j. rewrite Hocc'. intuition congruence.
    + rewrite lookup_insert_ne by done. exists ms. intuition congruence.
Qed.

(** The target of a cell is replaced: the old slot is released; a new
    slot has to be occupied and held by no bar. *)
Lemma regions_ok_retarget l c bs tgt now w :
  regions_ok w → Arc.peek l w = Some bs →
  data <$> value c = Some (BarState.set_draw_target tgt bs) →
  (∀ st idx, tgt = Remote st idx →
     (∃ ms, multis w !! st = Some ms ∧ occupied ms idx)
     ∧ ∀ l' b, Arc.peek l' w = Some b → draw_target b ≠ Remote st idx) →
  regions_ok (commit l c (ProgressDrawTarget.disconnect now (draw_target bs) (multis w)) w).
Proof.
  intros Hok Hp Hc Hnew.
  destruct (disconnect_regions l bs now w Hok Hp) as [Hdom Hheap].
  set (mh' := ProgressDrawTarget.disconnect now (draw_target bs) (multis w)) in *.
  assert (Hcell : ∀ l' b', Arc.peek l' (commit l c mh' w) = Some b' →
            (l' = l ∧ draw_target b' = tgt) ∨ (l' ≠ l ∧ Arc.peek l' w = Some b')).
  { intros l' b' Hp'. destruct (decide (l' = l)) as [->|Hne].
    - rewrite peek_commit, Hc in Hp'. injection Hp' as <-. by left.
    - rewrite peek_commit_ne in Hp' by done. by right. }
  split; cbn [commit multis].
  - intros st ms' Hms'. destruct (Hdom st) as [ms Hms]; [by rewrite Hms'|].
    destruct (Hheap st ms Hms) as (ms2 & Hms2 & Hwf & _). congruence.
  - intros l' b' st idx Hp' Ht'.
    destruct (Hcell l' b' Hp') as [[-> Htgt]|[Hne Hp0]].
    + destruct (Hnew st idx) as [(ms & Hms & Hocc) Hfree]; [congruence|].
      destruct (Hheap st ms Hms) as (ms' & Hms' & _ & Ho). exists ms'. split; [done|].
      apply Ho. split; [done|]. by apply (Hfree l bs).
    + destruct (ok_attached _ Hok _ _ _ _ Hp0 Ht') as (ms & Hms & Hocc).
      destruct (Hheap st ms Hms) as (ms' & Hms' & _ & Ho). exists ms'. split; [done|].
      apply Ho. split; [done|]. intros Ht. destruct Hne.
      by apply (ok_separate _ Hok l' l b' bs st idx).
  - intros l1 l2 b1 b2 st idx Hp1 Hp2 Ht1 Ht2.
    destruct (Hcell l1 b1 Hp1) as [[-> Htgt1]|[Hne1 Hq1]];
      destruct (Hcell l2 b2 Hp2) as [[-> Htgt2]|[Hne2 Hq2]]; [done| | |].
    + destruct (Hnew st idx) as [_ Hfree]; [congruence|]. by destruct (Hfree l2 b2).
    + destruct (Hnew st idx) as [_ Hfree]; [congruence|]. by destruct (Hfree l1 b1).
    + by apply (ok_separate _ Hok l1 l2 b1 b2 st idx).
Qed.

(** A slot is taken in a region: it is occupied and no bar holds it. *)
Lemma regions_ok_insert st ms location w :
  regions_ok w → multis w !! st = Some ms →
  let idx := (MultiState.insert location ms).1 in
  let w1 := set_multis (<[st := (MultiState.insert location ms).2]> (multis w)) w in
  regions_ok w1
  ∧ (∃ ms', multis w1 !! st = Some ms' ∧ occupied ms' idx)
  ∧ ∀ l b, Arc.peek l w1 = Some b → draw_target b ≠ Remote st idx.
Proof.
  intros Hok Hms idx w1.
  destruct (insert_spec location ms (ok_wf _ Hok _ _ Hms)) as (Hfresh & _ & _ & Hidx & Hrest & Hwf').
  fold idx in Hfresh, Hidx, Hrest.
  split; [|split].
  - apply (regions_ok_sim w); [done| | |by eauto]; cbn [w1 set_multis multis].
    + intros st' ms' Hms'. destruct (decide (st' = st)) as [->|Hne].
      * rewrite lookup_insert_eq in Hms'. injection Hms' as <-. rewrite Hms.
        split; [done|]. intros j Hj. unfold occupied. fold (slot (MultiState.insert location ms).2 j).
        rewrite Hrest; [done|]. by intros ->.
      * rewrite lookup_insert_ne in Hms' by done. by rewrite Hms'.
    + intros st' Hst'. destruct (decide (st' = st)) as [->|Hne];
        [by rewrite lookup_insert_eq|by rewrite lookup_insert_ne].
  - eexists. split; [apply lookup_insert_eq|]. unfold occupied.
    fold (slot (MultiState.insert location ms).2 idx). by rewrite Hidx.
  - intros l b Hp Ht. destruct (ok_attached _ Hok l b st idx Hp Ht) as (ms0 & Hms0 & Hocc).
    apply Hfresh. congruence.
Qed.

(** A region is created. *)
Lemma regions_ok_region st (tg : option (TermTarget T)) w :
  regions_ok w → multis w !! st = None →
  regions_ok (set_multis (<[st := MultiState.new tg]> (multis w)) w).
Proof.
  intros Hok Hst. apply (regions_ok_sim w); [done| | |by eauto]; cbn [set_multis multis].
  - intros st' ms' Hms'. destruct (decide (st' = st)) as [->|Hne].
    + rewrite lookup_insert_eq in Hms'. injection Hms' as <-. rewrite Hst. apply region_wf_new.
    + rewrite lookup_insert_ne in Hms' by done. by rewrite Hms'.
  - intros st' Hst'. destruct (decide (st' = st)) as [->|Hne];
      [by rewrite lookup_insert_eq|by rewrite lookup_insert_ne].
Qed.

(** A bar is created with a target that is no slot of a region. *)
Lemma regions_ok_bar l c bs w :
  regions_ok w → data <$> value c = Some bs →
  ProgressDrawTarget.remote (draw_target bs) = None →
  regions_ok (set_bars (<[l := c]> (bars w)) w).
Proof.
  intros Hok Hc Hrem. apply (regions_ok_sim w); [done| | |]; cbn [set_bars multis].
  - intros st ms' ->. done.
  - done.
  - intros l' b' st idx Hp' Ht'. exists b'. split; [|done].
    unfold Arc.peek, Arc.mutex_of in *. cbn [set_bars bars] in Hp'.
    destruct (decide (l' = l)) as [->|Hne]; [|by rewrite lookup_insert_ne in Hp'].
    rewrite lookup_insert_eq in Hp'. cbn in Hp'. rewrite Hc in Hp'. injection Hp' as <-.
    by rewrite Ht' in Hrem.
Qed.

End inv_facts.

(** [MultiProgress::remove] frees the slot of the bar and leaves the bar
    its target: the invariant does not survive it.  In the region world,
    once the demo bar is removed its target is a slot that is free. *)
Lemma remove_leaves_target :
  ¬ regions_ok (MultiProgress.remove (mkMultiProgress 0) demo_pb region_world).2.
Proof.
  intros [_ Hatt _]. destruct (Hatt 0%nat region_bar 0%nat 0%nat) as (ms & Hms & Hocc);
    [by vm_compute..|].
  vm_compute in Hms. injection Hms as <-. by destruct Hocc as [? [=]].
Qed.
