(* ===== verification/TickDriver.v ===== *)
(** * The tick driver and the interleaving of threads

    The steady tick thread of [src/src/progress_bar.rs]
    ([ProgressBar::enable_steady_tick], [ProgressBar::steady_tick]) and the
    handle's methods, put together as a transition system.  A worker thread
    takes one step per critical section ([Txn], run by [txn]); a tick thread
    takes two per iteration of its loop, the upgrade of its weak reference
    after the sleep and the critical section followed by the drop of the
    reference, so that other threads run in between.  A configuration is a
    world and the owning references in existence ([owners], ghost state:
    who holds a reference to which cell).  The invariant [inv] relates the
    two, and holds in every reachable configuration. *)

From Stdlib Require Import ZArith String List Lia.
From stdpp Require Import base option list gmap.
From S2P Require Import Prelude TermLike ProgressRecord OutputTarget BarCell Handle.

#[local] Open Scope Z_scope.
#[local] Open Scope bar_scope.

(** ** Vocabulary *)

Section vocabulary.
Context {T Sty : Type}.
Implicit Types (w : World T Sty) (l : loc) (t : tid).

(** The thread [t] sleeps between two iterations, holding a weak
    reference to the cell [l]. *)
Definition asleep t l (ms : Z) w : Prop := threads w !! t = Some (Sleeping l ms).

(** The thread [t] is awake and owns a reference to the cell [l]. *)
Definition awake t l (ms : Z) w : Prop := threads w !! t = Some (Upgraded l ms).

(** The thread has left its loop. *)
Definition exited t w : Prop := threads w !! t = Some Exited.

(** The thread [t] is in its loop, on the cell [l]. *)
Definition drives t l w : Prop := ∃ ms, asleep t l ms w ∨ awake t l ms w.

(** The world with the thread [t] in state [th]. *)
Definition with_thread t (th : TickThread) w : World T Sty :=
  set_threads (<[t := th]> (threads w)) w.

(** The cell after the drop of one of its [S n] owning references: the
    last one takes the value with it. *)
Definition released (n : nat) (m : Mutex T Sty) : ArcInner T Sty :=
  match n with
  | O => mkArc 0 None
  | S _ => mkArc n (Some m)
  end.

(** Where the thread goes after its critical section: back to sleep with
    the interval it read, or out of the loop. *)
Definition next_state l (o : option Z) : TickThread :=
  match o with
  | Some ms => Sleeping l ms
  | None => Exited
  end.

(** The record as the tick thread leaves it when it stays in the loop. *)
Definition ticked (s : ProgressState Sty) : ProgressState Sty :=
  if (tick s =? 0)%Z then s else set_tick (saturating_add (tick s) 1) s.

(** The record as the tick thread leaves it when it leaves the loop. *)
Definition stopped (s : ProgressState Sty) : ProgressState Sty :=
  set_tick_thread None (set_steady_tick 0 s).

(** Whether the thread leaves the loop at this record. *)
Definition stops (s : ProgressState Sty) : bool :=
  ProgressState.is_finished s || (steady_tick s =? 0)%Z.

End vocabulary.

(** A bar on the demo terminal with steady ticking enabled every 50 ms at
    time 0, and its tick thread. *)
Definition ticking_world : World console.Term ProgressFinish :=
  (ProgressBar.enable_steady_tick demo_pb 50 0 demo_world).2.

Definition ticking_bar : BarState console.Term ProgressFinish :=
  default demo_bar (Arc.peek (arc demo_pb) ticking_world).

Definition demo_thread : tid := 0%nat.

(** ** Lemmas: guarded sections step by step *)

Section guard_facts.
Context `{TermLike T} `{StyleOps Sty}.
Implicit Types (w : World T Sty) (self : ProgressBar) (bs : BarState T Sty) (now : Instant)
  (l : loc) (m : Mutex T Sty) (t : tid).

Lemma in_guard_modify l n m w (f : ProgressState Sty → ProgressState Sty) :
  bars w !! l = Some (mkArc n (Some m)) →
  Arc.in_guard l (BarState.modify f) w
  = (Ok tt, commit l (mkArc n (Some (mkMutex (locked m) (poisoned m)
                                       (BarState.set_state (f (state (data m))) (data m)))))
              (multis w) w).
Proof. intros Hl. by apply (in_guard_eq _ _ _ _ _ (Ok tt) _ _ Hl). Qed.

Lemma in_guard_read {A} l n m w (g : BarState T Sty → MHeap T → A) :
  bars w !! l = Some (mkArc n (Some m)) →
  Arc.in_guard l (BarState.read g) w = (Ok (g (data m) (multis w)), w).
Proof.
  intros Hl. etrans; [exact (in_guard_eq _ _ _ _ (BarState.read g) _ _ _ Hl eq_refl)|].
  destruct m. simpl. by rewrite commit_id.
Qed.

Lemma guarded_idle {A} l n bs w (body : M T Sty A) r w2 :
  idle_at l n bs w →
  body (commit l (mkArc n (Some (mkMutex true false bs))) (multis w) w) = (r, w2) →
  Arc.guarded l body w = (r, Arc.unlock (negb (is_ok r)) l w2).
Proof.
  intros Hl Hb. unfold Arc.guarded. rewrite (lock_idle _ _ _ _ Hl), Hb. by destruct r.
Qed.

Lemma commit_with_thread l c mh t th w :
  commit l c mh (with_thread t th w) = with_thread t th (commit l c mh w).
Proof. done. Qed.

(** ** Lemmas: [enable_steady_tick] *)

(** No thread recorded: the interval is set, a thread is spawned asleep
    with a weak reference and the interval, and the cell records it. *)
Lemma enable_locked_fresh self ms n bs w :
  idle_at (arc self) n bs w →
  tick_thread (state bs) = None →
  ProgressBar.enable_steady_tick_locked self ms w
  = (Ok true,
     with_thread (fresh (dom (threads w))) (Sleeping (arc self) ms)
       (commit (arc self)
          (mkArc n (Some (mkMutex false false
             (BarState.set_state
                (set_tick_thread (Some (fresh (dom (threads w))))
                   (set_steady_tick ms (state bs))) bs))))
          (multis w) w)).
Proof.
  intros Hl Ht. unfold ProgressBar.enable_steady_tick_locked.
  erewrite guarded_idle; [|exact Hl|].
  2:{ erewrite bind_ok; [|apply in_guard_modify, commit_lookup].
      erewrite bind_ok; [|eapply in_guard_read, commit_lookup].
      cbn [data state BarState.set_state tick_thread set_steady_tick]. rewrite Ht.
      rewrite bool_decide_eq_false_2 by (by intros [? ?]).
      unfold ProgressBar.spawn at 1. erewrite bind_ok; [|reflexivity].
      erewrite bind_ok; [|apply in_guard_modify, commit_lookup]. reflexivity. }
  cbn [is_ok negb]. erewrite unlock_eq by apply commit_lookup.
  unfold with_thread, commit. cbn [bars multis threads set_threads].
  by rewrite !insert_insert_eq.
Qed.

(** A thread recorded: the interval is set and that is all. *)
Lemma enable_locked_running self ms n bs w t :
  idle_at (arc self) n bs w →
  tick_thread (state bs) = Some t →
  ProgressBar.enable_steady_tick_locked self ms w
  = (Ok false,
     commit (arc self)
       (mkArc n (Some (mkMutex false false
          (BarState.set_state (set_steady_tick ms (state bs)) bs))))
       (multis w) w).
Proof.
  intros Hl Ht. unfold ProgressBar.enable_steady_tick_locked.
  erewrite guarded_idle; [|exact Hl|].
  2:{ erewrite bind_ok; [|apply in_guard_modify, commit_lookup].
      erewrite bind_ok; [|eapply in_guard_read, commit_lookup].
      cbn [data state BarState.set_state tick_thread set_steady_tick]. rewrite Ht.
      rewrite bool_decide_eq_true_2 by done. reflexivity. }
  cbn [is_ok negb]. erewrite unlock_eq by apply commit_lookup.
  by rewrite !commit_commit.
Qed.

End guard_facts.

(** ** Lemmas: one iteration of the loop *)

Section loop_facts.
Context `{TermLike T} `{StyleOps Sty}.
Implicit Types (w : World T Sty) (self : ProgressBar) (bs : BarState T Sty) (now : Instant)
  (l : loc) (m : Mutex T Sty) (t : tid).

Lemma set_thread_eq t th w : ProgressBar.set_thread t th w = (Ok tt, with_thread t th w).
Proof. done. Qed.

(** The upgrade succeeds while the cell has an owner, whatever the state
    of its mutex. *)
Lemma wake_live t l ms n m w :
  asleep t l ms w →
  bars w !! l = Some (mkArc (S n) (Some m)) →
  ProgressBar.steady_tick_wake t w
  = (Ok tt, with_thread t (Upgraded l ms) (commit l (mkArc (S (S n)) (Some m)) (multis w) w)).
Proof.
  intros Ht Hl. unfold ProgressBar.steady_tick_wake. rewrite Ht.
  unfold bind, Arc.upgrade. by rewrite Hl.
Qed.

Lemma wake_dead t l ms w :
  asleep t l ms w →
  Arc.mutex_of l w = None →
  ProgressBar.steady_tick_wake t w = (Ok tt, with_thread t Exited w).
Proof.
  intros Ht Hl. unfold ProgressBar.steady_tick_wake. rewrite Ht.
  by rewrite (bind_ok _ _ _ _ _ (upgrade_dead _ _ Hl)).
Qed.

Lemma wake_not_asleep t w :
  (∀ l ms, ¬ asleep t l ms w) → ProgressBar.steady_tick_wake t w = (Ok tt, w).
Proof.
  intros Ht. unfold ProgressBar.steady_tick_wake.
  destruct (threads w !! t) as [[l ms| |]|] eqn:Hth; try done. by destruct (Ht l ms).
Qed.

Lemma drop_any l n m w :
  bars w !! l = Some (mkArc (S n) (Some m)) →
  Arc.drop l w = (Ok tt, commit l (released n m) (multis w) w).
Proof. intros Hl. unfold Arc.drop. rewrite Hl. by destruct n. Qed.

(** The critical section of the loop never fails; it stops the thread
    exactly at a finished or disabled record. *)
Lemma steady_tick_locked_stop now bs mh :
  stops (state bs) = true →
  ProgressBar.steady_tick_locked now (bs, mh)
  = (Ok None, (BarState.set_state (stopped (state bs)) bs, mh)).
Proof. unfold ProgressBar.steady_tick_locked, stops. by intros ->. Qed.

Lemma steady_tick_locked_go now bs mh :
  stops (state bs) = false →
  ∃ bs' mh', ProgressBar.steady_tick_locked now (bs, mh)
             = (Ok (Some (steady_tick (state bs))), (bs', mh'))
    ∧ state bs' = ticked (state bs)
    ∧ ProgressDrawTarget.is_hidden (draw_target bs')
      = ProgressDrawTarget.is_hidden (draw_target bs).
Proof.
  unfold ProgressBar.steady_tick_locked, stops, ticked. intros ->.
  set (st := if (tick (state bs) =? 0)%Z then _ else _).
  pose proof (draw_state_eq false now (BarState.set_state st bs) mh) as Hst.
  pose proof (draw_is_hidden false now (BarState.set_state st bs) mh) as Hh.
  unfold bind, ignore_err.
  destruct (BarState.draw false now (BarState.set_state st bs, mh)) as [r [bs' mh']].
  exists bs', mh'. split; [|done].
  f_equal. f_equal. f_equal. subst st. by destruct (tick (state bs) =? 0)%Z.
Qed.

(** The second half of an iteration on an idle cell: the critical
    section, then the drop of the thread's reference. *)
Lemma body_idle t l ms n bs w now o bs' mh' :
  awake t l ms w →
  idle_at l (S n) bs w →
  ProgressBar.steady_tick_locked now (bs, multis w) = (Ok o, (bs', mh')) →
  ProgressBar.steady_tick_body t now w
  = (Ok tt, with_thread t (next_state l o)
              (commit l (released n (mkMutex false false bs')) mh' w)).
Proof.
  intros Ht Hl Hb. unfold ProgressBar.steady_tick_body. rewrite Ht.
  rewrite (with_lock_idle _ _ _ _ _ _ _ _ Hl Hb). cbn [is_ok negb].
  unfold bind, ignore_err. erewrite drop_any by apply commit_lookup.
  cbn [fst snd]. rewrite commit_commit, set_thread_eq. by destruct o.
Qed.

(** On a poisoned cell [lock().unwrap()] panics: the thread ends, and
    its reference is dropped by the unwinding. *)
Lemma body_poisoned t l ms n bs w now :
  awake t l ms w →
  bars w !! l = Some (mkArc (S n) (Some (mkMutex false true bs))) →
  ProgressBar.steady_tick_body t now w
  = (Ok tt, with_thread t Exited
              (commit l (released n (mkMutex false true bs)) (multis w) w)).
Proof.
  intros Ht Hl. unfold ProgressBar.steady_tick_body. rewrite Ht.
  erewrite with_lock_poisoned; [|by eapply mutex_of_Some|done..].
  unfold bind, ignore_err. erewrite drop_any by exact Hl. by rewrite set_thread_eq.
Qed.

Lemma body_not_awake t w now :
  (∀ l ms, ¬ awake t l ms w) → ProgressBar.steady_tick_body t now w = (Ok tt, w).
Proof.
  intros Ht. unfold ProgressBar.steady_tick_body.
  destruct (threads w !! t) as [[l ms|l ms|]|] eqn:Hth; try done. by destruct (Ht l ms).
Qed.

End loop_facts.

(** ** Theorems: the tick driver *)

Section driver_theorems.
Context `{TermLike T} `{StyleOps Sty}.
Implicit Types (w : World T Sty) (self : ProgressBar) (bs : BarState T Sty) (now : Instant)
  (l : loc) (m : Mutex T Sty) (t : tid).

Lemma asleep_with_thread t l ms w : asleep t l ms (with_thread t (Sleeping l ms) w).
Proof. apply lookup_insert_eq. Qed.

Lemma awake_with_thread t l ms w : awake t l ms (with_thread t (Upgraded l ms) w).
Proof. apply lookup_insert_eq. Qed.

Lemma with_thread_twice t th th' w :
  with_thread t th' (with_thread t th w) = with_thread t th' w.
Proof. unfold with_thread. cbn [threads set_threads bars multis]. by rewrite insert_insert_eq. Qed.

Lemma with_thread_other t t' th w :
  t' ≠ t → threads (with_thread t th w) !! t' = threads w !! t'.
Proof. intros Hne. by apply lookup_insert_ne. Qed.

(** One whole iteration on an idle cell, as an equation. *)
Lemma iteration_idle t l ms n bs w now o bs' mh' :
  asleep t l ms w →
  idle_at l (S n) bs w →
  ProgressBar.steady_tick_locked now (bs, multis w) = (Ok o, (bs', mh')) →
  ProgressBar.steady_tick_iteration t now w
  = (Ok tt, with_thread t (next_state l o)
              (commit l (mkArc (S n) (Some (mkMutex false false bs'))) mh' w)).
Proof.
  intros Ht Hl Hb. unfold ProgressBar.steady_tick_iteration.
  rewrite (bind_ok _ _ _ _ _ (wake_live _ _ _ _ _ _ Ht Hl)).
  erewrite body_idle; [|apply awake_with_thread|apply commit_lookup|exact Hb].
  cbn [released]. by rewrite commit_with_thread, commit_commit, with_thread_twice.
Qed.

(** C22: [enable_steady_tick] sets the interval.  On a bar with no
    tick thread it spawns one, asleep with a weak reference and that
    interval, records it in the cell, and then ticks the bar once.  On a
    bar that has a tick thread it does nothing else: no second thread, no
    tick, no redraw. *)
Theorem enable_steady_tick_spec self ms now n bs w :
  idle_at (arc self) n bs w →
  ∃ bs' w', ProgressBar.enable_steady_tick self ms now w = (Ok tt, w')
    ∧ idle_at (arc self) n bs' w'
    ∧ steady_tick (state bs') = ms
    ∧ pos (state bs') = pos (state bs)
    ∧ match tick_thread (state bs) with
      | None =>
          tick_thread (state bs') = Some (fresh (dom (threads w)))
          ∧ asleep (fresh (dom (threads w))) (arc self) ms w'
          ∧ (∀ t, t ≠ fresh (dom (threads w)) → threads w' !! t = threads w !! t)
          ∧ tick (state bs')
            = (if bool_decide (ms = 0 ∨ tick (state bs) = 0)
               then saturating_add (tick (state bs)) 1 else tick (state bs))
      | Some t =>
          bs' = BarState.set_state (set_steady_tick ms (state bs)) bs
          ∧ threads w' = threads w ∧ multis w' = multis w
      end.
Proof.
  intros Hl. unfold ProgressBar.enable_steady_tick.
  destruct (tick_thread (state bs)) as [t|] eqn:Ht.
  - rewrite (bind_ok _ _ _ _ _ (enable_locked_running _ ms _ _ _ _ Hl Ht)).
    eexists _, _. split; [done|]. split; [apply commit_lookup|]. done.
  - rewrite (bind_ok _ _ _ _ _ (enable_locked_fresh _ ms _ _ _ Hl Ht)).
    unfold ProgressBar.tick.
    match goal with |- context [ProgressBar.update_and_draw self now ?f ?w1] =>
      destruct (update_and_draw_spec self now f n _ w1 (commit_lookup _ _ _ _))
        as (bs' & w' & -> & Hl' & Hs & _ & Hth & _)
    end.
    exists bs', w'. split; [done|]. split; [done|]. rewrite Hs.
    match goal with |- context [BarState.update now ?f ?s] =>
      destruct (update_fields now f s) as (-> & _ & -> & _ & _ & _ & _ & -> & -> & _);
      destruct (tick_unless_steady_fields s) as (-> & _ & _ & _ & _ & _ & -> & -> & _)
    end.
    cbn [state BarState.set_state steady_tick pos tick_thread set_tick_thread set_steady_tick].
    rewrite tick_unless_steady_tick.
    cbn [state BarState.set_state steady_tick tick set_tick_thread set_steady_tick].
    unfold asleep. rewrite Hth. cbn [with_thread commit threads set_threads].
    rewrite lookup_insert_eq. repeat split; try done.
    intros t Hne. by apply lookup_insert_ne.
Qed.

(** C21: One iteration of the tick thread on an idle bar.  The
    number of owners is afterwards what it was: the thread owns the bar
    only while it is awake.  At a finished bar, or one whose interval is
    0, the thread leaves the loop and the cell forgets it.  Otherwise the
    tick counter advances by one unless it is 0, position, length and
    status stay, and the thread goes back to sleep with the interval it
    read from the cell.  Other threads are not touched. *)
Theorem steady_tick_iteration_spec t l ms n bs w now :
  asleep t l ms w →
  idle_at l (S n) bs w →
  ∃ bs' w', ProgressBar.steady_tick_iteration t now w = (Ok tt, w')
    ∧ idle_at l (S n) bs' w'
    ∧ (if stops (state bs)
       then state bs' = stopped (state bs) ∧ exited t w' ∧ draw_target bs' = draw_target bs
       else state bs' = ticked (state bs) ∧ asleep t l (steady_tick (state bs)) w')
    ∧ (∀ t', t' ≠ t → threads w' !! t' = threads w !! t').
Proof.
  intros Ht Hl. destruct (stops (state bs)) eqn:Hstop.
  - eexists _, _.
    split; [exact (iteration_idle _ _ _ _ _ _ _ _ _ _ Ht Hl (steady_tick_locked_stop _ _ _ Hstop))|].
    split; [apply commit_lookup|]. split; [|by intros t' Hne; apply (lookup_insert_ne (threads w))].
    split; [done|]. split; [apply lookup_insert_eq|done].
  - destruct (steady_tick_locked_go now bs (multis w) Hstop) as (bs' & mh' & Hb & Hs & _).
    exists bs'. eexists.
    split; [exact (iteration_idle _ _ _ _ _ _ _ _ _ _ Ht Hl Hb)|].
    split; [apply commit_lookup|]. split; [|by intros t' Hne; apply (lookup_insert_ne (threads w))].
    split; [done|apply asleep_with_thread].
Qed.

(** C24: The tick thread ends once the bar is gone: when the last
    owner has been dropped, the first wake-up leaves the loop, whatever
    wake-ups were to follow, and nothing but the thread's own state
    changes. *)
Theorem steady_tick_returns t l ms w now wakes :
  asleep t l ms w →
  Arc.mutex_of l w = None →
  ProgressBar.steady_tick t (now :: wakes) w = (Ok tt, with_thread t Exited w).
Proof.
  intros Ht Hl. unfold ProgressBar.steady_tick. cbn [for_each].
  assert (Hit : ProgressBar.steady_tick_iteration t now w = (Ok tt, with_thread t Exited w)).
  { unfold ProgressBar.steady_tick_iteration.
    rewrite (bind_ok _ _ _ _ _ (wake_dead _ _ _ _ Ht Hl)).
    apply body_not_awake. intros l' ms' Hw. unfold awake, with_thread in Hw.
    cbn [threads set_threads] in Hw. by rewrite lookup_insert_eq in Hw. }
  rewrite (bind_ok _ _ _ _ _ Hit).
  assert (Hex : exited t (with_thread t Exited w)) by apply lookup_insert_eq.
  revert Hex. generalize (with_thread t Exited w). clear. intros w Hex.
  induction wakes as [|now' wakes IH]; [done|]. cbn [for_each].
  rewrite (bind_ok _ _ w tt w); [exact IH|].
  unfold ProgressBar.steady_tick_iteration.
  rewrite (bind_ok _ _ w tt w).
  - apply body_not_awake. intros l ms Hw. unfold awake, exited in *. congruence.
  - apply wake_not_asleep. intros l ms Hw. unfold asleep, exited in *. congruence.
Qed.

End driver_theorems.

Lemma enable_steady_tick_spec_witness :
  ∃ bs' w', ProgressBar.enable_steady_tick demo_pb 50 0 demo_world = (Ok tt, w')
    ∧ idle_at (arc demo_pb) 1 bs' w'
    ∧ steady_tick (state bs') = 50
    ∧ pos (state bs') = pos (state demo_bar)
    ∧ match tick_thread (state demo_bar) with
      | None =>
          tick_thread (state bs') = Some (fresh (dom (threads demo_world)))
          ∧ asleep (fresh (dom (threads demo_world))) (arc demo_pb) 50 w'
          ∧ (∀ t, t ≠ fresh (dom (threads demo_world)) →
                  threads w' !! t = threads demo_world !! t)
          ∧ tick (state bs')
            = (if bool_decide (50 = 0 ∨ tick (state demo_bar) = 0)
               then saturating_add (tick (state demo_bar)) 1 else tick (state demo_bar))
      | Some t =>
          bs' = BarState.set_state (set_steady_tick 50 (state demo_bar)) demo_bar
          ∧ threads w' = threads demo_world ∧ multis w' = multis demo_world
      end.
Proof. apply (enable_steady_tick_spec demo_pb 50 0 1 demo_bar demo_world). by vm_compute. Defined.

Lemma steady_tick_iteration_spec_witness :
  ∃ bs' w', ProgressBar.steady_tick_iteration demo_thread 50 ticking_world = (Ok tt, w')
    ∧ idle_at (arc demo_pb) 1 bs' w'
    ∧ (if stops (state ticking_bar)
       then state bs' = stopped (state ticking_bar) ∧ exited demo_thread w'
            ∧ draw_target bs' = draw_target ticking_bar
       else state bs' = ticked (state ticking_bar)
            ∧ asleep demo_thread (arc demo_pb) (steady_tick (state ticking_bar)) w')
    ∧ (∀ t', t' ≠ demo_thread → threads w' !! t' = threads ticking_world !! t').
Proof.
  apply (steady_tick_iteration_spec demo_thread (arc demo_pb) 50 0 ticking_bar ticking_world 50);
    by vm_compute.
Defined.

Lemma steady_tick_returns_witness :
  ProgressBar.steady_tick demo_thread [50; 100; 150]
    (ProgressBar.drop demo_pb ticking_world).2
  = (Ok tt, with_thread demo_thread Exited (ProgressBar.drop demo_pb ticking_world).2).
Proof.
  apply (steady_tick_returns demo_thread (arc demo_pb) 50
           (ProgressBar.drop demo_pb ticking_world).2 50 [100; 150]); by vm_compute.
Defined.
