(* ===== verification/Schedule.v ===== *)
(** * Workers, tick threads and the bars they share

    The methods of the handle and the steps of the tick threads as a
    transition system over configurations.  A transaction ([Txn]) is what a
    worker thread does in one critical section of a method of
    [src/src/progress_bar.rs]; [txn] runs it.  A configuration is a world
    together with the owning references in existence ([owners]), which is
    ghost state: Rust's ownership decides who may drop a reference, and
    the world itself records only how many there are.  [step] has one rule
    per way the program moves, the creation of a region and the addition
    of a bar to one included; [inv] is the invariant that relates the
    counts, the mutexes and the tick threads, [regions_ok] (of
    [RegionInv.v]) the one that relates the bars and the regions, and
    every reachable configuration satisfies both.

    Two things a program can do are left out of [step].  A caller cannot
    make a target that is a slot of a region ([public], [detached]): in
    the crate only [MultiProgress] does.  And [MultiProgress::remove] is
    not a step: it frees the slot of a bar that keeps its target, which
    [regions_ok] forbids ([remove_leaves_target] in [RegionInv.v]). *)

From Stdlib Require Import ZArith String List Lia.
From stdpp Require Import base option list gmap.
From S2P Require Import Prelude TermLike ProgressRecord OutputTarget BarCell Handle Region RegionInv TickDriver.

#[local] Open Scope Z_scope.
#[local] Open Scope bar_scope.

(** ** Owners *)

(** Who holds an owning reference: a worker thread (through a handle or a
    wrapper around one), or a tick thread that is awake. *)
Inductive owner : Type :=
| Worker
| Driver (t : tid).

#[global] Instance owner_eq_dec : EqDecision owner.
Proof. solve_decision. Defined.

(** The references to the cell [l] among [os]. *)
Definition owned (l : loc) (os : list (owner * loc)) : nat :=
  length (filter (λ x, x.2 = l) os).

(** The references [o] holds to the cell [l]. *)
Definition holds (o : owner) (l : loc) (os : list (owner * loc)) : nat :=
  length (filter (λ x, x = (o, l)) os).

(** [os] without the first reference equal to [x]. *)
Fixpoint forget (x : owner * loc) (os : list (owner * loc)) : list (owner * loc) :=
  match os with
  | [] => []
  | y :: os' => if decide (y = x) then os' else y :: forget x os'
  end.

Section schedule.
Context `{TermLike T} `{StyleOps Sty}.
Implicit Types (w : World T Sty) (self : ProgressBar) (now : Instant) (l : loc) (t : tid)
  (os : list (owner * loc)).

(** ** Transactions *)

(** One constructor per critical section a worker can run on a bar.
    [reset] is [TResetEta], [TResetElapsed], [TResetFields] in a row;
    [enable_steady_tick] is [TEnableSteadyTick] followed, when it spawned,
    by [TTick]; [disable_steady_tick] the same with the interval 0.
    [TSuspend] is [suspend] with a thunk that returns, or panics with the
    given payload, without touching any bar. *)
Inductive Txn : Type :=
| TInc (delta : Z)
| TSetPosition (pos : Z)
| TSetLength (len : Z)
| TIncLength (delta : Z)
| TSetPrefix (prefix : string)
| TSetMessage (msg : string)
| TTick
| TPrintln (msg : string)
| TResetEta
| TResetElapsed
| TResetFields
| TFinish
| TFinishAtCurrentPos
| TFinishWithMessage (msg : string)
| TFinishAndClear
| TAbandon
| TAbandonWithMessage (msg : string)
| TFinishUsingStyle
| TSetStyle (style : Sty)
| TWithPrefix (prefix : string)
| TWithMessage (msg : string)
| TWithPosition (pos : Z)
| TWithElapsed (elapsed : Duration)
| TSetDrawTarget (target : ProgressDrawTarget T)
| TEnableSteadyTick (ms : Z)
| TSuspend (outcome : option string).

(** The arguments are [u64] values. *)
Definition in_range (x : Txn) : Prop :=
  match x with
  | TInc v | TSetPosition v | TSetLength v | TIncLength v | TWithPosition v
  | TEnableSteadyTick v => is_u64 v
  | _ => True
  end.

(** The targets a caller can make are terminals and the hidden one: a
    slot of a region is made by [MultiProgress] only. *)
Definition public (target : ProgressDrawTarget T) : Prop :=
  ProgressDrawTarget.remote target = None.

Definition detached (x : Txn) : Prop :=
  match x with
  | TSetDrawTarget target => public target
  | _ => True
  end.

(** The thunk of [TSuspend]. *)
Definition thunk (outcome : option string) : M T Sty unit :=
  match outcome with
  | None => ret tt
  | Some payload => throw (Panicked payload)
  end.

Definition txn self (x : Txn) now : M T Sty unit :=
  match x with
  | TInc delta => ProgressBar.inc self delta now
  | TSetPosition pos => ProgressBar.set_position self pos now
  | TSetLength len => ProgressBar.set_length self len now
  | TIncLength delta => ProgressBar.inc_length self delta now
  | TSetPrefix prefix => ProgressBar.set_prefix self prefix now
  | TSetMessage msg => ProgressBar.set_message self msg now
  | TTick => ProgressBar.tick self now
  | TPrintln msg => ProgressBar.println self msg now
  | TResetEta => ProgressBar.reset_eta self now
  | TResetElapsed => ProgressBar.reset_elapsed self now
  | TResetFields =>
      ProgressBar.update_and_draw self now (λ state, set_status InProgress (set_pos 0 state))
  | TFinish => ProgressBar.finish self now
  | TFinishAtCurrentPos => ProgressBar.finish_at_current_pos self now
  | TFinishWithMessage msg => ProgressBar.finish_with_message self msg now
  | TFinishAndClear => ProgressBar.finish_and_clear self now
  | TAbandon => ProgressBar.abandon self now
  | TAbandonWithMessage msg => ProgressBar.abandon_with_message self msg now
  | TFinishUsingStyle => ProgressBar.finish_using_style self now
  | TSetStyle style => ProgressBar.set_style self style
  | TWithPrefix prefix => ProgressBar.with_prefix self prefix ;;; ret tt
  | TWithMessage msg => ProgressBar.with_message self msg ;;; ret tt
  | TWithPosition pos => ProgressBar.with_position self pos ;;; ret tt
  | TWithElapsed elapsed => ProgressBar.with_elapsed self elapsed now ;;; ret tt
  | TSetDrawTarget target => ProgressBar.set_draw_target self target now
  | TEnableSteadyTick ms => ProgressBar.enable_steady_tick_locked self ms ;;; ret tt
  | TSuspend outcome => ProgressBar.suspend self (thunk outcome) now
  end.

(** ** Configurations and steps *)

Record Config : Type := mkConfig {
  world : World T Sty;
  owners : list (owner * loc)
}.

Definition initial : Config := mkConfig empty_world [].

(** The reference a tick thread gained by waking up, if it did. *)
Definition acquired t w w' : list (owner * loc) :=
  match threads w !! t, threads w' !! t with
  | Some (Sleeping l _), Some (Upgraded _ _) => [(Driver t, l)]
  | _, _ => []
  end.

(** The owners once the tick thread has dropped the reference it held. *)
Definition relinquished t w os : list (owner * loc) :=
  match threads w !! t with
  | Some (Upgraded l _) => forget (Driver t, l) os
  | _ => os
  end.

(** A worker creates a bar; runs a transaction on a bar it has a handle
    to, whatever the outcome; clones a handle (as the wrappers do); drops
    one; upgrades a weak handle; creates a region; adds a bar it has a
    handle to to a region, at any location.  A tick thread wakes up; or
    runs the rest of its iteration. *)
Inductive step : Config → Config → Prop :=
| step_new len target now w os pb w' :
    is_u64 len → public target →
    ProgressBar.with_draw_target len target now w = (Ok pb, w') →
    step (mkConfig w os) (mkConfig w' ((Worker, arc pb) :: os))
| step_txn pb x now w os r w' :
    (Worker, arc pb) ∈ os →
    in_range x → detached x →
    txn pb x now w = (r, w') →
    step (mkConfig w os) (mkConfig w' os)
| step_region target w os mp w' :
    MultiProgress.with_draw_target target w = (Ok mp, w') →
    step (mkConfig w os) (mkConfig w' os)
| step_add mp location pb now w os r w' :
    (Worker, arc pb) ∈ os →
    MultiProgress.internalize mp location pb now w = (r, w') →
    step (mkConfig w os) (mkConfig w' os)
| step_clone pb w os pb' w' :
    (Worker, arc pb) ∈ os →
    ProgressBar.clone pb w = (Ok pb', w') →
    step (mkConfig w os) (mkConfig w' ((Worker, arc pb') :: os))
| step_drop pb w os r w' :
    (Worker, arc pb) ∈ os →
    ProgressBar.drop pb w = (r, w') →
    step (mkConfig w os) (mkConfig w' (forget (Worker, arc pb) os))
| step_upgrade weak w os o w' :
    WeakProgressBar.upgrade weak w = (Ok o, w') →
    step (mkConfig w os)
         (mkConfig w' (match o with Some pb => (Worker, arc pb) :: os | None => os end))
| step_wake t w os w' :
    ProgressBar.steady_tick_wake t w = (Ok tt, w') →
    step (mkConfig w os) (mkConfig w' (acquired t w w' ++ os))
| step_body t now w os w' :
    ProgressBar.steady_tick_body t now w = (Ok tt, w') →
    step (mkConfig w os) (mkConfig w' (relinquished t w os)).

(** The configurations the program can be in. *)
Inductive reachable : Config → Prop :=
| reachable_initial : reachable initial
| reachable_step c c' : reachable c → step c c' → reachable c'.

(** ** The invariant *)

(** A cell is either dead, with no owner and no value, or alive, with an
    owner, its mutex released, and its counters in range. *)
Definition cell_ok (a : ArcInner T Sty) : Prop :=
  match value a with
  | None => strong a = 0%nat
  | Some m => (0 < strong a)%nat ∧ locked m = false ∧ ProgressState.wf (state (data m))
  end.

Definition is_awake t l w : bool :=
  match threads w !! t with
  | Some (Upgraded l' _) => bool_decide (l' = l)
  | _ => false
  end.

Record inv (c : Config) : Prop := mkInv {
  (** every cell is well formed; *)
  inv_cells : ∀ l a, bars (world c) !! l = Some a → cell_ok a;
  (** the strong count of a cell is the number of references to it; *)
  inv_owned : ∀ l, owned l (owners c) = from_option strong 0%nat (bars (world c) !! l);
  (** a tick thread holds one reference while it is awake, none otherwise; *)
  inv_drivers : ∀ t l, holds (Driver t) l (owners c) = if is_awake t l (world c) then 1%nat else 0%nat;
  (** a thread in its loop on a live cell is the one the cell records. *)
  inv_single : ∀ t l bs,
    drives t l (world c) → Arc.peek l (world c) = Some bs → tick_thread (state bs) = Some t;
  (** the cell of a thread in its loop has been allocated. *)
  inv_alloc : ∀ t l, drives t l (world c) → is_Some (bars (world c) !! l)
}.

(** ** What a critical section may do *)

(** A mutation of the record that leaves the recorded thread alone and
    keeps the counters in range. *)
Definition benign (f : ProgressState Sty → ProgressState Sty) : Prop :=
  ∀ s, tick_thread (f s) = tick_thread s ∧ (ProgressState.wf s → ProgressState.wf (f s)).

(** The same of a computation on the bar cell, which moreover returns
    without a panic. *)
Definition quiet {A} (body : SE (BarState T Sty * MHeap T) panic A) : Prop :=
  ∀ bs mh, ∃ r bs' mh', body (bs, mh) = (r, (bs', mh'))
    ∧ is_ok r = true
    ∧ tick_thread (state bs') = tick_thread (state bs)
    ∧ (ProgressState.wf (state bs) → ProgressState.wf (state bs')).

(** How a transaction on the cell [l] changes the world: not at all (it
    panicked before the critical section); or the guarded value of [l] is
    replaced, with the counters in range when they were, and either the
    threads and the recorded thread are as before, or the bar had no
    thread and has a new one, asleep. *)
Definition cell_update l w w' : Prop :=
  w' = w
  ∨ ∃ n bs p' bs',
      idle_at l n bs w
      ∧ bars w' = <[l := mkArc n (Some (mkMutex false p' bs'))]> (bars w)
      ∧ (ProgressState.wf (state bs) → ProgressState.wf (state bs'))
      ∧ ((threads w' = threads w ∧ tick_thread (state bs') = tick_thread (state bs))
         ∨ (tick_thread (state bs) = None
            ∧ tick_thread (state bs') = Some (fresh (dom (threads w)))
            ∧ ∃ ms, threads w' = <[fresh (dom (threads w)) := Sleeping l ms]> (threads w))).

End schedule.

Arguments Txn T Sty : clear implicits.
Arguments Config T Sty : clear implicits.

(** ** A run

    A bar is created on the demo terminal; steady ticking is enabled; the
    tick thread wakes up; the worker drops its handle, which leaves the
    thread as the only owner; the thread finishes its iteration and, with
    its reference, drops the bar, going back to sleep on a bar that is
    gone. *)
Definition run_created : Config console.Term ProgressFinish :=
  mkConfig demo_world [(Worker, arc demo_pb)].

Definition run_enabled : Config console.Term ProgressFinish :=
  mkConfig (txn demo_pb (TEnableSteadyTick 50) 0 demo_world).2 [(Worker, arc demo_pb)].

Definition run_woken : Config console.Term ProgressFinish :=
  mkConfig (ProgressBar.steady_tick_wake demo_thread (world run_enabled)).2
    [(Driver demo_thread, arc demo_pb); (Worker, arc demo_pb)].

Definition run_dropped : Config console.Term ProgressFinish :=
  mkConfig (ProgressBar.drop demo_pb (world run_woken)).2 [(Driver demo_thread, arc demo_pb)].

Definition run_ended : Config console.Term ProgressFinish :=
  mkConfig (ProgressBar.steady_tick_body demo_thread 50 (world run_dropped)).2 [].

(** Another run: after the bar a region is created on the demo terminal,
    and the bar is added to it at time 1. *)
Definition run_region : Config console.Term ProgressFinish :=
  mkConfig (MultiProgress.new demo_term demo_world).2 [(Worker, arc demo_pb)].

Definition run_added : Config console.Term ProgressFinish :=
  mkConfig region_world [(Worker, arc demo_pb)].

(** The bar's cell, and the bar, while the thread is awake. *)
Definition run_cell : ArcInner console.Term ProgressFinish :=
  default (mkArc 0 None) (bars (world run_woken) !! arc demo_pb).

Definition run_bar : BarState console.Term ProgressFinish :=
  default demo_bar (Arc.peek (arc demo_pb) (world run_woken)).

(** ** Lemmas: critical sections *)

Ltac solve_benign :=
  intros s; unfold ProgressBar.tick_unless_steady, ProgressState.wf;
  repeat case_match;
  cbn [tick_thread pos len tick steady_tick set_pos set_len set_tick set_status set_message
       set_prefix set_started set_est set_style set_steady_tick];
  (split; [done|intros (? & ? & ? & ?); repeat split; u64_lia]).

Section txn_facts.
Context `{TermLike T} `{StyleOps Sty}.
Implicit Types (w : World T Sty) (self : ProgressBar) (now : Instant) (l : loc) (t : tid)
  (bs : BarState T Sty) (mh : MHeap T) (f : ProgressState Sty → ProgressState Sty).

Lemma update_benign now f : benign f → benign (BarState.update now f).
Proof.
  intros Hf s. destruct (Hf s) as [Ht Hwf].
  destruct (update_fields now f s) as (_ & _ & _ & _ & _ & _ & _ & _ & -> & _).
  split; [done|]. intros Hs. by apply update_wf, Hwf.
Qed.

Lemma quiet_draw force_draw now : quiet (ignore_err (E' := panic) (BarState.draw force_draw now)).
Proof.
  intros bs mh. pose proof (draw_state_eq force_draw now bs mh) as Hs.
  unfold ignore_err. destruct (BarState.draw force_draw now (bs, mh)) as [r [bs' mh']].
  simpl in *. exists (Ok tt), bs', mh'. by rewrite Hs.
Qed.

Lemma quiet_update_and_draw now f : benign f → quiet (BarState.update_and_draw now f).
Proof.
  intros Hf bs mh. unfold BarState.update_and_draw.
  destruct (quiet_draw false now (BarState.set_state (BarState.update now f (state bs)) bs) mh)
    as (r & bs' & mh' & -> & Hr & Ht & Hwf).
  destruct (update_benign now f Hf (state bs)) as [Ht' Hwf'].
  exists r, bs', mh'. split; [done|]. split; [done|]. split; [by rewrite Ht|].
  intros Hs. by apply Hwf, Hwf'.
Qed.

Lemma quiet_update_and_force_draw now f :
  benign f → quiet (BarState.update_and_force_draw now f).
Proof.
  intros Hf bs mh. unfold BarState.update_and_force_draw.
  destruct (quiet_draw true now (BarState.set_state (BarState.update now f (state bs)) bs) mh)
    as (r & bs' & mh' & -> & Hr & Ht & Hwf).
  destruct (update_benign now f Hf (state bs)) as [Ht' Hwf'].
  exists r, bs', mh'. split; [done|]. split; [done|]. split; [by rewrite Ht|].
  intros Hs. by apply Hwf, Hwf'.
Qed.

Lemma quiet_modify f : benign f → quiet (T := T) (BarState.modify f).
Proof.
  intros Hf bs mh. destruct (Hf (state bs)) as [Ht Hwf].
  by exists (Ok tt), (BarState.set_state (f (state bs)) bs), mh.
Qed.

Lemma quiet_finish_using_style now : quiet (BarState.finish_using_style now).
Proof.
  intros bs mh. unfold BarState.finish_using_style.
  destruct (on_finish (style (state bs)));
    apply quiet_update_and_force_draw; solve_benign.
Qed.

Lemma quiet_println msg now : quiet (ProgressBar.println_locked msg now).
Proof.
  intros bs mh. unfold ProgressBar.println_locked.
  destruct (ProgressDrawTarget.drawable _ _ _) as [d|]; [|by eexists _, _, _].
  destruct (Drawable.set_state _ _ _) as [d' mh1].
  destruct (Drawable.draw d' mh1) as [[r tgt] mh2]. by eexists _, _, _.
Qed.

Lemma quiet_set_draw_target target now :
  quiet (Sty := Sty) (ProgressBar.set_draw_target_locked target now).
Proof. intros bs mh. by eexists _, _, _. Qed.

Lemma quiet_suspend_clear now : quiet (Sty := Sty) (ProgressBar.suspend_clear now).
Proof.
  intros bs mh. unfold ProgressBar.suspend_clear.
  destruct (ProgressDrawTarget.drawable _ _ _) as [d|]; [|by eexists _, _, _].
  destruct (Drawable.clear d mh) as [[r tgt] mh2]. by eexists _, _, _.
Qed.

(** A quiet critical section on an idle cell. *)
Lemma with_lock_quiet {A} l n bs w (body : SE (BarState T Sty * MHeap T) panic A) :
  idle_at l n bs w →
  quiet body →
  ∃ r bs' mh', Arc.with_lock l body w
               = (r, commit l (mkArc n (Some (mkMutex false false bs'))) mh' w)
    ∧ is_ok r = true
    ∧ tick_thread (state bs') = tick_thread (state bs)
    ∧ (ProgressState.wf (state bs) → ProgressState.wf (state bs')).
Proof.
  intros Hl Hq. destruct (Hq bs (multis w)) as (r & bs' & mh' & Hb & Hr & Ht & Hwf).
  exists r, bs', mh'. split; [|done].
  rewrite (with_lock_idle _ _ bs _ _ _ _ _ Hl Hb). by rewrite Hr.
Qed.

End txn_facts.

(** ** Lemmas: the effect of a transaction *)

Ltac txn_unfold :=
  cbn [txn];
  unfold ProgressBar.inc, ProgressBar.set_position, ProgressBar.set_length,
    ProgressBar.inc_length, ProgressBar.set_prefix, ProgressBar.set_message, ProgressBar.tick,
    ProgressBar.println, ProgressBar.reset_eta, ProgressBar.reset_elapsed,
    ProgressBar.finish, ProgressBar.finish_at_current_pos, ProgressBar.finish_with_message,
    ProgressBar.finish_and_clear, ProgressBar.abandon, ProgressBar.abandon_with_message,
    ProgressBar.finish_using_style, ProgressBar.set_style, ProgressBar.with_prefix,
    ProgressBar.with_message, ProgressBar.with_position, ProgressBar.with_elapsed,
    ProgressBar.set_draw_target, ProgressBar.update_and_draw,
    ProgressBar.inc_closure, ProgressBar.set_position_closure, ProgressBar.set_length_closure,
    ProgressBar.inc_length_closure, ProgressBar.set_prefix_closure,
    ProgressBar.set_message_closure, ProgressBar.reset_eta_closure,
    ProgressBar.reset_elapsed_closure, ProgressBar.reset_closure.

Ltac solve_quiet :=
  unfold BarState.finish, BarState.finish_at_current_pos, BarState.finish_with_message,
    BarState.finish_and_clear, BarState.abandon, BarState.abandon_with_message;
  first
    [ apply quiet_update_and_draw; solve_benign
    | apply quiet_update_and_force_draw; solve_benign
    | apply quiet_modify; solve_benign
    | apply quiet_println
    | apply quiet_set_draw_target
    | apply quiet_finish_using_style ].

Section txn_effect.
Context `{TermLike T} `{StyleOps Sty}.
Implicit Types (w : World T Sty) (self : ProgressBar) (now : Instant) (l : loc) (t : tid)
  (bs : BarState T Sty) (mh : MHeap T) (x : Txn T Sty).

Lemma guarded_refused {A} l w (m : M T Sty A) e :
  Arc.lock l w = (Err e, w) → Arc.guarded l m w = (Err e, w).
Proof. unfold Arc.guarded. by intros ->. Qed.

(** A cell is idle, or taking its lock panics and changes nothing. *)
Lemma lock_cases l w :
  (∃ n bs, idle_at l n bs w) ∨ (∃ e, Arc.lock l w = (Err e, w)).
Proof.
  unfold idle_at, Arc.lock, Arc.mutex_of.
  destruct (bars w !! l) as [[n [[[] [] bs]|]]|]; simpl; eauto.
Qed.

Lemma txn_refused self x now w e :
  Arc.lock (arc self) w = (Err e, w) → txn self x now w = (Err e, w).
Proof.
  intros Hlock. destruct x; txn_unfold;
    unfold ProgressBar.enable_steady_tick_locked, ProgressBar.suspend, Arc.with_lock, bind;
    by rewrite (guarded_refused _ _ _ _ Hlock).
Qed.

(** [suspend] with a thunk that touches no bar. *)
Lemma suspend_thunk_idle self outcome now n bs w :
  idle_at (arc self) n bs w →
  ∃ r bs' mh', ProgressBar.suspend self (thunk outcome) now w
               = (r, commit (arc self) (mkArc n (Some (mkMutex false (negb (is_ok r)) bs'))) mh' w)
    ∧ state bs' = state bs
    ∧ r = match outcome with None => Ok tt | Some payload => Err (Panicked payload) end
    ∧ kept (draw_target bs) (multis w) (draw_target bs') mh'.
Proof.
  intros Hl. unfold ProgressBar.suspend.
  destruct (tidy_suspend_clear now bs (multis w)) as (r1 & bs1 & mh1 & Hc & Hk1).
  pose proof (suspend_clear_ok now bs (multis w)) as Hok.
  pose proof (suspend_clear_state now bs (multis w)) as Hs1.
  rewrite Hc in Hok, Hs1. cbn [fst snd] in Hok, Hs1. subst r1.
  pose proof (draw_state_eq true now bs1 mh1) as Hs2.
  destruct (tidy_draw true now bs1 mh1) as (rd' & bs2 & mh2 & Hd' & Hk2).
  unfold ignore_err in Hd'.
  destruct (BarState.draw true now (bs1, mh1)) as [rd [bs2' mh2']] eqn:Hd. cbn [fst snd] in Hs2.
  injection Hd' as _ -> ->.
  destruct outcome as [payload|].
  - exists (Err (Panicked payload)), bs1, mh1. split; [|done].
    erewrite guarded_idle; [|exact Hl|].
    2:{ erewrite bind_ok; [|eapply in_guard_eq; [apply commit_lookup|exact Hc]].
        reflexivity. }
    cbn [is_ok negb locked poisoned]. erewrite unlock_eq by apply commit_lookup.
    by rewrite !commit_commit.
  - exists (Ok tt), bs2, mh2.
    split; [|split; [congruence|split; [done|by eapply kept_trans]]].
    erewrite guarded_idle; [|exact Hl|].
    2:{ erewrite bind_ok; [|eapply in_guard_eq; [apply commit_lookup|exact Hc]].
        cbn [thunk]. rewrite bind_ret_l.
        erewrite bind_ok; [reflexivity|].
        eapply in_guard_eq; [apply commit_lookup|].
        unfold ignore_err. cbn [data multis commit locked poisoned]. by rewrite Hd. }
    cbn [is_ok negb locked poisoned ret]. erewrite unlock_eq by apply commit_lookup.
    by rewrite !commit_commit.
Qed.

(** Every transaction on an idle cell returns or panics with the lock
    released, and changes the world as [cell_update] says. *)
Lemma txn_idle self x now n bs w :
  idle_at (arc self) n bs w →
  in_range x →
  ∃ r w', txn self x now w = (r, w') ∧ cell_update (arc self) w w'
    ∧ (r = Ok tt ∨ ∃ payload, x = TSuspend (Some payload) ∧ r = Err (Panicked payload)).
Proof.
  intros Hl Hx.
  assert (Hquiet : ∀ A (body : SE (BarState T Sty * MHeap T) panic A), quiet body →
            ∃ a w', Arc.with_lock (arc self) body w = (Ok a, w') ∧ cell_update (arc self) w w').
  { intros A body Hq.
    destruct (with_lock_quiet _ _ _ _ body Hl Hq) as ([a|e] & bs' & mh' & Heq & Hr & Ht & Hwf);
      [|done].
    eexists _, _. split; [exact Heq|]. right. exists n, bs, false, bs'. eauto 10. }
  destruct x; cbn [in_range] in Hx; txn_unfold; unfold bind;
    try (match goal with |- context [Arc.with_lock (arc self) ?body w] =>
           destruct (Hquiet _ body) as ([] & w' & Heq & Hup); [solve_quiet|];
           rewrite Heq; cbn; eexists _, _; (split; [reflexivity|]); by split; [|left]
         end).
  - (* enable_steady_tick *)
    destruct (tick_thread (state bs)) as [t|] eqn:Ht.
    + rewrite (enable_locked_running _ ms _ _ _ _ Hl Ht).
      eexists _, _. split; [done|]. split; [|by left]. right. eexists n, bs, false, _.
      split; [done|]. split; [done|]. split; [|by left].
      unfold ProgressState.wf. simpl in *. intros (? & ? & ? & ?). repeat split; u64_lia.
    + rewrite (enable_locked_fresh _ ms _ _ _ Hl Ht).
      eexists _, _. split; [done|]. split; [|by left]. right. eexists n, bs, false, _.
      split; [done|]. split; [done|]. split; [|right; eauto].
      unfold ProgressState.wf. simpl in *. intros (? & ? & ? & ?). repeat split; u64_lia.
  - (* suspend *)
    destruct (suspend_thunk_idle self outcome now n bs w Hl)
      as (r & bs' & mh' & -> & Hs & Hr & _).
    eexists _, _. split; [done|]. split.
    + right. exists n, bs, (negb (is_ok r)), bs'. rewrite Hs. eauto 10.
    + destruct outcome; eauto.
Qed.

(** The effect of a transaction, whatever the state of the cell. *)
Lemma txn_effect self x now w r w' :
  in_range x → txn self x now w = (r, w') → cell_update (arc self) w w'.
Proof.
  intros Hx Hrun. destruct (lock_cases (arc self) w) as [(n & bs & Hl)|[e Hlock]].
  - destruct (txn_idle self x now n bs w Hl Hx) as (r0 & w0 & Heq & Hup & _). congruence.
  - rewrite (txn_refused _ _ _ _ _ Hlock) in Hrun. left. congruence.
Qed.

End txn_effect.

(** ** Lemmas: counting references *)

Section owners_facts.
Implicit Types (os : list (owner * loc)) (o : owner) (l : loc) (x : owner * loc).

Lemma owned_cons o l' l os :
  owned l ((o, l') :: os) = ((if decide (l' = l) then 1 else 0) + owned l os)%nat.
Proof. unfold owned. rewrite filter_cons. simpl. by case_decide. Qed.

Lemma holds_cons x o l os :
  holds o l (x :: os) = ((if decide (x = (o, l)) then 1 else 0) + holds o l os)%nat.
Proof. unfold holds. rewrite filter_cons. by case_decide. Qed.

Lemma holds_pos o l os : (0 < holds o l os)%nat ↔ (o, l) ∈ os.
Proof.
  induction os as [|x os IH].
  - rewrite elem_of_nil. unfold holds. simpl. split; [lia|done].
  - rewrite holds_cons, elem_of_cons. case_decide as Heq.
    + split; [by left|lia].
    + rewrite Nat.add_0_l, IH. split; [by right|]. by intros [?|?].
Qed.

Lemma holds_le_owned o l os : (holds o l os ≤ owned l os)%nat.
Proof.
  induction os as [|[o' l'] os IH]; [done|].
  rewrite holds_cons, owned_cons. repeat case_decide; simplify_eq; lia.
Qed.

Lemma owned_forget o l' l os :
  (o, l') ∈ os →
  owned l os = ((if decide (l' = l) then 1 else 0) + owned l (forget (o, l') os))%nat.
Proof.
  induction os as [|[o1 l1] os IH]; [by rewrite elem_of_nil|].
  rewrite elem_of_cons. intros Hin. cbn [forget].
  destruct (decide ((o1, l1) = (o, l'))) as [Heq|Hne].
  - simplify_eq. apply owned_cons.
  - rewrite !owned_cons, IH by (by destruct Hin). lia.
Qed.

Lemma holds_forget x o l os :
  x ∈ os →
  holds o l os = ((if decide (x = (o, l)) then 1 else 0) + holds o l (forget x os))%nat.
Proof.
  induction os as [|y os IH]; [by rewrite elem_of_nil|].
  rewrite elem_of_cons. intros Hin. cbn [forget].
  destruct (decide (y = x)) as [Heq|Hne].
  - subst y. apply holds_cons.
  - rewrite !holds_cons, IH by (by destruct Hin). lia.
Qed.

End owners_facts.

(** ** Lemmas: the invariant under a change of one cell *)

Section inv_facts.
Context `{TermLike T} `{StyleOps Sty}.
Implicit Types (w : World T Sty) (l : loc) (t : tid) (os : list (owner * loc))
  (a : ArcInner T Sty) (bs : BarState T Sty).

Lemma peek_insert l a w w' :
  bars w' = <[l := a]> (bars w) → Arc.peek l w' = data <$> value a.
Proof. intros Hb. unfold Arc.peek, Arc.mutex_of. by rewrite Hb, lookup_insert_eq. Qed.

Lemma peek_insert_ne l l' a w w' :
  bars w' = <[l := a]> (bars w) → l' ≠ l → Arc.peek l' w' = Arc.peek l' w.
Proof. intros Hb Hne. unfold Arc.peek, Arc.mutex_of. by rewrite Hb, lookup_insert_ne. Qed.

(** The invariant after a step that rewrites the cell [l]: what is left
    to show concerns that cell and the threads. *)
Lemma inv_update w os w' os' l a' :
  inv (mkConfig w os) →
  bars w' = <[l := a']> (bars w) →
  cell_ok a' →
  owned l os' = strong a' →
  (∀ l', l' ≠ l → owned l' os' = owned l' os) →
  (∀ t l', holds (Driver t) l' os' = if is_awake t l' w' then 1%nat else 0%nat) →
  (∀ t bs, drives t l w' → data <$> value a' = Some bs → tick_thread (state bs) = Some t) →
  (∀ t l', l' ≠ l → drives t l' w' → drives t l' w) →
  inv (mkConfig w' os').
Proof.
  intros [Hcells Howned Hdrivers Hsingle Halloc] Hb Hok Hown Hother Hdrv Hsng Hframe.
  cbn [world owners] in *. split; cbn [world owners].
  - intros l' a. rewrite Hb. destruct (decide (l' = l)) as [->|Hne].
    + rewrite lookup_insert_eq. by intros [= <-].
    + rewrite lookup_insert_ne by done. apply Hcells.
  - intros l'. rewrite Hb. destruct (decide (l' = l)) as [->|Hne].
    + by rewrite lookup_insert_eq.
    + rewrite lookup_insert_ne by done. rewrite Hother by done. apply Howned.
  - exact Hdrv.
  - intros t l' bs Hd. destruct (decide (l' = l)) as [->|Hne].
    + rewrite (peek_insert _ _ _ _ Hb). by apply Hsng.
    + rewrite (peek_insert_ne _ _ _ _ _ Hb Hne). by apply Hsingle, Hframe.
  - intros t l' Hd. rewrite Hb. destruct (decide (l' = l)) as [->|Hne].
    + by rewrite lookup_insert_eq.
    + rewrite lookup_insert_ne by done. by apply (Halloc t), Hframe.
Qed.

Lemma is_awake_threads t l w w' : threads w' = threads w → is_awake t l w' = is_awake t l w.
Proof. unfold is_awake. by intros ->. Qed.

Lemma drives_threads t l w w' : threads w' = threads w → drives t l w' → drives t l w.
Proof. unfold drives, asleep, awake. by intros ->. Qed.

Lemma inv_initial : inv (T := T) (Sty := Sty) initial.
Proof.
  assert (Hnone : ∀ t l, ¬ drives (T := T) (Sty := Sty) t l empty_world).
  { intros t l [ms [Hd|Hd]]; unfold asleep, awake in Hd;
      cbn [threads empty_world] in Hd; by rewrite lookup_empty in Hd. }
  split; cbn [world owners initial].
  - intros l a. cbn [bars empty_world]. by rewrite lookup_empty.
  - intros l. cbn [bars empty_world]. by rewrite lookup_empty.
  - intros t l. unfold is_awake. cbn [threads empty_world]. by rewrite lookup_empty.
  - intros t l bs Hd. by destruct (Hnone t l).
  - intros t l Hd. by destruct (Hnone t l).
Qed.

End inv_facts.

(** ** Lemmas: every step keeps the invariant *)

Section inv_steps.
Context `{TermLike T} `{StyleOps Sty}.
Implicit Types (w : World T Sty) (l : loc) (t : tid) (os : list (owner * loc))
  (a : ArcInner T Sty) (bs : BarState T Sty) (self : ProgressBar).

Lemma fresh_thread_None w : threads w !! fresh (dom (threads w)) = None.
Proof. apply not_elem_of_dom, is_fresh. Qed.

(** A newly spawned thread is asleep: nobody is awake who was not, and
    the only new driver is the new thread. *)
Lemma spawn_is_awake t l l' ms w w' :
  threads w' = <[fresh (dom (threads w)) := Sleeping l ms]> (threads w) →
  is_awake t l' w' = is_awake t l' w.
Proof.
  intros Hth. unfold is_awake. rewrite Hth.
  destruct (decide (t = fresh (dom (threads w)))) as [->|Hne].
  - by rewrite lookup_insert_eq, fresh_thread_None.
  - by rewrite lookup_insert_ne.
Qed.

Lemma spawn_drives t l l' ms w w' :
  threads w' = <[fresh (dom (threads w)) := Sleeping l ms]> (threads w) →
  drives t l' w' →
  (t = fresh (dom (threads w)) ∧ l' = l) ∨ drives t l' w.
Proof.
  intros Hth (ms' & Hd). unfold drives, asleep, awake in *. rewrite Hth in Hd.
  destruct (decide (t = fresh (dom (threads w)))) as [->|Hne].
  - rewrite lookup_insert_eq in Hd. left. split; [done|]. by destruct Hd as [[= -> _]|[=]].
  - rewrite lookup_insert_ne in Hd by done. right. by exists ms'.
Qed.

Lemma inv_idle w os l n bs :
  inv (mkConfig w os) → idle_at l n bs w →
  (0 < n)%nat ∧ ProgressState.wf (state bs) ∧ owned l os = n.
Proof.
  intros Hinv Hl. destruct (inv_cells _ Hinv _ _ Hl) as (? & _ & ?).
  pose proof (inv_owned _ Hinv l) as Ho. cbn [world owners] in Ho. by rewrite Hl in Ho.
Qed.

(** A transaction of a worker. *)
Lemma inv_txn w os self (x : Txn T Sty) now r w' :
  inv (mkConfig w os) → in_range x → txn self x now w = (r, w') → inv (mkConfig w' os).
Proof.
  intros Hinv Hx Hrun.
  destruct (txn_effect _ _ _ _ _ _ Hx Hrun)
    as [->|(n & bs & p' & bs' & Hl & Hb & Hwf & Hth)]; [done|].
  destruct (inv_idle _ _ _ _ _ Hinv Hl) as (Hn & Hwfbs & Hown).
  assert (Hpeek : Arc.peek (arc self) w = Some bs).
  { unfold Arc.peek. by rewrite (mutex_of_Some _ _ _ _ Hl). }
  apply (inv_update w os w' os (arc self) _ Hinv Hb); [by split; auto|done|done|..].
  - intros t l'. rewrite (inv_drivers _ Hinv). cbn [world].
    destruct Hth as [[Hth _]|(_ & _ & ms & Hth)].
    + by rewrite (is_awake_threads _ _ _ _ Hth).
    + by rewrite (spawn_is_awake _ _ _ _ _ _ Hth).
  - intros t bs0 Hd [= <-]. destruct Hth as [[Hth ->]|(Hnone & -> & ms & Hth)].
    + apply (inv_single _ Hinv t (arc self) bs); [|exact Hpeek].
      by apply (drives_threads _ _ _ _ Hth).
    + destruct (spawn_drives _ _ _ _ _ _ Hth Hd) as [[-> _]|Hd']; [done|].
      pose proof (inv_single _ Hinv t (arc self) bs Hd' Hpeek). congruence.
  - intros t l' Hne Hd. destruct Hth as [[Hth _]|(_ & _ & ms & Hth)].
    + by apply (drives_threads _ _ _ _ Hth).
    + by destruct (spawn_drives _ _ _ _ _ _ Hth Hd) as [[_ ->]|Hd'].
Qed.

(** A cell somebody holds a reference to is alive. *)
Lemma inv_owner_live w os o l :
  inv (mkConfig w os) → (o, l) ∈ os →
  ∃ n m, bars w !! l = Some (mkArc (S n) (Some m))
    ∧ locked m = false ∧ ProgressState.wf (state (data m)) ∧ owned l os = S n.
Proof.
  intros Hinv Hin. pose proof (inv_owned _ Hinv l) as Ho. cbn [world owners] in Ho.
  pose proof (holds_le_owned o l os) as Hle. apply holds_pos in Hin.
  destruct (bars w !! l) as [[n [m|]]|] eqn:Hl; cbn in Ho; [| |lia].
  - destruct (inv_cells _ Hinv _ _ Hl) as (Hn & Hk & Hwf). cbn in Hn.
    destruct n as [|n]; [lia|]. by exists n, m.
  - pose proof (inv_cells _ Hinv _ _ Hl) as Hc. cbn in Hc. lia.
Qed.

(** A worker creates a bar. *)
Lemma inv_new w os len (target : ProgressDrawTarget T) now pb w' :
  inv (mkConfig w os) → is_u64 len →
  ProgressBar.with_draw_target len target now w = (Ok pb, w') →
  inv (mkConfig w' ((Worker, arc pb) :: os)).
Proof.
  intros Hinv Hlen. rewrite with_draw_target_eq. intros [= <- <-]. cbn [arc].
  pose proof (inv_owned _ Hinv (fresh (dom (bars w)))) as Ho. cbn [world owners] in Ho.
  rewrite (fresh_cell_None w) in Ho. cbn in Ho.
  set (l := fresh (dom (bars w))) in *.
  eapply (inv_update w os _ _ l); [exact Hinv|reflexivity|..].
  - split; [cbn; lia|]. split; [done|]. by apply wf_new.
  - rewrite owned_cons, Ho. by rewrite decide_True.
  - intros l' Hne. rewrite owned_cons. by rewrite decide_False.
  - intros t l'. rewrite holds_cons, decide_False by done. apply (inv_drivers _ Hinv).
  - intros t bs Hd _. destruct (inv_alloc _ Hinv t l Hd) as [a Ha].
    cbn [world] in Ha. subst l. by rewrite (fresh_cell_None w) in Ha.
  - done.
Qed.

(** A worker gains a reference to a live cell: a clone, an upgrade. *)
Lemma inv_gain w os l n m :
  inv (mkConfig w os) →
  bars w !! l = Some (mkArc (S n) (Some m)) →
  inv (mkConfig (set_bars (<[l := mkArc (S (S n)) (Some m)]> (bars w)) w) ((Worker, l) :: os)).
Proof.
  intros Hinv Hl. destruct (inv_cells _ Hinv _ _ Hl) as (_ & Hk & Hwf).
  pose proof (inv_owned _ Hinv l) as Ho. cbn [world owners] in Ho. rewrite Hl in Ho.
  eapply (inv_update w os _ _ l); [exact Hinv|reflexivity|..].
  - split; [cbn; lia|done].
  - rewrite owned_cons, Ho. by rewrite decide_True.
  - intros l' Hne. rewrite owned_cons. by rewrite decide_False.
  - intros t l'. rewrite holds_cons, decide_False by done. apply (inv_drivers _ Hinv).
  - intros t bs Hd [= <-]. apply (inv_single _ Hinv t l); [done|].
    unfold Arc.peek. cbn [world]. by rewrite (mutex_of_Some _ _ _ _ Hl).
  - done.
Qed.

(** The drop of one of the references to a cell. *)
Lemma inv_release w os o l n m mh :
  inv (mkConfig w os) →
  (o, l) ∈ os →
  bars w !! l = Some (mkArc (S n) (Some m)) →
  (∀ t l', holds (Driver t) l' (forget (o, l) os)
           = if is_awake t l' w then 1%nat else 0%nat) →
  inv (mkConfig (commit l (released n m) mh w) (forget (o, l) os)).
Proof.
  intros Hinv Hin Hl Hdrv. destruct (inv_cells _ Hinv _ _ Hl) as (_ & Hk & Hwf).
  pose proof (inv_owned _ Hinv l) as Ho. cbn [world owners] in Ho. rewrite Hl in Ho.
  eapply (inv_update w os _ _ l); [exact Hinv|reflexivity|..].
  - destruct n; [done|]. split; [cbn; lia|done].
  - pose proof (owned_forget o l l os Hin) as Hf. rewrite decide_True in Hf by done.
    destruct n; cbn in *; lia.
  - intros l' Hne. pose proof (owned_forget o l l' os Hin) as Hf.
    rewrite decide_False in Hf by done. lia.
  - exact Hdrv.
  - intros t bs Hd Hv. apply (inv_single _ Hinv t l); [done|].
    unfold Arc.peek. cbn [world]. rewrite (mutex_of_Some _ _ _ _ Hl).
    by destruct n.
  - done.
Qed.

(** A worker drops a handle. *)
Lemma inv_drop w os self r w' :
  inv (mkConfig w os) → (Worker, arc self) ∈ os →
  ProgressBar.drop self w = (r, w') →
  inv (mkConfig w' (forget (Worker, arc self) os)).
Proof.
  intros Hinv Hin. destruct (inv_owner_live _ _ _ _ Hinv Hin) as (n & m & Hl & _).
  unfold ProgressBar.drop. rewrite (drop_any _ _ _ _ Hl). intros [= <- <-].
  apply (inv_release _ _ _ _ _ _ _ Hinv Hin Hl). intros t l'.
  pose proof (holds_forget (Worker, arc self) (Driver t) l' os Hin) as Hf.
  rewrite decide_False in Hf by done.
  pose proof (inv_drivers _ Hinv t l') as Hd. cbn [world owners] in Hd. lia.
Qed.

(** A worker upgrades a weak handle. *)
Lemma inv_upgrade w os weak o w' :
  inv (mkConfig w os) →
  WeakProgressBar.upgrade weak w = (Ok o, w') →
  inv (mkConfig w' (match o with Some pb => (Worker, arc pb) :: os | None => os end)).
Proof.
  intros Hinv. unfold WeakProgressBar.upgrade. destruct (Handle.weak weak) as [l|].
  - unfold bind, Arc.upgrade.
    destruct (bars w !! l) as [[[|n] [m|]]|] eqn:Hl; intros [= <- <-]; try done.
    by apply inv_gain.
  - by intros [= <- <-].
Qed.

(** A worker clones a handle. *)
Lemma inv_clone w os self pb' w' :
  inv (mkConfig w os) →
  ProgressBar.clone self w = (Ok pb', w') →
  inv (mkConfig w' ((Worker, arc pb') :: os)).
Proof.
  intros Hinv. unfold ProgressBar.clone, bind, Arc.clone.
  destruct (bars w !! arc self) as [[[|n] [m|]]|] eqn:Hl; intros [= <- <-].
  by apply inv_gain.
Qed.

Lemma is_awake_with_thread t t1 l1 th w :
  is_awake t1 l1 (with_thread t th w)
  = if decide (t1 = t)
    then match th with Upgraded l' _ => bool_decide (l' = l1) | _ => false end
    else is_awake t1 l1 w.
Proof.
  unfold is_awake, with_thread. cbn [threads set_threads]. case_decide as Heq.
  - subst. by rewrite lookup_insert_eq.
  - by rewrite lookup_insert_ne.
Qed.

Lemma drives_with_thread t t1 l1 th w :
  drives t1 l1 (with_thread t th w) →
  (t1 = t ∧ ∃ ms, th = Sleeping l1 ms ∨ th = Upgraded l1 ms) ∨ (t1 ≠ t ∧ drives t1 l1 w).
Proof.
  unfold drives, asleep, awake, with_thread. cbn [threads set_threads]. intros (ms & Hd).
  destruct (decide (t1 = t)) as [->|Hne].
  - rewrite lookup_insert_eq in Hd. left. split; [done|]. exists ms.
    destruct Hd as [[= ->]|[= ->]]; auto.
  - rewrite lookup_insert_ne in Hd by done. right. split; [done|]. by exists ms.
Qed.

(** A thread that holds no reference leaves its loop. *)
Lemma inv_exit w os t l ms :
  inv (mkConfig w os) → asleep t l ms w → inv (mkConfig (with_thread t Exited w) os).
Proof.
  intros [Hcells Howned Hdrivers Hsingle Halloc] Ht. cbn [world owners] in *.
  assert (Hd : ∀ t1 l1, drives t1 l1 (with_thread t Exited w) → drives t1 l1 w).
  { intros t1 l1 Hd. by destruct (drives_with_thread _ _ _ _ _ Hd) as [[_ [? [?|?]]]|[_ ?]]. }
  split; cbn [world owners]; try done.
  - intros t1 l1. rewrite is_awake_with_thread, Hdrivers. case_decide as Heq; [|done].
    subst. unfold is_awake. by rewrite Ht.
  - intros t1 l1 bs Hd1. apply Hsingle. by apply Hd.
  - intros t1 l1 Hd1. apply (Halloc t1). by apply Hd.
Qed.

(** A tick thread wakes up. *)
Lemma inv_wake w os t w' :
  inv (mkConfig w os) →
  ProgressBar.steady_tick_wake t w = (Ok tt, w') →
  inv (mkConfig w' (acquired t w w' ++ os)).
Proof.
  intros Hinv Hrun. unfold acquired.
  destruct (threads w !! t) as [[l ms|l ms|]|] eqn:Hth;
    try (rewrite wake_not_asleep in Hrun by (unfold asleep; congruence);
         by injection Hrun as <-).
  destruct (bars w !! l) as [[[|n] [m|]]|] eqn:Hl.
  1:{ destruct (inv_cells _ Hinv _ _ Hl) as (Hn & _). cbn in Hn. lia. }
  2:{ rewrite (wake_live _ _ _ _ _ _ Hth Hl) in Hrun. injection Hrun as <-.
      cbn [with_thread threads set_threads]. rewrite lookup_insert_eq. cbn [app].
      destruct (inv_cells _ Hinv _ _ Hl) as (_ & Hk & Hwf).
      pose proof (inv_owned _ Hinv l) as Ho. cbn [world owners] in Ho. rewrite Hl in Ho.
      assert (Hpeek : Arc.peek l w = Some (data m)).
      { unfold Arc.peek. by rewrite (mutex_of_Some _ _ _ _ Hl). }
      eapply (inv_update w os _ _ l); [exact Hinv|reflexivity|..].
      - split; [cbn; lia|done].
      - rewrite owned_cons, Ho. by rewrite decide_True.
      - intros l' Hne. rewrite owned_cons. by rewrite decide_False.
      - intros t1 l1. rewrite holds_cons, is_awake_with_thread.
        pose proof (inv_drivers _ Hinv t1 l1) as Hd. cbn [world owners] in Hd.
        unfold is_awake in Hd |- *. cbn [commit threads].
        destruct (decide (t1 = t)) as [->|Hne].
        + rewrite Hth in Hd. rewrite Hd. case_bool_decide; subst.
          * by rewrite decide_True.
          * rewrite decide_False; [done|congruence].
        + rewrite decide_False by congruence. exact Hd.
      - intros t1 bs Hd [= <-]. apply (inv_single _ Hinv t1 l); [|exact Hpeek].
        destruct (drives_with_thread _ _ _ _ _ Hd) as [[-> _]|[_ Hd']]; [|done].
        exists ms. by left.
      - intros t1 l' Hne Hd.
        destruct (drives_with_thread _ _ _ _ _ Hd) as [[_ [ms' [[=]|[= -> _]]]]|[_ Hd']];
          done. }
  all: rewrite (wake_dead _ _ _ _ Hth) in Hrun
         by (unfold Arc.mutex_of; by rewrite Hl);
       injection Hrun as <-; cbn [with_thread threads set_threads];
       rewrite lookup_insert_eq; by apply (inv_exit _ _ _ l ms).
Qed.

(** The second half of an iteration: the cell is rewritten, the thread
    drops its reference and either leaves the loop or goes back to sleep
    on the same cell, the recorded thread unchanged. *)
Lemma inv_relinquish w os t l ms n p bs p' bs' mh' th' :
  inv (mkConfig w os) →
  awake t l ms w →
  bars w !! l = Some (mkArc (S n) (Some (mkMutex false p bs))) →
  (ProgressState.wf (state bs) → ProgressState.wf (state bs')) →
  th' = Exited ∨ (th' = Sleeping l (steady_tick (state bs))
                  ∧ tick_thread (state bs') = tick_thread (state bs)) →
  inv (mkConfig (with_thread t th' (commit l (released n (mkMutex false p' bs')) mh' w))
         (forget (Driver t, l) os)).
Proof.
  intros Hinv Ht Hl Hwf Hth.
  destruct (inv_cells _ Hinv _ _ Hl) as (_ & _ & Hwfbs). cbn in Hwfbs.
  pose proof (inv_owned _ Hinv l) as Ho. cbn [world owners] in Ho. rewrite Hl in Ho.
  assert (Hin : (Driver t, l) ∈ os).
  { apply holds_pos. pose proof (inv_drivers _ Hinv t l) as Hd. cbn [world owners] in Hd.
    unfold is_awake in Hd. rewrite Ht, bool_decide_eq_true_2 in Hd by done. lia. }
  assert (Hpeek : Arc.peek l w = Some bs).
  { unfold Arc.peek. by rewrite (mutex_of_Some _ _ _ _ Hl). }
  assert (Hme : ∀ bs0, Arc.peek l w = Some bs0 → tick_thread (state bs0) = Some t).
  { intros bs0. apply (inv_single _ Hinv t l). exists ms. by right. }
  eapply (inv_update w os _ _ l); [exact Hinv|reflexivity|..].
  - destruct n; [done|]. split; [cbn; lia|]. split; [done|]. by apply Hwf.
  - pose proof (owned_forget (Driver t) l l os Hin) as Hf. rewrite decide_True in Hf by done.
    destruct n; cbn in *; lia.
  - intros l' Hne. pose proof (owned_forget (Driver t) l l' os Hin) as Hf.
    rewrite decide_False in Hf by done. lia.
  - intros t1 l1. rewrite is_awake_with_thread.
    pose proof (holds_forget (Driver t, l) (Driver t1) l1 os Hin) as Hf.
    pose proof (inv_drivers _ Hinv t1 l1) as Hd. cbn [world owners] in Hd.
    unfold is_awake in Hd |- *. cbn [commit threads].
    destruct (decide (t1 = t)) as [->|Hne].
    + rewrite Ht in Hd. destruct Hth as [->|[-> _]];
        (case_bool_decide; subst;
         [rewrite decide_True in Hf by done|rewrite decide_False in Hf by congruence]; lia).
    + rewrite decide_False in Hf by congruence. lia.
  - intros t1 bs0 Hd Hv. destruct n as [|n]; [done|]. injection Hv as <-.
    destruct (drives_with_thread _ _ _ _ _ Hd) as [[-> (ms' & Hs)]|[Hne Hd']].
    + destruct Hth as [->|[-> ->]]; [by destruct Hs|]. by apply Hme.
    + pose proof (inv_single _ Hinv t1 l bs Hd' Hpeek) as H1.
      pose proof (Hme bs Hpeek) as H2. congruence.
  - intros t1 l' Hne Hd.
    destruct (drives_with_thread _ _ _ _ _ Hd) as [[-> (ms' & Hs)]|[_ Hd']]; [|done].
    destruct Hth as [->|[-> _]]; [by destruct Hs|]. by destruct Hs as [[= ->]|[=]].
Qed.

Lemma wf_stopped (s : ProgressState Sty) : ProgressState.wf s → ProgressState.wf (stopped s).
Proof. unfold ProgressState.wf, stopped. simpl. intros (? & ? & ? & ?). repeat split; u64_lia. Qed.

Lemma wf_ticked (s : ProgressState Sty) : ProgressState.wf s → ProgressState.wf (ticked s).
Proof.
  unfold ProgressState.wf, ticked. destruct (tick s =? 0)%Z; [done|]. simpl.
  intros (? & ? & ? & ?). repeat split; u64_lia.
Qed.

Lemma tick_thread_ticked (s : ProgressState Sty) : tick_thread (ticked s) = tick_thread s.
Proof. unfold ticked. by destruct (tick s =? 0)%Z. Qed.

(** A tick thread runs the rest of its iteration. *)
Lemma inv_body w os t now w' :
  inv (mkConfig w os) →
  ProgressBar.steady_tick_body t now w = (Ok tt, w') →
  inv (mkConfig w' (relinquished t w os)).
Proof.
  intros Hinv Hrun. unfold relinquished.
  destruct (threads w !! t) as [[l ms|l ms|]|] eqn:Hth;
    try (rewrite body_not_awake in Hrun by (unfold awake; congruence);
         by injection Hrun as <-).
  assert (Hin : (Driver t, l) ∈ os).
  { apply holds_pos. pose proof (inv_drivers _ Hinv t l) as Hd. cbn [world owners] in Hd.
    unfold is_awake in Hd. rewrite Hth, bool_decide_eq_true_2 in Hd by done. lia. }
  destruct (inv_owner_live _ _ _ _ Hinv Hin) as (n & [k p bs] & Hl & Hk & _).
  cbn in Hk. subst k. destruct p.
  - rewrite (body_poisoned _ _ _ _ _ _ _ Hth Hl) in Hrun. injection Hrun as <-.
    apply (inv_relinquish _ _ _ _ ms _ true bs); [done..|by left].
  - destruct (stops (state bs)) eqn:Hstop.
    + rewrite (body_idle _ _ _ _ _ _ _ _ _ _ Hth Hl (steady_tick_locked_stop _ _ _ Hstop)) in Hrun.
      injection Hrun as <-.
      apply (inv_relinquish _ _ _ _ ms _ false bs); [done..| |by left].
      apply wf_stopped.
    + destruct (steady_tick_locked_go now bs (multis w) Hstop) as (bs' & mh' & Hb & Hs & _).
      rewrite (body_idle _ _ _ _ _ _ _ _ _ _ Hth Hl Hb) in Hrun. injection Hrun as <-.
      apply (inv_relinquish _ _ _ _ ms _ false bs); [done..| |].
      * rewrite Hs. apply wf_ticked.
      * right. split; [done|]. by rewrite Hs, tick_thread_ticked.
Qed.

(** The invariant does not look at the regions. *)
Lemma inv_multis w os (mh : MHeap T) : inv (mkConfig w os) → inv (mkConfig (set_multis mh w) os).
Proof. intros [? ? ? ? ?]. by split. Qed.

(** A bar is added to a region: a slot is taken, then the target of the
    bar is replaced. *)
Lemma internalize_txn (mp : MultiProgress) location pb now w r w' :
  MultiProgress.internalize mp location pb now w = (r, w') →
  w' = w
  ∨ ∃ mh target r0, txn pb (TSetDrawTarget target) now (set_multis mh w) = (r0, w').
Proof.
  unfold MultiProgress.internalize.
  destruct (multis w !! region mp) as [ms|]; [|intros [= <- <-]; by left].
  destruct (MultiState.insert location ms) as [idx ms']. unfold bind.
  destruct (ProgressBar.set_draw_target _ _ _ _) as [r0 w0] eqn:Hrun. intros Heq.
  assert (w0 = w') as <- by (by destruct r0; injection Heq).
  right. by eexists _, _, r0.
Qed.

Lemma inv_add w os mp location pb now r w' :
  inv (mkConfig w os) →
  MultiProgress.internalize mp location pb now w = (r, w') → inv (mkConfig w' os).
Proof.
  intros Hinv [->|(mh & target & r0 & Hrun)]%internalize_txn; [done|].
  eapply (inv_txn _ os pb (TSetDrawTarget _) now r0); [|done|exact Hrun].
  by apply inv_multis.
Qed.

(** Every step keeps the invariant. *)
Lemma step_inv (c c' : Config T Sty) : inv c → step c c' → inv c'.
Proof.
  intros Hinv Hstep.
  destruct Hstep;
    eauto using inv_new, inv_txn, inv_clone, inv_drop, inv_upgrade, inv_wake, inv_body, inv_add.
  match goal with Hr : MultiProgress.with_draw_target _ _ = _ |- _ => injection Hr as _ <- end.
  by apply inv_multis.
Qed.

End inv_steps.

(** ** Lemmas: every step keeps the regions in order *)

Ltac solve_tidy :=
  unfold BarState.finish, BarState.finish_at_current_pos, BarState.finish_with_message,
    BarState.finish_and_clear, BarState.abandon, BarState.abandon_with_message;
  first
    [ apply tidy_update_and_draw
    | apply tidy_update_and_force_draw
    | apply tidy_modify
    | apply tidy_println
    | apply tidy_finish_using_style
    | apply tidy_steady_tick_locked ].

Section regions_steps.
Context `{TermLike T} `{StyleOps Sty}.
Implicit Types (w : World T Sty) (self : ProgressBar) (now : Instant) (l : loc) (t : tid)
  (bs : BarState T Sty) (x : Txn T Sty).

(** A critical section that keeps the target, whatever the state of the
    cell. *)
Lemma with_lock_regions {A} l (body : SE (BarState T Sty * MHeap T) panic A) w :
  regions_ok w → tidy body → regions_ok (Arc.with_lock l body w).2.
Proof.
  intros Hok Hb. destruct (lock_cases l w) as [(n & bs & Hl)|[e Hlock]].
  - destruct (Hb bs (multis w)) as (r & bs' & mh' & Heq & Hk).
    rewrite (with_lock_idle _ _ _ _ _ _ _ _ Hl Heq). cbn [snd].
    by apply (regions_ok_kept l _ bs bs'); [|apply (peek_idle l n)|..].
  - unfold Arc.with_lock. by rewrite (guarded_refused _ _ _ _ Hlock).
Qed.

(** The target of a bar is replaced by a slot that is occupied and not
    held, or by a target that is no slot. *)
Lemma set_draw_target_regions self (target : ProgressDrawTarget T) now w :
  regions_ok w →
  (∀ st idx, target = Remote st idx →
     (∃ ms, multis w !! st = Some ms ∧ occupied ms idx)
     ∧ ∀ l' b, Arc.peek l' w = Some b → draw_target b ≠ Remote st idx) →
  regions_ok (ProgressBar.set_draw_target self target now w).2.
Proof.
  intros Hok Hnew. destruct (lock_cases (arc self) w) as [(n & bs & Hl)|[e Hlock]].
  - rewrite (set_draw_target_idle _ _ _ _ _ _ Hl). cbn [snd].
    by apply (regions_ok_retarget _ _ bs target); [|apply (peek_idle _ n)|..].
  - unfold ProgressBar.set_draw_target, Arc.with_lock.
    by rewrite (guarded_refused _ _ _ _ Hlock).
Qed.

Lemma enable_regions self ms w :
  regions_ok w → regions_ok (ProgressBar.enable_steady_tick_locked self ms w).2.
Proof.
  intros Hok. destruct (lock_cases (arc self) w) as [(n & bs & Hl)|[e Hlock]].
  - pose proof (peek_idle _ _ _ _ Hl) as Hp.
    destruct (tick_thread (state bs)) as [t|] eqn:Ht.
    + rewrite (enable_locked_running _ ms _ _ _ _ Hl Ht). cbn [snd].
      eapply (regions_ok_kept _ _ bs); [done|exact Hp|reflexivity|apply kept_refl].
    + rewrite (enable_locked_fresh _ ms _ _ _ Hl Ht). cbn [snd].
      eapply regions_ok_thinned; [|apply thinned_threads].
      eapply (regions_ok_kept _ _ bs); [done|exact Hp|reflexivity|apply kept_refl].
  - unfold ProgressBar.enable_steady_tick_locked. by rewrite (guarded_refused _ _ _ _ Hlock).
Qed.

(** A transaction of a worker. *)
Lemma txn_regions self x now w :
  regions_ok w → detached x → regions_ok (txn self x now w).2.
Proof.
  intros Hok Hx.
  destruct x; cbn [detached] in Hx; txn_unfold; unfold bind;
    try (match goal with |- context [Arc.with_lock (arc self) ?body w] =>
           pose proof (with_lock_regions (arc self) body w Hok ltac:(solve_tidy)) as Hw;
           by destruct (Arc.with_lock (arc self) body w) as [[] ?]
         end).
  - apply (set_draw_target_regions self target now w Hok). intros st idx ->. done.
  - pose proof (enable_regions self ms w Hok) as Hw.
    by destruct (ProgressBar.enable_steady_tick_locked self ms w) as [[] ?].
  - destruct (lock_cases (arc self) w) as [(n & bs & Hl)|[e Hlock]].
    + destruct (suspend_thunk_idle self outcome now n bs w Hl)
        as (r & bs' & mh' & -> & _ & _ & Hk).
      by apply (regions_ok_kept _ _ bs bs'); [|apply (peek_idle _ n)|..].
    + unfold ProgressBar.suspend. by rewrite (guarded_refused _ _ _ _ Hlock).
Qed.

(** A bar is added to a region. *)
Lemma internalize_regions (mp : MultiProgress) location self now w :
  regions_ok w → regions_ok (MultiProgress.internalize mp location self now w).2.
Proof.
  intros Hok. unfold MultiProgress.internalize.
  destruct (multis w !! region mp) as [ms|] eqn:Hms; [|done].
  destruct (regions_ok_insert (region mp) ms location w Hok Hms) as (Hok1 & Hocc & Hfree).
  destruct (MultiState.insert location ms) as [idx ms']. cbn [fst snd] in *. unfold bind.
  match goal with |- context [ProgressBar.set_draw_target self ?tgt now ?w1] =>
    pose proof (set_draw_target_regions self tgt now w1 Hok1) as Hw;
    destruct (ProgressBar.set_draw_target self tgt now w1) as [[] w2]; apply Hw;
    by intros st0 idx0 [= <- <-]
  end.
Qed.

Lemma wake_regions t w : regions_ok w → regions_ok (ProgressBar.steady_tick_wake t w).2.
Proof.
  intros Hok. unfold ProgressBar.steady_tick_wake.
  destruct (threads w !! t) as [[l ms| |]|]; [|done..]. unfold bind.
  pose proof (thinned_upgrade l w) as Hu. destruct (Arc.upgrade l w) as [[live|e] w1]; cbn in *;
    by eapply regions_ok_thinned.
Qed.

Lemma body_regions t now w : regions_ok w → regions_ok (ProgressBar.steady_tick_body t now w).2.
Proof.
  intros Hok. unfold ProgressBar.steady_tick_body.
  destruct (threads w !! t) as [[| l ms|]|]; [done| |done..].
  pose proof (with_lock_regions l (ProgressBar.steady_tick_locked now) w Hok
                (tidy_steady_tick_locked now)) as Hw.
  destruct (Arc.with_lock l _ w) as [r w1]. cbn [snd] in Hw. unfold bind, ignore_err.
  pose proof (thinned_drop l w1) as Hd. destruct (Arc.drop l w1) as [rd w2]. cbn in *.
  by eapply regions_ok_thinned.
Qed.

Lemma initial_regions : regions_ok (world (initial (T := T) (Sty := Sty))).
Proof. split; intros *; cbn; by rewrite ?lookup_empty. Qed.

(** Every step keeps the regions in order. *)
Lemma step_regions (c c' : Config T Sty) :
  regions_ok (world c) → step c c' → regions_ok (world c').
Proof.
  intros Hok Hstep. destruct Hstep; cbn [world] in *.
  - match goal with Hr : ProgressBar.with_draw_target _ _ _ _ = _ |- _ =>
      injection Hr as _ <- end.
    by apply regions_ok_bar with (bs := mkBarState target (ProgressState.new len now)).
  - match goal with Hr : txn ?pb ?x ?now ?w = _ |- _ =>
      pose proof (txn_regions pb x now w Hok) as Hw; rewrite Hr in Hw end. auto.
  - match goal with Hr : MultiProgress.with_draw_target _ _ = _ |- _ =>
      injection Hr as _ <- end.
    apply regions_ok_region; [done|]. apply not_elem_of_dom, is_fresh.
  - match goal with Hr : MultiProgress.internalize ?mp ?loc ?pb ?now ?w = _ |- _ =>
      pose proof (internalize_regions mp loc pb now w Hok) as Hw; by rewrite Hr in Hw end.
  - match goal with Hr : ProgressBar.clone ?pb ?w = _ |- _ =>
      unfold ProgressBar.clone, bind in Hr; pose proof (thinned_clone (arc pb) w) as Hw;
      destruct (Arc.clone (arc pb) w) as [[] w1]; [|done]; injection Hr as _ <- end.
    by eapply regions_ok_thinned.
  - match goal with Hr : ProgressBar.drop ?pb ?w = _ |- _ =>
      unfold ProgressBar.drop in Hr; pose proof (thinned_drop (arc pb) w) as Hw;
      rewrite Hr in Hw end.
    by eapply regions_ok_thinned.
  - match goal with Hr : WeakProgressBar.upgrade ?wk ?w = _ |- _ =>
      unfold WeakProgressBar.upgrade, bind in Hr; destruct wk as [[l|]]; cbn in Hr;
      [pose proof (thinned_upgrade l w) as Hw;
       destruct (Arc.upgrade l w) as [[] w1]; [|done]; injection Hr as _ <-;
       by eapply regions_ok_thinned
      |by injection Hr as _ <-] end.
  - match goal with Hr : ProgressBar.steady_tick_wake ?t ?w = _ |- _ =>
      pose proof (wake_regions t w Hok) as Hw; by rewrite Hr in Hw end.
  - match goal with Hr : ProgressBar.steady_tick_body ?t ?now ?w = _ |- _ =>
      pose proof (body_regions t now w Hok) as Hw; by rewrite Hr in Hw end.
Qed.

End regions_steps.

(** ** Theorems: what holds of every reachable configuration *)

Lemma run_enabled_reachable : reachable run_enabled.
Proof.
  assert (H1 : reachable run_created).
  { apply (reachable_step initial); [constructor|].
    by apply (step_new 10 (ProgressDrawTarget.stderr demo_term) 0 empty_world [] demo_pb). }
  apply (reachable_step _ _ H1).
  apply (step_txn demo_pb (TEnableSteadyTick 50) 0 demo_world _ (Ok tt));
    [apply elem_of_cons; by left|done|done|by vm_compute].
Qed.

Lemma run_reachable : reachable run_woken ∧ reachable run_dropped ∧ reachable run_ended.
Proof.
  assert (H3 : reachable run_woken).
  { apply (reachable_step _ _ run_enabled_reachable).
    by apply (step_wake demo_thread (world run_enabled)). }
  split; [done|].
  assert (H4 : reachable run_dropped).
  { apply (reachable_step _ _ H3).
    change (step (mkConfig (world run_woken) (owners run_woken))
              (mkConfig (ProgressBar.drop demo_pb (world run_woken)).2
                 (forget (Worker, arc demo_pb) (owners run_woken)))).
    apply (step_drop demo_pb _ _ (Ok tt)); [|by vm_compute].
    apply elem_of_cons; right. apply elem_of_cons; by left. }
  split; [done|].
  apply (reachable_step _ _ H4).
  change (step (mkConfig (world run_dropped) (owners run_dropped))
            (mkConfig (ProgressBar.steady_tick_body demo_thread 50 (world run_dropped)).2
               (relinquished demo_thread (world run_dropped) (owners run_dropped)))).
  by apply (step_body demo_thread 50).
Qed.

Lemma run_added_reachable : reachable run_added.
Proof.
  assert (H1 : reachable run_created).
  { apply (reachable_step initial); [constructor|].
    by apply (step_new 10 (ProgressDrawTarget.stderr demo_term) 0 empty_world [] demo_pb). }
  assert (H2 : reachable run_region).
  { apply (reachable_step _ _ H1).
    by apply (step_region (ProgressDrawTarget.stderr demo_term) demo_world _ (mkMultiProgress 0)). }
  apply (reachable_step _ _ H2).
  apply (step_add (mkMultiProgress 0) AtEnd demo_pb 1 (world run_region) _ (Ok demo_pb));
    [apply elem_of_cons; by left|by vm_compute].
Qed.

Section reachable_theorems.
Context `{TermLike T} `{StyleOps Sty}.
Implicit Types (c : Config T Sty) (l : loc) (t : tid) (self : ProgressBar).

Lemma reachable_inv_aux c : reachable c → inv c.
Proof. induction 1; eauto using inv_initial, step_inv. Qed.

Lemma reachable_regions_aux c : reachable c → regions_ok (world c).
Proof. induction 1; eauto using initial_regions, step_regions. Qed.

(** C12: The bars and the regions stay in order, in
    every configuration the program can reach, whatever the interleaving
    of the workers (creating bars and regions, adding bars to regions at
    any location, running any method on any bar, replacing targets,
    cloning and dropping handles) and of the tick threads: the slot table
    of every region is well formed (the display order lists exactly the
    occupied slots and the free list exactly the freed ones, without
    repetition); a bar whose target is a slot of a region holds an
    occupied slot of a region that exists; and no two bars hold the same
    slot. *)
Theorem reachable_regions_ok c :
  reachable c →
  (∀ st ms, multis (world c) !! st = Some ms → region_wf ms)
  ∧ (∀ l bs st idx,
       Arc.peek l (world c) = Some bs → draw_target bs = Remote st idx →
       ∃ ms, multis (world c) !! st = Some ms ∧ occupied ms idx)
  ∧ (∀ l1 l2 bs1 bs2 st idx,
       Arc.peek l1 (world c) = Some bs1 → Arc.peek l2 (world c) = Some bs2 →
       draw_target bs1 = Remote st idx → draw_target bs2 = Remote st idx → l1 = l2).
Proof. intros Hr. by destruct (reachable_regions_aux c Hr). Qed.

Lemma owned_pos l (os : list (owner * loc)) : (0 < owned l os)%nat → ∃ o, (o, l) ∈ os.
Proof.
  induction os as [|[o l'] os IH]; [unfold owned; simpl; lia|].
  rewrite owned_cons. case_decide as Heq.
  - subst. intros _. exists o. apply elem_of_cons; by left.
  - intros Hpos. destruct IH as [o' Hin]; [lia|]. exists o'. apply elem_of_cons; by right.
Qed.

(** C9: In every configuration the program can reach, whatever the
    interleaving of workers and tick threads: the strong count of each bar
    is the number of references in existence, the handles of the workers
    and one for each tick thread that is awake; a bar with no reference
    has been dropped, and one with a reference is alive with its mutex
    released between steps; and the counters of every bar are [u64]
    values. *)
Theorem reachable_inv c l a :
  reachable c →
  bars (world c) !! l = Some a →
  strong a = owned l (owners c)
  ∧ (strong a = 0%nat ↔ value a = None)
  ∧ ∀ m, value a = Some m → locked m = false ∧ ProgressState.wf (state (data m)).
Proof.
  intros Hr Hl. pose proof (reachable_inv_aux c Hr) as Hinv.
  pose proof (inv_owned _ Hinv l) as Ho. rewrite Hl in Ho.
  pose proof (inv_cells _ Hinv _ _ Hl) as Hc. unfold cell_ok in Hc.
  split; [done|]. destruct (value a) as [m|].
  - destruct Hc as (Hn & Hk & Hwf). split; [split; [lia|done]|]. by intros m' [= <-].
  - split; [done|]. by intros m' [=].
Qed.

(** C20: A live bar has at most one tick thread in its loop, and it is
    the thread the bar records: [enable_steady_tick] never starts a second
    one, in any interleaving. *)
Theorem single_driver c l t1 t2 bs :
  reachable c →
  Arc.peek l (world c) = Some bs →
  drives t1 l (world c) → drives t2 l (world c) →
  t1 = t2 ∧ tick_thread (state bs) = Some t1.
Proof.
  intros Hr Hp H1 H2. pose proof (reachable_inv_aux c Hr) as Hinv.
  pose proof (inv_single _ Hinv t1 l bs H1 Hp) as E1.
  pose proof (inv_single _ Hinv t2 l bs H2 Hp) as E2. split; [congruence|done].
Qed.

(** C23: A tick thread does not keep its bar alive: once the workers
    hold no handle to a bar and no tick thread is awake on it, the bar has
    been dropped, however many threads sleep on it. *)
Theorem driver_does_not_own c l :
  reachable c →
  (Worker, l) ∉ owners c →
  (∀ t, is_awake t l (world c) = false) →
  Arc.peek l (world c) = None.
Proof.
  intros Hr Hw Ha. pose proof (reachable_inv_aux c Hr) as Hinv.
  assert (Hzero : owned l (owners c) = 0%nat).
  { destruct (owned l (owners c)) as [|k] eqn:Hk; [done|].
    destruct (owned_pos l (owners c)) as [[|t] Hin]; [lia|done|].
    apply holds_pos in Hin. rewrite (inv_drivers _ Hinv), Ha in Hin. lia. }
  pose proof (inv_owned _ Hinv l) as Ho. rewrite Hzero in Ho.
  unfold Arc.peek, Arc.mutex_of. destruct (bars (world c) !! l) as [a|] eqn:Hl; [|done].
  pose proof (inv_cells _ Hinv _ _ Hl) as Hc. unfold cell_ok in Hc. cbn in Ho |- *.
  destruct (value a); [lia|done].
Qed.

(** C25: A transaction on a bar through a handle a worker holds never
    finds the bar gone and never deadlocks.  On a poisoned bar it panics
    with [PoisonError] and changes nothing; otherwise it returns, unless it
    is a [suspend] whose thunk panics, which passes the panic on. *)
Theorem txn_outcome c self (x : Txn T Sty) now r w' :
  reachable c →
  (Worker, arc self) ∈ owners c →
  in_range x →
  txn self x now (world c) = (r, w') →
  ∃ n p bs, bars (world c) !! arc self = Some (mkArc (S n) (Some (mkMutex false p bs)))
    ∧ if p then r = Err PoisonError ∧ w' = world c
      else r = Ok tt ∨ ∃ payload, x = TSuspend (Some payload) ∧ r = Err (Panicked payload).
Proof.
  intros Hr Hin Hx Hrun. pose proof (reachable_inv_aux c Hr) as Hinv. destruct c as [w os].
  destruct (inv_owner_live _ _ _ _ Hinv Hin) as (n & [k p bs] & Hl & Hk & _).
  cbn in Hk. subst k. cbn [world] in *. exists n, p, bs. split; [done|]. destruct p.
  - rewrite (txn_refused _ _ _ _ PoisonError) in Hrun; [by injection Hrun as <- <-|].
    unfold Arc.lock. by rewrite (mutex_of_Some _ _ _ _ Hl).
  - destruct (txn_idle self x now _ _ _ Hl Hx) as (r0 & w0 & Heq & _ & Hout).
    rewrite Heq in Hrun. by injection Hrun as <- <-.
Qed.

End reachable_theorems.

Lemma reachable_inv_witness :
  strong run_cell = owned (arc demo_pb) (owners run_woken)
  ∧ (strong run_cell = 0%nat ↔ value run_cell = None)
  ∧ ∀ m, value run_cell = Some m → locked m = false ∧ ProgressState.wf (state (data m)).
Proof.
  apply (reachable_inv run_woken (arc demo_pb)); [exact (proj1 run_reachable)|by vm_compute].
Defined.

Lemma reachable_regions_ok_witness :
  (∀ st ms, multis (world run_added) !! st = Some ms → region_wf ms)
  ∧ (∀ l bs st idx,
       Arc.peek l (world run_added) = Some bs → draw_target bs = Remote st idx →
       ∃ ms, multis (world run_added) !! st = Some ms ∧ occupied ms idx)
  ∧ (∀ l1 l2 bs1 bs2 st idx,
       Arc.peek l1 (world run_added) = Some bs1 → Arc.peek l2 (world run_added) = Some bs2 →
       draw_target bs1 = Remote st idx → draw_target bs2 = Remote st idx → l1 = l2).
Proof. exact (reachable_regions_ok run_added run_added_reachable). Defined.

Lemma single_driver_witness :
  demo_thread = demo_thread ∧ tick_thread (state run_bar) = Some demo_thread.
Proof.
  apply (single_driver run_woken (arc demo_pb) demo_thread demo_thread run_bar);
    [exact (proj1 run_reachable)|by vm_compute|exists 50; right; by vm_compute..].
Defined.

Lemma driver_does_not_own_witness : Arc.peek (arc demo_pb) (world run_ended) = None.
Proof.
  apply (driver_does_not_own run_ended (arc demo_pb)); [exact (proj2 (proj2 run_reachable))|..].
  - apply not_elem_of_nil.
  - intros t. unfold is_awake.
    assert (Hth : threads (world run_ended) = {[demo_thread := Sleeping (arc demo_pb) 50]})
      by by vm_compute.
    rewrite Hth. destruct (decide (t = demo_thread)) as [->|Hne].
    + by rewrite lookup_singleton_eq.
    + by rewrite lookup_singleton_ne.
Defined.

Lemma txn_outcome_witness :
  ∃ n p bs, bars (world run_woken) !! arc demo_pb
            = Some (mkArc (S n) (Some (mkMutex false p bs)))
    ∧ if p then (Ok tt : result panic unit) = Err PoisonError
                ∧ (txn demo_pb (TInc 1) 60 (world run_woken)).2 = world run_woken
      else (Ok tt : result panic unit) = Ok tt
           ∨ ∃ payload, TInc 1 = TSuspend (T := console.Term) (Sty := ProgressFinish) (Some payload)
                        ∧ (Ok tt : result panic unit) = Err (Panicked payload).
Proof.
  apply (txn_outcome run_woken demo_pb (TInc 1) 60 (Ok tt)
           (txn demo_pb (TInc 1) 60 (world run_woken)).2);
    [exact (proj1 run_reachable)|apply elem_of_cons; right; apply elem_of_cons; by left
    |by vm_compute..].
Defined.
