(* ===== verification/Contract.v ===== *)
(** * The contract of a bar

    What the methods of [src/src/progress_bar.rs] promise about the
    progress record, stated without locks, targets, threads or the
    estimator: an abstract bar [Bar] and, for every transaction, its
    effect [apply] on it, following the data model and the transitions of
    the specification.  The refinement theorem says that every
    transaction on an idle bar changes the record as [apply] says, under
    the abstraction [abs]; properties of [apply] then hold of the code. *)

From Stdlib Require Import ZArith String List Lia.
From stdpp Require Import base option list gmap.
From S2P Require Import Prelude TermLike ProgressRecord OutputTarget BarCell Handle TickDriver Schedule.

#[local] Open Scope Z_scope.
#[local] Open Scope bar_scope.

(** ** The abstract bar *)

(** [erased]: the bar is finished and its frame was cleared, so it renders
    nothing any more.  [policy]: what [finish_using_style] will do.
    [driver]: the tick thread the bar records. *)
Record Bar : Type := mkBar {
  position : Z;
  length : Z;
  finished : bool;
  erased : bool;
  message : string;
  prefix : string;
  ticks : Z;
  interval : Z;
  started_at : Instant;
  policy : ProgressFinish;
  driver : option tid
}.

#[global] Instance Bar_eq_dec : EqDecision Bar.
Proof. solve_decision. Defined.

Module Bar.

(** The tick every explicit mutation gives, unless steady ticking is on
    and has ticked already. *)
Definition tick (b : Bar) : Bar :=
  if (interval b =? 0)%Z || (ticks b =? 0)%Z
  then mkBar (position b) (length b) (finished b) (erased b) (message b) (prefix b)
         (saturating_add (ticks b) 1) (interval b) (started_at b) (policy b) (driver b)
  else b.

Definition with_position (v : Z) (b : Bar) : Bar :=
  mkBar v (length b) (finished b) (erased b) (message b) (prefix b) (ticks b) (interval b)
    (started_at b) (policy b) (driver b).

Definition with_length (v : Z) (b : Bar) : Bar :=
  mkBar (position b) v (finished b) (erased b) (message b) (prefix b) (ticks b) (interval b)
    (started_at b) (policy b) (driver b).

Definition with_message (v : string) (b : Bar) : Bar :=
  mkBar (position b) (length b) (finished b) (erased b) v (prefix b) (ticks b) (interval b)
    (started_at b) (policy b) (driver b).

Definition with_prefix (v : string) (b : Bar) : Bar :=
  mkBar (position b) (length b) (finished b) (erased b) (message b) v (ticks b) (interval b)
    (started_at b) (policy b) (driver b).

Definition with_started (v : Instant) (b : Bar) : Bar :=
  mkBar (position b) (length b) (finished b) (erased b) (message b) (prefix b) (ticks b)
    (interval b) v (policy b) (driver b).

Definition with_policy (v : ProgressFinish) (b : Bar) : Bar :=
  mkBar (position b) (length b) (finished b) (erased b) (message b) (prefix b) (ticks b)
    (interval b) (started_at b) v (driver b).

(** Finished, with the frame left ([erase = false]) or cleared. *)
Definition done (erase : bool) (b : Bar) : Bar :=
  mkBar (position b) (length b) true erase (message b) (prefix b) (ticks b) (interval b)
    (started_at b) (policy b) (driver b).

(** In progress again, at position 0. *)
Definition restart (b : Bar) : Bar :=
  mkBar 0 (length b) false false (message b) (prefix b) (ticks b) (interval b)
    (started_at b) (policy b) (driver b).

(** The position moves to the length when the length is known. *)
Definition complete (b : Bar) : Bar :=
  if (length b =? u64_MAX)%Z then b else with_position (length b) b.

(** The interval is set; a bar without a tick thread gets the thread [t]. *)
Definition enable (ms : Z) (t : tid) (b : Bar) : Bar :=
  mkBar (position b) (length b) (finished b) (erased b) (message b) (prefix b) (ticks b) ms
    (started_at b) (policy b) (match driver b with None => Some t | Some t0 => Some t0 end).

End Bar.

Section contract.
Context `{TermLike T} `{StyleOps Sty}.

(** The abstraction: the record without its estimator, the status as two
    flags, the style as its finish policy. *)
Definition abs (s : ProgressState Sty) : Bar :=
  mkBar (pos s) (len s) (ProgressState.is_finished s) (negb (ProgressState.should_render s))
    (ProgressRecord.message s) (ProgressRecord.prefix s) (tick s) (steady_tick s) (started s)
    (on_finish (style s)) (tick_thread s).

(** What each transaction promises, at time [now]; [t] is the thread
    [enable_steady_tick] would start. *)
Definition apply (x : Txn T Sty) (now : Instant) (t : tid) (b : Bar) : Bar :=
  match x with
  | TInc delta => Bar.tick (Bar.with_position (saturating_add (position b) delta) b)
  | TSetPosition pos => Bar.tick (Bar.with_position pos b)
  | TSetLength len => Bar.with_length len b
  | TIncLength delta => Bar.with_length (saturating_add (length b) delta) b
  | TSetPrefix prefix => Bar.tick (Bar.with_prefix prefix b)
  | TSetMessage msg => Bar.tick (Bar.with_message msg b)
  | TTick => Bar.tick b
  | TPrintln _ | TResetEta | TSetDrawTarget _ | TSuspend _ => b
  | TResetElapsed => Bar.with_started now b
  | TResetFields => Bar.restart b
  | TFinish => Bar.done false (Bar.complete b)
  | TFinishAtCurrentPos | TAbandon => Bar.done false b
  | TFinishWithMessage msg => Bar.done false (Bar.complete (Bar.with_message msg b))
  | TFinishAndClear => Bar.done true b
  | TAbandonWithMessage msg => Bar.done false (Bar.with_message msg b)
  | TFinishUsingStyle =>
      match policy b with
      | AndLeave => Bar.done false (Bar.complete b)
      | AndClear => Bar.done true b
      end
  | TSetStyle style => Bar.with_policy (on_finish style) b
  | TWithPrefix prefix => Bar.with_prefix prefix b
  | TWithMessage msg => Bar.with_message msg b
  | TWithPosition pos => Bar.with_position pos b
  | TWithElapsed elapsed => Bar.with_started (now - elapsed) b
  | TEnableSteadyTick ms => Bar.enable ms t b
  end.

(** What the critical section of each transaction does to the record:
    the closure the method passes on, as the code has it. *)
Definition mutation (x : Txn T Sty) (now : Instant) (t : tid)
  : ProgressState Sty → ProgressState Sty :=
  match x with
  | TInc delta => BarState.update now (ProgressBar.inc_closure delta)
  | TSetPosition pos => BarState.update now (ProgressBar.set_position_closure pos)
  | TSetLength len => BarState.update now (ProgressBar.set_length_closure len)
  | TIncLength delta => BarState.update now (ProgressBar.inc_length_closure delta)
  | TSetPrefix prefix => BarState.update now (ProgressBar.set_prefix_closure prefix)
  | TSetMessage msg => BarState.update now (ProgressBar.set_message_closure msg)
  | TTick => BarState.update now ProgressBar.tick_unless_steady
  | TPrintln _ | TSetDrawTarget _ | TSuspend _ => λ state, state
  | TResetEta => BarState.update now (ProgressBar.reset_eta_closure now)
  | TResetElapsed => BarState.update now (ProgressBar.reset_elapsed_closure now)
  | TResetFields => BarState.update now ProgressBar.reset_closure
  | TFinish =>
      BarState.update now (λ s,
        set_status DoneVisible (if (len s =? u64_MAX)%Z then s else set_pos (len s) s))
  | TFinishAtCurrentPos | TAbandon => BarState.update now (set_status DoneVisible)
  | TFinishWithMessage msg =>
      BarState.update now (λ s,
        let s := set_message msg s in
        set_status DoneVisible (if (len s =? u64_MAX)%Z then s else set_pos (len s) s))
  | TFinishAndClear => BarState.update now (set_status DoneHidden)
  | TAbandonWithMessage msg =>
      BarState.update now (λ s, set_status DoneVisible (set_message msg s))
  | TFinishUsingStyle => λ state,
      match on_finish (style state) with
      | AndLeave =>
          BarState.update now (λ s,
            set_status DoneVisible (if (len s =? u64_MAX)%Z then s else set_pos (len s) s)) state
      | AndClear => BarState.update now (set_status DoneHidden) state
      end
  | TSetStyle style => set_style style
  | TWithPrefix prefix => set_prefix prefix
  | TWithMessage msg => set_message msg
  | TWithPosition pos => set_pos pos
  | TWithElapsed elapsed => set_started (now - elapsed)
  | TEnableSteadyTick ms => λ state,
      match tick_thread state with
      | None => set_tick_thread (Some t) (set_steady_tick ms state)
      | Some _ => set_steady_tick ms state
      end
  end.

(** The computation [body] on the bar cell returns without a panic and
    changes the record as [g] says. *)
Definition acts {A} (g : ProgressState Sty → ProgressState Sty)
    (body : SE (BarState T Sty * MHeap T) panic A) : Prop :=
  ∀ bs mh, ∃ a bs' mh', body (bs, mh) = (Ok a, (bs', mh')) ∧ state bs' = g (state bs).

End contract.

(** The demo bar once it has been finished, at time 7. *)
Definition finished_world : World console.Term ProgressFinish :=
  (ProgressBar.finish demo_pb 7 demo_world).2.

Definition finished_bar : BarState console.Term ProgressFinish :=
  default demo_bar (Arc.peek (arc demo_pb) finished_world).

(** A transaction on the demo bar. *)
Definition demo_txn : Txn console.Term ProgressFinish := TInc 3.

(** ** Lemmas: what the critical sections do to the record *)

Section acts_facts.
Context `{TermLike T} `{StyleOps Sty}.
Implicit Types (w : World T Sty) (self : ProgressBar) (now : Instant) (l : loc) (t : tid)
  (bs : BarState T Sty) (mh : MHeap T) (f g : ProgressState Sty → ProgressState Sty)
  (s : ProgressState Sty) (x : Txn T Sty).

Lemma acts_update_and_draw now f :
  acts (BarState.update now f) (BarState.update_and_draw (E := panic) now f).
Proof.
  intros bs mh. unfold BarState.update_and_draw, ignore_err.
  pose proof (draw_state_eq false now
                (BarState.set_state (BarState.update now f (state bs)) bs) mh) as Hs.
  destruct (BarState.draw false now _) as [r [bs' mh']]. by exists tt, bs', mh'.
Qed.

Lemma acts_update_and_force_draw now f :
  acts (BarState.update now f) (BarState.update_and_force_draw (E := panic) now f).
Proof.
  intros bs mh. unfold BarState.update_and_force_draw, ignore_err.
  pose proof (draw_state_eq true now
                (BarState.set_state (BarState.update now f (state bs)) bs) mh) as Hs.
  destruct (BarState.draw true now _) as [r [bs' mh']]. by exists tt, bs', mh'.
Qed.

Lemma acts_modify f : acts (T := T) f (BarState.modify (E := panic) f).
Proof. intros bs mh. by eexists _, _, _. Qed.

Lemma acts_println msg now : acts (λ s, s) (ProgressBar.println_locked msg now).
Proof.
  intros bs mh. unfold ProgressBar.println_locked.
  destruct (ProgressDrawTarget.drawable _ _ _) as [d|]; [|by eexists _, _, _].
  destruct (Drawable.set_state _ _ _) as [d' mh1].
  destruct (Drawable.draw d' mh1) as [[r tgt] mh2]. by eexists _, _, _.
Qed.

Lemma acts_set_draw_target target now :
  acts (Sty := Sty) (λ s, s) (ProgressBar.set_draw_target_locked target now).
Proof. intros bs mh. by eexists _, _, _. Qed.

Lemma acts_finish_using_style now t :
  acts (T := T) (mutation (T := T) TFinishUsingStyle now t)
    (BarState.finish_using_style (E := panic) now).
Proof.
  intros bs mh. unfold BarState.finish_using_style, mutation.
  destruct (on_finish (style (state bs))); apply acts_update_and_force_draw.
Qed.

(** A critical section that acts as [g], on an idle cell. *)
Lemma with_lock_acts {A} l n bs w g (body : SE (BarState T Sty * MHeap T) panic A) :
  idle_at l n bs w →
  acts g body →
  ∃ a bs' mh', Arc.with_lock l body w
               = (Ok a, commit l (mkArc n (Some (mkMutex false false bs'))) mh' w)
    ∧ state bs' = g (state bs).
Proof.
  intros Hl Ha. destruct (Ha bs (multis w)) as (a & bs' & mh' & Hb & Hs).
  exists a, bs', mh'. split; [|done]. by rewrite (with_lock_idle _ _ bs _ _ _ _ _ Hl Hb).
Qed.

(** The abstraction does not see the estimator. *)
Lemma abs_update now f s : abs (BarState.update now f s) = abs (f s).
Proof.
  destruct (update_fields now f s) as (Hp & Hl & Ht & Hst & Hm & Hpr & Hsta & Hstk & Hth & Hsty).
  unfold abs, ProgressState.is_finished, ProgressState.should_render.
  by rewrite Hp, Hl, Ht, Hst, Hm, Hpr, Hsta, Hstk, Hth, Hsty.
Qed.

Lemma abs_tick_unless_steady s : abs (ProgressBar.tick_unless_steady s) = Bar.tick (abs s).
Proof.
  unfold ProgressBar.tick_unless_steady, Bar.tick, abs. simpl.
  by destruct ((steady_tick s =? 0) || (tick s =? 0)).
Qed.

(** Every closure does to the abstract bar what the contract says. *)
Lemma abs_mutation x now t s : abs (mutation x now t s) = apply x now t (abs s).
Proof.
  destruct x; cbn [mutation apply];
    try (match goal with |- context [on_finish (style s)] =>
           change (policy (abs s)) with (on_finish (style s));
           destruct (on_finish (style s))
         end);
    rewrite ?abs_update;
    unfold ProgressBar.inc_closure, ProgressBar.set_position_closure,
      ProgressBar.set_length_closure, ProgressBar.inc_length_closure,
      ProgressBar.set_prefix_closure, ProgressBar.set_message_closure,
      ProgressBar.reset_eta_closure, ProgressBar.reset_elapsed_closure,
      ProgressBar.reset_closure;
    rewrite ?abs_tick_unless_steady; try done.
  all: unfold abs, Bar.complete, Bar.done, Bar.enable; cbn.
  all: unfold ProgressState.is_finished, ProgressState.should_render; cbn.
  all: repeat case_match; cbn in *; congruence.
Qed.

End acts_facts.

(** ** Lemmas: the record after a transaction *)

Section record_facts.
Context `{TermLike T} `{StyleOps Sty}.
Implicit Types (w : World T Sty) (self : ProgressBar) (now : Instant) (l : loc) (t : tid)
  (bs : BarState T Sty) (x : Txn T Sty) (b : Bar).

(** Every transaction on an idle cell leaves the cell with its mutex
    released and the record changed by the transaction's closure. *)
Lemma txn_record self x now n bs w :
  idle_at (arc self) n bs w →
  ∃ r p' bs' w', txn self x now w = (r, w')
    ∧ bars w' !! arc self = Some (mkArc n (Some (mkMutex false p' bs')))
    ∧ state bs' = mutation x now (fresh (dom (threads w))) (state bs).
Proof.
  intros Hl.
  assert (Hacts : ∀ A g (body : SE (BarState T Sty * MHeap T) panic A), acts g body →
            ∃ a bs' w', Arc.with_lock (arc self) body w = (Ok a, w')
              ∧ bars w' !! arc self = Some (mkArc n (Some (mkMutex false false bs')))
              ∧ state bs' = g (state bs)).
  { intros A g body Ha.
    destruct (with_lock_acts _ _ _ _ g body Hl Ha) as (a & bs' & mh' & -> & Hs).
    eexists a, bs', _. split; [done|]. split; [apply commit_lookup|done]. }
  destruct x; txn_unfold; unfold bind;
    try (match goal with |- context [Arc.with_lock (arc self) ?body w] =>
           first [ pose proof (acts_update_and_draw _ _ : acts _ body) as Ha
                 | pose proof (acts_update_and_force_draw _ _ : acts _ body) as Ha
                 | pose proof (acts_modify _ : acts _ body) as Ha
                 | pose proof (acts_println _ _ : acts _ body) as Ha
                 | pose proof (acts_set_draw_target _ _ : acts _ body) as Ha
                 | pose proof (acts_finish_using_style now (fresh (dom (threads w)))
                                 : acts _ body) as Ha ];
           destruct (Hacts _ _ body Ha) as ([] & bs' & w' & -> & Hl' & Hs);
           by exists (Ok tt), false, bs', w'
         end).
  - destruct (tick_thread (state bs)) as [t|] eqn:Ht.
    + rewrite (enable_locked_running _ ms _ _ _ _ Hl Ht).
      eexists (Ok tt), false, _, _. split; [done|]. split; [apply commit_lookup|].
      cbn [mutation state BarState.set_state]. by rewrite Ht.
    + rewrite (enable_locked_fresh _ ms _ _ _ Hl Ht).
      eexists (Ok tt), false, _, _. split; [done|]. split; [apply commit_lookup|].
      cbn [mutation state BarState.set_state]. by rewrite Ht.
  - destruct (suspend_thunk_idle self outcome now n bs w Hl)
      as (r & bs' & mh' & -> & Hs & _).
    eexists r, (negb (is_ok r)), bs', _. split; [done|]. split; [apply commit_lookup|done].
Qed.

(** A finished bar stays finished under everything but the last
    transaction of [reset]. *)
Lemma apply_finished x now t b :
  x ≠ TResetFields → finished b = true → finished (apply x now t b) = true.
Proof.
  intros Hx Hb. destruct x; cbn [apply]; try done;
    unfold Bar.tick, Bar.complete; repeat case_match; done.
Qed.

(** Only these transactions move the position. *)
Lemma apply_position x now t b :
  position (apply x now t b) ≠ position b →
  (∃ v, x = TInc v ∨ x = TSetPosition v ∨ x = TWithPosition v)
  ∨ x = TResetFields ∨ x = TFinish ∨ (∃ msg, x = TFinishWithMessage msg)
  ∨ x = TFinishUsingStyle.
Proof.
  destruct x; cbn [apply]; eauto 10;
    unfold Bar.tick, Bar.complete; repeat case_match; cbn; try done; eauto 10.
Qed.

(** The abstract bar after a transaction that ran on an idle cell. *)
Lemma txn_abs self x now n bs w r w' bs' :
  idle_at (arc self) n bs w →
  txn self x now w = (r, w') →
  Arc.peek (arc self) w' = Some bs' →
  abs (state bs') = apply x now (fresh (dom (threads w))) (abs (state bs)).
Proof.
  intros Hl Hrun Hpeek.
  destruct (txn_record self x now n bs w Hl) as (r0 & p' & bs0 & w0 & Hrun0 & Hl' & Hs).
  rewrite Hrun in Hrun0. injection Hrun0 as <- <-.
  unfold Arc.peek in Hpeek. rewrite (mutex_of_Some _ _ _ _ Hl') in Hpeek.
  injection Hpeek as <-. by rewrite Hs, abs_mutation.
Qed.

End record_facts.

(** ** Theorems: the code keeps the contract *)

Section contract_theorems.
Context `{TermLike T} `{StyleOps Sty}.
Implicit Types (w : World T Sty) (self : ProgressBar) (now : Instant) (l : loc) (t : tid)
  (bs : BarState T Sty) (x : Txn T Sty) (b : Bar).

(** C10: Refinement.  Every transaction of the handle on an idle bar, that
    is every critical section of every method that changes the progress
    record, leaves the mutex released with the same number of owners and
    changes the record exactly as the contract [apply] says, seen through
    the abstraction [abs]. *)
Theorem txn_refines self x now n bs w :
  idle_at (arc self) n bs w →
  ∃ r p' bs' w', txn self x now w = (r, w')
    ∧ bars w' !! arc self = Some (mkArc n (Some (mkMutex false p' bs')))
    ∧ abs (state bs') = apply x now (fresh (dom (threads w))) (abs (state bs)).
Proof.
  intros Hl. destruct (txn_record self x now n bs w Hl) as (r & p' & bs' & w' & Hrun & Hl' & Hs).
  exists r, p', bs', w'. split; [done|]. split; [done|]. by rewrite Hs, abs_mutation.
Qed.

(** C27: A finished bar stays finished under every method but [reset]:
    no transaction other than the last one of [reset] takes the status
    back to in progress. *)
Theorem finished_is_final self x now n bs w r w' bs' :
  idle_at (arc self) n bs w →
  x ≠ TResetFields →
  finished (abs (state bs)) = true →
  txn self x now w = (r, w') →
  Arc.peek (arc self) w' = Some bs' →
  finished (abs (state bs')) = true.
Proof.
  intros Hl Hx Hfin Hrun Hpeek.
  rewrite (txn_abs _ _ _ _ _ _ _ _ _ Hl Hrun Hpeek). by apply apply_finished.
Qed.

(** C28: The position is moved by [inc], [set_position],
    [with_position], [reset] and the finishing methods that complete the
    bar, and by nothing else: messages, prefixes, ticks, lengths, log
    lines, targets, styles, [abandon] and [finish_and_clear] leave it
    where it is. *)
Theorem position_moves_only_by self x now n bs w r w' bs' :
  idle_at (arc self) n bs w →
  txn self x now w = (r, w') →
  Arc.peek (arc self) w' = Some bs' →
  position (abs (state bs')) ≠ position (abs (state bs)) →
  (∃ v, x = TInc v ∨ x = TSetPosition v ∨ x = TWithPosition v)
  ∨ x = TResetFields ∨ x = TFinish ∨ (∃ msg, x = TFinishWithMessage msg)
  ∨ x = TFinishUsingStyle.
Proof.
  intros Hl Hrun Hpeek Hpos.
  apply (apply_position x now (fresh (dom (threads w))) (abs (state bs))).
  by rewrite <- (txn_abs _ _ _ _ _ _ _ _ _ Hl Hrun Hpeek).
Qed.

End contract_theorems.

Lemma txn_refines_witness :
  ∃ r p' bs' w', txn demo_pb TFinish 7 demo_world = (r, w')
    ∧ bars w' !! arc demo_pb = Some (mkArc 1 (Some (mkMutex false p' bs')))
    ∧ abs (state bs') = apply (T := console.Term) TFinish 7 (fresh (dom (threads demo_world)))
                          (abs (state demo_bar)).
Proof. apply (txn_refines demo_pb TFinish 7 1 demo_bar demo_world). by vm_compute. Defined.

Lemma finished_is_final_witness :
  finished
    (abs (state (default demo_bar
                   (Arc.peek (arc demo_pb) (txn demo_pb demo_txn 9 finished_world).2)))) = true.
Proof.
  apply (finished_is_final demo_pb demo_txn 9 1 finished_bar finished_world
           (txn demo_pb demo_txn 9 finished_world).1
           (txn demo_pb demo_txn 9 finished_world).2); by vm_compute.
Defined.

Lemma position_moves_only_by_witness :
  (∃ v, demo_txn = TInc v ∨ demo_txn = TSetPosition v ∨ demo_txn = TWithPosition v)
  ∨ demo_txn = TResetFields ∨ demo_txn = TFinish
  ∨ (∃ msg, demo_txn = TFinishWithMessage msg)
  ∨ demo_txn = TFinishUsingStyle.
Proof.
  apply (position_moves_only_by demo_pb demo_txn 9 1 demo_bar demo_world
           (txn demo_pb demo_txn 9 demo_world).1
           (txn demo_pb demo_txn 9 demo_world).2
           (default demo_bar (Arc.peek (arc demo_pb) (txn demo_pb demo_txn 9 demo_world).2)));
    by vm_compute.
Defined.
