(* ===== verification/Liveness.v ===== *)
(** * The tick thread ends

    Progress of the tick thread of [src/src/progress_bar.rs]
    ([steady_tick], lines 127-147) along the executions of [Schedule.v].
    An execution is an infinite sequence of configurations in which every
    configuration follows the previous one by a step, or repeats it; the
    tick thread [t] is scheduled fairly when it takes its turn again and
    again: asleep, it wakes up and upgrades its weak reference; awake, it
    runs its critical section and drops the reference.  The theorem of
    this file: once the workers hold no handle to a bar and never get one
    again, the thread of the bar leaves its loop and stays out, and the bar
    is dropped: no other thread can wake up on it in the meantime.  A
    second theorem is about a bar the workers keep: once it is finished
    or its ticking is disabled, and stays so, two turns of the thread
    (one iteration of its loop) take the thread out of the loop. *)

From Stdlib Require Import ZArith String List Lia.
From stdpp Require Import base option list gmap.
From S2P Require Import Prelude TermLike ProgressRecord OutputTarget BarCell Handle Region RegionInv TickDriver Schedule.

#[local] Open Scope Z_scope.
#[local] Open Scope bar_scope.

(** ** Executions and fairness *)

Section executions.
Context `{TermLike T} `{StyleOps Sty}.
Implicit Types (c : Config T Sty) (run : nat → Config T Sty) (t : tid) (l : loc)
  (w : World T Sty).

(** The turn of the tick thread [t] at time [now]: the first half of an
    iteration when it is asleep, the second when it is awake, nothing
    once it has left its loop. *)
Definition thread_turn t (now : Instant) c : Config T Sty :=
  match threads (world c) !! t with
  | Some (Sleeping _ _) =>
      let w' := (ProgressBar.steady_tick_wake t (world c)).2 in
      mkConfig w' (acquired t (world c) w' ++ owners c)
  | Some (Upgraded _ _) =>
      mkConfig (ProgressBar.steady_tick_body t now (world c)).2
        (relinquished t (world c) (owners c))
  | Some Exited | None => c
  end.

Definition execution run : Prop :=
  reachable (run 0%nat) ∧ ∀ i, step (run i) (run (S i)) ∨ run (S i) = run i.

(** The step after [run i] is a turn of [t]; [t] has a turn after any
    point of the execution. *)
Definition scheduled t run (i : nat) : Prop := ∃ now, run (S i) = thread_turn t now (run i).

Definition fair t run : Prop := ∀ i, ∃ j, (i ≤ j)%nat ∧ scheduled t run j.

(** From [i] on, the workers have no handle to the cell [l]. *)
Definition unreferenced l run (i : nat) : Prop :=
  ∀ k, (i ≤ k)%nat → (Worker, l) ∉ owners (run k).

(** No thread but [t] is awake on the cell [l]. *)
Definition alone t l w : Prop := ∀ t' ms, awake t' l ms w → t' = t.

(** How far the thread [t] is from the end of its loop: awake, asleep,
    out. *)
Definition phase t w : nat :=
  match threads w !! t with
  | Some (Upgraded _ _) => 2
  | Some (Sleeping _ _) => 1
  | Some Exited | None => 0
  end.

(** From [i] on, the bar of the cell [l] is finished or its ticking is
    disabled, as long as it lives. *)
Definition disabled l run (i : nat) : Prop :=
  ∀ k bs, (i ≤ k)%nat → Arc.peek l (world (run k)) = Some bs → stops (state bs) = true.

(** How far the thread [t] is from the end of its loop at such a bar:
    asleep, awake, out. *)
Definition stage t w : nat :=
  match threads w !! t with
  | Some (Sleeping _ _) => 2
  | Some (Upgraded _ _) => 1
  | Some Exited | None => 0
  end.

(** The thread [t] was spawned and, if it is in its loop, is on the cell
    [l]. *)
Definition on_cell t l w : Prop :=
  match threads w !! t with
  | Some (Upgraded l' _) | Some (Sleeping l' _) => l' = l
  | Some Exited => True
  | None => False
  end.

End executions.

(** The run of [Schedule.v] from the point where the worker has dropped
    its handle, continued by the turns of the tick thread, one every 50
    milliseconds. *)
Fixpoint demo_run (i : nat) : Config console.Term ProgressFinish :=
  match i with
  | O => run_dropped
  | S i => thread_turn demo_thread (50 * Z.of_nat (S i)) (demo_run i)
  end.

(** Another run: ticking is disabled at time 10, while the worker keeps
    its handle and the thread is asleep; then the thread takes its turns. *)
Definition run_disabled : Config console.Term ProgressFinish :=
  mkConfig (txn demo_pb (TEnableSteadyTick 0) 10 (world run_enabled)).2 [(Worker, arc demo_pb)].

Fixpoint disabled_run (i : nat) : Config console.Term ProgressFinish :=
  match i with
  | O => run_disabled
  | S i => thread_turn demo_thread (50 * Z.of_nat (S i)) (disabled_run i)
  end.

(** ** Lemmas: what a step does to a thread *)

Section thread_facts.
Context `{TermLike T} `{StyleOps Sty}.
Implicit Types (c : Config T Sty) (t : tid) (l : loc) (w : World T Sty) (th : TickThread).

Lemma threads_with_lock {A} l (body : SE (BarState T Sty * MHeap T) panic A) w :
  threads (Arc.with_lock l body w).2 = threads w.
Proof.
  destruct (lock_cases l w) as [(n & bs & Hl)|[e Hlock]].
  - destruct (body (bs, multis w)) as [r [bs' mh']] eqn:Hb.
    by rewrite (with_lock_idle _ _ _ _ _ _ _ _ Hl Hb).
  - unfold Arc.with_lock. by rewrite (guarded_refused _ _ _ _ Hlock).
Qed.

Lemma threads_drop l w : threads (Arc.drop l w).2 = threads w.
Proof. unfold Arc.drop. by repeat case_match. Qed.

Lemma threads_upgrade l w : threads (Arc.upgrade l w).2 = threads w.
Proof. unfold Arc.upgrade. by repeat case_match. Qed.

Lemma threads_clone l w : threads (Arc.clone l w).2 = threads w.
Proof. unfold Arc.clone. by repeat case_match. Qed.

(** The turns of another thread. *)
Lemma wake_other t t' w : t' ≠ t → threads (ProgressBar.steady_tick_wake t' w).2 !! t = threads w !! t.
Proof.
  intros Hne. unfold ProgressBar.steady_tick_wake.
  destruct (threads w !! t') as [[l ms| |]|]; [|done..]. unfold bind.
  pose proof (threads_upgrade l w) as Hu. destruct (Arc.upgrade l w) as [[live|e] w1];
    cbn in *; [|by rewrite Hu].
  by rewrite lookup_insert_ne, Hu.
Qed.

Lemma body_other t t' now w :
  t' ≠ t → threads (ProgressBar.steady_tick_body t' now w).2 !! t = threads w !! t.
Proof.
  intros Hne. unfold ProgressBar.steady_tick_body.
  destruct (threads w !! t') as [[|l ms|]|]; [done| |done..].
  pose proof (threads_with_lock l (ProgressBar.steady_tick_locked now) w) as Hw.
  destruct (Arc.with_lock l _ w) as [r w1]. unfold bind, ignore_err.
  pose proof (threads_drop l w1) as Hd. destruct (Arc.drop l w1) as [rd w2]. cbn in *.
  by rewrite lookup_insert_ne, Hd, Hw.
Qed.

(** The second half of an iteration ends asleep on the same cell, or out
    of the loop. *)
Lemma body_thread t l ms now w :
  awake t l ms w →
  ∃ th, threads (ProgressBar.steady_tick_body t now w).2 !! t = Some th
    ∧ (th = Exited ∨ ∃ ms', th = Sleeping l ms').
Proof.
  intros Ht. unfold ProgressBar.steady_tick_body. rewrite Ht.
  destruct (Arc.with_lock l _ w) as [r w1]. unfold bind, ignore_err.
  destruct (Arc.drop l w1) as [rd w2]. cbn. rewrite lookup_insert_eq.
  destruct r as [[ms'|]|]; eauto.
Qed.

Lemma cell_update_thread l w w' t :
  cell_update l w w' →
  threads w' !! t = threads w !! t
  ∨ (threads w !! t = None ∧ ∃ ms, threads w' !! t = Some (Sleeping l ms)).
Proof.
  intros [->|(n & bs & p' & bs' & _ & _ & _ & [[-> _]|(_ & _ & ms & ->)])]; [by left..|].
  destruct (decide (t = fresh (dom (threads w)))) as [->|Hne].
  - right. split; [apply not_elem_of_dom, is_fresh|]. exists ms. apply lookup_insert_eq.
  - left. by rewrite lookup_insert_ne.
Qed.

(** A step leaves the thread [t] as it is, unless it is a turn of [t], or
    spawns it, asleep. *)
Lemma step_thread c c' t :
  step c c' →
  threads (world c') !! t = threads (world c) !! t
  ∨ world c' = (ProgressBar.steady_tick_wake t (world c)).2
  ∨ (∃ now, world c' = (ProgressBar.steady_tick_body t now (world c)).2)
  ∨ (threads (world c) !! t = None ∧ ∃ l ms, threads (world c') !! t = Some (Sleeping l ms)).
Proof.
  assert (Hcell : ∀ l (w w' : World T Sty), cell_update l w w' →
            threads w' !! t = threads w !! t
            ∨ threads w !! t = None ∧ ∃ l ms, threads w' !! t = Some (Sleeping l ms)).
  { intros l w w' [?|[? [ms ?]]]%(cell_update_thread _ _ _ t); eauto. }
  intros Hstep. destruct Hstep; cbn [world] in *.
  - left. match goal with Hr : ProgressBar.with_draw_target _ _ _ _ = _ |- _ =>
      by injection Hr as _ <- end.
  - destruct (Hcell (arc pb) w w') as [?|?]; [by eapply txn_effect|by left|by do 3 right].
  - left. match goal with Hr : MultiProgress.with_draw_target _ _ = _ |- _ =>
      by injection Hr as _ <- end.
  - match goal with Hr : MultiProgress.internalize _ _ _ _ _ = _ |- _ =>
      apply internalize_txn in Hr as [->|(mh & tgt & r0 & Hrun)]; [by left|] end.
    destruct (Hcell (arc pb) (set_multis mh w) w') as [?|?]; [|by left|by do 3 right].
    exact (txn_effect pb (TSetDrawTarget tgt) now _ r0 _ I Hrun).
  - left. match goal with Hr : ProgressBar.clone ?pb ?w = _ |- _ =>
      unfold ProgressBar.clone, bind in Hr; pose proof (threads_clone (arc pb) w) as Hw;
      destruct (Arc.clone (arc pb) w) as [[] w1]; [|done]; injection Hr as _ <- end.
    cbn in Hw. by rewrite Hw.
  - left. match goal with Hr : ProgressBar.drop ?pb ?w = _ |- _ =>
      unfold ProgressBar.drop in Hr; pose proof (threads_drop (arc pb) w) as Hw;
      rewrite Hr in Hw end.
    cbn in Hw. by rewrite Hw.
  - left. match goal with Hr : WeakProgressBar.upgrade ?wk ?w = _ |- _ =>
      unfold WeakProgressBar.upgrade, bind in Hr; destruct wk as [[l|]]; cbn in Hr;
      [pose proof (threads_upgrade l w) as Hw;
       destruct (Arc.upgrade l w) as [[] w1]; [|done]; injection Hr as _ <-;
       cbn in Hw; by rewrite Hw
      |by injection Hr as _ <-] end.
  - destruct (decide (t0 = t)) as [->|Hne].
    + right; left. match goal with Hr : ProgressBar.steady_tick_wake _ _ = _ |- _ =>
        by rewrite Hr end.
    + left. match goal with Hr : ProgressBar.steady_tick_wake ?t' ?w = _ |- _ =>
        pose proof (wake_other t t' w Hne) as Hw; by rewrite Hr in Hw end.
  - destruct (decide (t0 = t)) as [->|Hne].
    + right; right; left. exists now.
      match goal with Hr : ProgressBar.steady_tick_body _ _ _ = _ |- _ => by rewrite Hr end.
    + left. match goal with Hr : ProgressBar.steady_tick_body ?t' ?now ?w = _ |- _ =>
        pose proof (body_other t t' now w Hne) as Hw; by rewrite Hr in Hw end.
Qed.

End thread_facts.

(** ** Lemmas: the turns of a thread whose bar has no handle *)

Section progress.
Context `{TermLike T} `{StyleOps Sty}.
Implicit Types (c : Config T Sty) (run : nat → Config T Sty) (t : tid) (l : loc)
  (w : World T Sty).

(** A thread that is awake keeps its bar alive. *)
Lemma awake_alive c t l ms : inv c → awake t l ms (world c) → is_Some (Arc.peek l (world c)).
Proof.
  intros Hinv Ht. pose proof (inv_drivers _ Hinv t l) as Hd. unfold is_awake in Hd.
  rewrite Ht, bool_decide_eq_true_2 in Hd by done.
  pose proof (holds_le_owned (Driver t) l (owners c)) as Hle.
  pose proof (inv_owned _ Hinv l) as Ho. unfold Arc.peek, Arc.mutex_of.
  destruct (bars (world c) !! l) as [a|] eqn:Hl; cbn in Ho |- *; [|lia].
  pose proof (inv_cells _ Hinv _ _ Hl) as Hc. unfold cell_ok in Hc.
  destruct (value a); [by eexists|lia].
Qed.

(** A bar that neither a worker nor an awake thread has a reference to
    has been dropped. *)
Lemma unowned_dead c l :
  inv c → (Worker, l) ∉ owners c → (∀ t ms, ¬ awake t l ms (world c)) →
  Arc.peek l (world c) = None.
Proof.
  intros Hinv Hw Ha. unfold Arc.peek, Arc.mutex_of.
  destruct (bars (world c) !! l) as [a|] eqn:Hl; [|done]. cbn.
  pose proof (inv_cells _ Hinv _ _ Hl) as Hc. unfold cell_ok in Hc.
  destruct (value a) as [m|] eqn:Hv; [|done]. destruct Hc as (Hn & _).
  pose proof (inv_owned _ Hinv l) as Ho. rewrite Hl in Ho. cbn in Ho.
  destruct (owned_pos l (owners c)) as [[|t] Hin]; [lia|done|].
  apply holds_pos in Hin. rewrite (inv_drivers _ Hinv) in Hin.
  destruct (is_awake t l (world c)) eqn:Hawake; [|lia]. unfold is_awake in Hawake.
  destruct (threads (world c) !! t) as [[|l' ms|]|] eqn:Ht; try done.
  apply bool_decide_eq_true in Hawake as ->. by destruct (Ha t ms).
Qed.

(** The thread in its loop on a bar is the only one that can be awake on
    it. *)
Lemma alone_init c t l : inv c → drives t l (world c) → alone t l (world c).
Proof.
  intros Hinv Hd t' ms Ha. destruct (awake_alive c t' l ms Hinv Ha) as [bs Hp].
  pose proof (inv_single _ Hinv t l bs Hd Hp) as E1.
  pose proof (inv_single _ Hinv t' l bs (ex_intro _ ms (or_intror Ha)) Hp) as E2. congruence.
Qed.

(** A thread asleep on a bar the workers have no handle to: the bar is
    gone, since no other thread holds a reference to it. *)
Lemma asleep_dead c t l ms :
  inv c → asleep t l ms (world c) → (Worker, l) ∉ owners c →
  Arc.mutex_of l (world c) = None.
Proof.
  intros Hinv Ht Hw. apply (fmap_None data). apply (unowned_dead c l Hinv Hw).
  intros t' ms' Ha.
  pose proof (alone_init c t l Hinv (ex_intro _ ms (or_introl Ht)) t' ms' Ha) as ->.
  unfold asleep, awake in *. congruence.
Qed.

(** Without the thread, which has left its loop, nothing holds the bar. *)
Lemma exited_dead c t l :
  inv c → (Worker, l) ∉ owners c → alone t l (world c) → exited t (world c) →
  Arc.peek l (world c) = None.
Proof.
  intros Hinv Hw Halone Hex. apply (unowned_dead c l Hinv Hw). intros t' ms Ha.
  pose proof (Halone t' ms Ha) as ->. unfold exited, awake in *. congruence.
Qed.

(** A thread awake after a step was awake before it, or asleep on a bar
    that was alive. *)
Lemma step_awake c c' t l ms :
  inv c → step c c' → awake t l ms (world c') →
  (∃ ms', awake t l ms' (world c))
  ∨ (∃ ms', asleep t l ms' (world c) ∧ is_Some (Arc.mutex_of l (world c))).
Proof.
  intros Hinv Hstep Ha. unfold awake, asleep in *.
  destruct (step_thread c c' t Hstep) as [Hsame|[Hw|[[now Hb]|[_ (l' & ms' & Hs)]]]];
    [left; exists ms; congruence| | |congruence].
  - rewrite Hw in Ha. destruct (threads (world c) !! t) as [[l0 ms0|l0 ms0|]|] eqn:Ht;
      try (rewrite wake_not_asleep in Ha by (unfold asleep; congruence);
           cbn in Ha; left; exists ms; congruence).
    destruct (Arc.mutex_of l0 (world c)) as [m|] eqn:Hm.
    + unfold Arc.mutex_of in Hm. destruct (bars (world c) !! l0) as [[k v]|] eqn:Hl; [|done].
      cbn in Hm. subst v. destruct (inv_cells _ Hinv _ _ Hl) as (Hk & _). cbn in Hk.
      destruct k as [|k]; [lia|]. rewrite (wake_live t l0 ms0 k m) in Ha by done.
      cbn in Ha. rewrite lookup_insert_eq in Ha. injection Ha as -> ->.
      right. exists ms. split; [done|]. unfold Arc.mutex_of. by rewrite Hl.
    + rewrite (wake_dead t l0 ms0) in Ha by done. cbn in Ha.
      by rewrite lookup_insert_eq in Ha.
  - rewrite Hb in Ha. destruct (threads (world c) !! t) as [[l0 ms0|l0 ms0|]|] eqn:Ht;
      try (rewrite body_not_awake in Ha by (unfold awake; congruence);
           cbn in Ha; left; exists ms; congruence).
    destruct (body_thread t l0 ms0 now (world c) Ht) as (th & Hth & [->|[ms' ->]]);
      congruence.
Qed.

(** No step wakes another thread on the bar. *)
Lemma alone_step c c' t l :
  inv c → (Worker, l) ∉ owners c → on_cell t l (world c) → alone t l (world c) →
  step c c' ∨ c' = c → alone t l (world c').
Proof.
  intros Hinv Hw Hon Halone [Hstep| ->]; [|done]. intros t' ms Ha.
  destruct (step_awake c c' t' l ms Hinv Hstep Ha) as [[ms' Ha0]|(ms' & Hs & [m Hm])];
    [by eapply Halone|].
  assert (Hp : Arc.peek l (world c) = Some (data m)) by (unfold Arc.peek; by rewrite Hm).
  pose proof (inv_single _ Hinv t' l _ (ex_intro _ ms' (or_introl Hs)) Hp) as E2.
  unfold on_cell in Hon.
  destruct (threads (world c) !! t) as [[l0 ms0|l0 ms0|]|] eqn:Ht; [..|done]; subst.
  - pose proof (inv_single _ Hinv t l _ (ex_intro _ ms0 (or_introl Ht)) Hp). congruence.
  - pose proof (inv_single _ Hinv t l _ (ex_intro _ ms0 (or_intror Ht)) Hp). congruence.
  - rewrite (exited_dead c t l) in Hp; done.
Qed.

(** The first half of an iteration, for such a thread: it leaves the
    loop. *)
Lemma wake_phase c t l :
  inv c → (Worker, l) ∉ owners c → on_cell t l (world c) →
  let w' := (ProgressBar.steady_tick_wake t (world c)).2 in
  on_cell t l w' ∧ (phase t w' ≤ phase t (world c))%nat
  ∧ (phase t (world c) = 1%nat → phase t w' = 0%nat).
Proof.
  intros Hinv Hw. cbn zeta. unfold on_cell, phase.
  destruct (threads (world c) !! t) as [[l' ms|l' ms|]|] eqn:Ht; intros Hon; [| | |done].
  - subst l'. rewrite (wake_dead t l ms); [|done|by eapply asleep_dead].
    cbn. rewrite lookup_insert_eq. lia.
  - rewrite wake_not_asleep; [cbn [snd]; by rewrite Ht|]. unfold asleep. congruence.
  - rewrite wake_not_asleep; [cbn [snd]; by rewrite Ht|]. unfold asleep. congruence.
Qed.

(** The second half: it goes back to sleep on the same cell or leaves
    the loop. *)
Lemma body_phase c t l now :
  on_cell t l (world c) →
  let w' := (ProgressBar.steady_tick_body t now (world c)).2 in
  on_cell t l w' ∧ (phase t w' ≤ phase t (world c))%nat
  ∧ (phase t (world c) = 2%nat → phase t w' ≤ 1)%nat.
Proof.
  cbn zeta. unfold on_cell, phase.
  destruct (threads (world c) !! t) as [[l' ms|l' ms|]|] eqn:Ht; intros Hon; [| | |done].
  - rewrite body_not_awake; [cbn [snd]; by rewrite Ht|]. unfold awake. congruence.
  - subst l'.
    destruct (body_thread t l ms now (world c) Ht) as (th & -> & [->|[ms' ->]]);
      (split; [done|lia]).
  - rewrite body_not_awake; [cbn [snd]; by rewrite Ht|]. unfold awake. congruence.
Qed.

(** No step takes the thread further from the end of its loop. *)
Lemma step_phase c c' t l :
  inv c → (Worker, l) ∉ owners c → on_cell t l (world c) →
  step c c' ∨ c' = c →
  on_cell t l (world c') ∧ (phase t (world c') ≤ phase t (world c))%nat.
Proof.
  intros Hinv Hw Hon [Hstep| ->]; [|done].
  destruct (step_thread c c' t Hstep) as [Hsame|[->|[[now ->]|[Hnone _]]]].
  - unfold on_cell, phase in *. by rewrite Hsame.
  - destruct (wake_phase c t l Hinv Hw Hon) as (? & ? & _). done.
  - destruct (body_phase c t l now Hon) as (? & ? & _). done.
  - unfold on_cell in Hon. by rewrite Hnone in Hon.
Qed.

(** A turn takes it closer. *)
Lemma turn_phase c t l now :
  inv c → (Worker, l) ∉ owners c → on_cell t l (world c) →
  (phase t (world (thread_turn t now c)) < phase t (world c))%nat
  ∨ phase t (world (thread_turn t now c)) = 0%nat.
Proof.
  intros Hinv Hw Hon. unfold thread_turn.
  destruct (threads (world c) !! t) as [[l' ms|l' ms|]|] eqn:Ht; cbn [world].
  - destruct (wake_phase c t l Hinv Hw Hon) as (_ & _ & Hout). right. apply Hout.
    unfold phase. by rewrite Ht.
  - destruct (body_phase c t l now Hon) as (_ & _ & H1). left.
    assert (phase t (world c) = 2%nat) as Hp by (unfold phase; by rewrite Ht).
    specialize (H1 Hp). lia.
  - right. unfold phase. by rewrite Ht.
  - right. unfold phase. by rewrite Ht.
Qed.

Lemma execution_reachable run k : execution run → reachable (run k).
Proof.
  intros [Hinit Hs]. induction k as [|k IH]; [done|].
  destruct (Hs k) as [Hstep| ->]; [by eapply reachable_step|done].
Qed.

Section along.
Variables (run : nat → Config T Sty) (t : tid) (l : loc).
Hypothesis Hexec : execution run.

Lemma phase_mono i k :
  unreferenced l run i → on_cell t l (world (run i)) → alone t l (world (run i)) →
  (i ≤ k)%nat →
  on_cell t l (world (run k)) ∧ alone t l (world (run k))
  ∧ (phase t (world (run k)) ≤ phase t (world (run i)))%nat.
Proof.
  intros Hun Hon Halone Hle. induction Hle as [|k Hle (IHon & IHalone & IHle)]; [done|].
  assert (Hinv : inv (run k)) by by apply reachable_inv_aux, execution_reachable.
  destruct (step_phase (run k) (run (S k)) t l) as [Hon' Hle'];
    [done|by apply Hun|done|apply Hexec|].
  split; [done|]. split; [|lia].
  by apply (alone_step (run k)); [|apply Hun| | |apply Hexec].
Qed.

Lemma phase_progress i :
  fair t run → unreferenced l run i → on_cell t l (world (run i)) →
  alone t l (world (run i)) →
  ∃ j, (i ≤ j)%nat
    ∧ ((phase t (world (run j)) < phase t (world (run i)))%nat ∨ phase t (world (run j)) = 0%nat).
Proof.
  intros Hfair Hun Hon Halone. destruct (Hfair i) as (j & Hle & now & Hj).
  destruct (phase_mono i j Hun Hon Halone Hle) as (Honj & _ & Hlej).
  exists (S j). split; [lia|]. rewrite Hj.
  destruct (turn_phase (run j) t l now) as [Hlt|Hout];
    [by apply reachable_inv_aux, execution_reachable|by apply Hun|done| |by right].
  left. lia.
Qed.

Lemma phase_ends n : ∀ i,
  fair t run → unreferenced l run i → on_cell t l (world (run i)) →
  alone t l (world (run i)) →
  (phase t (world (run i)) ≤ n)%nat →
  ∃ j, (i ≤ j)%nat ∧ phase t (world (run j)) = 0%nat.
Proof.
  induction n as [|n IH]; intros i Hfair Hun Hon Halone Hn; [exists i; split; [done|lia]|].
  destruct (phase_progress i Hfair Hun Hon Halone) as (j & Hle & [Hlt|Hout]); [|by exists j].
  destruct (phase_mono i j Hun Hon Halone Hle) as (Honj & Halonej & _).
  destruct (IH j) as (j' & Hle' & Hout); [done| |done|done|lia|exists j'; split; [lia|done]].
  intros k Hk. apply Hun. lia.
Qed.

End along.

Lemma phase_le_2 t w : (phase t w ≤ 2)%nat.
Proof. unfold phase. repeat case_match; lia. Qed.

Lemma phase_0_exited t l w : on_cell t l w → phase t w = 0%nat → exited t w.
Proof. unfold on_cell, phase, exited. by repeat case_match. Qed.

Lemma drives_on_cell t l w : drives t l w → on_cell t l w.
Proof. unfold drives, asleep, awake, on_cell. by intros (ms & [->| ->]). Qed.

End progress.

(** ** Lemmas: turns are steps *)

Section turns.
Context `{TermLike T} `{StyleOps Sty}.
Implicit Types (c : Config T Sty) (t : tid) (l : loc) (w : World T Sty).

Lemma wake_ok t w : (ProgressBar.steady_tick_wake t w).1 = Ok tt.
Proof.
  unfold ProgressBar.steady_tick_wake.
  destruct (threads w !! t) as [[l ms| |]|]; [|done..]. unfold bind, Arc.upgrade.
  by repeat case_match.
Qed.

Lemma body_ok t now w : (ProgressBar.steady_tick_body t now w).1 = Ok tt.
Proof.
  unfold ProgressBar.steady_tick_body.
  destruct (threads w !! t) as [[|l ms|]|]; [done| |done..].
  destruct (Arc.with_lock l _ w) as [r w1]. unfold bind, ignore_err.
  by destruct (Arc.drop l w1) as [rd w2].
Qed.

(** A turn is a step of the thread, or nothing. *)
Lemma thread_turn_step t now c : step c (thread_turn t now c) ∨ thread_turn t now c = c.
Proof.
  unfold thread_turn. destruct c as [w os]. cbn [world owners].
  destruct (threads w !! t) as [[l ms|l ms|]|]; [| |by right..]; left.
  - apply step_wake. rewrite <- (wake_ok t w). by destruct (ProgressBar.steady_tick_wake t w).
  - apply (step_body t now). rewrite <- (body_ok t now w).
    by destruct (ProgressBar.steady_tick_body t now w).
Qed.

Lemma elem_of_forget (x y : owner * loc) os : y ∈ forget x os → y ∈ os.
Proof.
  induction os as [|z os IH]; [done|]. cbn. case_decide.
  - intros ?. apply elem_of_cons. by right.
  - intros [->|?]%elem_of_cons; apply elem_of_cons; auto.
Qed.

(** A turn gives the workers no handle. *)
Lemma turn_owners t now c l :
  (Worker, l) ∈ owners (thread_turn t now c) → (Worker, l) ∈ owners c.
Proof.
  unfold thread_turn, acquired, relinquished.
  destruct (threads (world c) !! t) as [[l' ms|l' ms|]|]; cbn [owners]; [| |done..].
  - destruct (threads _ !! t) as [[| |]|]; cbn; try done.
    by intros [[=]|?]%elem_of_cons.
  - apply elem_of_forget.
Qed.

End turns.

(** ** Lemmas: the turns of a thread whose bar is finished or disabled *)

Section disabled_facts.
Context `{TermLike T} `{StyleOps Sty}.
Implicit Types (c : Config T Sty) (run : nat → Config T Sty) (t : tid) (l : loc)
  (w : World T Sty).

(** The first half of an iteration ends awake on the same cell, or out
    of the loop. *)
Lemma wake_thread t l ms w :
  asleep t l ms w →
  ∃ th, threads (ProgressBar.steady_tick_wake t w).2 !! t = Some th
    ∧ (th = Exited ∨ th = Upgraded l ms).
Proof.
  intros Ht. unfold ProgressBar.steady_tick_wake. rewrite Ht. unfold bind, Arc.upgrade.
  repeat case_match; simplify_eq; cbn; rewrite lookup_insert_eq; eauto.
Qed.

(** The second half, at a bar that is finished or disabled: the thread
    leaves the loop. *)
Lemma body_stops t l ms now w :
  awake t l ms w →
  (∀ bs, Arc.peek l w = Some bs → stops (state bs) = true) →
  exited t (ProgressBar.steady_tick_body t now w).2.
Proof.
  intros Ht Hstop. unfold exited, ProgressBar.steady_tick_body. rewrite Ht.
  assert (Hr : ∃ w1, Arc.with_lock l (ProgressBar.steady_tick_locked now) w = (Ok None, w1)
                 ∨ ∃ e, Arc.with_lock l (ProgressBar.steady_tick_locked now) w = (Err e, w1)).
  { destruct (lock_cases l w) as [(n & bs & Hl)|[e Hlock]].
    - eexists. left. eapply with_lock_idle; [done|].
      apply steady_tick_locked_stop, Hstop. by eapply peek_idle.
    - exists w. right. exists e. by apply guarded_refused. }
  destruct Hr as [w1 [->|[e ->]]]; unfold bind, ignore_err;
    destruct (Arc.drop l w1) as [rd w2]; cbn; by rewrite lookup_insert_eq.
Qed.

(** No step takes the thread further from the end of its loop. *)
Lemma step_stage c c' t l :
  on_cell t l (world c) →
  (∀ bs, Arc.peek l (world c) = Some bs → stops (state bs) = true) →
  step c c' ∨ c' = c →
  on_cell t l (world c') ∧ (stage t (world c') ≤ stage t (world c))%nat.
Proof.
  intros Hon Hstop [Hstep| ->]; [|done]. unfold on_cell, stage in *.
  destruct (step_thread c c' t Hstep) as [Hsame|[->|[[now ->]|[Hnone _]]]];
    [by rewrite Hsame| | |by rewrite Hnone in Hon].
  - destruct (threads (world c) !! t) as [[l' ms|l' ms|]|] eqn:Ht; [|..|done];
      try (rewrite wake_not_asleep by (unfold asleep; congruence); cbn [snd]; by rewrite Ht).
    subst l'. by destruct (wake_thread t l ms (world c) Ht) as (th & -> & [->| ->]); split; [|lia..].
  - destruct (threads (world c) !! t) as [[l' ms|l' ms|]|] eqn:Ht; [|..|done];
      try (rewrite body_not_awake by (unfold awake; congruence); cbn [snd]; by rewrite Ht).
    subst l'. rewrite (body_stops t l ms now (world c) Ht Hstop). split; [done|lia].
Qed.

(** A turn takes it one stage closer. *)
Lemma turn_stage c t l now :
  on_cell t l (world c) →
  (∀ bs, Arc.peek l (world c) = Some bs → stops (state bs) = true) →
  (stage t (world (thread_turn t now c)) ≤ pred (stage t (world c)))%nat.
Proof.
  intros Hon Hstop. unfold thread_turn, on_cell, stage in *.
  destruct (threads (world c) !! t) as [[l' ms|l' ms|]|] eqn:Ht; cbn [world]; subst;
    [| |by rewrite Ht..].
  - by destruct (wake_thread t l ms (world c) Ht) as (th & -> & [->| ->]); cbn; lia.
  - rewrite (body_stops t l ms now (world c) Ht Hstop). cbn. lia.
Qed.

Lemma stage_mono run t l i k :
  execution run → disabled l run i → on_cell t l (world (run i)) → (i ≤ k)%nat →
  on_cell t l (world (run k)) ∧ (stage t (world (run k)) ≤ stage t (world (run i)))%nat.
Proof.
  intros Hexec Hdis Hon Hle. induction Hle as [|k Hle [IHon IHle]]; [done|].
  destruct (step_stage (run k) (run (S k)) t l IHon) as [Hon' Hle'];
    [intros bs; by apply Hdis|apply Hexec|]. split; [done|lia].
Qed.

Lemma stage_le_2 t w : (stage t w ≤ 2)%nat.
Proof. unfold stage. repeat case_match; lia. Qed.

Lemma stage_0_exited t l w : on_cell t l w → (stage t w ≤ 0)%nat → exited t w.
Proof. unfold on_cell, stage, exited. repeat case_match; (done || lia). Qed.

(** A thread that has left its loop holds no reference. *)
Lemma exited_holds_nothing c t l : inv c → exited t (world c) → (Driver t, l) ∉ owners c.
Proof.
  intros Hinv Hex Hin%holds_pos. rewrite (inv_drivers _ Hinv) in Hin.
  unfold is_awake in Hin. rewrite Hex in Hin. lia.
Qed.

End disabled_facts.

(** ** Theorem: the thread of a bar without handles ends *)

Section driver_exits.
Context `{TermLike T} `{StyleOps Sty}.

(** C18: A tick thread that is scheduled fairly ends once its bar has
    no handle, and the bar is dropped.  In any execution, whatever the
    other threads do: if the thread [t] is in its loop on the bar [l] at
    some point from which on the workers hold no handle to [l], and [t]
    takes its turn again and again, then from some later point on [t]
    has left its loop for good and the bar is gone.  (An awake thread
    drops its reference at its next turn, which drops the bar; asleep, it
    finds the bar gone when it wakes.) *)
Theorem driver_exits (run : nat → Config T Sty) t l i :
  execution run → fair t run →
  drives t l (world (run i)) →
  unreferenced l run i →
  ∃ j, (i ≤ j)%nat
    ∧ ∀ k, (j ≤ k)%nat → exited t (world (run k)) ∧ Arc.peek l (world (run k)) = None.
Proof.
  intros Hexec Hfair Hd Hun. pose proof (drives_on_cell _ _ _ Hd) as Hon.
  assert (Halone : alone t l (world (run i))).
  { by apply alone_init; [apply reachable_inv_aux, execution_reachable|]. }
  destruct (phase_ends run t l Hexec 2 i Hfair Hun Hon Halone (phase_le_2 _ _))
    as (j & Hle & Hout).
  exists j. split; [done|]. intros k Hk.
  destruct (phase_mono run t l Hexec i k Hun Hon Halone ltac:(lia)) as (Honk & Halonek & _).
  destruct (phase_mono run t l Hexec i j Hun Hon Halone Hle) as (Honj & Halonej & _).
  destruct (phase_mono run t l Hexec j k) as (_ & _ & Hlek);
    [intros k' ?; apply Hun; lia|done..|].
  assert (Hex : exited t (world (run k))) by (apply (phase_0_exited t l); [done|lia]).
  split; [done|].
  by apply (exited_dead (run k) t l); [apply reachable_inv_aux, execution_reachable|apply Hun; lia|..].
Qed.

(** C19: Disabling the ticking of a bar, or finishing it, ends the
    tick thread within one iteration of its loop.  In any execution,
    whatever the workers and the other threads do: if the thread [t] is
    in its loop on the bar [l] at a point from which on the bar is
    finished or has the interval 0 whenever it is alive, then after two
    turns of [t] (its next wake-up and the critical section that
    follows) the thread has left its loop for good and holds no
    reference to the bar. *)
Theorem disabled_driver_exits (run : nat → Config T Sty) t l i j1 j2 :
  execution run →
  drives t l (world (run i)) →
  disabled l run i →
  (i ≤ j1)%nat → (j1 < j2)%nat →
  scheduled t run j1 → scheduled t run j2 →
  ∀ k, (j2 < k)%nat → exited t (world (run k)) ∧ (Driver t, l) ∉ owners (run k).
Proof.
  intros Hexec Hd Hdis H1 H2 [now1 Hs1] [now2 Hs2] k Hk.
  pose proof (drives_on_cell _ _ _ Hd) as Hon.
  assert (Hat : ∀ j, (i ≤ j)%nat → ∀ bs, Arc.peek l (world (run j)) = Some bs →
                      stops (state bs) = true) by (intros j Hj bs; by apply Hdis).
  assert (Hafter : ∀ j now, (i ≤ j)%nat → run (S j) = thread_turn t now (run j) →
                     (stage t (world (run (S j))) ≤ pred (stage t (world (run j))))%nat).
  { intros j now Hj ->. apply (turn_stage _ _ l); [|by apply Hat].
    by apply (stage_mono run t l i j). }
  pose proof (Hafter j1 now1 H1 Hs1) as Hj1. pose proof (Hafter j2 now2 ltac:(lia) Hs2) as Hj2.
  destruct (stage_mono run t l i j1 Hexec Hdis Hon H1) as [_ Hle1].
  destruct (stage_mono run t l (S j1) j2) as [_ Hle2];
    [done|intros k' bs ?; apply Hdis; lia|by apply (stage_mono run t l i); [..|lia]|lia|].
  destruct (stage_mono run t l (S j2) k) as [Honk Hlek];
    [done|intros k' bs ?; apply Hdis; lia|by apply (stage_mono run t l i); [..|lia]|lia|].
  pose proof (stage_le_2 t (world (run i))).
  assert (Hex : exited t (world (run k))) by (apply (stage_0_exited t l); [done|lia]).
  split; [done|]. apply exited_holds_nothing; [|done].
  by apply reachable_inv_aux, execution_reachable.
Qed.

End driver_exits.

Lemma demo_run_execution : execution demo_run.
Proof. split; [exact (proj1 (proj2 run_reachable))|]. intros i. apply thread_turn_step. Qed.

Lemma demo_run_unreferenced : unreferenced (arc demo_pb) demo_run 0.
Proof.
  intros k _. induction k as [|k IH]; [by vm_compute; intros [[=]|[]%elem_of_nil]%elem_of_cons|].
  intros Hin. by apply IH, (turn_owners demo_thread (50 * Z.of_nat (S k))).
Qed.

Lemma driver_exits_witness :
  ∃ j, (0 ≤ j)%nat
    ∧ ∀ k, (j ≤ k)%nat →
        exited demo_thread (world (demo_run k))
        ∧ Arc.peek (arc demo_pb) (world (demo_run k)) = None.
Proof.
  apply (driver_exits demo_run demo_thread (arc demo_pb) 0 demo_run_execution).
  - intros i. exists i. split; [done|]. by exists (50 * Z.of_nat (S i)).
  - exists 50. right. by vm_compute.
  - exact demo_run_unreferenced.
Defined.

Lemma run_disabled_reachable : reachable run_disabled.
Proof.
  apply (reachable_step _ _ run_enabled_reachable).
  apply (step_txn demo_pb (TEnableSteadyTick 0) 10 (world run_enabled) _ (Ok tt));
    [apply elem_of_cons; by left|done|done|by vm_compute].
Qed.

Lemma disabled_run_execution : execution disabled_run.
Proof. split; [exact run_disabled_reachable|]. intros i. apply thread_turn_step. Qed.

(** After two turns the run has settled. *)
Lemma disabled_run_settles k : disabled_run (2 + k) = disabled_run 2.
Proof.
  induction k as [|k IH]; [done|]. rewrite Nat.add_succ_r.
  change (thread_turn demo_thread (50 * Z.of_nat (S (2 + k))) (disabled_run (2 + k))
          = disabled_run 2).
  rewrite IH. unfold thread_turn.
  by replace (threads (world (disabled_run 2)) !! demo_thread) with (Some Exited)
    by by vm_compute.
Qed.

Lemma disabled_run_disabled : disabled (arc demo_pb) disabled_run 0.
Proof.
  assert (Hk : ∀ k, k = 0%nat ∨ k = 1%nat ∨ ∃ k', k = (2 + k')%nat).
  { intros [|[|k]]; eauto. }
  intros k bs _. destruct (Hk k) as [->|[->|[k' ->]]]; [| |rewrite disabled_run_settles];
    vm_compute; by intros [= <-].
Qed.

Lemma disabled_driver_exits_witness :
  exited demo_thread (world (disabled_run 2))
  ∧ (Driver demo_thread, arc demo_pb) ∉ owners (disabled_run 2).
Proof.
  refine (disabled_driver_exits disabled_run demo_thread (arc demo_pb) 0 0 1
            disabled_run_execution _ disabled_run_disabled _ _ _ _ 2 _).
  - exists 50. left. by vm_compute.
  - done.
  - lia.
  - by exists (50 * Z.of_nat 1).
  - by exists (50 * Z.of_nat 2).
  - lia.
Defined.
