(* ===== verification/Simulation.v ===== *)
(** * The program simulates the contract

    The refinement of [Contract.v], for whole executions.  The abstract
    machine has a store of abstract bars and four events: a bar is
    created; a method is called on a bar ([apply] of [Contract.v]); the
    tick thread of a bar runs its critical section ([driven]); a bar is
    dropped.  Its effect is a function ([effect], [run]).  The
    abstraction [absw] of a world keeps the record of every live bar and
    forgets the counts, the locks, the targets, the regions and the
    threads.  Each step of [Schedule.v] has a label ([Label], [exec]),
    and [events] computes from the label and the world before the step
    the events that match it: none, one, or a tick and a drop.  The
    theorem: the events of a step take the abstraction of the world
    before it to the abstraction of the world after it, and so every
    reachable configuration is the abstraction of the run of the machine
    on the trace of the steps that led to it. *)

From Stdlib Require Import ZArith String List Lia.
From stdpp Require Import base option list gmap.
From S2P Require Import Prelude TermLike ProgressRecord OutputTarget BarCell Handle Region TickDriver Schedule Contract Liveness.

#[local] Open Scope Z_scope.
#[local] Open Scope bar_scope.

(** ** The abstract machine *)

(** What the critical section of the tick thread promises: at a finished
    bar, or one whose interval is 0, the bar forgets its thread and the
    interval is 0; otherwise the tick counter advances, unless it is 0. *)
Definition driven (b : Bar) : Bar :=
  if finished b || (interval b =? 0)
  then mkBar (position b) (length b) (finished b) (erased b) (message b) (prefix b)
         (ticks b) 0 (started_at b) (policy b) None
  else mkBar (position b) (length b) (finished b) (erased b) (message b) (prefix b)
         (if ticks b =? 0 then ticks b else saturating_add (ticks b) 1) (interval b)
         (started_at b) (policy b) (driver b).

Section machine.
Context `{TermLike T} `{StyleOps Sty}.

(** A bar as it is created. *)
Definition born (len : Z) (now : Instant) : Bar :=
  mkBar 0 len false false EmptyString EmptyString 0 0 now (on_finish (default_bar (Sty := Sty)))
    None.

Inductive Event : Type :=
| ENew (l : loc) (len : Z) (now : Instant)
| ECall (l : loc) (x : Txn T Sty) (now : Instant) (t : tid)
| ETick (l : loc)
| EDrop (l : loc).

#[global] Instance in_range_dec (x : Txn T Sty) : Decision (in_range x).
Proof. destruct x; apply _. Defined.

(** The effect of an event on the store of bars; [None] when the event
    cannot happen: a bar is created at a location that holds none, with a
    [u64] length; a method is called on a bar that is there, with [u64]
    arguments; a tick thread runs on a bar that is there and records a
    thread; a bar that is there is dropped. *)
Definition effect (e : Event) (σ : gmap loc Bar) : option (gmap loc Bar) :=
  match e with
  | ENew l len now =>
      if decide (σ !! l = None ∧ is_u64 len) then Some (<[l := born len now]> σ) else None
  | ECall l x now t =>
      b ← σ !! l;
      if decide (in_range x) then Some (<[l := apply x now t b]> σ) else None
  | ETick l =>
      b ← σ !! l;
      if decide (is_Some (driver b)) then Some (<[l := driven b]> σ) else None
  | EDrop l => _ ← σ !! l; Some (delete l σ)
  end.

Fixpoint run (es : list Event) (σ : gmap loc Bar) : option (gmap loc Bar) :=
  match es with
  | [] => Some σ
  | e :: es => σ' ← effect e σ; run es σ'
  end.

(** The abstraction of a world: the record of every live bar. *)
Definition absw (w : World T Sty) : gmap loc Bar :=
  omap (λ a : ArcInner T Sty, (λ m, abs (state (data m))) <$> value a) (bars w).

(** The counters of an abstract bar are [u64] values. *)
Definition bar_wf (b : Bar) : Prop :=
  is_u64 (position b) ∧ is_u64 (length b) ∧ is_u64 (ticks b) ∧ is_u64 (interval b).

(** ** The steps of the program, labelled *)

(** The operation a step of [Schedule.v] runs. *)
Inductive Label : Type :=
| LNew (len : Z) (target : ProgressDrawTarget T) (now : Instant)
| LTxn (pb : ProgressBar) (x : Txn T Sty) (now : Instant)
| LRegion (target : ProgressDrawTarget T)
| LAdd (mp : MultiProgress) (location : InsertLocation) (pb : ProgressBar) (now : Instant)
| LClone (pb : ProgressBar)
| LDrop (pb : ProgressBar)
| LUpgrade (wpb : WeakProgressBar)
| LWake (t : tid)
| LBody (t : tid) (now : Instant).

Definition exec (a : Label) (w : World T Sty) : World T Sty :=
  match a with
  | LNew len target now => (ProgressBar.with_draw_target len target now w).2
  | LTxn pb x now => (txn pb x now w).2
  | LRegion target => (MultiProgress.with_draw_target target w).2
  | LAdd mp location pb now => (MultiProgress.internalize mp location pb now w).2
  | LClone pb => (ProgressBar.clone pb w).2
  | LDrop pb => (ProgressBar.drop pb w).2
  | LUpgrade wpb => (WeakProgressBar.upgrade wpb w).2
  | LWake t => (ProgressBar.steady_tick_wake t w).2
  | LBody t now => (ProgressBar.steady_tick_body t now w).2
  end.

(** The arguments are [u64] values. *)
Definition allowed (a : Label) : Prop :=
  match a with
  | LNew len _ _ => is_u64 len
  | LTxn _ x _ => in_range x
  | _ => True
  end.

(** The cell is alive, its lock is free and not poisoned. *)
Definition free (l : loc) (w : World T Sty) : bool :=
  match bars w !! l with
  | Some (mkArc _ (Some (mkMutex false false _))) => true
  | _ => false
  end.

(** The cell is alive and has one owner. *)
Definition sole (l : loc) (w : World T Sty) : bool :=
  match bars w !! l with
  | Some (mkArc 1 (Some _)) => true
  | _ => false
  end.

(** A method called on the cell [l]: the call, when the lock is taken;
    [t] is the thread [enable_steady_tick] would start. *)
Definition call (l : loc) (x : Txn T Sty) (now : Instant) (w : World T Sty) : list Event :=
  if free l w then [ECall l x now (fresh (dom (threads w)))] else [].

(** A reference to the cell [l] dropped: the last one drops the bar. *)
Definition release (l : loc) (w : World T Sty) : list Event :=
  if sole l w then [EDrop l] else [].

(** The events of a step in the world [w].  A bar added to a region is a
    call of [set_draw_target]; the second half of an iteration of the
    tick thread is a tick, unless the mutex is poisoned, and the drop of
    the thread's reference; references taken change no bar. *)
Definition events (a : Label) (w : World T Sty) : list Event :=
  match a with
  | LNew len _ now => [ENew (fresh (dom (bars w))) len now]
  | LTxn pb x now => call (arc pb) x now w
  | LAdd mp location pb now =>
      match multis w !! region mp with
      | Some ms =>
          call (arc pb)
            (TSetDrawTarget
               (ProgressDrawTarget.new_remote (region mp) (MultiState.insert location ms).1))
            now w
      | None => []
      end
  | LDrop pb => release (arc pb) w
  | LBody t now =>
      match threads w !! t with
      | Some (Upgraded l _) => (if free l w then [ETick l] else []) ++ release l w
      | _ => []
      end
  | LRegion _ | LClone _ | LUpgrade _ | LWake _ => []
  end.

(** A sequence of steps, and its trace. *)
Fixpoint exec_all (labs : list Label) (w : World T Sty) : World T Sty :=
  match labs with
  | [] => w
  | a :: labs => exec_all labs (exec a w)
  end.

Fixpoint trace (labs : list Label) (w : World T Sty) : list Event :=
  match labs with
  | [] => []
  | a :: labs => events a w ++ trace labs (exec a w)
  end.

End machine.

Arguments absw : simpl never.

(** The run of [Schedule.v]: the bar is created, ticking is enabled, the
    thread wakes up, the worker drops its handle, the thread runs the
    rest of its iteration; and the events that match it. *)
Definition run_labels : list (Label (T := console.Term) (Sty := ProgressFinish)) :=
  [LNew 10 (ProgressDrawTarget.stderr demo_term) 0; LTxn demo_pb (TEnableSteadyTick 50) 0;
   LWake demo_thread; LDrop demo_pb; LBody demo_thread 50].

Definition run_events : list (Event (T := console.Term) (Sty := ProgressFinish)) :=
  [ENew 0%nat 10 0; ECall 0%nat (TEnableSteadyTick 50) 0 0%nat; ETick 0%nat; EDrop 0%nat].

(** ** Lemmas: runs of the machine *)

Section machine_facts.
Context `{TermLike T} `{StyleOps Sty}.
Implicit Types (σ : gmap loc Bar) (es : list (Event (T := T) (Sty := Sty))) (b : Bar).

Lemma run_app es1 es2 σ : run (es1 ++ es2) σ = run es1 σ ≫= run es2.
Proof.
  revert σ. induction es1 as [|e es1 IH]; intros σ; [done|]. cbn.
  destruct (effect e σ) as [σ'|]; [apply IH|done].
Qed.

Lemma run_trans es1 es2 σ1 σ2 σ3 :
  run es1 σ1 = Some σ2 → run es2 σ2 = Some σ3 → run (es1 ++ es2) σ1 = Some σ3.
Proof. intros H1 H2. by rewrite run_app, H1. Qed.

Lemma run_new l len now σ :
  σ !! l = None → is_u64 len →
  run (T := T) (Sty := Sty) [ENew l len now] σ = Some (<[l := born (Sty := Sty) len now]> σ).
Proof. intros Hl Hlen. cbn. by rewrite decide_True. Qed.

Lemma run_call l (x : Txn T Sty) now t σ b :
  σ !! l = Some b → in_range x → run [ECall l x now t] σ = Some (<[l := apply x now t b]> σ).
Proof. intros Hl Hx. cbn. rewrite Hl. cbn. by rewrite decide_True. Qed.

Lemma run_tick l σ b :
  σ !! l = Some b → is_Some (driver b) → run (T := T) (Sty := Sty) [ETick l] σ = Some (<[l := driven b]> σ).
Proof. intros Hl Hd. cbn. rewrite Hl. cbn. by rewrite decide_True. Qed.

Lemma run_drop l σ b : σ !! l = Some b → run (T := T) (Sty := Sty) [EDrop l] σ = Some (delete l σ).
Proof. intros Hl. cbn. by rewrite Hl. Qed.

(** The machine keeps the counters in range. *)
Lemma apply_wf (x : Txn T Sty) now t b : in_range x → bar_wf b → bar_wf (apply x now t b).
Proof.
  unfold bar_wf. intros Hx (Hp & Hl & Ht & Hi).
  destruct x; cbn [apply in_range] in *; unfold Bar.tick, Bar.complete, Bar.with_position;
    repeat case_match; cbn; repeat split; u64_lia.
Qed.

Lemma driven_wf b : bar_wf b → bar_wf (driven b).
Proof.
  unfold bar_wf, driven. intros (Hp & Hl & Ht & Hi).
  repeat case_match; cbn; repeat split; u64_lia.
Qed.

Lemma effect_wf (e : Event (T := T) (Sty := Sty)) σ σ' :
  effect e σ = Some σ' → map_Forall (λ _, bar_wf) σ → map_Forall (λ _, bar_wf) σ'.
Proof.
  intros He Hσ. destruct e as [l len now|l x now t|l|l]; cbn in He.
  - case_decide as Hd; [|done]. injection He as <-. apply map_Forall_insert_2; [|done].
    unfold bar_wf, born. cbn. destruct Hd as [_ ?]. repeat split; u64_lia.
  - destruct (σ !! l) as [b|] eqn:Hl; [|done]. cbn in He. case_decide; [|done].
    injection He as <-. apply map_Forall_insert_2; [|done]. apply apply_wf; [done|].
    by apply (Hσ l).
  - destruct (σ !! l) as [b|] eqn:Hl; [|done]. cbn in He. case_decide; [|done].
    injection He as <-. apply map_Forall_insert_2; [|done]. apply driven_wf. by apply (Hσ l).
  - destruct (σ !! l) as [b|] eqn:Hl; [|done]. injection He as <-.
    by apply map_Forall_delete.
Qed.

Lemma run_wf es σ σ' :
  run es σ = Some σ' → map_Forall (λ _, bar_wf) σ → map_Forall (λ _, bar_wf) σ'.
Proof.
  revert σ. induction es as [|e es IH]; intros σ; cbn; [by intros [= <-]|].
  destruct (effect e σ) as [σ1|] eqn:He; [|done]. cbn. intros Hr Hσ.
  by apply (IH σ1), (effect_wf e σ).
Qed.

Lemma exec_all_snoc (labs : list (Label (T := T) (Sty := Sty))) a w :
  exec_all (labs ++ [a]) w = exec a (exec_all labs w).
Proof. revert w. induction labs as [|a0 labs IH]; intros w; [done|apply IH]. Qed.

Lemma trace_snoc (labs : list (Label (T := T) (Sty := Sty))) a w :
  trace (labs ++ [a]) w = trace labs w ++ events a (exec_all labs w).
Proof.
  revert w. induction labs as [|a0 labs IH]; intros w; cbn; [by rewrite app_nil_r|].
  by rewrite IH, app_assoc.
Qed.

End machine_facts.

(** ** Lemmas: the abstraction of a world *)

Section abstraction_facts.
Context `{TermLike T} `{StyleOps Sty}.
Implicit Types (w : World T Sty) (l : loc) (bs : BarState T Sty) (m : Mutex T Sty).

Lemma absw_lookup l w : absw w !! l = (λ bs, abs (state bs)) <$> Arc.peek l w.
Proof.
  unfold absw, Arc.peek, Arc.mutex_of. rewrite lookup_omap.
  destruct (bars w !! l) as [[n [m|]]|]; done.
Qed.

Lemma absw_bars w w' : bars w' = bars w → absw w' = absw w.
Proof. unfold absw. by intros ->. Qed.

(** The guarded value of a cell is replaced. *)
Lemma absw_insert l n m w w' :
  bars w' = <[l := mkArc n (Some m)]> (bars w) →
  absw w' = <[l := abs (state (data m))]> (absw w).
Proof. intros Hb. unfold absw. rewrite Hb. by apply omap_insert_Some. Qed.

(** A cell loses its value. *)
Lemma absw_dead l n w w' :
  bars w' = <[l := mkArc n None]> (bars w) → absw w' = delete l (absw w).
Proof. intros Hb. unfold absw. rewrite Hb. by apply omap_insert_None. Qed.

(** The references of a cell are counted. *)
Lemma absw_recount l n n' m w w' :
  bars w !! l = Some (mkArc n (Some m)) →
  bars w' = <[l := mkArc n' (Some m)]> (bars w) →
  absw w' = absw w.
Proof.
  intros Hl Hb. rewrite (absw_insert l n' m w w' Hb). apply insert_id.
  unfold absw. rewrite lookup_omap, Hl. done.
Qed.

(** The critical section of the tick thread keeps its promise. *)
Lemma abs_stopped (s : ProgressState Sty) : stops s = true → abs (stopped s) = driven (abs s).
Proof. unfold stops, driven, abs, stopped. cbn. by intros ->. Qed.

Lemma abs_ticked (s : ProgressState Sty) : stops s = false → abs (ticked s) = driven (abs s).
Proof.
  unfold stops, driven, abs, ticked. cbn. intros ->.
  by destruct (tick s =? 0).
Qed.

End abstraction_facts.

(** ** Lemmas: each step is matched by its events *)

Section simulation_facts.
Context `{TermLike T} `{StyleOps Sty}.
Implicit Types (c : Config T Sty) (w : World T Sty) (l : loc) (bs : BarState T Sty)
  (es : list (Event (T := T) (Sty := Sty))).

(** A live cell, as the heap holds it. *)
Lemma peek_cell l bs w :
  Arc.peek l w = Some bs → ∃ n lk p, bars w !! l = Some (mkArc n (Some (mkMutex lk p bs))).
Proof.
  unfold Arc.peek, Arc.mutex_of.
  destruct (bars w !! l) as [[n [[lk p bs0]|]]|]; [|done..]. intros [= <-]. by exists n, lk, p.
Qed.

Lemma free_idle l n bs w : idle_at l n bs w → free l w = true.
Proof. unfold idle_at, free. by intros ->. Qed.

Lemma free_refused l w e : Arc.lock l w = (Err e, w) → free l w = false.
Proof.
  unfold Arc.lock, Arc.mutex_of, free.
  by destruct (bars w !! l) as [[n [[[] [] bs]|]]|].
Qed.

Lemma absw_idle l n bs w : idle_at l n bs w → absw w !! l = Some (abs (state bs)).
Proof. intros Hl. unfold absw. by rewrite lookup_omap, Hl. Qed.

(** A transaction on an idle cell rewrites the cell, and its record as
    the contract says. *)
Lemma txn_cell pb (x : Txn T Sty) now n bs w r w' :
  idle_at (arc pb) n bs w → in_range x → txn pb x now w = (r, w') →
  ∃ p' bs', bars w' = <[arc pb := mkArc n (Some (mkMutex false p' bs'))]> (bars w)
    ∧ abs (state bs') = apply x now (fresh (dom (threads w))) (abs (state bs)).
Proof.
  intros Hl Hx Hrun.
  destruct (txn_record pb x now n bs w Hl) as (r0 & p' & bs' & w0 & Hrun0 & Hl' & Hs).
  rewrite Hrun in Hrun0. injection Hrun0 as <- <-. exists p', bs'.
  split; [|by rewrite Hs, abs_mutation].
  destruct (txn_effect pb x now w r w' Hx Hrun) as [->|(n0 & bs0 & p0 & bs1 & _ & Hb & _)].
  - by rewrite insert_id.
  - rewrite Hb, lookup_insert_eq in Hl'. by simplify_eq.
Qed.

(** A transaction, whatever the state of the cell: a call, or nothing
    when the lock could not be taken. *)
Lemma txn_simulated pb (x : Txn T Sty) now w w0 :
  in_range x → bars w0 = bars w → threads w0 = threads w →
  run (call (arc pb) x now w) (absw w) = Some (absw (txn pb x now w0).2).
Proof.
  intros Hx Hbars Hthreads. destruct (txn pb x now w0) as [r w'] eqn:Hrun. unfold call.
  rewrite <- (absw_bars w w0 Hbars), <- Hthreads.
  replace (free (arc pb) w) with (free (arc pb) w0) by (unfold free; by rewrite Hbars).
  destruct (lock_cases (arc pb) w0) as [(n & bs & Hl)|[e Hlock]].
  - destruct (txn_cell pb x now n bs w0 r w' Hl Hx Hrun) as (p' & bs' & Hb & Habs).
    rewrite (free_idle _ _ _ _ Hl), (run_call _ _ _ _ _ _ (absw_idle _ _ _ _ Hl) Hx).
    by rewrite <- Habs, (absw_insert _ _ _ _ _ Hb).
  - rewrite (txn_refused _ _ _ _ _ Hlock) in Hrun. injection Hrun as _ <-.
    by rewrite (free_refused _ _ _ Hlock).
Qed.

(** A bar is added to a region: a call of [set_draw_target], in the
    world where the slot is taken. *)
Lemma add_simulated mp location pb now w :
  run (events (LAdd mp location pb now) w) (absw w)
  = Some (absw (MultiProgress.internalize mp location pb now w).2).
Proof.
  unfold MultiProgress.internalize. cbn [events].
  destruct (multis w !! region mp) as [ms|]; [|done].
  destruct (MultiState.insert location ms) as [idx ms'] eqn:Hins. cbn [fst].
  set (w0 := set_multis _ w). unfold bind.
  rewrite (txn_simulated pb (TSetDrawTarget _) now w w0) by done. cbn [txn].
  by destruct (ProgressBar.set_draw_target pb _ now w0) as [[[]|e] w1].
Qed.

(** A reference is taken, by a handle, a weak handle or a tick thread,
    or a region is created: nothing happens to the bars. *)
Lemma arc_upgrade_simulated l w : absw (Arc.upgrade l w).2 = absw w.
Proof.
  unfold Arc.upgrade. destruct (bars w !! l) as [[[|n] [m|]]|] eqn:Hl; try done.
  by apply (absw_recount l (S n) (S (S n)) m).
Qed.

Lemma arc_clone_simulated l w : absw (Arc.clone l w).2 = absw w.
Proof.
  unfold Arc.clone. destruct (bars w !! l) as [[[|n] [m|]]|] eqn:Hl; try done.
  by apply (absw_recount l (S n) (S (S n)) m).
Qed.

Lemma clone_simulated pb w : absw (ProgressBar.clone pb w).2 = absw w.
Proof.
  unfold ProgressBar.clone, bind. pose proof (arc_clone_simulated (arc pb) w) as Hc.
  by destruct (Arc.clone (arc pb) w) as [[[]|e] w1].
Qed.

Lemma upgrade_simulated wpb w : absw (WeakProgressBar.upgrade wpb w).2 = absw w.
Proof.
  unfold WeakProgressBar.upgrade. destruct (weak wpb) as [l|]; [|done].
  unfold bind. pose proof (arc_upgrade_simulated l w) as Hu.
  by destruct (Arc.upgrade l w) as [[[]|e] w1].
Qed.

Lemma wake_simulated t w : absw (ProgressBar.steady_tick_wake t w).2 = absw w.
Proof.
  unfold ProgressBar.steady_tick_wake.
  destruct (threads w !! t) as [[l ms| |]|]; [|done..]. unfold bind.
  pose proof (arc_upgrade_simulated l w) as Hu.
  by destruct (Arc.upgrade l w) as [[[]|e] w1].
Qed.

(** The cell [l], of [S n] owners, after the drop of one of them: the
    last one takes the bar with it.  [σ] is the store before the drop:
    the store of [w] with the record of [m']. *)
Lemma released_simulated l n m m' w w' :
  bars w !! l = Some (mkArc (S n) (Some m)) →
  bars w' = <[l := released n m']> (bars w) →
  run (release l w) (<[l := abs (state (data m'))]> (absw w)) = Some (absw w').
Proof.
  intros Hl Hb. unfold release, sole. rewrite Hl.
  destruct n as [|n]; cbn [released] in Hb.
  - erewrite run_drop by apply lookup_insert_eq.
    by rewrite (absw_dead _ _ _ _ Hb), delete_insert_eq.
  - cbn [run]. by rewrite (absw_insert _ _ _ _ _ Hb).
Qed.

(** A reference is dropped by a handle. *)
Lemma drop_simulated l w : run (release l w) (absw w) = Some (absw (Arc.drop l w).2).
Proof.
  destruct (bars w !! l) as [[[|n] [m|]]|] eqn:Hl;
    try (by unfold release, sole, Arc.drop; rewrite Hl; try destruct n).
  rewrite <- (insert_id (absw w) l (abs (state (data m)))) at 1
    by (unfold absw; by rewrite lookup_omap, Hl).
  apply (released_simulated l n m m w); [done|].
  unfold Arc.drop. rewrite Hl. by destruct n.
Qed.

(** The second half of an iteration of the tick thread: the critical
    section is a tick of the machine, then the reference is dropped.  On
    a poisoned cell the thread panics before its critical section. *)
Lemma body_simulated c t now :
  inv c →
  run (events (LBody t now) (world c)) (absw (world c))
  = Some (absw (ProgressBar.steady_tick_body t now (world c)).2).
Proof.
  intros Hinv. destruct c as [w os]. cbn [world events] in *.
  destruct (threads w !! t) as [[l ms|l ms|]|] eqn:Ht;
    try (rewrite body_not_awake; [done|unfold awake; congruence]).
  destruct (awake_alive _ t l ms Hinv Ht) as [bs Hp]. cbn [world] in Hp.
  pose proof (inv_single _ Hinv t l bs (ex_intro _ ms (or_intror Ht)) Hp) as Hthread.
  destruct (peek_cell l bs w Hp) as (k & lk & p & Hl).
  destruct (inv_cells _ Hinv _ _ Hl) as (Hk & Hlk & _). cbn in Hk, Hlk.
  subst lk. destruct k as [|n]; [lia|]. unfold free. rewrite Hl.
  assert (absw w !! l = Some (abs (state bs))) as Habs by (by rewrite absw_lookup, Hp).
  destruct p.
  - cbn [app]. rewrite (body_poisoned t l ms n bs w now Ht Hl).
    rewrite <- (insert_id (absw w) l (abs (state bs)) Habs) at 1.
    by eapply (released_simulated l n _ (mkMutex false true bs)).
  - eapply run_trans; [apply (run_tick l _ _ Habs); by cbn; rewrite Hthread|].
    destruct (stops (state bs)) eqn:Hs.
    + rewrite (body_idle t l ms n bs w now _ _ _ Ht Hl (steady_tick_locked_stop now bs _ Hs)).
      rewrite <- (abs_stopped (state bs) Hs).
      by eapply (released_simulated l n _
                   (mkMutex false false (BarState.set_state (stopped (state bs)) bs))).
    + destruct (steady_tick_locked_go now bs (multis w) Hs) as (bs' & mh' & Hb & Hst & _).
      rewrite (body_idle t l ms n bs w now _ _ _ Ht Hl Hb).
      rewrite <- (abs_ticked (state bs) Hs), <- Hst.
      by eapply (released_simulated l n _ (mkMutex false false bs')).
Qed.

(** Every step runs an operation, on arguments in range. *)
Lemma step_labelled c c' : step c c' → ∃ a, allowed a ∧ world c' = exec a (world c).
Proof.
  intros Hstep. destruct Hstep as [len target now w os pb w' Hlen _ Hrun
    |pb x now w os r w' _ Hx _ Hrun|target w os mp w' Hrun|mp location pb now w os r w' _ Hrun
    |pb w os pb' w' _ Hrun|pb w os r w' _ Hrun|wpb w os o w' Hrun|t w os w' Hrun
    |t now w os w' Hrun];
    [exists (LNew len target now)|exists (LTxn pb x now)|exists (LRegion target)
    |exists (LAdd mp location pb now)|exists (LClone pb)|exists (LDrop pb)|exists (LUpgrade wpb)
    |exists (LWake t)|exists (LBody t now)];
    (split; [done|cbn [world exec]; by rewrite Hrun]).
Qed.

(** The events of a step take the abstraction of the world before it to
    the abstraction of the world after it. *)
Lemma exec_simulated c (a : Label (T := T) (Sty := Sty)) :
  inv c → allowed a →
  run (events a (world c)) (absw (world c)) = Some (absw (exec a (world c))).
Proof.
  intros Hinv Ha. destruct a as [len target now|pb x now|target|mp location pb now|pb|pb|wpb|t|t now];
    cbn [exec allowed] in *; [|by apply txn_simulated|done|apply add_simulated
    |cbn; by rewrite clone_simulated|apply drop_simulated|cbn; by rewrite upgrade_simulated
    |cbn; by rewrite wake_simulated|by apply body_simulated].
  rewrite with_draw_target_eq. cbn [events snd].
  rewrite run_new by (done || by rewrite absw_lookup; unfold Arc.peek, Arc.mutex_of;
    rewrite fresh_cell_None).
  f_equal. symmetry.
  by apply (absw_insert _ 1%nat
              (mkMutex false false (mkBarState target (ProgressState.new len now)))).
Qed.

End simulation_facts.

(** ** Theorems: the simulation *)

Section simulation.
Context `{TermLike T} `{StyleOps Sty}.
Implicit Types (c : Config T Sty) (w : World T Sty) (l : loc).

(** C11: The program refines the abstract machine of the
    contract.  Every reachable configuration, whatever the interleaving
    of the workers and the tick threads that led to it, is the result of a
    sequence of operations of the program on arguments in range, and the
    abstraction of its world (the records of the bars that are alive) is
    what the machine computes from the empty store on the trace of that
    sequence: a creation for each bar created, a call for each method
    that took the lock, a tick for each critical section of a tick
    thread, a drop for each last reference dropped, in that order, and
    nothing else.  Hence what every run of the machine keeps, here the
    [u64] range of the counters, holds of every live bar. *)
Theorem reachable_simulated c :
  reachable c →
  (∃ labs, Forall allowed labs ∧ world c = exec_all labs empty_world
     ∧ run (trace labs empty_world) ∅ = Some (absw (world c)))
  ∧ ∀ l bs, Arc.peek l (world c) = Some bs → bar_wf (abs (state bs)).
Proof.
  intros Hr.
  assert (Hes : ∃ labs, Forall allowed labs ∧ world c = exec_all labs empty_world
     ∧ run (trace labs empty_world) ∅ = Some (absw (world c))).
  { induction Hr as [|c c' Hr (labs & Hlabs & Hw & Hrun) Hstep].
    - by exists [].
    - destruct (step_labelled c c' Hstep) as (a & Ha & Hw').
      exists (labs ++ [a]). rewrite exec_all_snoc, trace_snoc, <- Hw, Hw'.
      split; [by apply Forall_app_2; [|apply Forall_singleton]|]. split; [done|].
      eapply run_trans; [done|]. by apply exec_simulated; [apply reachable_inv_aux|]. }
  split; [done|]. destruct Hes as (labs & _ & _ & Hes). intros l bs Hp.
  apply (run_wf _ ∅ _ Hes (map_Forall_empty _) l). by rewrite absw_lookup, Hp.
Qed.

End simulation.

Lemma reachable_simulated_witness :
  (∃ labs, Forall allowed labs ∧ world run_ended = exec_all labs empty_world
     ∧ run (trace labs empty_world) ∅ = Some (absw (world run_ended)))
  ∧ ∀ l bs, Arc.peek l (world run_ended) = Some bs → bar_wf (abs (state bs)).
Proof. exact (reachable_simulated run_ended (proj2 (proj2 run_reachable))). Defined.

(** The run of [Schedule.v] and its trace. *)
Lemma run_labels_ended :
  exec_all run_labels empty_world = world run_ended
  ∧ trace run_labels empty_world = run_events
  ∧ run run_events ∅ = Some (absw (world run_ended)).
Proof. by vm_compute. Qed.
